(** * The type table of Yices: hash consing, cardinalities, sup/inf, GC

    A shallow embedding of [src/types.c].  The table is a record of
    parallel arrays indexed by type id; every function of the C file that
    the properties below talk about is transcribed as a function on that
    record, in the order of the C text.

    Conventions of the embedding
    - C integers are [Z]; an operation that can leave the range of its C
      type is wrapped explicitly ([wrap8], [wrap32], [wrap64]).
    - The arrays [kind], [desc], [card], [flags], [name] are total maps
      from index to content; only the indices below [size] exist in C and
      only those below [nelems] have been initialised.
    - [out_of_memory()] aborts the process: operations return a [result].
    - The two recursive procedures whose recursion is not structural
      ([super_type]/[inf_type] and the mark pass of the collector) take a
      recursion bound; the theorems show that a bound exists for which
      they return.
    - Storage management ([safe_malloc], [safe_free]) and the reference
      counts of name strings are not part of the model. *)

From Stdlib Require Import ZArith Lia.
From stdpp Require Import base tactics option list functions gmap strings.

Local Open Scope Z_scope.

(** ** Results *)

Inductive result (A : Type) : Type :=
| Ok (a : A)
| OutOfMemory
| OutOfFuel.
Arguments Ok {A} a.
Arguments OutOfMemory {A}.
Arguments OutOfFuel {A}.

#[global] Instance result_ret : MRet result := λ A, @Ok A.
#[global] Instance result_bind : MBind result := λ A B f m,
  match m with
  | Ok a => f a
  | OutOfMemory => OutOfMemory
  | OutOfFuel => OutOfFuel
  end.

(** ** Machine integers *)

Definition UINT32_MAX : Z := 4294967295.
Definition wrap8 (x : Z) : Z := x mod 2 ^ 8.
Definition wrap32 (x : Z) : Z := x mod 2 ^ 32.
Definition wrap64 (x : Z) : Z := x mod 2 ^ 64.

(** ** Type identifiers and kinds *)

Definition NULL_TYPE : Z := -1.
Definition UNKNOWN_TYPE : Z := -2.
Definition bool_id : Z := 0.
Definition int_id : Z := 1.
Definition real_id : Z := 2.

Inductive type_kind : Type :=
| UNUSED_TYPE
| BOOL_TYPE
| INT_TYPE
| REAL_TYPE
| BITVECTOR_TYPE
| SCALAR_TYPE
| UNINTERPRETED_TYPE
| TUPLE_TYPE
| FUNCTION_TYPE.

#[global] Instance type_kind_eq_dec : EqDecision type_kind.
Proof. solve_decision. Defined.

(** The union [type_desc_t]: an integer (bitvector width, scalar size), a
    pointer to a [tuple_type_t] or a [function_type_t], the null pointer,
    or the link [next] of the free list.  The model keeps the variant that
    was last written. *)
Inductive type_desc : Type :=
| desc_next (next : Z)
| desc_integer (integer : Z)
| desc_null
| desc_tuple (elem : list Z)
| desc_function (range : Z) (domain : list Z).

#[global] Instance type_desc_eq_dec : EqDecision type_desc.
Proof. solve_decision. Defined.

(** ** Flag bits

    Modelled from the spec: [types.h] is not among the sources.  The spec
    (section 3) gives a flag byte with five independent bits FINITE, UNIT,
    SMALL (the exact-cardinality bit), MAXIMAL and MINIMAL, and the
    canonical combinations UNIT = all five, SMALL = all but UNIT,
    LARGE = FINITE with MAXIMAL and MINIMAL.  In [types.c] the constructors
    of [int], [real] and the uninterpreted types add the MAXIMAL and MINIMAL
    masks to [INFINITE_TYPE_FLAGS] by bitwise or, and the assertions compare
    [flag & CARD_FLAGS_MASK] with it: [INFINITE_TYPE_FLAGS] carries no bit. *)
Definition TYPE_IS_FINITE_MASK : Z := 1.
Definition TYPE_IS_UNIT_MASK : Z := 2.
Definition CARD_IS_EXACT_MASK : Z := 4.
Definition TYPE_IS_MAXIMAL_MASK : Z := 8.
Definition TYPE_IS_MINIMAL_MASK : Z := 16.
Definition CARD_FLAGS_MASK : Z := 7.
Definition MINMAX_FLAGS_MASK : Z := 24.
Definition UNIT_TYPE_FLAGS : Z := 31.
Definition SMALL_TYPE_FLAGS : Z := 29.
Definition LARGE_TYPE_FLAGS : Z := 25.
Definition INFINITE_TYPE_FLAGS : Z := 0.

(** ** The table *)

Record type_table : Type := mk_table {
  kind : Z → type_kind;
  desc : Z → type_desc;
  card : Z → Z;
  flags : Z → Z;
  name : Z → option string;
  gc_mark : Z → bool;
  size : Z;
  nelems : Z;
  free_idx : Z;
  htbl : list Z;
  stbl : list (string * Z);
  sup_tbl : option (gmap (Z * Z) Z);
  inf_tbl : option (gmap (Z * Z) Z)
}.

(** Assignments to one field or one array cell. *)
Definition set_kind (t : type_table) (i : Z) (v : type_kind) : type_table :=
  mk_table (<[i:=v]> (kind t)) (desc t) (card t) (flags t) (name t) (gc_mark t)
    (size t) (nelems t) (free_idx t) (htbl t) (stbl t) (sup_tbl t) (inf_tbl t).
Definition set_desc (t : type_table) (i : Z) (v : type_desc) : type_table :=
  mk_table (kind t) (<[i:=v]> (desc t)) (card t) (flags t) (name t) (gc_mark t)
    (size t) (nelems t) (free_idx t) (htbl t) (stbl t) (sup_tbl t) (inf_tbl t).
Definition set_card (t : type_table) (i : Z) (v : Z) : type_table :=
  mk_table (kind t) (desc t) (<[i:=v]> (card t)) (flags t) (name t) (gc_mark t)
    (size t) (nelems t) (free_idx t) (htbl t) (stbl t) (sup_tbl t) (inf_tbl t).
Definition set_flags (t : type_table) (i : Z) (v : Z) : type_table :=
  mk_table (kind t) (desc t) (card t) (<[i:=v]> (flags t)) (name t) (gc_mark t)
    (size t) (nelems t) (free_idx t) (htbl t) (stbl t) (sup_tbl t) (inf_tbl t).
Definition set_name (t : type_table) (i : Z) (v : option string) : type_table :=
  mk_table (kind t) (desc t) (card t) (flags t) (<[i:=v]> (name t)) (gc_mark t)
    (size t) (nelems t) (free_idx t) (htbl t) (stbl t) (sup_tbl t) (inf_tbl t).
Definition set_gc_mark (t : type_table) (i : Z) (v : bool) : type_table :=
  mk_table (kind t) (desc t) (card t) (flags t) (name t) (<[i:=v]> (gc_mark t))
    (size t) (nelems t) (free_idx t) (htbl t) (stbl t) (sup_tbl t) (inf_tbl t).
Definition set_size (t : type_table) (v : Z) : type_table :=
  mk_table (kind t) (desc t) (card t) (flags t) (name t) (gc_mark t)
    v (nelems t) (free_idx t) (htbl t) (stbl t) (sup_tbl t) (inf_tbl t).
Definition set_nelems (t : type_table) (v : Z) : type_table :=
  mk_table (kind t) (desc t) (card t) (flags t) (name t) (gc_mark t)
    (size t) v (free_idx t) (htbl t) (stbl t) (sup_tbl t) (inf_tbl t).
Definition set_free_idx (t : type_table) (v : Z) : type_table :=
  mk_table (kind t) (desc t) (card t) (flags t) (name t) (gc_mark t)
    (size t) (nelems t) v (htbl t) (stbl t) (sup_tbl t) (inf_tbl t).
Definition set_htbl (t : type_table) (v : list Z) : type_table :=
  mk_table (kind t) (desc t) (card t) (flags t) (name t) (gc_mark t)
    (size t) (nelems t) (free_idx t) v (stbl t) (sup_tbl t) (inf_tbl t).
Definition set_stbl (t : type_table) (v : list (string * Z)) : type_table :=
  mk_table (kind t) (desc t) (card t) (flags t) (name t) (gc_mark t)
    (size t) (nelems t) (free_idx t) (htbl t) v (sup_tbl t) (inf_tbl t).
Definition set_sup_tbl (t : type_table) (v : option (gmap (Z * Z) Z)) : type_table :=
  mk_table (kind t) (desc t) (card t) (flags t) (name t) (gc_mark t)
    (size t) (nelems t) (free_idx t) (htbl t) (stbl t) v (inf_tbl t).
Definition set_inf_tbl (t : type_table) (v : option (gmap (Z * Z) Z)) : type_table :=
  mk_table (kind t) (desc t) (card t) (flags t) (name t) (gc_mark t)
    (size t) (nelems t) (free_idx t) (htbl t) (stbl t) (sup_tbl t) v.

(** ** Accessors of [types.h]

    Modelled from the spec: the inline accessors of [types.h] are not among
    the sources.  They read one array cell ([type_card], [type_flags]), test
    one flag bit, or return the descriptor of a tuple or function type.
    [good_type] is the liveness test of the spec (invariant 1): the id is
    in range and its kind is not [UNUSED_TYPE].  The collector's mark is one
    bit per id, kept here in its own array [gc_mark]. *)
Definition type_card (t : type_table) (i : Z) : Z := card t i.
Definition type_flags (t : type_table) (i : Z) : Z := flags t i.

Definition good_type (t : type_table) (i : Z) : bool :=
  (0 <=? i) && (i <? nelems t) && negb (bool_decide (kind t i = UNUSED_TYPE)).

Definition is_finite_type (t : type_table) (i : Z) : bool :=
  negb (Z.land (flags t i) TYPE_IS_FINITE_MASK =? 0).
Definition is_unit_type (t : type_table) (i : Z) : bool :=
  negb (Z.land (flags t i) TYPE_IS_UNIT_MASK =? 0).
Definition is_maxtype (t : type_table) (i : Z) : bool :=
  negb (Z.land (flags t i) TYPE_IS_MAXIMAL_MASK =? 0).
Definition is_mintype (t : type_table) (i : Z) : bool :=
  negb (Z.land (flags t i) TYPE_IS_MINIMAL_MASK =? 0).
Definition type_has_exact_card (t : type_table) (i : Z) : bool :=
  negb (Z.land (flags t i) CARD_IS_EXACT_MASK =? 0).

Definition tuple_desc (d : type_desc) : list Z :=
  match d with desc_tuple e => e | _ => [] end.
Definition function_desc (d : type_desc) : Z * list Z :=
  match d with desc_function r e => (r, e) | _ => (NULL_TYPE, []) end.
Definition tuple_type_desc (t : type_table) (i : Z) : list Z :=
  tuple_desc (desc t i).
Definition function_type_desc (t : type_table) (i : Z) : Z * list Z :=
  function_desc (desc t i).
Definition tuple_type_arity (t : type_table) (i : Z) : Z :=
  Z.of_nat (length (tuple_type_desc t i)).
Definition function_type_arity (t : type_table) (i : Z) : Z :=
  Z.of_nat (length (function_type_desc t i).2).
Definition function_type_range (t : type_table) (i : Z) : Z :=
  (function_type_desc t i).1.

Definition type_is_marked (t : type_table) (i : Z) : bool := gc_mark t i.
Definition type_table_set_gc_mark (t : type_table) (i : Z) : type_table :=
  set_gc_mark t i true.
Definition type_table_clr_gc_mark (t : type_table) (i : Z) : type_table :=
  set_gc_mark t i false.

(** The link stored in a free slot. *)
Definition desc_next_of (d : type_desc) : Z :=
  match d with desc_next n => n | _ => NULL_TYPE end.

(** ** The table of the index allocator ([utils/indexed_table.c])

    Modelled from the spec: [indexed_table.h] is not among the sources.
    Section 4.A describes a table of fixed-size slots with a free list
    threaded through the unused slots; the fields below are those that
    [indexed_table.c] reads and writes.  [uindex_t] is taken to be 32-bit
    unsigned and [index_t] 32-bit signed, like the ids of section 3.
    [it_next t i] is the field [next] of the slot [i]; [it_client] stands
    for what the client keeps in and beside the slots, which is all that the
    callback [vtbl->extend] is given to change. *)
Record indexed_table (C : Type) : Type := mk_indexed_table {
  it_next : Z → Z;
  it_client : C;
  it_size : Z;
  it_nelems : Z;
  it_free_idx : Z;
  it_live_elems : Z
}.
Arguments mk_indexed_table {C}.
Arguments it_next {C}.
Arguments it_client {C}.
Arguments it_size {C}.
Arguments it_nelems {C}.
Arguments it_free_idx {C}.
Arguments it_live_elems {C}.

Section TypeTable.

(** The ceiling of [yices_limits.h], which is not among the sources.  The
    comment of [type_table_extend] relies on it being small enough for
    [1.5 * (size + 1)] to fit in 32 bits. *)
Variable YICES_MAX_TYPES : Z.

(** ** Allocation *)

Definition type_table_init (n : Z) : result type_table :=
  if YICES_MAX_TYPES <=? n then OutOfMemory
  else Ok (mk_table (λ _, UNUSED_TYPE) (λ _, desc_null) (λ _, 0) (λ _, 0)
             (λ _, None) (λ _, false) n 0 NULL_TYPE [] [] None None).

Definition type_table_extend (t : type_table) : result type_table :=
  let n := wrap32 (size t + 1) in
  let n := wrap32 (n + Z.shiftr n 1) in
  if YICES_MAX_TYPES <=? n then OutOfMemory
  else Ok (set_size t n).

Definition allocate_type_id (t : type_table) : result (type_table * Z) :=
  let i := free_idx t in
  if 0 <=? i then
    let t := set_free_idx t (desc_next_of (desc t i)) in
    Ok (set_name t i None, i)
  else
    let i := nelems t in
    let t := set_nelems t (wrap32 (nelems t + 1)) in
    t ← (if size t <=? i then type_table_extend t else Ok t);
    Ok (set_name t i None, i).

Definition erase_type (t : type_table) (i : Z) : type_table :=
  match kind t i with
  | UNUSED_TYPE | BOOL_TYPE | INT_TYPE | REAL_TYPE => t
  | _ =>
    let t := match name t i with
             | Some _ => set_name t i None
             | None => t
             end in
    let t := set_kind t i UNUSED_TYPE in
    let t := set_desc t i (desc_next (free_idx t)) in
    set_free_idx t i
  end.

(** ** Cardinalities and flags *)

Definition type_flags_conjunct (t : type_table) (a : list Z) : Z :=
  fold_left (λ flg x, Z.land flg (type_flags t x)) a UNIT_TYPE_FLAGS.

(** The loop of [type_card_product], entered with the running product. *)
Fixpoint type_card_product_from (t : type_table) (prod : Z) (a : list Z) : Z :=
  match a with
  | [] => prod
  | x :: a' =>
    let prod := wrap64 (prod * type_card t x) in
    if UINT32_MAX <? prod then prod else type_card_product_from t prod a'
  end.

Definition type_card_product (t : type_table) (a : list Z) : Z :=
  type_card_product_from t 1 a.

(** The loop [while (dom > 1)] of [fun_type_card]; it runs at most [dom]
    times, which bounds the recursion. *)
Fixpoint fun_type_card_loop (n : nat) (power range dom : Z) : Z :=
  match n with
  | O => power
  | S n' =>
    if 1 <? dom then
      let power := wrap64 (power * range) in
      if UINT32_MAX <? power then power
      else fun_type_card_loop n' power range (dom - 1)
    else power
  end.

(** [power = UINT32_MAX+1]: the macro [UINT32_MAX] has type [unsigned int]
    (C99 7.18.2.1, 7.18.2 par. 2) and the constant [1] is converted to it, so
    the sum is formed in 32 bits before it is widened for the assignment to
    the 64-bit variable [power]. *)
Definition fun_type_card (t : type_table) (e : list Z) (r : Z) : Z :=
  let dom := type_card_product t e in
  if 32 <=? dom then wrap32 (UINT32_MAX + 1)
  else
    let range := type_card t r in
    fun_type_card_loop (Z.to_nat dom) range range dom.

(** ** Type creation *)

Definition add_primitive_types (t : type_table) : result type_table :=
  '(t, i) ← allocate_type_id t;
  let t := set_kind t i BOOL_TYPE in
  let t := set_desc t i desc_null in
  let t := set_card t i 2 in
  let t := set_flags t i SMALL_TYPE_FLAGS in
  '(t, i) ← allocate_type_id t;
  let t := set_kind t i INT_TYPE in
  let t := set_desc t i desc_null in
  let t := set_card t i UINT32_MAX in
  let t := set_flags t i (Z.lor INFINITE_TYPE_FLAGS TYPE_IS_MINIMAL_MASK) in
  '(t, i) ← allocate_type_id t;
  let t := set_kind t i REAL_TYPE in
  let t := set_desc t i desc_null in
  let t := set_card t i UINT32_MAX in
  let t := set_flags t i (Z.lor INFINITE_TYPE_FLAGS TYPE_IS_MAXIMAL_MASK) in
  Ok t.

Definition new_bitvector_type (t : type_table) (k : Z) : result (type_table * Z) :=
  '(t, i) ← allocate_type_id t;
  let t := set_kind t i BITVECTOR_TYPE in
  let t := set_desc t i (desc_integer k) in
  let t := if k <? 32
           then set_flags (set_card t i (wrap32 (Z.shiftl 1 k))) i SMALL_TYPE_FLAGS
           else set_flags (set_card t i UINT32_MAX) i LARGE_TYPE_FLAGS in
  Ok (t, i).

Definition new_scalar_type (t : type_table) (k : Z) : result (type_table * Z) :=
  '(t, i) ← allocate_type_id t;
  let t := set_kind t i SCALAR_TYPE in
  let t := set_desc t i (desc_integer k) in
  let t := set_card t i k in
  let t := if k =? 1 then set_flags t i UNIT_TYPE_FLAGS
           else set_flags t i SMALL_TYPE_FLAGS in
  Ok (t, i).

Definition new_uninterpreted_type (t : type_table) : result (type_table * Z) :=
  '(t, i) ← allocate_type_id t;
  let t := set_kind t i UNINTERPRETED_TYPE in
  let t := set_desc t i desc_null in
  let t := set_card t i UINT32_MAX in
  let t := set_flags t i
             (Z.lor (Z.lor INFINITE_TYPE_FLAGS TYPE_IS_MAXIMAL_MASK)
                    TYPE_IS_MINIMAL_MASK) in
  Ok (t, i).

(** The [switch (flag)] of [new_tuple_type]: cardinality and final flag. *)
Definition tuple_card_flag (t : type_table) (e : list Z) (flag : Z) : Z * Z :=
  if flag =? UNIT_TYPE_FLAGS then (1, flag)
  else if flag =? SMALL_TYPE_FLAGS then
    let card := type_card_product t e in
    if UINT32_MAX <? card then (UINT32_MAX, LARGE_TYPE_FLAGS) else (card, flag)
  else (UINT32_MAX, flag).

Definition new_tuple_type (t : type_table) (e : list Z) : result (type_table * Z) :=
  '(t, i) ← allocate_type_id t;
  let t := set_kind t i TUPLE_TYPE in
  let t := set_desc t i (desc_tuple e) in
  let flag := type_flags_conjunct t e in
  let '(card, flag) := tuple_card_flag t e flag in
  let t := set_card t i (wrap32 card) in
  let t := set_flags t i (wrap8 flag) in
  Ok (t, i).

(** The [switch (flag)] of [new_function_type]. *)
Definition function_card_flag (t : type_table) (e : list Z) (r : Z) (flag : Z)
  : Z * Z :=
  if flag =? UNIT_TYPE_FLAGS then (1, flag)
  else if flag =? SMALL_TYPE_FLAGS then
    let card := fun_type_card t e r in
    if UINT32_MAX <? card then (UINT32_MAX, LARGE_TYPE_FLAGS) else (card, flag)
  else (UINT32_MAX, flag).

Definition new_function_type (t : type_table) (e : list Z) (r : Z)
  : result (type_table * Z) :=
  '(t, i) ← allocate_type_id t;
  let t := set_kind t i FUNCTION_TYPE in
  let t := set_desc t i (desc_function r e) in
  let flag := type_flags t r in
  let minmax := Z.land flag MINMAX_FLAGS_MASK in
  let flag :=
    if Z.land flag (Z.lor TYPE_IS_FINITE_MASK TYPE_IS_UNIT_MASK)
       =? TYPE_IS_FINITE_MASK
    then Z.land flag (type_flags_conjunct t e)
    else flag in
  let '(card, flag) := function_card_flag t e r flag in
  let t := set_card t i (wrap32 card) in
  let t := set_flags t i (wrap8 (Z.lor minmax (Z.land flag CARD_FLAGS_MASK))) in
  Ok (t, i).


(** ** Hash consing

    Modelled from the spec: [int_hash_tables.c] is not among the sources.
    Section 4.C describes the index as a set of ids keyed by the structural
    hash and equality of their descriptors; a lookup returns the id already
    stored for the queried shape or else calls the builder and stores the
    id it returns.  Since the hash is a function of the shape, two equal
    shapes meet in one bucket and the model searches by equality alone; the
    hash keys (Jenkins mixing, also absent) are not modelled. *)
Definition int_htbl_get_obj
    (eq : type_table → Z → bool)
    (build : type_table → result (type_table * Z))
    (t : type_table) : result (type_table * Z) :=
  match List.find (eq t) (htbl t) with
  | Some i => Ok (t, i)
  | None =>
    '(t, i) ← build t;
    Ok (set_htbl t (i :: htbl t), i)
  end.

(** Modelled from the spec: [int_htbl_erase_record(htbl, k, i)] removes the
    record of id [i] (section 4.G, sweep). *)
Definition int_htbl_erase_record (t : type_table) (i : Z) : type_table :=
  set_htbl t (filter (λ j, j ≠ i) (htbl t)).

Definition eq_bv_type (size : Z) (t : type_table) (i : Z) : bool :=
  bool_decide (kind t i = BITVECTOR_TYPE)
  && bool_decide (desc t i = desc_integer size).

Definition eq_tuple_type (elem : list Z) (t : type_table) (i : Z) : bool :=
  bool_decide (kind t i = TUPLE_TYPE)
  && bool_decide (desc t i = desc_tuple elem).

Definition eq_function_type (range : Z) (dom : list Z) (t : type_table) (i : Z)
  : bool :=
  bool_decide (kind t i = FUNCTION_TYPE)
  && bool_decide (desc t i = desc_function range dom).

Definition build_bv_type (size : Z) (t : type_table) :=
  new_bitvector_type t size.
Definition build_tuple_type (elem : list Z) (t : type_table) :=
  new_tuple_type t elem.
Definition build_function_type (range : Z) (dom : list Z) (t : type_table) :=
  new_function_type t dom range.

Definition bv_type (t : type_table) (size : Z) : result (type_table * Z) :=
  int_htbl_get_obj (eq_bv_type size) (build_bv_type size) t.

Definition tuple_type (t : type_table) (elem : list Z) : result (type_table * Z) :=
  int_htbl_get_obj (eq_tuple_type elem) (build_tuple_type elem) t.

Definition function_type (t : type_table) (range : Z) (dom : list Z)
  : result (type_table * Z) :=
  int_htbl_get_obj (eq_function_type range dom) (build_function_type range dom) t.

(** ** Names

    Modelled from the spec: [symbol_tables.c] is not among the sources.
    Section 4.D: the symbol table is a stack of bindings; [stbl_add] pushes,
    [stbl_find] returns the topmost binding of the name or -1, [stbl_remove]
    pops the topmost binding of the name, [stbl_iterate] visits every
    binding. *)
Definition stbl_add (s : list (string * Z)) (n : string) (i : Z) :=
  (n, i) :: s.

Fixpoint stbl_find (s : list (string * Z)) (n : string) : Z :=
  match s with
  | [] => -1
  | (m, i) :: s' => if bool_decide (m = n) then i else stbl_find s' n
  end.

Fixpoint stbl_remove (s : list (string * Z)) (n : string) : list (string * Z) :=
  match s with
  | [] => []
  | (m, i) :: s' => if bool_decide (m = n) then s' else (m, i) :: stbl_remove s' n
  end.

Definition stbl_iterate {A} (s : list (string * Z)) (aux : A)
    (f : A → string * Z → A) : A :=
  fold_left f s aux.

Definition set_type_name (t : type_table) (i : Z) (nm : string) : type_table :=
  let t := match name t i with
           | None => set_name t i (Some nm)
           | Some _ => t
           end in
  set_stbl t (stbl_add (stbl t) nm i).

Definition get_type_by_name (t : type_table) (nm : string) : Z :=
  stbl_find (stbl t) nm.

Definition remove_type_name (t : type_table) (nm : string) : type_table :=
  set_stbl t (stbl_remove (stbl t) nm).

(** ** Cardinality queries *)

Definition card_of_type_product (t : type_table) (tau : list Z) : Z :=
  let card := type_card_product t tau in
  wrap32 (if UINT32_MAX <? card then UINT32_MAX else card).

Definition card_of_domain_type (t : type_table) (tau : Z) : Z :=
  card_of_type_product t (function_type_desc t tau).2.

Definition card_of_range_type (t : type_table) (tau : Z) : Z :=
  type_card t (function_type_range t tau).

Definition type_has_finite_domain (t : type_table) (tau : Z) : bool :=
  negb (Z.land (type_flags_conjunct t (function_type_desc t tau).2)
               TYPE_IS_FINITE_MASK =? 0).

Definition type_has_finite_range (t : type_table) (tau : Z) : bool :=
  is_finite_type t (function_type_range t tau).

(** ** Common supertype and common subtype

    [super_type] and [inf_type] (with their helpers) are the same text up
    to the value returned for the pair int/real and the cache they use.  The
    model writes that text once, with the operation as a parameter, and
    instantiates it under the names of the source. *)
Inductive lattice_op : Type := Sup | Inf.

Definition cheap (op : lattice_op) (t : type_table) (tau1 tau2 : Z) : Z :=
  if tau1 =? tau2 then tau1
  else if ((tau1 =? int_id) && (tau2 =? real_id))
          || ((tau1 =? real_id) && (tau2 =? int_id))
  then match op with Sup => real_id | Inf => int_id end
  else
    match kind t tau1 with
    | TUPLE_TYPE =>
      if negb (bool_decide (kind t tau2 = TUPLE_TYPE))
         || negb (tuple_type_arity t tau1 =? tuple_type_arity t tau2)
      then NULL_TYPE else UNKNOWN_TYPE
    | FUNCTION_TYPE =>
      if negb (bool_decide (kind t tau2 = FUNCTION_TYPE))
         || negb (function_type_arity t tau1 =? function_type_arity t tau2)
      then NULL_TYPE else UNKNOWN_TYPE
    | _ => NULL_TYPE
    end.

Definition cheap_sup := cheap Sup.
Definition cheap_inf := cheap Inf.

(** The caches.  Modelled from the spec: [int_hash_map2.c] is not among the
    sources; section 4.F describes a map from ordered pairs of ids to an id,
    with find, add and (section 4.G) a purge that keeps the records passing
    a test. *)
Definition cache_of (op : lattice_op) (t : type_table) : option (gmap (Z * Z) Z) :=
  match op with Sup => sup_tbl t | Inf => inf_tbl t end.

Definition set_cache (op : lattice_op) (t : type_table)
    (h : option (gmap (Z * Z) Z)) : type_table :=
  match op with Sup => set_sup_tbl t h | Inf => set_inf_tbl t h end.

Definition get_table (op : lattice_op) (t : type_table) : type_table :=
  match cache_of op t with
  | Some _ => t
  | None => set_cache op t (Some ∅)
  end.

Definition get_sup_table := get_table Sup.
Definition get_inf_table := get_table Inf.

Definition int_hmap2_find (h : option (gmap (Z * Z) Z)) (k0 k1 : Z) : option Z :=
  h ≫= λ m, m !! (k0, k1).

Definition int_hmap2_add (op : lattice_op) (t : type_table) (k0 k1 v : Z)
  : type_table :=
  set_cache op t (Some (<[(k0, k1) := v]> (default ∅ (cache_of op t)))).

Fixpoint equal_type_arrays (a b : list Z) : bool :=
  match a, b with
  | x :: a', y :: b' => if x =? y then equal_type_arrays a' b' else false
  | _, _ => true
  end.

(** The loop of [sup_tuple_types]/[inf_tuple_types]: [None] is the exit
    through [goto done] with [aux == NULL_TYPE]. *)
Fixpoint lat_tuple_loop (rec : type_table → Z → Z → result (type_table * Z))
    (t : type_table) (a b : list Z) (s : list Z)
  : result (type_table * option (list Z)) :=
  match a, b with
  | x :: a', y :: b' =>
    '(t, aux) ← rec t x y;
    if aux =? NULL_TYPE then Ok (t, None)
    else lat_tuple_loop rec t a' b' (s ++ [aux])
  | _, _ => Ok (t, Some s)
  end.

Definition lat_tuple_types (rec : type_table → Z → Z → result (type_table * Z))
    (t : type_table) (a b : list Z) : result (type_table * Z) :=
  '(t, s) ← lat_tuple_loop rec t a b [];
  match s with
  | None => Ok (t, NULL_TYPE)
  | Some s => tuple_type t s
  end.

Definition lat_fun_types (rec : type_table → Z → Z → result (type_table * Z))
    (t : type_table) (a : list Z) (tau1 tau2 : Z) : result (type_table * Z) :=
  '(t, aux) ← rec t tau1 tau2;
  if aux =? NULL_TYPE then Ok (t, aux)
  else function_type t aux a.

Fixpoint lat_type (op : lattice_op) (fuel : nat) (t : type_table) (tau1 tau2 : Z)
  : result (type_table * Z) :=
  match fuel with
  | O => OutOfFuel
  | S fuel =>
    let aux := cheap op t tau1 tau2 in
    if aux =? UNKNOWN_TYPE then
      let '(tau1, tau2) := if tau2 <? tau1 then (tau2, tau1) else (tau1, tau2) in
      let t := get_table op t in
      match int_hmap2_find (cache_of op t) tau1 tau2 with
      | Some v => Ok (t, v)
      | None =>
        '(t, aux) ←
          (if bool_decide (kind t tau1 = TUPLE_TYPE) then
             lat_tuple_types (lat_type op fuel) t
               (tuple_type_desc t tau1) (tuple_type_desc t tau2)
           else
             let fun1 := function_type_desc t tau1 in
             let fun2 := function_type_desc t tau2 in
             if equal_type_arrays fun1.2 fun2.2 then
               lat_fun_types (lat_type op fuel) t fun1.2 fun1.1 fun2.1
             else Ok (t, NULL_TYPE));
        Ok (int_hmap2_add op t tau1 tau2 aux, aux)
      end
    else Ok (t, aux)
  end.

Definition sup_tuple_types (fuel : nat) := lat_tuple_types (lat_type Sup fuel).
Definition sup_fun_types (fuel : nat) := lat_fun_types (lat_type Sup fuel).
Definition super_type := lat_type Sup.
Definition inf_tuple_types (fuel : nat) := lat_tuple_types (lat_type Inf fuel).
Definition inf_fun_types (fuel : nat) := lat_fun_types (lat_type Inf fuel).
Definition inf_type := lat_type Inf.

Definition is_subtype (fuel : nat) (t : type_table) (tau1 tau2 : Z)
  : result (type_table * bool) :=
  '(t, aux) ← super_type fuel t tau1 tau2;
  Ok (t, aux =? tau2).

Definition compatible_types (fuel : nat) (t : type_table) (tau1 tau2 : Z)
  : result (type_table * bool) :=
  '(t, aux) ← super_type fuel t tau1 tau2;
  Ok (t, negb (aux =? NULL_TYPE)).

(** ** Garbage collection *)

Definition erase_hcons_type (t : type_table) (i : Z) : type_table :=
  match kind t i with
  | BITVECTOR_TYPE | TUPLE_TYPE | FUNCTION_TYPE => int_htbl_erase_record t i
  | _ => t
  end.

Definition mark_and_explore (rec : type_table → Z → Z → result type_table)
    (t : type_table) (ptr i : Z) : result type_table :=
  if type_is_marked t i then Ok t
  else
    let t := type_table_set_gc_mark t i in
    if i <? ptr then rec t ptr i else Ok t.

(** A [for] loop over an array whose body can abort. *)
Fixpoint for_each {A} (f : type_table → A → result type_table)
    (t : type_table) (l : list A) : result type_table :=
  match l with
  | [] => Ok t
  | x :: l' => t ← f t x; for_each f t l'
  end.

Fixpoint mark_reachable_types (fuel : nat) (t : type_table) (ptr i : Z)
  : result type_table :=
  match fuel with
  | O => OutOfFuel
  | S fuel =>
    match kind t i with
    | TUPLE_TYPE =>
      for_each (λ t j, mark_and_explore (mark_reachable_types fuel) t ptr j)
        t (tuple_type_desc t i)
    | FUNCTION_TYPE =>
      let fn := function_type_desc t i in
      t ← mark_and_explore (mark_reachable_types fuel) t ptr fn.1;
      for_each (λ t j, mark_and_explore (mark_reachable_types fuel) t ptr j)
        t fn.2
    | _ => Ok t
    end
  end.

Definition mark_live_types (fuel : nat) (t : type_table) : result type_table :=
  for_each (λ t i, if type_is_marked t i then mark_reachable_types fuel t i i
                   else Ok t)
    t (seqZ 0 (nelems t)).

Definition mark_symbol (t : type_table) (r : string * Z) : type_table :=
  type_table_set_gc_mark t r.2.

Definition keep_in_cache (t : type_table) (r : Z * Z * Z) : bool :=
  good_type t r.1.1 && good_type t r.1.2 && good_type t r.2.

(** Modelled from the spec: [int_hmap2_gc] drops the records that fail the
    keep-alive test (section 4.G, cache purge). *)
Definition int_hmap2_gc (keep : Z * Z * Z → bool) (h : gmap (Z * Z) Z)
  : gmap (Z * Z) Z :=
  filter (λ r, keep r = true) h.

Definition sweep_type (t : type_table) (i : Z) : type_table :=
  let t := if type_is_marked t i then t
           else erase_type (erase_hcons_type t i) i in
  type_table_clr_gc_mark t i.

Definition type_table_gc (fuel : nat) (t : type_table) : result type_table :=
  let t := stbl_iterate (stbl t) t mark_symbol in
  let t := type_table_set_gc_mark t bool_id in
  let t := type_table_set_gc_mark t int_id in
  let t := type_table_set_gc_mark t real_id in
  t ← mark_live_types fuel t;
  let t := fold_left sweep_type (seqZ 0 (nelems t)) t in
  let t := match sup_tbl t with
           | Some h => set_sup_tbl t (Some (int_hmap2_gc (keep_in_cache t) h))
           | None => t
           end in
  let t := match inf_tbl t with
           | Some h => set_inf_tbl t (Some (int_hmap2_gc (keep_in_cache t) h))
           | None => t
           end in
  Ok t.

Definition init_type_table (n : Z) : result type_table :=
  t ← type_table_init n;
  add_primitive_types t.

(** ** Calls of the interface and reachable tables *)

Definition good (t : type_table) (i : Z) : Prop :=
  0 ≤ i < nelems t ∧ kind t i ≠ UNUSED_TYPE.

Inductive call : Type :=
| Bv_type (size : Z)
| Tuple_type (elem : list Z)
| Function_type (range : Z) (dom : list Z)
| New_scalar_type (k : Z)
| New_uninterpreted_type
| Set_type_name (i : Z) (nm : string)
| Remove_type_name (nm : string)
| Super_type (fuel : nat) (tau1 tau2 : Z)
| Inf_type (fuel : nat) (tau1 tau2 : Z)
| Set_gc_mark (i : Z)
| Type_table_gc (fuel : nat).

(** What the C text asserts, or requires in its comments, of the arguments. *)
Definition pre (t : type_table) (c : call) : Prop :=
  match c with
  | Bv_type size => 0 < size ≤ UINT32_MAX
  | Tuple_type elem => elem ≠ [] ∧ Forall (good t) elem
  | Function_type range dom => dom ≠ [] ∧ Forall (good t) dom ∧ good t range
  | New_scalar_type k => 0 < k ≤ UINT32_MAX
  | New_uninterpreted_type => True
  | Set_type_name i _ => good t i
  | Remove_type_name _ => True
  | Super_type _ tau1 tau2 => good t tau1 ∧ good t tau2
  | Inf_type _ tau1 tau2 => good t tau1 ∧ good t tau2
  | Set_gc_mark i => good t i
  | Type_table_gc _ => True
  end.

(** The call, with the id it returns ([NULL_TYPE] for a [void] function). *)
Definition run (c : call) (t : type_table) : result (type_table * Z) :=
  match c with
  | Bv_type size => bv_type t size
  | Tuple_type elem => tuple_type t elem
  | Function_type range dom => function_type t range dom
  | New_scalar_type k => new_scalar_type t k
  | New_uninterpreted_type => new_uninterpreted_type t
  | Set_type_name i nm => Ok (set_type_name t i nm, NULL_TYPE)
  | Remove_type_name nm => Ok (remove_type_name t nm, NULL_TYPE)
  | Super_type fuel tau1 tau2 => super_type fuel t tau1 tau2
  | Inf_type fuel tau1 tau2 => inf_type fuel t tau1 tau2
  | Set_gc_mark i => Ok (type_table_set_gc_mark t i, NULL_TYPE)
  | Type_table_gc fuel => t ← type_table_gc fuel t; Ok (t, NULL_TYPE)
  end.

Definition is_gc (c : call) : bool :=
  match c with Type_table_gc _ => true | _ => false end.

Inductive reachable : type_table → Prop :=
| reachable_init n t :
    0 ≤ n ≤ UINT32_MAX → init_type_table n = Ok t → reachable t
| reachable_step t c t' r :
    reachable t → pre t c → run c t = Ok (t', r) → reachable t'.

(** A run of calls, collections included, none of which reclaims [i]. *)
Inductive runs_keeping (i : Z) : type_table → type_table → Prop :=
| keeping_refl t : runs_keeping i t t
| keeping_step t c t' r t'' :
    pre t c → run c t = Ok (t', r) → good t' i →
    runs_keeping i t' t'' → runs_keeping i t t''.

(** The preconditions as a test, and a script of calls run from the
    initial table; [None] when a precondition fails or a call aborts. *)
Definition preb (t : type_table) (c : call) : bool :=
  match c with
  | Bv_type size => (0 <? size) && (size <=? UINT32_MAX)
  | Tuple_type elem =>
    negb (bool_decide (elem = [])) && forallb (good_type t) elem
  | Function_type range dom =>
    negb (bool_decide (dom = [])) && forallb (good_type t) dom
    && good_type t range
  | New_scalar_type k => (0 <? k) && (k <=? UINT32_MAX)
  | New_uninterpreted_type => true
  | Set_type_name i _ => good_type t i
  | Remove_type_name _ => true
  | Super_type _ tau1 tau2 => good_type t tau1 && good_type t tau2
  | Inf_type _ tau1 tau2 => good_type t tau1 && good_type t tau2
  | Set_gc_mark i => good_type t i
  | Type_table_gc _ => true
  end.

Fixpoint run_script (cs : list call) (t : type_table) : option type_table :=
  match cs with
  | [] => Some t
  | c :: cs' =>
    if preb t c then
      match run c t with
      | Ok (t', _) => run_script cs' t'
      | _ => None
      end
    else None
  end.

Definition script (n : Z) (cs : list call) : option type_table :=
  if (0 <=? n) && (n <=? UINT32_MAX) then
    match init_type_table n with
    | Ok t => run_script cs t
    | _ => None
    end
  else None.

(** ** Invariants of the table *)

Definition children_of (k : type_kind) (d : type_desc) : list Z :=
  match k with
  | TUPLE_TYPE => tuple_desc d
  | FUNCTION_TYPE => (function_desc d).1 :: (function_desc d).2
  | _ => []
  end.

Definition children (t : type_table) (i : Z) : list Z :=
  children_of (kind t i) (desc t i).

Definition hash_consed (k : type_kind) : bool :=
  match k with
  | BITVECTOR_TYPE | TUPLE_TYPE | FUNCTION_TYPE => true
  | _ => false
  end.

Definition primitive (k : type_kind) : bool :=
  match k with
  | BOOL_TYPE | INT_TYPE | REAL_TYPE => true
  | _ => false
  end.

(** The free list: the chain of [next] links from [f] visits exactly [l]. *)
Fixpoint free_chain (d : Z → type_desc) (f : Z) (l : list Z) : Prop :=
  match l with
  | [] => f < 0
  | x :: l' => f = x ∧ 0 ≤ x ∧ ∃ n, d x = desc_next n ∧ free_chain d n l'
  end.

(** Children are live and come earlier in some ranking: the types form a
    finite directed acyclic graph. *)
Definition ranked (rk : Z → nat) (t : type_table) : Prop :=
  ∀ i c, good t i → c ∈ children t i → good t c ∧ (rk c < rk i)%nat.

(** The flag bytes the constructors produce: unit, small, large, or
    infinite with any of the maximal and minimal bits. *)
Definition flags_ok (f : Z) : bool :=
  (0 <=? f) && (f <? 32)
  && ((f =? UNIT_TYPE_FLAGS) || (f =? SMALL_TYPE_FLAGS) || (f =? LARGE_TYPE_FLAGS)
      || (Z.land f CARD_FLAGS_MASK =? INFINITE_TYPE_FLAGS)).

Definition cache_ok (t : type_table) (h : gmap (Z * Z) Z) : Prop :=
  ∀ k0 k1 v, h !! (k0, k1) = Some v →
    k0 < k1 ∧ good t k0 ∧ good t k1 ∧ (v = NULL_TYPE ∨ good t v).

Record Inv (t : type_table) : Prop := mk_Inv {
  inv_size : 0 ≤ nelems t ≤ size t ∧ size t < YICES_MAX_TYPES;
  inv_prims :
    3 ≤ nelems t ∧ kind t 0 = BOOL_TYPE ∧ kind t 1 = INT_TYPE
    ∧ kind t 2 = REAL_TYPE;
  inv_prim_ids : ∀ i, good t i → primitive (kind t i) = true → 0 ≤ i < 3;
  inv_free :
    ∃ l, free_chain (desc t) (free_idx t) l ∧ NoDup l
         ∧ ∀ i, i ∈ l ↔ (0 ≤ i < nelems t ∧ kind t i = UNUSED_TYPE);
  inv_rank : ∃ rk, ranked rk t;
  inv_htbl : ∀ i, i ∈ htbl t ↔ (good t i ∧ hash_consed (kind t i) = true);
  inv_unique :
    ∀ i j, good t i → good t j → hash_consed (kind t i) = true →
           kind t i = kind t j → desc t i = desc t j → i = j;
  inv_stbl : ∀ nm i, (nm, i) ∈ stbl t → good t i;
  inv_cache : ∀ op h, cache_of op t = Some h → cache_ok t h;
  inv_flags : ∀ i, good t i → flags_ok (flags t i) = true;
  inv_marks : ∀ i, gc_mark t i = true → good t i
}.

(** [t'] keeps every live type of [t], with its descriptor. *)
Definition extends (t t' : type_table) : Prop :=
  ∀ i, good t i →
    good t' i ∧ kind t' i = kind t i ∧ desc t' i = desc t i
    ∧ card t' i = card t i ∧ flags t' i = flags t i.

(** A slot filled by a constructor. *)
Definition install (t : type_table) (i : Z) (k : type_kind) (d : type_desc)
    (c f : Z) : type_table :=
  set_flags (set_card (set_desc (set_kind t i k) i d) i c) i f.

Definition max_rank (rk : Z → nat) (l : list Z) : nat :=
  foldr (λ c m, Nat.max (rk c) m) O l.

(** One or more constructor calls took [t] to [t']. *)
Definition grows (t t' : type_table) : Prop :=
  Inv t' ∧ extends t t'
  ∧ ∀ rk, ranked rk t → ∃ rk', ranked rk' t' ∧ ∀ j, good t j → rk' j = rk j.

(** The table with another array of marks. *)
Definition with_marks (t : type_table) (m : Z → bool) : type_table :=
  mk_table (kind t) (desc t) (card t) (flags t) (name t) m
    (size t) (nelems t) (free_idx t) (htbl t) (stbl t) (sup_tbl t) (inf_tbl t).

(** The phases of [type_table_gc]: marking the roots, the table at sweep
    time, and the sweep with the purge of the caches. *)
Definition gc_mark_roots (t : type_table) : type_table :=
  let t := stbl_iterate (stbl t) t mark_symbol in
  let t := type_table_set_gc_mark t bool_id in
  let t := type_table_set_gc_mark t int_id in
  type_table_set_gc_mark t real_id.

Definition gc_purge (t : type_table) : type_table :=
  let t := match sup_tbl t with
           | Some h => set_sup_tbl t (Some (int_hmap2_gc (keep_in_cache t) h))
           | None => t
           end in
  match inf_tbl t with
  | Some h => set_inf_tbl t (Some (int_hmap2_gc (keep_in_cache t) h))
  | None => t
  end.

Definition gc_sweep (t : type_table) : type_table :=
  gc_purge (fold_left sweep_type (seqZ 0 (nelems t)) t).

(** A root of the collection: bound in the symbol table, marked by the
    caller, or primitive. *)
Definition gc_root (t : type_table) (i : Z) : Prop :=
  (∃ nm, (nm, i) ∈ stbl t) ∨ gc_mark t i = true
  ∨ i = bool_id ∨ i = int_id ∨ i = real_id.

(** [j] is reachable from [i] through tuple elements, function domains
    and ranges. *)
Inductive reaches (t : type_table) : Z → Z → Prop :=
| reaches_refl i : reaches t i i
| reaches_child i c j : c ∈ children t i → reaches t c j → reaches t i j.

(** Marks: inclusion, and closure below [ptr] of the newly marked ids. *)
Definition sub_marks (m m' : Z → bool) : Prop := ∀ j, m j = true → m' j = true.

Definition closed_below (t : type_table) (ptr : Z) (m m' : Z → bool) : Prop :=
  ∀ j, j < ptr → m' j = true → m j = false →
       ∀ c, c ∈ children t j → m' c = true.

Definition marking (t : type_table) (ptr : Z) (m m' : Z → bool) : Prop :=
  sub_marks m m' ∧ closed_below t ptr m m'
  ∧ ∀ j, m' j = true → m j = true ∨ good t j.

Definition unmarked (l : list Z) (m : Z → bool) : nat :=
  length (filter (λ j, m j = false) l).

(** The slots reclaimed by a sweep with marks [m]. *)
Definition erased (t : type_table) (m : Z → bool) (j : Z) : bool :=
  (0 <=? j) && (j <? nelems t) && negb (m j)
  && negb (bool_decide (kind t j = UNUSED_TYPE)) && negb (primitive (kind t j)).

(** The table after the sweep loop has handled the slots below [a]. *)
Record swept (t : type_table) (m : Z → bool) (a : Z) (t' : type_table)
  : Prop := mk_swept {
  sw_nelems : nelems t' = nelems t;
  sw_size : size t' = size t;
  sw_card : card t' = card t;
  sw_flags : flags t' = flags t;
  sw_stbl : stbl t' = stbl t;
  sw_sup : sup_tbl t' = sup_tbl t;
  sw_inf : inf_tbl t' = inf_tbl t;
  sw_kind : ∀ j, kind t' j
                 = if (j <? a) && erased t m j then UNUSED_TYPE else kind t j;
  sw_name : ∀ j, name t' j
                 = if (j <? a) && erased t m j then None else name t j;
  sw_desc : ∀ j, (j <? a) && erased t m j = false → desc t' j = desc t j;
  sw_mark : ∀ j, gc_mark t' j
                 = if (0 <=? j) && (j <? a) then false else m j;
  sw_htbl : ∀ j, j ∈ htbl t' ↔ j ∈ htbl t ∧ (j <? a) && erased t m j = false;
  sw_free : ∃ l, free_chain (desc t') (free_idx t') l ∧ NoDup l
                 ∧ ∀ j, j ∈ l ↔ (0 ≤ j < nelems t ∧ kind t' j = UNUSED_TYPE)
}.

(** The table [tf] after a collection of [t] whose marks at sweep time
    were [m]. *)
Record collected (t : type_table) (m : Z → bool) (tf : type_table)
  : Prop := mk_collected {
  col_nelems : nelems tf = nelems t;
  col_size : size tf = size t;
  col_card : card tf = card t;
  col_flags : flags tf = flags t;
  col_stbl : stbl tf = stbl t;
  col_live : ∀ j, good tf j ↔ m j = true;
  col_keep : ∀ j, erased t m j = false →
      kind tf j = kind t j ∧ desc tf j = desc t j ∧ name tf j = name t j;
  col_erase : ∀ j, erased t m j = true →
      kind tf j = UNUSED_TYPE ∧ name tf j = None ∧ ∃ n, desc tf j = desc_next n;
  col_free : ∃ l, free_chain (desc tf) (free_idx tf) l ∧ NoDup l
      ∧ ∀ j, j ∈ l ↔ (0 ≤ j < nelems t ∧ kind tf j = UNUSED_TYPE);
  col_marks : ∀ j, gc_mark tf j = false;
  col_cache : ∀ op h k0 k1 v, cache_of op tf = Some h →
      h !! (k0, k1) = Some v → k0 < k1 ∧ good tf k0 ∧ good tf k1 ∧ good tf v
}.

(** The conjunction of [type_flags_conjunct] on an array of flags. *)
Definition conj_flags (fl : Z → Z) (e : list Z) : Z :=
  fold_left (λ flg x, Z.land flg (fl x)) e UNIT_TYPE_FLAGS.

(** The flag computed by the [switch] of [new_tuple_type]; [big] tells
    whether the product of cardinalities exceeds [UINT32_MAX]. *)
Definition tuple_flags (conj : Z) (big : bool) : Z :=
  wrap8 (if conj =? UNIT_TYPE_FLAGS then conj
         else if conj =? SMALL_TYPE_FLAGS
              then (if big then LARGE_TYPE_FLAGS else conj)
              else conj).

(** The flag computed by [new_function_type] from the flags of the range
    and the conjunction of the flags of the domain. *)
Definition function_flags (rflag conj : Z) (big : bool) : Z :=
  let minmax := Z.land rflag MINMAX_FLAGS_MASK in
  let flag :=
    if Z.land rflag (Z.lor TYPE_IS_FINITE_MASK TYPE_IS_UNIT_MASK)
       =? TYPE_IS_FINITE_MASK
    then Z.land rflag conj else rflag in
  let flag :=
    if flag =? UNIT_TYPE_FLAGS then flag
    else if flag =? SMALL_TYPE_FLAGS
         then (if big then LARGE_TYPE_FLAGS else flag)
         else flag in
  wrap8 (Z.lor minmax (Z.land flag CARD_FLAGS_MASK)).

(** The statement of C3 on flag bytes, as a test. *)
Definition function_flags_check (rf cj : Z) (big : bool) : bool :=
  let f := function_flags rf cj big in
  let bit mask z := negb (Z.land z mask =? 0) in
  Bool.eqb (bit TYPE_IS_UNIT_MASK f) (bit TYPE_IS_UNIT_MASK rf)
  && Bool.eqb (bit TYPE_IS_MAXIMAL_MASK f) (bit TYPE_IS_MAXIMAL_MASK rf)
  && Bool.eqb (bit TYPE_IS_MINIMAL_MASK f) (bit TYPE_IS_MINIMAL_MASK rf)
  && Bool.eqb (bit TYPE_IS_FINITE_MASK f)
       (bit TYPE_IS_UNIT_MASK rf
        || (bit TYPE_IS_FINITE_MASK rf && bit TYPE_IS_FINITE_MASK cj)).

(** What the recursive calls of the engine are assumed to do. *)
Definition rec_sound (rec : type_table → Z → Z → result (type_table * Z)) : Prop :=
  ∀ t x y t' r, Inv t → good t x → good t y → rec t x y = Ok (t', r) →
    grows t t' ∧ (r = NULL_TYPE ∨ good t' r).

Definition rec_total (n : nat)
    (rec : type_table → Z → Z → result (type_table * Z)) : Prop :=
  ∀ t x y rk, Inv t → ranked rk t → good t x → good t y →
    (rk x < n)%nat → (rk y < n)%nat → rec t x y ≠ OutOfFuel.

(** The part of [super_type] and [inf_type] after the cheap test, on the
    normalised pair. *)
Definition lat_slow (op : lattice_op)
    (rec : type_table → Z → Z → result (type_table * Z))
    (t : type_table) (tau1 tau2 : Z) : result (type_table * Z) :=
  let t := get_table op t in
  match int_hmap2_find (cache_of op t) tau1 tau2 with
  | Some v => Ok (t, v)
  | None =>
    '(t, aux) ←
      (if bool_decide (kind t tau1 = TUPLE_TYPE) then
         lat_tuple_types rec t (tuple_type_desc t tau1) (tuple_type_desc t tau2)
       else
         let fun1 := function_type_desc t tau1 in
         let fun2 := function_type_desc t tau2 in
         if equal_type_arrays fun1.2 fun2.2 then
           lat_fun_types rec t fun1.2 fun1.1 fun2.1
         else Ok (t, NULL_TYPE));
    Ok (int_hmap2_add op t tau1 tau2 aux, aux)
  end.

(** The marks after the roots have been marked. *)
Definition mark_all (l : list (string * Z)) (m : Z → bool) : Z → bool :=
  fold_left (λ m r, <[r.2:=true]> m) l m.

Definition root_marks (t : type_table) : Z → bool :=
  <[real_id:=true]> (<[int_id:=true]> (<[bool_id:=true]>
    (mark_all (stbl t) (gc_mark t)))).

(** The marks at sweep time: they contain the roots, mark only live types
    and are closed under the child relation. *)
Definition sweep_marks (t : type_table) (m : Z → bool) : Prop :=
  (∀ j, gc_root t j → m j = true)
  ∧ (∀ j, m j = true → good t j)
  ∧ (∀ j c, m j = true → c ∈ children t j → m c = true).

(** What the recursive calls of the mark pass are assumed to do, on the
    table [t0] with varying marks. *)
Definition rec_marks (t0 : type_table) (ptr : Z)
    (rec : type_table → Z → Z → result type_table) : Prop :=
  ∀ m i t', good t0 i → rec (with_marks t0 m) ptr i = Ok t' →
    ∃ m', t' = with_marks t0 m' ∧ marking t0 ptr m m'
          ∧ ∀ c, c ∈ children t0 i → m' c = true.

Definition all_ids (t0 : type_table) : list Z := seqZ 0 (nelems t0).

Definition rec_marks_total (t0 : type_table) (n : nat) (ptr : Z)
    (rec : type_table → Z → Z → result type_table) : Prop :=
  ∀ m i, good t0 i → (unmarked (all_ids t0) m < n)%nat →
    ∃ t', rec (with_marks t0 m) ptr i = Ok t'.

(** The loop of [mark_live_types]: its body, and the marks being closed
    for the ids below [a]. *)
Definition closed_upto (t0 : type_table) (a : Z) (m : Z → bool) : Prop :=
  ∀ j, j < a → m j = true → ∀ c, c ∈ children t0 j → m c = true.

Definition live_body (fuel : nat) (t : type_table) (i : Z) : result type_table :=
  if type_is_marked t i then mark_reachable_types fuel t i i else Ok t.

(** The product of the stored cardinalities, without overflow. *)
Definition card_product (t : type_table) (e : list Z) : Z :=
  foldr (λ x p, type_card t x * p) 1 e.

(** A descriptor whose cardinality agrees with its flags: at least 1, equal
    to 1 for a unit type, and [UINT32_MAX] when it is not exact. *)
Definition desc_ok (t : type_table) (x : Z) : Prop :=
  flags_ok (flags t x) = true
  ∧ 1 ≤ type_card t x ≤ UINT32_MAX
  ∧ (is_unit_type t x = true → type_card t x = 1)
  ∧ (type_has_exact_card t x = false → type_card t x = UINT32_MAX).

(** The three branches of the [switch] in the constructors, as a function
    of the flag: 0 for unit, 1 for small, 2 for the default. *)
Definition switch_case (flag : Z) : Z :=
  if flag =? UNIT_TYPE_FLAGS then 0
  else if flag =? SMALL_TYPE_FLAGS then 1 else 2.

(** The flag that enters the [switch] of [new_function_type]. *)
Definition function_switch_flag (rflag conj : Z) : Z :=
  if Z.land rflag (Z.lor TYPE_IS_FINITE_MASK TYPE_IS_UNIT_MASK)
     =? TYPE_IS_FINITE_MASK
  then Z.land rflag conj else rflag.

(** The cardinality [new_function_type] stores for [e -> r] when the
    descriptors of [r] and [e] are well formed: the value of the
    specification, except that a domain of 32 elements or more gives 0. *)
Definition function_card (t : type_table) (e : list Z) (r : Z) : Z :=
  if is_unit_type t r then 1
  else if type_has_exact_card t r && forallb (type_has_exact_card t) e then
    if 32 <=? card_product t e then 0
    else Z.min (type_card t r ^ card_product t e) UINT32_MAX
  else UINT32_MAX.

(** ** Notions used by the further properties *)

(** The slots filled by [add_primitive_types]. *)
Definition primitive_slots (t : type_table) : Prop :=
  kind t bool_id = BOOL_TYPE ∧ kind t int_id = INT_TYPE
  ∧ kind t real_id = REAL_TYPE
  ∧ type_card t bool_id = 2 ∧ type_card t int_id = UINT32_MAX
  ∧ type_card t real_id = UINT32_MAX
  ∧ type_flags t bool_id = SMALL_TYPE_FLAGS
  ∧ type_flags t int_id = TYPE_IS_MINIMAL_MASK
  ∧ type_flags t real_id = TYPE_IS_MAXIMAL_MASK.

(** The table that [init_type_table] returns. *)
Definition initial_table (t : type_table) : Prop :=
  nelems t = 3 ∧ free_idx t = NULL_TYPE ∧ primitive_slots t
  ∧ (∀ i, 0 ≤ i < 3 → name t i = None ∧ gc_mark t i = false)
  ∧ htbl t = [] ∧ stbl t = [] ∧ sup_tbl t = None ∧ inf_tbl t = None.

(** The size of the arrays once [init_type_table(n)] has stored the three
    primitive types: [n] itself when it is at least 3, and what
    [type_table_extend] makes of a smaller [n]. *)
Definition init_size (n : Z) : Z :=
  if 3 <=? n then n else if n =? 2 then 4 else 3.

(** The size [type_table_extend] asks for. *)
Definition extended_size (t : type_table) : Z :=
  size t + 1 + (size t + 1) / 2.

(** A flag bit of a flag byte. *)
Definition flag_set (mask flg : Z) : bool := negb (Z.land flg mask =? 0).

(** The cardinality and the flags that [new_tuple_type] stores for the
    tuple of the types [e]. *)
Definition tuple_card_flags (t : type_table) (e : list Z) : Z * Z :=
  let cf := tuple_card_flag t e (type_flags_conjunct t e) in
  (wrap32 cf.1, wrap8 cf.2).

(** The cardinality and the flags that [new_function_type] stores for the
    functions from [e] to [r]. *)
Definition function_card_flags (t : type_table) (e : list Z) (r : Z) : Z * Z :=
  let flag := type_flags t r in
  let minmax := Z.land flag MINMAX_FLAGS_MASK in
  let cf := function_card_flag t e r
              (function_switch_flag flag (type_flags_conjunct t e)) in
  (wrap32 cf.1, wrap8 (Z.lor minmax (Z.land cf.2 CARD_FLAGS_MASK))).

(** What the constructors leave in a slot, kind by kind: the descriptor
    has the variant of the kind, and the cardinality and the flags are the
    ones the constructor computes from it. *)
Definition slot_ok (t : type_table) (i : Z) : Prop :=
  match kind t i with
  | UNUSED_TYPE => True
  | BOOL_TYPE => type_card t i = 2 ∧ type_flags t i = SMALL_TYPE_FLAGS
  | INT_TYPE =>
    type_card t i = UINT32_MAX ∧ type_flags t i = TYPE_IS_MINIMAL_MASK
  | REAL_TYPE =>
    type_card t i = UINT32_MAX ∧ type_flags t i = TYPE_IS_MAXIMAL_MASK
  | BITVECTOR_TYPE =>
    ∃ k, desc t i = desc_integer k ∧ 0 < k ≤ UINT32_MAX
      ∧ type_card t i = (if k <? 32 then 2 ^ k else UINT32_MAX)
      ∧ type_flags t i = (if k <? 32 then SMALL_TYPE_FLAGS else LARGE_TYPE_FLAGS)
  | SCALAR_TYPE =>
    ∃ k, desc t i = desc_integer k ∧ 0 < k ≤ UINT32_MAX
      ∧ type_card t i = k
      ∧ type_flags t i = (if k =? 1 then UNIT_TYPE_FLAGS else SMALL_TYPE_FLAGS)
  | UNINTERPRETED_TYPE =>
    type_card t i = UINT32_MAX
    ∧ type_flags t i = Z.lor TYPE_IS_MAXIMAL_MASK TYPE_IS_MINIMAL_MASK
  | TUPLE_TYPE =>
    ∃ e, desc t i = desc_tuple e ∧ e ≠ []
      ∧ (type_card t i, type_flags t i) = tuple_card_flags t e
  | FUNCTION_TYPE =>
    ∃ r e, desc t i = desc_function r e ∧ e ≠ []
      ∧ (type_card t i, type_flags t i) = function_card_flags t e r
  end.

Definition slots_ok (t : type_table) : Prop := ∀ i, good t i → slot_ok t i.

(** [t'] is [t] with one more type, in the slot [i] that was not in use. *)
Record fresh (t t' : type_table) (i : Z) : Prop := mk_fresh {
  fr_new : ¬ good t i;
  fr_good : good t' i;
  fr_other : ∀ j, j ≠ i →
    kind t' j = kind t j ∧ desc t' j = desc t j ∧ card t' j = card t j
    ∧ flags t' j = flags t j ∧ name t' j = name t j;
  fr_name : name t' i = None;
  fr_marks : gc_mark t' = gc_mark t;
  fr_stbl : stbl t' = stbl t;
  fr_sup : sup_tbl t' = sup_tbl t;
  fr_inf : inf_tbl t' = inf_tbl t;
  fr_nelems : nelems t ≤ nelems t';
  fr_range : ∀ j, good t' j → j = i ∨ good t j;
  fr_prim : primitive (kind t' i) = false;
  fr_children : Forall (good t) (children t' i);
  fr_slot : slot_ok t' i
}.

(** [t'] has the types of [t]; only the caches may differ. *)
Definition same_types (t t' : type_table) : Prop :=
  kind t' = kind t ∧ desc t' = desc t ∧ card t' = card t ∧ flags t' = flags t
  ∧ name t' = name t ∧ gc_mark t' = gc_mark t ∧ nelems t' = nelems t
  ∧ stbl t' = stbl t.

(** The changes [super_type] and [inf_type] make to the table: new types
    and new cache entries, in any number. *)
Inductive evolves : type_table → type_table → Prop :=
| ev_refl t : evolves t t
| ev_fresh t t1 i t2 :
    Inv t → Inv t1 → fresh t t1 i → evolves t1 t2 → evolves t t2
| ev_cache t t1 t2 :
    Inv t → Inv t1 → same_types t t1 → evolves t1 t2 → evolves t t2.

(** What the recursive calls of the engine are assumed to do to the
    table. *)
Definition rec_evolves (rec : type_table → Z → Z → result (type_table * Z))
  : Prop :=
  ∀ t x y t' r, Inv t → slots_ok t → good t x → good t y →
    rec t x y = Ok (t', r) → evolves t t'.

(** The stored cardinality agrees with the flags: it fits 32 bits, it is 1
    for a unit type and [UINT32_MAX] for a type whose cardinality is not
    exact. *)
Definition card_consistent (t : type_table) (i : Z) : Prop :=
  0 ≤ type_card t i ≤ UINT32_MAX
  ∧ (is_unit_type t i = true → type_card t i = 1)
  ∧ (type_has_exact_card t i = false → type_card t i = UINT32_MAX)
  ∧ (is_finite_type t i = false → type_has_exact_card t i = false).

(** The test behind [card_consistent] for the flags of a tuple type ... *)
Definition tuple_flags_check (conj : Z) (big : bool) : bool :=
  let f := tuple_flags conj big in
  implb (Z.testbit f 1) (conj =? UNIT_TYPE_FLAGS)
  && implb (negb (Z.testbit f 2))
       (negb (conj =? UNIT_TYPE_FLAGS) && implb (conj =? SMALL_TYPE_FLAGS) big).

(** ... and of a function type. *)
Definition function_switch_check (rf cj : Z) (big : bool) : bool :=
  let f := function_flags rf cj big in
  let sf := function_switch_flag rf cj in
  implb (Z.testbit f 1) (sf =? UNIT_TYPE_FLAGS)
  && implb (negb (Z.testbit f 2))
       (negb (sf =? UNIT_TYPE_FLAGS) && implb (sf =? SMALL_TYPE_FLAGS) big).

(** The name stored in the slot [i] after the call [c]: [set_type_name]
    stores its argument if the type has no name yet, and no other call
    changes the name of a type that stays live. *)
Definition name_after (c : call) (t : type_table) (i : Z) : option string :=
  match name t i, c with
  | None, Set_type_name j nm => if decide (j = i) then Some nm else None
  | n, _ => n
  end.

(** Only live types have a stored name. *)
Definition names_live (t : type_table) : Prop :=
  ∀ i, name t i ≠ None → good t i.

(** [j] is reachable from a type marked in [m]. *)
Definition from_marked (t0 : type_table) (m : Z → bool) (j : Z) : Prop :=
  ∃ i, m i = true ∧ reaches t0 i j.

(** The recursive calls of the mark pass only mark descendants of the type
    they explore. *)
Definition rec_precise (t0 : type_table) (ptr : Z)
    (rec : type_table → Z → Z → result type_table) : Prop :=
  ∀ m i t', good t0 i → rec (with_marks t0 m) ptr i = Ok t' →
    ∀ j, gc_mark t' j = true →
      m j = true ∨ ∃ c, c ∈ children t0 i ∧ reaches t0 c j.

(** The roots of a collection made when no type is marked by the caller. *)
Definition named_root (t : type_table) (i : Z) : Prop :=
  (∃ nm, (nm, i) ∈ stbl t) ∨ i = bool_id ∨ i = int_id ∨ i = real_id.

(** ** The subtype relation

    The relation of section 4.F of the specification, on the ids of a
    table: reflexive; [int] below [real]; tuples of the same arity compared
    component by component; functions with the same domain compared on
    their ranges; nothing else. *)
Inductive subtype (t : type_table) : Z → Z → Prop :=
| subtype_refl a : subtype t a a
| subtype_int_real : subtype t int_id real_id
| subtype_tuple a b :
    kind t a = TUPLE_TYPE → kind t b = TUPLE_TYPE →
    length (tuple_type_desc t a) = length (tuple_type_desc t b) →
    (∀ j x y, tuple_type_desc t a !! j = Some x →
              tuple_type_desc t b !! j = Some y → subtype t x y) →
    subtype t a b
| subtype_function a b :
    kind t a = FUNCTION_TYPE → kind t b = FUNCTION_TYPE →
    (function_type_desc t a).2 = (function_type_desc t b).2 →
    subtype t (function_type_range t a) (function_type_range t b) →
    subtype t a b.

(** Two types that can have a common supertype: the same recursion, with
    [int] and [real] compatible both ways. *)
Inductive compat (t : type_table) : Z → Z → Prop :=
| compat_refl a : compat t a a
| compat_int_real : compat t int_id real_id
| compat_real_int : compat t real_id int_id
| compat_tuple a b :
    kind t a = TUPLE_TYPE → kind t b = TUPLE_TYPE →
    length (tuple_type_desc t a) = length (tuple_type_desc t b) →
    (∀ j x y, tuple_type_desc t a !! j = Some x →
              tuple_type_desc t b !! j = Some y → compat t x y) →
    compat t a b
| compat_function a b :
    kind t a = FUNCTION_TYPE → kind t b = FUNCTION_TYPE →
    (function_type_desc t a).2 = (function_type_desc t b).2 →
    compat t (function_type_range t a) (function_type_range t b) →
    compat t a b.

(** [lat op t a b r]: the type [r] is built from [a] and [b] the way
    [super_type] (for [Sup]) or [inf_type] (for [Inf]) builds its result. *)
Inductive lat (op : lattice_op) (t : type_table) : Z → Z → Z → Prop :=
| lat_refl a : lat op t a a a
| lat_int_real :
    lat op t int_id real_id (match op with Sup => real_id | Inf => int_id end)
| lat_real_int :
    lat op t real_id int_id (match op with Sup => real_id | Inf => int_id end)
| lat_tuple a b r :
    kind t a = TUPLE_TYPE → kind t b = TUPLE_TYPE → kind t r = TUPLE_TYPE →
    length (tuple_type_desc t a) = length (tuple_type_desc t b) →
    length (tuple_type_desc t r) = length (tuple_type_desc t a) →
    (∀ j x y z, tuple_type_desc t a !! j = Some x →
                tuple_type_desc t b !! j = Some y →
                tuple_type_desc t r !! j = Some z → lat op t x y z) →
    lat op t a b r
| lat_function a b r :
    kind t a = FUNCTION_TYPE → kind t b = FUNCTION_TYPE →
    kind t r = FUNCTION_TYPE →
    (function_type_desc t a).2 = (function_type_desc t b).2 →
    (function_type_desc t r).2 = (function_type_desc t a).2 →
    lat op t (function_type_range t a) (function_type_range t b)
             (function_type_range t r) →
    lat op t a b r.

(** What a result [v] of the engine for the pair [a], [b] means. *)
Definition answer (op : lattice_op) (t : type_table) (a b v : Z) : Prop :=
  (v = NULL_TYPE → ¬ compat t a b) ∧ (v ≠ NULL_TYPE → lat op t a b v).

(** Every record of the two caches is such an answer. *)
Definition cache_sem (t : type_table) : Prop :=
  ∀ op h k0 k1 v, cache_of op t = Some h → h !! (k0, k1) = Some v →
    answer op t k0 k1 v.

Definition rec_sem (op : lattice_op)
    (rec : type_table → Z → Z → result (type_table * Z)) : Prop :=
  ∀ t x y t' r, Inv t → slots_ok t → cache_sem t → good t x → good t y →
    rec t x y = Ok (t', r) → cache_sem t' ∧ answer op t' x y r.

(** [t'] has the live types of [t], with their descriptors. *)
Definition agree (t t' : type_table) : Prop :=
  ∀ i, good t i → good t' i ∧ kind t' i = kind t i ∧ desc t' i = desc t i.

(** ** The index allocator ([utils/indexed_table.c]) *)

(** The ceiling on the number of slots. *)
Definition MAX_ELEMS : Z := YICES_MAX_TYPES.

Definition check_nelems (n : Z) : result unit :=
  if MAX_ELEMS <? n then OutOfMemory else Ok tt.

(** The value of a [uindex_t] stored in an [index_t]. *)
Definition to_index (x : Z) : Z := if x <? 2 ^ 31 then x else x - 2 ^ 32.

Definition extend {C} (vtbl_extend : indexed_table C → C)
    (t : indexed_table C) : result (indexed_table C) :=
  let n := wrap32 (it_size t + 1) in
  let n := wrap32 (n + Z.shiftr n 1) in
  _ ← check_nelems n;
  let t := mk_indexed_table (it_next t) (it_client t) n (it_nelems t)
             (it_free_idx t) (it_live_elems t) in
  Ok (mk_indexed_table (it_next t) (vtbl_extend t) (it_size t) (it_nelems t)
        (it_free_idx t) (it_live_elems t)).

Definition indexed_table_clear {C} (t : indexed_table C) : indexed_table C :=
  mk_indexed_table (it_next t) (it_client t) (it_size t) 0 (-1) 0.

(** [elems] is the memory [safe_malloc] returns, of unspecified content. *)
Definition indexed_table_init {C} (elems : Z → Z) (client : C) (n : Z)
  : result (indexed_table C) :=
  _ ← check_nelems n;
  Ok (indexed_table_clear (mk_indexed_table elems client n 0 0 0)).

Definition indexed_table_alloc {C} (vtbl_extend : indexed_table C → C)
    (t : indexed_table C) : result (indexed_table C * Z) :=
  let i := it_free_idx t in
  '(t, i) ←
    (if 0 <=? i then
       Ok (mk_indexed_table (it_next t) (it_client t) (it_size t) (it_nelems t)
             (it_next t i) (it_live_elems t), i)
     else
       let i := to_index (it_nelems t) in
       let t := mk_indexed_table (it_next t) (it_client t) (it_size t)
                  (wrap32 (it_nelems t + 1)) (it_free_idx t) (it_live_elems t) in
       t ← (if wrap32 i =? it_size t then extend vtbl_extend t else Ok t);
       Ok (t, i));
  Ok (mk_indexed_table (it_next t) (it_client t) (it_size t) (it_nelems t)
        (it_free_idx t) (wrap32 (it_live_elems t + 1)), i).

Definition indexed_table_free {C} (t : indexed_table C) (i : Z)
  : indexed_table C :=
  mk_indexed_table (<[i := it_free_idx t]> (it_next t)) (it_client t) (it_size t)
    (it_nelems t) i (wrap32 (it_live_elems t - 1)).

(** The size [extend] asks for. *)
Definition it_extended_size {C} (t : indexed_table C) : Z :=
  it_size t + 1 + (it_size t + 1) `div` 2.

(** The free list: the chain of [next] links from [f] visits exactly [l]. *)
Fixpoint it_chain (next : Z → Z) (f : Z) (l : list Z) : Prop :=
  match l with
  | [] => f < 0
  | x :: l' => f = x ∧ 0 ≤ x ∧ it_chain next (next x) l'
  end.

(** The slots handed out by [indexed_table_alloc] and not given back. *)
Definition it_live {C} (t : indexed_table C) (i : Z) : Prop :=
  0 ≤ i < it_nelems t ∧ ∀ l, it_chain (it_next t) (it_free_idx t) l → i ∉ l.

Record it_wf {C} (t : indexed_table C) (l : list Z) : Prop := mk_it_wf {
  itw_size : 0 ≤ it_nelems t ≤ it_size t ∧ it_size t ≤ MAX_ELEMS;
  itw_chain : it_chain (it_next t) (it_free_idx t) l;
  itw_nodup : NoDup l;
  itw_range : ∀ x, x ∈ l → 0 ≤ x < it_nelems t;
  itw_count : it_live_elems t = it_nelems t - Z.of_nat (length l)
}.

(** The tables a client gets from [indexed_table_init] by allocating,
    freeing slots it holds, and clearing. *)
Inductive it_reachable {C} (vtbl_extend : indexed_table C → C)
  : indexed_table C → Prop :=
| it_reachable_init elems client n t :
    0 ≤ n ≤ UINT32_MAX → indexed_table_init elems client n = Ok t →
    it_reachable vtbl_extend t
| it_reachable_alloc t t' i :
    it_reachable vtbl_extend t → indexed_table_alloc vtbl_extend t = Ok (t', i) →
    it_reachable vtbl_extend t'
| it_reachable_free t i :
    it_reachable vtbl_extend t → it_live t i →
    it_reachable vtbl_extend (indexed_table_free t i)
| it_reachable_clear t :
    it_reachable vtbl_extend t → it_reachable vtbl_extend (indexed_table_clear t).

(** ** Basic facts *)

Hypothesis max_types_bound : YICES_MAX_TYPES ≤ 2 ^ 31.

Ltac tsimpl :=
  cbn [kind desc card flags name gc_mark size nelems free_idx htbl stbl
       sup_tbl inf_tbl set_kind set_desc set_card set_flags set_name
       set_gc_mark set_size set_nelems set_free_idx set_htbl set_stbl
       set_sup_tbl set_inf_tbl install with_marks cache_of set_cache] in *.

Lemma good_type_spec t i : good_type t i = true ↔ good t i.
Proof.
  unfold good_type, good.
  rewrite !andb_true_iff, negb_true_iff, bool_decide_eq_false.
  rewrite Z.leb_le, Z.ltb_lt. tauto.
Qed.

Lemma fn_insert_eq {B} (f : Z → B) i v j :
  (<[i:=v]> f) j = if decide (i = j) then v else f j.
Proof. reflexivity. Qed.

Lemma bind_Ok {A B} (m : result A) (f : A → result B) b :
  m ≫= f = Ok b → ∃ a, m = Ok a ∧ f a = Ok b.
Proof. destruct m; simpl; intros; try discriminate; eauto. Qed.

Lemma extends_refl t : extends t t.
Proof. intros i Hi. auto. Qed.

Lemma extends_trans t1 t2 t3 : extends t1 t2 → extends t2 t3 → extends t1 t3.
Proof.
  intros H12 H23 i Hi.
  destruct (H12 i Hi) as (Hg & Hk & Hd & Hc & Hf).
  destruct (H23 i Hg) as (Hg' & Hk' & Hd' & Hc' & Hf').
  repeat split; try apply Hg'; congruence.
Qed.

Lemma extends_Forall t t' l : extends t t' → Forall (good t) l → Forall (good t') l.
Proof.
  intros H Hl. eapply Forall_impl; [exact Hl|].
  intros x Hx. apply (H x Hx).
Qed.

(** *** Allocation *)

Lemma allocate_type_id_cases t t1 i :
  0 ≤ nelems t ≤ size t ∧ size t < YICES_MAX_TYPES →
  allocate_type_id t = Ok (t1, i) →
  (0 ≤ i ∧ i = free_idx t
   ∧ t1 = set_name (set_free_idx t (desc_next_of (desc t i))) i None)
  ∨ (free_idx t < 0 ∧ i = nelems t
     ∧ ∃ s, nelems t < s ∧ s < YICES_MAX_TYPES
       ∧ t1 = set_name (set_size (set_nelems t (nelems t + 1)) s) i None).
Proof.
  intros [[Hn0 Hns] Hsz].
  assert (Hw : wrap32 (nelems t + 1) = nelems t + 1).
  { unfold wrap32. apply Z.mod_small. lia. }
  unfold allocate_type_id.
  destruct (0 <=? free_idx t) eqn:Hf.
  - intros [= <- <-]. left. apply Z.leb_le in Hf. auto.
  - apply Z.leb_gt in Hf. rewrite Hw. tsimpl.
    destruct (size t <=? nelems t) eqn:Hs.
    + apply Z.leb_le in Hs. unfold type_table_extend. tsimpl.
      assert (Hw1 : wrap32 (size t + 1) = size t + 1).
      { unfold wrap32. apply Z.mod_small. lia. }
      rewrite Hw1.
      assert (Hsh : 0 ≤ Z.shiftr (size t + 1) 1
                    ∧ 2 * Z.shiftr (size t + 1) 1 ≤ size t + 1).
      { rewrite Z.shiftr_div_pow2 by lia. change (2 ^ 1) with 2.
        pose proof (Z.mul_div_le (size t + 1) 2 eq_refl).
        pose proof (Z.div_pos (size t + 1) 2 ltac:(lia) eq_refl). lia. }
      assert (Hw2 : wrap32 (size t + 1 + Z.shiftr (size t + 1) 1)
                    = size t + 1 + Z.shiftr (size t + 1) 1).
      { unfold wrap32. apply Z.mod_small. lia. }
      rewrite Hw2.
      destruct (YICES_MAX_TYPES <=? _) eqn:Hm; simpl; [discriminate|].
      apply Z.leb_gt in Hm.
      intros [= <- <-]. right. split; [lia|]. split; [reflexivity|].
      eexists. split; [|split; [|reflexivity]]; lia.
    + apply Z.leb_gt in Hs. simpl.
      intros [= <- <-]. right. split; [lia|]. split; [reflexivity|].
      exists (size t). split; [lia|]. split; [lia|]. reflexivity.
Qed.

Lemma free_chain_update d f l i v :
  i ∉ l → free_chain d f l → free_chain (<[i:=v]> d) f l.
Proof.
  revert f. induction l as [|x l IH]; simpl; intros f Hi H; [exact H|].
  destruct H as (-> & Hx & n & Hd & Hc).
  apply not_elem_of_cons in Hi as [Hne Hi].
  split; [reflexivity|]. split; [exact Hx|]. exists n. split.
  - rewrite fn_insert_eq. destruct (decide (i = x)); congruence.
  - apply IH; assumption.
Qed.

Lemma free_chain_head d f l : free_chain d f l → 0 ≤ f → ∃ l', l = f :: l'.
Proof. destruct l; simpl; [lia|]. intros [-> _] _. eauto. Qed.

Lemma free_chain_neg d f l : free_chain d f l → f < 0 → l = [].
Proof. destruct l; simpl; [reflexivity|]. intros (-> & ? & _). lia. Qed.

Lemma max_rank_ge rk l c : c ∈ l → (rk c ≤ max_rank rk l)%nat.
Proof.
  induction l as [|x l IH]; simpl; intros H; [by apply elem_of_nil in H|].
  apply elem_of_cons in H as [->|H]; [lia|]. specialize (IH H). lia.
Qed.

(** *** A new type in a free slot keeps the invariants *)

Lemma install_Inv_gen t t' i k d :
  Inv t → ¬ good t i →
  kind t' = <[i:=k]> (kind t) → desc t' = <[i:=d]> (desc t) →
  (∀ j, j ≠ i → card t' j = card t j ∧ flags t' j = flags t j) →
  flags_ok (flags t' i) = true →
  gc_mark t' = gc_mark t → stbl t' = stbl t →
  sup_tbl t' = sup_tbl t → inf_tbl t' = inf_tbl t →
  0 ≤ i < nelems t' → nelems t ≤ nelems t' →
  (∀ j, 0 ≤ j < nelems t' → j = i ∨ j < nelems t) →
  nelems t' ≤ size t' < YICES_MAX_TYPES →
  (∃ l, free_chain (desc t') (free_idx t') l ∧ NoDup l
        ∧ ∀ j, j ∈ l ↔ (0 ≤ j < nelems t' ∧ kind t' j = UNUSED_TYPE)) →
  k ≠ UNUSED_TYPE → primitive k = false →
  Forall (good t) (children_of k d) →
  (∀ j, j ∈ htbl t' ↔ j ∈ htbl t ∨ (j = i ∧ hash_consed k = true)) →
  (hash_consed k = true → ∀ j, good t j → kind t j = k → desc t j ≠ d) →
  Inv t' ∧ extends t t' ∧ good t' i
  ∧ (∀ rk, ranked rk t → ∃ rk', ranked rk' t' ∧ ∀ j, good t j → rk' j = rk j).
Proof.
  intros HI Hfresh Hk Hd Hcf Hfl Hmk Hst Hsup Hinf Hin Hne Hrange Hsz Hfree
         Hk0 Hkp Hch Hh Hu.
  assert (Hg : ∀ j, good t' j ↔ good t j ∨ j = i).
  { intros j. unfold good. rewrite Hk, fn_insert_eq.
    destruct (decide (i = j)) as [<-|Hij].
    - split; [auto|]. intros _. split; [lia|exact Hk0].
    - split.
      + intros [Hr Hkj]. left. split; [|exact Hkj].
        destruct (Hrange j Hr); [congruence|lia].
      + intros [[Hr Hkj]|Hji]; [|congruence]. split; [lia|exact Hkj]. }
  assert (Hkj : ∀ j, good t j → kind t' j = kind t j ∧ desc t' j = desc t j).
  { intros j Hj. rewrite Hk, Hd, !fn_insert_eq.
    destruct (decide (i = j)) as [<-|]; [contradiction|auto]. }
  assert (Hki : kind t' i = k ∧ desc t' i = d).
  { rewrite Hk, Hd, !fn_insert_eq. destruct (decide (i = i)); [auto|congruence]. }
  assert (Hchild : ∀ j, good t j → children t' j = children t j).
  { intros j Hj. unfold children. destruct (Hkj j Hj) as [-> ->]. reflexivity. }
  assert (Hchi : children t' i = children_of k d).
  { unfold children. destruct Hki as [-> ->]. reflexivity. }
  assert (Hext : extends t t').
  { intros j Hj. destruct (Hkj j Hj) as [? ?].
    assert (j ≠ i) by (intros ->; contradiction).
    destruct (Hcf j) as [? ?]; [assumption|].
    split; [apply Hg; auto|]. auto. }
  assert (Hrk : ∀ rk, ranked rk t →
            ∃ rk', ranked rk' t' ∧ ∀ j, good t j → rk' j = rk j).
  { intros rk Hrk.
    exists (<[i := S (max_rank rk (children_of k d))]> rk). split.
    - intros j c Hj Hc. apply Hg in Hj as [Hj| ->].
      + rewrite (Hchild j Hj) in Hc. destruct (Hrk j c Hj Hc) as [Hgc Hlt].
        split; [apply Hg; auto|].
        rewrite !fn_insert_eq.
        destruct (decide (i = c)) as [<-|]; [contradiction|].
        destruct (decide (i = j)) as [<-|]; [contradiction|]. exact Hlt.
      + rewrite Hchi in Hc.
        assert (Hgc : good t c) by (eapply Forall_forall in Hch; eauto).
        split; [apply Hg; auto|].
        rewrite !fn_insert_eq.
        destruct (decide (i = c)) as [<-|]; [contradiction|].
        destruct (decide (i = i)); [|congruence].
        pose proof (max_rank_ge rk _ c Hc). lia.
    - intros j Hj. rewrite fn_insert_eq.
      destruct (decide (i = j)) as [<-|]; [contradiction|reflexivity]. }
  split; [|split; [exact Hext|split; [apply Hg; auto|exact Hrk]]].
  destruct (inv_prims t HI) as (Hn3 & Hb & Hint & Hreal).
  assert (Hi3 : ¬ 0 ≤ i < 3).
  { intros Hi. apply Hfresh. split; [lia|].
    assert (i = 0 ∨ i = 1 ∨ i = 2) as [->|[->| ->]] by lia; congruence. }
  constructor.
  - destruct (inv_size t HI). lia.
  - rewrite Hk, !fn_insert_eq.
    destruct (decide (i = 0)); [lia|]. destruct (decide (i = 1)); [lia|].
    destruct (decide (i = 2)); [lia|]. repeat split; try assumption. lia.
  - intros j Hj Hp. apply Hg in Hj as [Hj| ->].
    + destruct (Hkj j Hj) as [Hkk _]. rewrite Hkk in Hp.
      eapply inv_prim_ids; eauto.
    + destruct Hki as [Hkk _]. rewrite Hkk in Hp. congruence.
  - exact Hfree.
  - destruct (inv_rank t HI) as [rk Hrk0]. destruct (Hrk rk Hrk0) as (rk' & ? & _).
    eauto.
  - intros j. rewrite Hh, Hg, (inv_htbl t HI). split.
    + intros [[Hj Hhc]|[-> Hhc]].
      * destruct (Hkj j Hj) as [-> _]. auto.
      * destruct Hki as [-> _]. auto.
    + intros [[Hj| ->] Hhc].
      * destruct (Hkj j Hj) as [Hkk _]. rewrite Hkk in Hhc. auto.
      * destruct Hki as [Hkk _]. rewrite Hkk in Hhc. auto.
  - intros j1 j2 Hj1 Hj2 Hhc Hkk Hdd.
    apply Hg in Hj1 as [Hj1| ->]; apply Hg in Hj2 as [Hj2| ->].
    + destruct (Hkj j1 Hj1) as [E1 E2]. destruct (Hkj j2 Hj2) as [E3 E4].
      rewrite E1 in Hhc. rewrite E1, E3 in Hkk. rewrite E2, E4 in Hdd.
      eapply inv_unique; eauto.
    + exfalso. destruct (Hkj j1 Hj1) as [E1 E2]. destruct Hki as [E3 E4].
      rewrite E1 in Hhc. rewrite E1, E3 in Hkk. rewrite E2, E4 in Hdd.
      rewrite Hkk in Hhc. exact (Hu Hhc j1 Hj1 Hkk Hdd).
    + exfalso. destruct (Hkj j2 Hj2) as [E1 E2]. destruct Hki as [E3 E4].
      rewrite E3 in Hhc. rewrite E1, E3 in Hkk. rewrite E2, E4 in Hdd.
      exact (Hu Hhc j2 Hj2 (eq_sym Hkk) (eq_sym Hdd)).
    + reflexivity.
  - intros nm j Hj. rewrite Hst in Hj. apply Hg. left. eapply inv_stbl; eauto.
  - intros op h Hop k0 k1 v Hv.
    assert (Hop' : cache_of op t = Some h).
    { destruct op; simpl in *; congruence. }
    destruct (inv_cache t HI op h Hop' k0 k1 v Hv) as (? & ? & ? & Hvv).
    split; [assumption|]. split; [apply Hg; auto|]. split; [apply Hg; auto|].
    destruct Hvv; [auto|right; apply Hg; auto].
  - intros j Hj. apply Hg in Hj as [Hj| ->]; [|exact Hfl].
    assert (j ≠ i) by (intros ->; contradiction).
    destruct (Hcf j) as [_ ->]; [assumption|]. eapply inv_flags; eauto.
  - intros j Hj. rewrite Hmk in Hj. apply Hg. left. eapply inv_marks; eauto.
Qed.

Lemma install_Inv t t1 i k d c f h :
  Inv t → allocate_type_id t = Ok (t1, i) →
  k ≠ UNUSED_TYPE → primitive k = false →
  Forall (good t) (children_of k d) →
  flags_ok f = true →
  (∀ j, j ∈ h ↔ j ∈ htbl t ∨ (j = i ∧ hash_consed k = true)) →
  (hash_consed k = true → ∀ j, good t j → kind t j = k → desc t j ≠ d) →
  Inv (set_htbl (install t1 i k d c f) h)
  ∧ extends t (set_htbl (install t1 i k d c f) h)
  ∧ ¬ good t i
  ∧ good (set_htbl (install t1 i k d c f) h) i
  ∧ (∀ rk, ranked rk t →
       ∃ rk', ranked rk' (set_htbl (install t1 i k d c f) h)
              ∧ ∀ j, good t j → rk' j = rk j).
Proof.
  intros HI Ha Hk0 Hkp Hch Hf Hh Hu.
  destruct (inv_size t HI) as [[Hn0 Hns] Hsz].
  destruct (inv_free t HI) as (l & Hchain & Hnd & Hl).
  assert (Hcf : ∀ (g : Z → Z) v j, j ≠ i → (<[i:=v]> g) j = g j).
  { intros g v j Hj. rewrite fn_insert_eq. destruct (decide (i = j)); congruence. }
  assert (Hfi : ∀ (g : Z → Z) v, (<[i:=v]> g) i = v).
  { intros g v. rewrite fn_insert_eq. destruct (decide (i = i)); congruence. }
  destruct (allocate_type_id_cases t t1 i (inv_size t HI) Ha)
    as [(Hi0 & Hif & ->)|(Hneg & Hin & s & Hs1 & Hs2 & ->)].
  - destruct (free_chain_head _ _ _ Hchain ltac:(lia)) as [l' ->].
    rewrite <- Hif in *. simpl in Hchain.
    destruct Hchain as (_ & _ & n & Hdn & Hchain).
    apply NoDup_cons in Hnd as [Hil' Hnd'].
    assert (Hiu : 0 ≤ i < nelems t ∧ kind t i = UNUSED_TYPE).
    { apply Hl. left. }
    assert (Hfresh : ¬ good t i) by (intros [_ ?]; tauto).
    destruct (install_Inv_gen t (set_htbl (install (set_name (set_free_idx t
                 (desc_next_of (desc t i))) i None) i k d c f) h) i k d)
      as (G1 & G2 & G3 & G4);
      tsimpl; try reflexivity; try eassumption; try lia.
    + intros j Hj; split; apply Hcf; assumption.
    + rewrite Hfi; exact Hf.
    + exists l'. rewrite Hdn. simpl. split; [|split; [exact Hnd'|]].
      * apply free_chain_update; assumption.
      * intros j. rewrite fn_insert_eq. destruct (decide (i = j)) as [<-|Hij].
        -- split; [intros; contradiction|intros [_ ?]; contradiction].
        -- split.
           ++ intros Hj. apply Hl. right. exact Hj.
           ++ intros Hj. apply Hl in Hj.
              apply elem_of_cons in Hj as [?|?]; [congruence|assumption].
    + auto.
  - pose proof (free_chain_neg _ _ _ Hchain Hneg) as ->.
    assert (Hfresh : ¬ good t i) by (intros [? _]; lia).
    destruct (install_Inv_gen t (set_htbl (install (set_name (set_size
                 (set_nelems t (nelems t + 1)) s) i None) i k d c f) h) i k d)
      as (G1 & G2 & G3 & G4);
      tsimpl; try reflexivity; try eassumption; try lia.
    + intros j Hj; split; apply Hcf; assumption.
    + rewrite Hfi; exact Hf.
    + exists []. simpl. split; [exact Hneg|]. split; [constructor|].
      intros j. rewrite fn_insert_eq. destruct (decide (i = j)) as [<-|Hij].
      * split; [intros Hx; by apply elem_of_nil in Hx|intros [_ ?]; contradiction].
      * split; [intros Hx; by apply elem_of_nil in Hx|].
        intros [? Hx]. assert (0 ≤ j < nelems t) by lia.
        apply Hl; auto.
    + auto.
Qed.

Lemma allocate_type_id_frame t t1 i :
  allocate_type_id t = Ok (t1, i) →
  kind t1 = kind t ∧ desc t1 = desc t ∧ card t1 = card t ∧ flags t1 = flags t
  ∧ gc_mark t1 = gc_mark t ∧ htbl t1 = htbl t ∧ stbl t1 = stbl t
  ∧ sup_tbl t1 = sup_tbl t ∧ inf_tbl t1 = inf_tbl t.
Proof.
  unfold allocate_type_id, type_table_extend.
  repeat case_match; simpl; intros [= <- <-]; simplify_eq; tsimpl; tauto.
Qed.

(** *** Flag bytes, by enumeration of the 32 values *)

Lemma forall_range (P : Z → bool) n :
  forallb P (seqZ 0 n) = true → ∀ x, 0 ≤ x < n → P x = true.
Proof.
  intros H x Hx. rewrite forallb_forall in H. apply H.
  apply list_elem_of_In, elem_of_seqZ. lia.
Qed.

Lemma forall_range2 (P : Z → Z → bool) n :
  forallb (λ a, forallb (P a) (seqZ 0 n)) (seqZ 0 n) = true →
  ∀ a b, 0 ≤ a < n → 0 ≤ b < n → P a b = true.
Proof.
  intros H a b Ha Hb.
  apply (forall_range (P a) n); [|exact Hb].
  apply (forall_range (λ a, forallb (P a) (seqZ 0 n)) n H a Ha).
Qed.

Lemma flags_ok_range f : flags_ok f = true → 0 ≤ f < 32.
Proof. unfold flags_ok. rewrite !andb_true_iff, Z.leb_le, Z.ltb_lt. tauto. Qed.

Lemma land_flags_ok a b :
  flags_ok a = true → flags_ok b = true → flags_ok (Z.land a b) = true.
Proof.
  intros Ha Hb.
  pose proof (forall_range2
    (λ a b, implb (flags_ok a && flags_ok b) (flags_ok (Z.land a b))) 32
    ltac:(vm_compute; reflexivity) a b
    (flags_ok_range a Ha) (flags_ok_range b Hb)) as H.
  simpl in H. rewrite Ha, Hb in H. exact H.
Qed.

Lemma type_flags_conjunct_eq t e : type_flags_conjunct t e = conj_flags (flags t) e.
Proof. reflexivity. Qed.

Lemma conj_flags_ok fl e :
  Forall (λ x, flags_ok (fl x) = true) e → flags_ok (conj_flags fl e) = true.
Proof.
  unfold conj_flags. assert (H0 : flags_ok UNIT_TYPE_FLAGS = true) by reflexivity.
  revert H0. generalize UNIT_TYPE_FLAGS.
  induction e as [|x e IH]; simpl; intros acc Hacc He; [exact Hacc|].
  apply Forall_cons in He as [Hx He].
  apply IH; [|exact He]. apply land_flags_ok; assumption.
Qed.

Lemma conj_flags_bit fl e n :
  Z.testbit (conj_flags fl e) n
  = Z.testbit UNIT_TYPE_FLAGS n && forallb (λ x, Z.testbit (fl x) n) e.
Proof.
  unfold conj_flags. generalize UNIT_TYPE_FLAGS.
  induction e as [|x e IH]; simpl; intros acc; [by rewrite andb_true_r|].
  rewrite IH, Z.land_spec, andb_assoc. reflexivity.
Qed.

Lemma tuple_card_flag_flags t e conj :
  wrap8 (tuple_card_flag t e conj).2
  = tuple_flags conj (UINT32_MAX <? type_card_product t e).
Proof.
  unfold tuple_card_flag, tuple_flags.
  repeat case_match; simpl; reflexivity.
Qed.

Lemma function_card_flag_flags t e r rflag :
  let flag :=
    if Z.land rflag (Z.lor TYPE_IS_FINITE_MASK TYPE_IS_UNIT_MASK)
       =? TYPE_IS_FINITE_MASK
    then Z.land rflag (type_flags_conjunct t e) else rflag in
  wrap8 (Z.lor (Z.land rflag MINMAX_FLAGS_MASK)
               (Z.land (function_card_flag t e r flag).2 CARD_FLAGS_MASK))
  = function_flags rflag (type_flags_conjunct t e)
      (UINT32_MAX <? fun_type_card t e r).
Proof.
  unfold function_card_flag, function_flags. simpl.
  repeat case_match; simpl; reflexivity.
Qed.

Lemma tuple_flags_ok conj big :
  flags_ok conj = true → flags_ok (tuple_flags conj big) = true.
Proof.
  intros Hc.
  pose proof (forall_range
    (λ c, implb (flags_ok c)
            (flags_ok (tuple_flags c true) && flags_ok (tuple_flags c false))) 32
    ltac:(vm_compute; reflexivity) conj (flags_ok_range conj Hc)) as H.
  simpl in H. rewrite Hc in H. simpl in H. apply andb_true_iff in H.
  destruct big; tauto.
Qed.

Lemma function_flags_ok rflag conj big :
  flags_ok rflag = true → flags_ok conj = true →
  flags_ok (function_flags rflag conj big) = true.
Proof.
  intros Hr Hc.
  pose proof (forall_range2
    (λ r c, implb (flags_ok r && flags_ok c)
              (flags_ok (function_flags r c true)
               && flags_ok (function_flags r c false))) 32
    ltac:(vm_compute; reflexivity) rflag conj
    (flags_ok_range _ Hr) (flags_ok_range _ Hc)) as H.
  simpl in H. rewrite Hr, Hc in H. simpl in H. apply andb_true_iff in H.
  destruct big; tauto.
Qed.

(** *** The builders fill one fresh slot *)

Lemma new_bitvector_type_install t k t1 i :
  new_bitvector_type t k = Ok (t1, i) →
  ∃ t0 c f, allocate_type_id t = Ok (t0, i)
    ∧ t1 = install t0 i BITVECTOR_TYPE (desc_integer k) c f
    ∧ flags_ok f = true.
Proof.
  unfold new_bitvector_type. intros H.
  apply bind_Ok in H as ([t0 i0] & Ha & H). simpl in H.
  destruct (k <? 32); injection H as <- <-; eauto 10.
Qed.

Lemma new_scalar_type_install t k t1 i :
  new_scalar_type t k = Ok (t1, i) →
  ∃ t0, allocate_type_id t = Ok (t0, i)
    ∧ t1 = install t0 i SCALAR_TYPE (desc_integer k) k
             (if k =? 1 then UNIT_TYPE_FLAGS else SMALL_TYPE_FLAGS).
Proof.
  unfold new_scalar_type. intros H.
  apply bind_Ok in H as ([t0 i0] & Ha & H). simpl in H.
  destruct (k =? 1); injection H as <- <-; eauto.
Qed.

Lemma new_uninterpreted_type_install t t1 i :
  new_uninterpreted_type t = Ok (t1, i) →
  ∃ t0, allocate_type_id t = Ok (t0, i)
    ∧ t1 = install t0 i UNINTERPRETED_TYPE desc_null UINT32_MAX 24.
Proof.
  unfold new_uninterpreted_type. intros H.
  apply bind_Ok in H as ([t0 i0] & Ha & H). simpl in H.
  injection H as <- <-; eauto.
Qed.

Lemma new_tuple_type_install t e t1 i :
  new_tuple_type t e = Ok (t1, i) →
  ∃ t0, allocate_type_id t = Ok (t0, i)
    ∧ t1 = install t0 i TUPLE_TYPE (desc_tuple e)
             (wrap32 (tuple_card_flag t e (type_flags_conjunct t e)).1)
             (tuple_flags (type_flags_conjunct t e)
                (UINT32_MAX <? type_card_product t e)).
Proof.
  unfold new_tuple_type. intros H.
  apply bind_Ok in H as ([t0 i0] & Ha & H). simpl in H.
  destruct (allocate_type_id_frame _ _ _ Ha) as (_ & _ & Hc & Hf & _).
  set (X := set_desc (set_kind t0 i0 TUPLE_TYPE) i0 (desc_tuple e)) in *.
  assert (E1 : type_flags_conjunct X e = type_flags_conjunct t e).
  { unfold type_flags_conjunct, type_flags, X. tsimpl. rewrite Hf. reflexivity. }
  assert (E2 : ∀ p a, type_card_product_from X p a = type_card_product_from t p a).
  { assert (Ec : ∀ x, type_card X x = type_card t x).
    { intros x. unfold type_card, X. tsimpl. rewrite Hc. reflexivity. }
    intros p a. revert p.
    induction a as [|x a IH]; intros p; cbn [type_card_product_from];
      [reflexivity|].
    rewrite Ec, !IH. reflexivity. }
  assert (E3 : ∀ fl, tuple_card_flag X e fl = tuple_card_flag t e fl).
  { intros fl. unfold tuple_card_flag, type_card_product. rewrite E2. reflexivity. }
  rewrite E1, E3 in H.
  rewrite <- tuple_card_flag_flags.
  destruct (tuple_card_flag t e (type_flags_conjunct t e)) as [cd fl].
  injection H as <- <-. eauto.
Qed.

Lemma new_function_type_install t e r t1 i :
  new_function_type t e r = Ok (t1, i) →
  ∃ t0, allocate_type_id t = Ok (t0, i)
    ∧ t1 = install t0 i FUNCTION_TYPE (desc_function r e)
             (wrap32 (function_card_flag t e r
                (if Z.land (flags t r) (Z.lor TYPE_IS_FINITE_MASK TYPE_IS_UNIT_MASK)
                    =? TYPE_IS_FINITE_MASK
                 then Z.land (flags t r) (type_flags_conjunct t e)
                 else flags t r)).1)
             (function_flags (flags t r) (type_flags_conjunct t e)
                (UINT32_MAX <? fun_type_card t e r)).
Proof.
  unfold new_function_type. intros H.
  apply bind_Ok in H as ([t0 i0] & Ha & H). cbv beta iota zeta in H.
  destruct (allocate_type_id_frame _ _ _ Ha) as (_ & _ & Hc & Hf & _).
  set (X := set_desc (set_kind t0 i0 FUNCTION_TYPE) i0 (desc_function r e)) in *.
  assert (E0 : type_flags X r = flags t r).
  { unfold type_flags, X. tsimpl. rewrite Hf. reflexivity. }
  assert (E1 : type_flags_conjunct X e = type_flags_conjunct t e).
  { unfold type_flags_conjunct, type_flags, X. tsimpl. rewrite Hf. reflexivity. }
  assert (E2 : ∀ p a, type_card_product_from X p a = type_card_product_from t p a).
  { assert (Ec : ∀ x, type_card X x = type_card t x).
    { intros x. unfold type_card, X. tsimpl. rewrite Hc. reflexivity. }
    intros p a. revert p.
    induction a as [|x a IH]; intros p; cbn [type_card_product_from];
      [reflexivity|].
    rewrite Ec, !IH. reflexivity. }
  assert (E3 : fun_type_card X e r = fun_type_card t e r).
  { unfold fun_type_card, type_card_product. rewrite E2.
    unfold type_card, X. tsimpl. rewrite Hc. reflexivity. }
  assert (E4 : ∀ fl, function_card_flag X e r fl = function_card_flag t e r fl).
  { intros fl. unfold function_card_flag. rewrite E3. reflexivity. }
  rewrite E0, E1, E4 in H.
  rewrite <- function_card_flag_flags. cbv zeta.
  destruct (function_card_flag t e r _) as [cd fl].
  cbv beta iota zeta in H. injection H as <- <-. eauto.
Qed.

Lemma grows_refl t : Inv t → grows t t.
Proof.
  intros HI. split; [exact HI|]. split; [apply extends_refl|].
  intros rk Hrk. exists rk. auto.
Qed.

Lemma grows_trans t1 t2 t3 : grows t1 t2 → grows t2 t3 → grows t1 t3.
Proof.
  intros (HI2 & He12 & Hr12) (HI3 & He23 & Hr23).
  split; [exact HI3|]. split; [eapply extends_trans; eauto|].
  intros rk Hrk. destruct (Hr12 rk Hrk) as (rk2 & Hrk2 & E2).
  destruct (Hr23 rk2 Hrk2) as (rk3 & Hrk3 & E3).
  exists rk3. split; [exact Hrk3|]. intros j Hj.
  rewrite E3; [apply E2; exact Hj|]. apply (He12 j Hj).
Qed.

Lemma install_fields t i k d c f :
  kind (install t i k d c f) i = k ∧ desc (install t i k d c f) i = d
  ∧ card (install t i k d c f) i = c ∧ flags (install t i k d c f) i = f.
Proof.
  tsimpl. rewrite !fn_insert_eq. destruct (decide (i = i)); [auto|congruence].
Qed.

Lemma install_plain t t1 i k d c f :
  Inv t → allocate_type_id t = Ok (t1, i) →
  k ≠ UNUSED_TYPE → primitive k = false → hash_consed k = false →
  Forall (good t) (children_of k d) → flags_ok f = true →
  grows t (install t1 i k d c f) ∧ ¬ good t i ∧ good (install t1 i k d c f) i.
Proof.
  intros HI Ha Hk0 Hkp Hhc Hch Hf.
  destruct (allocate_type_id_frame _ _ _ Ha) as (_ & _ & _ & _ & _ & Hh & _).
  change (install t1 i k d c f)
    with (set_htbl (install t1 i k d c f) (htbl t1)).
  destruct (install_Inv t t1 i k d c f (htbl t1) HI Ha Hk0 Hkp Hch Hf)
    as (G1 & G2 & G3 & G4 & G5).
  - intros j. rewrite Hh, Hhc. split; [auto|]. intros [?|[_ ?]]; [auto|discriminate].
  - rewrite Hhc. discriminate.
  - unfold grows. auto.
Qed.

(** *** Scalar and uninterpreted types *)

Lemma new_scalar_type_grows t k t' i :
  Inv t → new_scalar_type t k = Ok (t', i) →
  grows t t' ∧ ¬ good t i ∧ good t' i
  ∧ kind t' i = SCALAR_TYPE ∧ desc t' i = desc_integer k ∧ card t' i = k
  ∧ flags t' i = (if k =? 1 then UNIT_TYPE_FLAGS else SMALL_TYPE_FLAGS).
Proof.
  intros HI H. apply new_scalar_type_install in H as (t0 & Ha & ->).
  destruct (install_plain t t0 i SCALAR_TYPE (desc_integer k) k
              (if k =? 1 then UNIT_TYPE_FLAGS else SMALL_TYPE_FLAGS) HI Ha)
    as (G1 & G2 & G3); try discriminate; try reflexivity.
  - constructor.
  - destruct (k =? 1); reflexivity.
  - split; [exact G1|]. split; [exact G2|]. split; [exact G3|].
    apply install_fields.
Qed.

Lemma new_uninterpreted_type_grows t t' i :
  Inv t → new_uninterpreted_type t = Ok (t', i) →
  grows t t' ∧ ¬ good t i ∧ good t' i
  ∧ kind t' i = UNINTERPRETED_TYPE ∧ desc t' i = desc_null
  ∧ card t' i = UINT32_MAX ∧ flags t' i = 24.
Proof.
  intros HI H. apply new_uninterpreted_type_install in H as (t0 & Ha & ->).
  destruct (install_plain t t0 i UNINTERPRETED_TYPE desc_null UINT32_MAX 24 HI Ha)
    as (G1 & G2 & G3); try discriminate; try reflexivity.
  - constructor.
  - split; [exact G1|]. split; [exact G2|]. split; [exact G3|].
    apply install_fields.
Qed.

(** *** Hash-consed types *)

Lemma int_htbl_get_obj_spec eq build k d t t' i :
  Inv t → hash_consed k = true →
  (∀ j, eq t j = true ↔ kind t j = k ∧ desc t j = d) →
  Forall (good t) (children_of k d) →
  (∀ t1 i, build t = Ok (t1, i) →
     ∃ t0 c f, allocate_type_id t = Ok (t0, i)
       ∧ t1 = install t0 i k d c f ∧ flags_ok f = true) →
  int_htbl_get_obj eq build t = Ok (t', i) →
  grows t t' ∧ good t' i ∧ kind t' i = k ∧ desc t' i = d
  ∧ ((t' = t ∧ good t i)
     ∨ (¬ good t i ∧ ∃ t1, build t = Ok (t1, i) ∧ t' = set_htbl t1 (i :: htbl t1))).
Proof.
  intros HI Hhc Heq Hch Hb. unfold int_htbl_get_obj.
  destruct (List.find (eq t) (htbl t)) as [j|] eqn:Hfind.
  - intros [= <- <-]. apply find_some in Hfind as [Hin Hj].
    apply list_elem_of_In, (inv_htbl t HI) in Hin as [Hg _].
    apply Heq in Hj as [Hk Hd].
    split; [apply grows_refl; exact HI|].
    split; [exact Hg|]. split; [exact Hk|]. split; [exact Hd|]. left. auto.
  - intros H. apply bind_Ok in H as ([t1 i1] & Hbuild & H).
    injection H as <- <-.
    destruct (Hb _ _ Hbuild) as (t0 & c & f & Ha & -> & Hf).
    destruct (allocate_type_id_frame _ _ _ Ha) as (_ & _ & _ & _ & _ & Hh & _).
    destruct (install_Inv t t0 i1 k d c f (i1 :: htbl (install t0 i1 k d c f)) HI Ha)
      as (G1 & G2 & G3 & G4 & G5); try assumption.
    + destruct k; discriminate.
    + destruct k; try discriminate; reflexivity.
    + intros j. tsimpl. rewrite Hh, elem_of_cons. tauto.
    + intros _ j Hj Hk Hd.
      assert (Hin : j ∈ htbl t) by (apply (inv_htbl t HI); rewrite Hk; auto).
      apply list_elem_of_In in Hin.
      pose proof (find_none _ _ Hfind j Hin) as Hne.
      assert (eq t j = true) by (apply Heq; auto). congruence.
    + split; [unfold grows; auto|]. split; [exact G4|].
      split; [apply install_fields|]. split; [apply install_fields|].
      right. split; [exact G3|]. eauto.
Qed.

Lemma int_htbl_get_obj_hit eq build k d t i :
  Inv t → hash_consed k = true →
  (∀ j, eq t j = true ↔ kind t j = k ∧ desc t j = d) →
  good t i → kind t i = k → desc t i = d →
  int_htbl_get_obj eq build t = Ok (t, i).
Proof.
  intros HI Hhc Heq Hg Hk Hd. unfold int_htbl_get_obj.
  assert (Hin : i ∈ htbl t) by (apply (inv_htbl t HI); rewrite Hk; auto).
  destruct (List.find (eq t) (htbl t)) as [j|] eqn:Hfind.
  - apply find_some in Hfind as [Hjn Hj].
    apply list_elem_of_In, (inv_htbl t HI) in Hjn as [Hgj _].
    apply Heq in Hj as [Hkj Hdj].
    assert (i = j) as ->; [|reflexivity].
    eapply (inv_unique t HI); eauto; congruence.
  - apply list_elem_of_In in Hin.
    pose proof (find_none _ _ Hfind i Hin) as Hne.
    assert (eq t i = true) by (apply Heq; auto). congruence.
Qed.

Lemma eq_bv_type_spec size t j :
  eq_bv_type size t j = true
  ↔ kind t j = BITVECTOR_TYPE ∧ desc t j = desc_integer size.
Proof.
  unfold eq_bv_type. rewrite andb_true_iff, !bool_decide_eq_true. tauto.
Qed.

Lemma eq_tuple_type_spec elem t j :
  eq_tuple_type elem t j = true
  ↔ kind t j = TUPLE_TYPE ∧ desc t j = desc_tuple elem.
Proof.
  unfold eq_tuple_type. rewrite andb_true_iff, !bool_decide_eq_true. tauto.
Qed.

Lemma eq_function_type_spec range dom t j :
  eq_function_type range dom t j = true
  ↔ kind t j = FUNCTION_TYPE ∧ desc t j = desc_function range dom.
Proof.
  unfold eq_function_type. rewrite andb_true_iff, !bool_decide_eq_true. tauto.
Qed.

Lemma good_flags_ok t e :
  Inv t → Forall (good t) e → Forall (λ x, flags_ok (flags t x) = true) e.
Proof.
  intros HI He. eapply Forall_impl; [exact He|].
  intros x Hx. apply (inv_flags t HI x Hx).
Qed.

Lemma bv_type_spec t size t' i :
  Inv t → bv_type t size = Ok (t', i) →
  grows t t' ∧ good t' i ∧ kind t' i = BITVECTOR_TYPE
  ∧ desc t' i = desc_integer size
  ∧ ((t' = t ∧ good t i)
     ∨ (¬ good t i
        ∧ ∃ t1, new_bitvector_type t size = Ok (t1, i)
                ∧ t' = set_htbl t1 (i :: htbl t1))).
Proof.
  intros HI. apply int_htbl_get_obj_spec; try assumption; try reflexivity.
  - apply eq_bv_type_spec.
  - constructor.
  - intros t1 i1 H. apply new_bitvector_type_install in H. exact H.
Qed.

Lemma tuple_type_spec t elem t' i :
  Inv t → Forall (good t) elem → tuple_type t elem = Ok (t', i) →
  grows t t' ∧ good t' i ∧ kind t' i = TUPLE_TYPE
  ∧ desc t' i = desc_tuple elem
  ∧ ((t' = t ∧ good t i)
     ∨ (¬ good t i
        ∧ ∃ t1, new_tuple_type t elem = Ok (t1, i)
                ∧ t' = set_htbl t1 (i :: htbl t1))).
Proof.
  intros HI He. apply int_htbl_get_obj_spec; try assumption; try reflexivity.
  - apply eq_tuple_type_spec.
  - intros t1 i1 H. apply new_tuple_type_install in H as (t0 & Ha & ->).
    eexists _, _, _. split; [exact Ha|]. split; [reflexivity|].
    apply tuple_flags_ok. rewrite type_flags_conjunct_eq.
    apply conj_flags_ok, good_flags_ok; assumption.
Qed.

Lemma function_type_spec t range dom t' i :
  Inv t → Forall (good t) dom → good t range →
  function_type t range dom = Ok (t', i) →
  grows t t' ∧ good t' i ∧ kind t' i = FUNCTION_TYPE
  ∧ desc t' i = desc_function range dom
  ∧ ((t' = t ∧ good t i)
     ∨ (¬ good t i
        ∧ ∃ t1, new_function_type t dom range = Ok (t1, i)
                ∧ t' = set_htbl t1 (i :: htbl t1))).
Proof.
  intros HI He Hr. apply int_htbl_get_obj_spec; try assumption; try reflexivity.
  - apply eq_function_type_spec.
  - simpl. constructor; assumption.
  - intros t1 i1 H. apply new_function_type_install in H as (t0 & Ha & ->).
    eexists _, _, _. split; [exact Ha|]. split; [reflexivity|].
    apply function_flags_ok; [apply (inv_flags t HI _ Hr)|].
    rewrite type_flags_conjunct_eq.
    apply conj_flags_ok, good_flags_ok; assumption.
Qed.

(** *** Names, marks and caches leave the types alone *)

Lemma stbl_remove_subseteq s nm x : x ∈ stbl_remove s nm → x ∈ s.
Proof.
  induction s as [|[m i] s IH]; simpl; [auto|].
  destruct (bool_decide (m = nm)).
  - intros H. by right.
  - intros H. apply elem_of_cons in H as [->|H]; [left|right; auto].
Qed.

Lemma set_type_name_Inv t i nm : Inv t → good t i → Inv (set_type_name t i nm).
Proof.
  intros HI Hi. unfold set_type_name.
  destruct HI; destruct (name t i); constructor; tsimpl; try assumption;
    intros nm' j Hj; apply elem_of_cons in Hj as [[= -> ->]|Hj]; eauto.
Qed.

Lemma remove_type_name_Inv t nm : Inv t → Inv (remove_type_name t nm).
Proof.
  intros HI. unfold remove_type_name.
  destruct HI; constructor; tsimpl; try assumption.
  intros nm' j Hj. apply stbl_remove_subseteq in Hj. eauto.
Qed.

Lemma set_gc_mark_Inv t i : Inv t → good t i → Inv (type_table_set_gc_mark t i).
Proof.
  intros HI Hi. unfold type_table_set_gc_mark.
  destruct HI; constructor; tsimpl; try assumption.
  intros j. rewrite fn_insert_eq. destruct (decide (i = j)) as [<-|].
  - intros _. exact Hi.
  - intros Hj. apply inv_marks0. exact Hj.
Qed.

Lemma cache_ok_empty t : cache_ok t ∅.
Proof. intros k0 k1 v H. rewrite lookup_empty in H. discriminate. Qed.

Lemma get_table_Inv op t : Inv t → Inv (get_table op t).
Proof.
  intros HI. unfold get_table. destruct (cache_of op t) eqn:Hc; [exact HI|].
  destruct HI; destruct op; constructor; tsimpl; try assumption;
    intros [] h Hh; tsimpl;
    first [ injection Hh as <-; apply cache_ok_empty
          | exact (inv_cache0 Sup h Hh) | exact (inv_cache0 Inf h Hh) ].
Qed.

Lemma get_table_Some op t : ∃ h, cache_of op (get_table op t) = Some h.
Proof.
  unfold get_table. destruct (cache_of op t) eqn:Hc; [eauto|].
  destruct op; tsimpl; eauto.
Qed.

Lemma int_hmap2_add_Inv op t k0 k1 v :
  Inv t → k0 < k1 → good t k0 → good t k1 → (v = NULL_TYPE ∨ good t v) →
  Inv (int_hmap2_add op t k0 k1 v).
Proof.
  intros HI Hlt H0 H1 Hv.
  assert (Hnew : cache_ok t (<[(k0, k1):=v]> (default ∅ (cache_of op t)))).
  { intros a b w Hw. destruct (decide ((k0, k1) = (a, b))) as [[= <- <-]|Hne].
    - rewrite lookup_insert_eq in Hw. injection Hw as <-. auto.
    - rewrite lookup_insert_ne in Hw by exact Hne.
      destruct (cache_of op t) as [h|] eqn:Hc; simpl in Hw.
      + eapply (inv_cache t HI); eauto.
      + rewrite lookup_empty in Hw. discriminate. }
  unfold int_hmap2_add.
  destruct HI; destruct op; constructor; tsimpl; try assumption;
    intros [] h Hh; tsimpl;
    first [ injection Hh as <-; exact Hnew
          | exact (inv_cache0 Sup h Hh) | exact (inv_cache0 Inf h Hh) ].
Qed.

Lemma same_types_grows t t' :
  Inv t' → kind t' = kind t → desc t' = desc t → card t' = card t →
  flags t' = flags t → nelems t' = nelems t → grows t t'.
Proof.
  intros HI Hk Hd Hc Hf Hn.
  assert (Hg : ∀ j, good t' j ↔ good t j).
  { intros j. unfold good. rewrite Hk, Hn. tauto. }
  split; [exact HI|]. split.
  - intros j Hj. rewrite Hk, Hd, Hc, Hf. split; [apply Hg; exact Hj|auto].
  - intros rk Hrk. exists rk. split; [|auto].
    intros j c Hj Hc'. apply Hg in Hj. unfold children in Hc'.
    rewrite Hk, Hd in Hc'. destruct (Hrk j c Hj Hc') as [? ?].
    split; [apply Hg; assumption|assumption].
Qed.

Lemma get_table_grows op t : Inv t → grows t (get_table op t).
Proof.
  intros HI. apply same_types_grows; [apply get_table_Inv; exact HI|..];
    unfold get_table; destruct (cache_of op t), op; reflexivity.
Qed.

Lemma int_hmap2_add_grows op t k0 k1 v :
  Inv t → k0 < k1 → good t k0 → good t k1 → (v = NULL_TYPE ∨ good t v) →
  grows t (int_hmap2_add op t k0 k1 v).
Proof.
  intros HI ? ? ? ?.
  apply same_types_grows; [apply int_hmap2_add_Inv; assumption|..];
    destruct op; reflexivity.
Qed.

(** *** The initial table *)

Lemma init_type_table_Inv n t :
  0 ≤ n → init_type_table n = Ok t → Inv t.
Proof.
  intros Hn H. unfold init_type_table in H.
  apply bind_Ok in H as (ta & Hinit & H).
  unfold type_table_init in Hinit.
  destruct (YICES_MAX_TYPES <=? n) eqn:Hmax; [discriminate|].
  apply Z.leb_gt in Hmax. injection Hinit as <-.
  unfold add_primitive_types in H.
  apply bind_Ok in H as ([t1 i1] & Ha1 & H).
  apply allocate_type_id_cases in Ha1; [|tsimpl; lia].
  destruct Ha1 as [(? & ? & _)|(_ & Hi1 & s1 & Hs1 & Hs1' & ->)];
    [tsimpl; unfold NULL_TYPE in *; lia|]; tsimpl.
  cbv beta iota zeta in H.
  apply bind_Ok in H as ([t2 i2] & Ha2 & H).
  apply allocate_type_id_cases in Ha2; [|tsimpl; lia].
  destruct Ha2 as [(? & ? & _)|(_ & Hi2 & s2 & Hs2 & Hs2' & ->)];
    [tsimpl; unfold NULL_TYPE in *; lia|]; tsimpl.
  cbv beta iota zeta in H.
  apply bind_Ok in H as ([t3 i3] & Ha3 & H).
  apply allocate_type_id_cases in Ha3; [|tsimpl; lia].
  destruct Ha3 as [(? & ? & _)|(_ & Hi3 & s3 & Hs3 & Hs3' & ->)];
    [tsimpl; unfold NULL_TYPE in *; lia|]; tsimpl.
  cbv beta iota zeta in H. injection H as <-.
  subst i1 i2 i3. simpl in *.
  assert (Hk : ∀ j, 0 ≤ j < 3 →
    (<[2:=REAL_TYPE]> (<[1:=INT_TYPE]> (<[0:=BOOL_TYPE]> (λ _ : Z, UNUSED_TYPE)))) j
    ≠ UNUSED_TYPE
    ∧ hash_consed ((<[2:=REAL_TYPE]> (<[1:=INT_TYPE]>
         (<[0:=BOOL_TYPE]> (λ _ : Z, UNUSED_TYPE)))) j) = false
    ∧ flags_ok ((<[2:=Z.lor INFINITE_TYPE_FLAGS TYPE_IS_MAXIMAL_MASK]>
         (<[1:=Z.lor INFINITE_TYPE_FLAGS TYPE_IS_MINIMAL_MASK]>
            (<[0:=SMALL_TYPE_FLAGS]> (λ _ : Z, 0)))) j) = true
    ∧ children_of ((<[2:=REAL_TYPE]> (<[1:=INT_TYPE]>
         (<[0:=BOOL_TYPE]> (λ _ : Z, UNUSED_TYPE)))) j)
        ((<[2:=desc_null]> (<[1:=desc_null]>
            (<[0:=desc_null]> (λ _ : Z, desc_null)))) j) = []).
  { intros j Hj. assert (j = 0 ∨ j = 1 ∨ j = 2) as [->|[->| ->]] by lia;
      repeat split; discriminate || reflexivity. }
  constructor; unfold ranked; unfold children, good; tsimpl.
  - lia.
  - repeat split; lia || reflexivity.
  - intros j [Hj _] _. lia.
  - exists []. split; [simpl; unfold NULL_TYPE; lia|].
    split; [constructor|]. intros j. split.
    + intros Hx. by apply elem_of_nil in Hx.
    + intros [Hj Hu]. destruct (Hk j ltac:(lia)) as [Hne _]. contradiction.
  - exists (λ _, O). intros j c [Hj _] Hc.
    destruct (Hk j ltac:(lia)) as (_ & _ & _ & E).
    assert (Hc' : c ∈ @nil Z) by (rewrite <- E; exact Hc).
    by apply elem_of_nil in Hc'.
  - intros j. split.
    + intros Hx. by apply elem_of_nil in Hx.
    + intros [[Hj _] Hh]. destruct (Hk j ltac:(lia)) as (_ & E & _).
      exfalso. eapply eq_true_false_abs; [exact Hh|exact E].
  - intros j1 j2 [Hj _] _ Hh. destruct (Hk j1 ltac:(lia)) as (_ & E & _).
    exfalso. eapply eq_true_false_abs; [exact Hh|exact E].
  - intros nm j Hx. by apply elem_of_nil in Hx.
  - intros [] h Hh; discriminate.
  - intros j [Hj _]. apply (Hk j ltac:(lia)).
  - intros j Hj. discriminate.
Qed.

(** *** Constructors never exhaust the recursion bound *)

Lemma allocate_type_id_fuel t : allocate_type_id t ≠ OutOfFuel.
Proof.
  unfold allocate_type_id, type_table_extend.
  repeat case_match; simpl; try discriminate.
Qed.

Lemma int_htbl_get_obj_fuel eq build t :
  build t ≠ OutOfFuel → int_htbl_get_obj eq build t ≠ OutOfFuel.
Proof.
  unfold int_htbl_get_obj. intros Hb.
  destruct (List.find _ _); [discriminate|].
  destruct (build t) as [[t1 i]| |]; simpl; congruence.
Qed.

Lemma tuple_type_fuel t e : tuple_type t e ≠ OutOfFuel.
Proof.
  apply int_htbl_get_obj_fuel. unfold build_tuple_type, new_tuple_type.
  pose proof (allocate_type_id_fuel t).
  destruct (allocate_type_id t) as [[t1 i]| |]; simpl; try congruence.
  destruct (tuple_card_flag _ _ _); discriminate.
Qed.

Lemma function_type_fuel t r e : function_type t r e ≠ OutOfFuel.
Proof.
  apply int_htbl_get_obj_fuel. unfold build_function_type, new_function_type.
  pose proof (allocate_type_id_fuel t).
  destruct (allocate_type_id t) as [[t1 i]| |]; simpl; try congruence.
  destruct (function_card_flag _ _ _ _); discriminate.
Qed.

(** *** The sup/inf engine *)

Lemma cheap_known op t tau1 tau2 :
  cheap op t tau1 tau2 ≠ UNKNOWN_TYPE →
  cheap op t tau1 tau2 = tau1 ∨ cheap op t tau1 tau2 = int_id
  ∨ cheap op t tau1 tau2 = real_id ∨ cheap op t tau1 tau2 = NULL_TYPE.
Proof.
  unfold cheap. repeat case_match; auto; congruence.
Qed.

Lemma cheap_unknown op t tau1 tau2 :
  0 ≤ tau1 → cheap op t tau1 tau2 = UNKNOWN_TYPE →
  tau1 ≠ tau2
  ∧ ((kind t tau1 = TUPLE_TYPE ∧ kind t tau2 = TUPLE_TYPE)
     ∨ (kind t tau1 = FUNCTION_TYPE ∧ kind t tau2 = FUNCTION_TYPE)).
Proof.
  intros H0. unfold cheap.
  destruct (tau1 =? tau2) eqn:E.
  { unfold UNKNOWN_TYPE. lia. }
  apply Z.eqb_neq in E. split; [exact E|].
  revert H.
  destruct (_ || _); [unfold UNKNOWN_TYPE, real_id, int_id; destruct op; discriminate|].
  destruct (kind t tau1); try (unfold UNKNOWN_TYPE, NULL_TYPE; discriminate).
  - destruct (bool_decide (kind t tau2 = TUPLE_TYPE)) eqn:E2; simpl.
    + apply bool_decide_eq_true in E2. auto.
    + unfold UNKNOWN_TYPE, NULL_TYPE; discriminate.
  - destruct (bool_decide (kind t tau2 = FUNCTION_TYPE)) eqn:E2; simpl.
    + apply bool_decide_eq_true in E2. auto.
    + unfold UNKNOWN_TYPE, NULL_TYPE; discriminate.
Qed.

Lemma lat_tuple_loop_sound rec :
  rec_sound rec →
  ∀ a b t s t' res,
    Inv t → Forall (good t) a → Forall (good t) b → Forall (good t) s →
    lat_tuple_loop rec t a b s = Ok (t', res) →
    grows t t' ∧ match res with Some s' => Forall (good t') s' | None => True end.
Proof.
  intros Hrec a. induction a as [|x a IH]; intros b t s t' res HI Ha Hb Hs H.
  - simpl in H. injection H as <- <-. split; [apply grows_refl; exact HI|exact Hs].
  - destruct b as [|y b].
    { simpl in H. injection H as <- <-.
      split; [apply grows_refl; exact HI|exact Hs]. }
    apply Forall_cons in Ha as [Hx Ha]. apply Forall_cons in Hb as [Hy Hb].
    cbn [lat_tuple_loop] in H.
    apply bind_Ok in H as ([t1 aux] & Hr & H). cbv beta iota in H.
    destruct (Hrec t x y t1 aux HI Hx Hy Hr) as [Hg Haux].
    destruct (aux =? NULL_TYPE) eqn:E.
    + injection H as <- <-. auto.
    + apply Z.eqb_neq in E. destruct Haux as [?|Haux]; [contradiction|].
      destruct Hg as (HI1 & He1 & Hr1).
      destruct (IH b t1 (s ++ [aux]) t' res HI1) as [Hg' Hres]; try assumption.
      * eapply extends_Forall; eauto.
      * eapply extends_Forall; eauto.
      * apply Forall_app. split; [eapply extends_Forall; eauto|].
        constructor; [exact Haux|constructor].
      * split; [|exact Hres].
        eapply grows_trans; [|exact Hg']. split; auto.
Qed.

Lemma lat_tuple_types_sound rec t a b t' r :
  rec_sound rec → Inv t → Forall (good t) a → Forall (good t) b →
  lat_tuple_types rec t a b = Ok (t', r) →
  grows t t' ∧ (r = NULL_TYPE ∨ good t' r).
Proof.
  intros Hrec HI Ha Hb H. unfold lat_tuple_types in H.
  apply bind_Ok in H as ([t1 res] & Hl & H). cbv beta iota in H.
  destruct (lat_tuple_loop_sound rec Hrec a b t [] t1 res HI Ha Hb
              (Forall_nil_2 _) Hl) as [Hg Hres].
  destruct res as [s|].
  - destruct Hg as (HI1 & He1 & Hr1).
    destruct (tuple_type_spec t1 s t' r HI1 Hres H) as (Hg2 & Hgood & _).
    split; [|right; exact Hgood].
    eapply grows_trans; [|exact Hg2]. split; auto.
  - injection H as <- <-. auto.
Qed.

Lemma lat_fun_types_sound rec t a tau1 tau2 t' r :
  rec_sound rec → Inv t → Forall (good t) a → good t tau1 → good t tau2 →
  lat_fun_types rec t a tau1 tau2 = Ok (t', r) →
  grows t t' ∧ (r = NULL_TYPE ∨ good t' r).
Proof.
  intros Hrec HI Ha H1 H2 H. unfold lat_fun_types in H.
  apply bind_Ok in H as ([t1 aux] & Hr & H). cbv beta iota in H.
  destruct (Hrec t tau1 tau2 t1 aux HI H1 H2 Hr) as [Hg Haux].
  destruct (aux =? NULL_TYPE) eqn:E.
  - injection H as <- <-. auto.
  - apply Z.eqb_neq in E. destruct Haux as [?|Haux]; [contradiction|].
    destruct Hg as (HI1 & He1 & Hr1).
    destruct (function_type_spec t1 aux a t' r HI1) as (Hg2 & Hgood & _);
      try assumption.
    + eapply extends_Forall; eauto.
    + split; [|right; exact Hgood].
      eapply grows_trans; [|exact Hg2]. split; auto.
Qed.

Lemma Inv_children_good t i :
  Inv t → good t i → Forall (good t) (children t i).
Proof.
  intros HI Hi. destruct (inv_rank t HI) as [rk Hrk].
  apply Forall_forall. intros c Hc. apply (Hrk i c Hi Hc).
Qed.

Lemma lat_type_S op fuel t tau1 tau2 :
  lat_type op (S fuel) t tau1 tau2 =
  if cheap op t tau1 tau2 =? UNKNOWN_TYPE then
    if tau2 <? tau1 then lat_slow op (lat_type op fuel) t tau2 tau1
    else lat_slow op (lat_type op fuel) t tau1 tau2
  else Ok (t, cheap op t tau1 tau2).
Proof. cbn [lat_type]. cbv zeta. destruct (tau2 <? tau1); reflexivity. Qed.

Lemma lat_slow_sound op rec t k0 k1 t' r :
  rec_sound rec → Inv t → good t k0 → good t k1 → k0 < k1 →
  (kind t k0 = TUPLE_TYPE ∧ kind t k1 = TUPLE_TYPE
   ∨ kind t k0 = FUNCTION_TYPE ∧ kind t k1 = FUNCTION_TYPE) →
  lat_slow op rec t k0 k1 = Ok (t', r) →
  grows t t' ∧ (r = NULL_TYPE ∨ good t' r).
Proof.
  unfold lat_slow. cbv zeta.
  intros Hrec HI H0 H1 Hlt Hkind.
  pose proof (get_table_grows op t HI) as Hg1.
  destruct Hg1 as (HI1 & He1 & Hr1).
  set (t1 := get_table op t) in *.
  assert (G0 : good t1 k0) by apply (He1 k0 H0).
  assert (G1 : good t1 k1) by apply (He1 k1 H1).
  assert (K0 : kind t1 k0 = kind t k0) by apply (He1 k0 H0).
  assert (K1 : kind t1 k1 = kind t k1) by apply (He1 k1 H1).
  destruct (int_hmap2_find (cache_of op t1) k0 k1) as [v|] eqn:Hfind.
  - intros [= <- <-]. split; [split; auto|].
    unfold int_hmap2_find in Hfind.
    destruct (cache_of op t1) as [h|] eqn:Hc; [|discriminate]. simpl in Hfind.
    apply (inv_cache t1 HI1 op h Hc k0 k1 v Hfind).
  - intros H. apply bind_Ok in H as ([t2 aux] & Hcomp & H). cbv beta iota in H.
    injection H as <- <-.
    assert (Hcs0 := Inv_children_good t1 k0 HI1 G0).
    assert (Hcs1 := Inv_children_good t1 k1 HI1 G1).
    unfold children in Hcs0, Hcs1.
    assert (Hstep : grows t1 t2 ∧ (aux = NULL_TYPE ∨ good t2 aux)).
    { destruct Hkind as [[Hk0 Hk1]|[Hk0 Hk1]].
      - rewrite K0, Hk0 in *. rewrite K1, Hk1 in *.
        rewrite bool_decide_eq_true_2 in Hcomp by reflexivity.
        exact (lat_tuple_types_sound rec t1 _ _ t2 aux Hrec HI1 Hcs0 Hcs1 Hcomp).
      - rewrite K0, Hk0 in *. rewrite K1, Hk1 in *.
        rewrite bool_decide_eq_false_2 in Hcomp by discriminate.
        cbv zeta in Hcomp. simpl in Hcs0, Hcs1.
        apply Forall_cons in Hcs0 as [Hr0 Hd0].
        apply Forall_cons in Hcs1 as [Hr1' Hd1].
        destruct (equal_type_arrays _ _).
        + exact (lat_fun_types_sound rec t1 _ _ _ t2 aux Hrec HI1 Hd0 Hr0 Hr1' Hcomp).
        + injection Hcomp as <- <-. split; [apply grows_refl; exact HI1|auto]. }
    destruct Hstep as [Hg2 Haux].
    assert (Hg12 : grows t t2) by (eapply grows_trans; [split; eauto|exact Hg2]).
    destruct Hg12 as (HI2 & He2 & Hr2).
    assert (Hadd : grows t2 (int_hmap2_add op t2 k0 k1 aux)).
    { apply int_hmap2_add_grows; try assumption; [apply (He2 k0 H0)|apply (He2 k1 H1)]. }
    split.
    + eapply grows_trans; [split; eauto|exact Hadd].
    + destruct Haux as [?|Haux]; [auto|right].
      apply (proj1 (proj2 Hadd) aux Haux).
Qed.

Lemma lat_type_sound op fuel : rec_sound (lat_type op fuel).
Proof.
  induction fuel as [|fuel IH]; intros t x y t' r HI Hx Hy H; [discriminate|].
  rewrite lat_type_S in H.
  destruct (cheap op t x y =? UNKNOWN_TYPE) eqn:E.
  - apply Z.eqb_eq in E.
    destruct (cheap_unknown op t x y (proj1 (proj1 Hx)) E) as [Hne Hk].
    destruct (y <? x) eqn:Hlt.
    + apply Z.ltb_lt in Hlt.
      eapply (lat_slow_sound op _ t y x); eauto. tauto.
    + apply Z.ltb_ge in Hlt.
      eapply (lat_slow_sound op _ t x y); eauto. lia.
  - apply Z.eqb_neq in E. injection H as <- <-.
    split; [apply grows_refl; exact HI|].
    destruct (inv_prims t HI) as (Hn & Hb & Hi & Hr).
    destruct (cheap_known op t x y E) as [->|[->|[->| ->]]]; auto; right.
    + split; [unfold int_id; lia|unfold int_id; congruence].
    + split; [unfold real_id; lia|unfold real_id; congruence].
Qed.

Lemma lat_tuple_loop_total rec n :
  rec_sound rec → rec_total n rec →
  ∀ a b t s rk,
    Inv t → ranked rk t →
    Forall (λ x, good t x ∧ (rk x < n)%nat) a →
    Forall (λ x, good t x ∧ (rk x < n)%nat) b →
    lat_tuple_loop rec t a b s ≠ OutOfFuel.
Proof.
  intros Hs Ht a. induction a as [|x a IH]; intros b t s rk HI Hrk Ha Hb.
  - discriminate.
  - destruct b as [|y b]; [discriminate|].
    apply Forall_cons in Ha as [[Hx Hxr] Ha].
    apply Forall_cons in Hb as [[Hy Hyr] Hb].
    cbn [lat_tuple_loop].
    pose proof (Ht t x y rk HI Hrk Hx Hy Hxr Hyr) as Hnf.
    destruct (rec t x y) as [[t1 aux]| |] eqn:Hr; simpl; try congruence.
    destruct (aux =? NULL_TYPE); [discriminate|].
    destruct (Hs t x y t1 aux HI Hx Hy Hr) as [(HI1 & He1 & Hr1) _].
    destruct (Hr1 rk Hrk) as (rk1 & Hrk1 & Eq).
    apply (IH b t1 _ rk1 HI1 Hrk1).
    + eapply Forall_impl; [exact Ha|]. intros c [Hc Hcr].
      split; [apply (He1 c Hc)|]. rewrite (Eq c Hc). exact Hcr.
    + eapply Forall_impl; [exact Hb|]. intros c [Hc Hcr].
      split; [apply (He1 c Hc)|]. rewrite (Eq c Hc). exact Hcr.
Qed.

Lemma lat_slow_total op rec n t k0 k1 rk :
  rec_sound rec → rec_total n rec →
  Inv t → ranked rk t → good t k0 → good t k1 →
  (rk k0 < S n)%nat → (rk k1 < S n)%nat →
  (kind t k0 = TUPLE_TYPE ∧ kind t k1 = TUPLE_TYPE
   ∨ kind t k0 = FUNCTION_TYPE ∧ kind t k1 = FUNCTION_TYPE) →
  lat_slow op rec t k0 k1 ≠ OutOfFuel.
Proof.
  intros Hs Ht HI Hrk H0 H1 Hr0 Hr1 Hkind. unfold lat_slow. cbv zeta.
  destruct (get_table_grows op t HI) as (HI1 & He1 & Hrr).
  set (t1 := get_table op t) in *.
  destruct (Hrr rk Hrk) as (rk1 & Hrk1 & Eq).
  assert (G0 : good t1 k0) by apply (He1 k0 H0).
  assert (G1 : good t1 k1) by apply (He1 k1 H1).
  assert (K0 : kind t1 k0 = kind t k0) by apply (He1 k0 H0).
  assert (K1 : kind t1 k1 = kind t k1) by apply (He1 k1 H1).
  assert (C0 : Forall (λ x, good t1 x ∧ (rk1 x < n)%nat) (children t1 k0)).
  { apply Forall_forall. intros c Hc. destruct (Hrk1 k0 c G0 Hc) as [? Hlt].
    split; [assumption|]. rewrite (Eq k0 H0) in Hlt. lia. }
  assert (C1 : Forall (λ x, good t1 x ∧ (rk1 x < n)%nat) (children t1 k1)).
  { apply Forall_forall. intros c Hc. destruct (Hrk1 k1 c G1 Hc) as [? Hlt].
    split; [assumption|]. rewrite (Eq k1 H1) in Hlt. lia. }
  destruct (int_hmap2_find _ _ _); [discriminate|].
  match goal with |- (?m ≫= _) ≠ _ =>
    assert (Hm : m ≠ OutOfFuel); [|destruct m as [[t2 aux]| |]; simpl; congruence]
  end.
  unfold children in C0, C1.
  destruct Hkind as [[Hk0 Hk1]|[Hk0 Hk1]]; rewrite K0, Hk0 in *; rewrite K1, Hk1 in *.
  - rewrite bool_decide_eq_true_2 by reflexivity. unfold lat_tuple_types.
    pose proof (lat_tuple_loop_total rec n Hs Ht _ _ t1 [] rk1 HI1 Hrk1 C0 C1) as Hl.
    change (tuple_desc (desc t1 k0)) with (tuple_type_desc t1 k0) in Hl.
    change (tuple_desc (desc t1 k1)) with (tuple_type_desc t1 k1) in Hl.
    destruct (lat_tuple_loop rec t1 _ _ []) as [[t2 [s2|]]| |];
      simpl; try congruence; try discriminate.
    apply tuple_type_fuel.
  - rewrite bool_decide_eq_false_2 by discriminate. cbv zeta.
    destruct (equal_type_arrays _ _); [|discriminate].
    simpl in C0, C1.
    apply Forall_cons in C0 as [[Hg0 Hl0] _].
    apply Forall_cons in C1 as [[Hg1 Hl1] _].
    unfold lat_fun_types.
    pose proof (Ht t1 _ _ rk1 HI1 Hrk1 Hg0 Hg1 Hl0 Hl1) as Hnf.
    change (function_desc (desc t1 k0)) with (function_type_desc t1 k0) in Hnf.
    change (function_desc (desc t1 k1)) with (function_type_desc t1 k1) in Hnf.
    destruct (rec t1 _ _) as [[t2 aux]| |]; simpl; try congruence.
    destruct (aux =? NULL_TYPE); [discriminate|]. apply function_type_fuel.
Qed.

Lemma lat_type_total op fuel : rec_total fuel (lat_type op fuel).
Proof.
  induction fuel as [|fuel IH]; intros t x y rk HI Hrk Hx Hy Hrx Hry; [lia|].
  rewrite lat_type_S.
  destruct (cheap op t x y =? UNKNOWN_TYPE) eqn:E; [|discriminate].
  apply Z.eqb_eq in E.
  destruct (cheap_unknown op t x y (proj1 (proj1 Hx)) E) as [Hne Hk].
  destruct (y <? x).
  - eapply lat_slow_total; eauto using lat_type_sound. tauto.
  - eapply lat_slow_total; eauto using lat_type_sound.
Qed.

(** [super_type] and [inf_type] return for some recursion bound; with any
    bound for which they return, the table grows and the result is
    [NULL_TYPE] or a live type. *)
Lemma lat_type_returns op t tau1 tau2 :
  Inv t → good t tau1 → good t tau2 →
  ∃ fuel, lat_type op fuel t tau1 tau2 ≠ OutOfFuel.
Proof.
  intros HI H1 H2. destruct (inv_rank t HI) as [rk Hrk].
  exists (S (Nat.max (rk tau1) (rk tau2))).
  apply (lat_type_total op _ t tau1 tau2 rk); auto; lia.
Qed.

(** *** The mark pass *)

Section Marking.

Variable t0 : type_table.
Hypothesis t0_closed : ∀ i c, good t0 i → c ∈ children t0 i → good t0 c.

Lemma marking_refl ptr m : marking t0 ptr m m.
Proof.
  split; [intros j; auto|]. split; [|auto].
  intros j _ H1 H2. congruence.
Qed.

Lemma marking_trans ptr m1 m2 m3 :
  marking t0 ptr m1 m2 → marking t0 ptr m2 m3 → marking t0 ptr m1 m3.
Proof.
  intros (S12 & C12 & G12) (S23 & C23 & G23).
  split; [intros j Hj; auto|]. split.
  - intros j Hp H3 H1 c Hc.
    destruct (m2 j) eqn:E2.
    + apply S23. eapply C12; eauto.
    + eapply C23; eauto.
  - intros j H3. destruct (G23 j H3) as [H2|?]; [|auto]. apply G12; exact H2.
Qed.

Lemma mark_and_explore_marks rec ptr m i t' :
  rec_marks t0 ptr rec → good t0 i →
  mark_and_explore rec (with_marks t0 m) ptr i = Ok t' →
  ∃ m', t' = with_marks t0 m' ∧ marking t0 ptr m m' ∧ m' i = true.
Proof.
  intros Hrec Hi. unfold mark_and_explore, type_is_marked. tsimpl.
  destruct (m i) eqn:Hm.
  - intros [= <-]. exists m. split; [reflexivity|]. split; [apply marking_refl|exact Hm].
  - assert (Hsub : sub_marks m (<[i:=true]> m)).
    { intros j Hj. rewrite fn_insert_eq. destruct (decide (i = j)); auto. }
    assert (Hgood : ∀ j, (<[i:=true]> m) j = true → m j = true ∨ good t0 j).
    { intros j. rewrite fn_insert_eq. destruct (decide (i = j)) as [<-|]; auto. }
    destruct (i <? ptr) eqn:Hlt.
    + intros H.
      change (type_table_set_gc_mark (with_marks t0 m) i)
        with (with_marks t0 (<[i:=true]> m)) in H.
      destruct (Hrec _ _ _ Hi H) as (m' & -> & (S1 & C1 & G1) & Hch).
      exists m'. split; [reflexivity|]. split.
      * split; [intros j Hj; auto|]. split.
        -- intros j Hp H' Hmj c Hc.
           destruct (decide (i = j)) as [<-|Hne]; [auto|].
           eapply C1; eauto. rewrite fn_insert_eq.
           destruct (decide (i = j)); congruence.
        -- intros j Hj. destruct (G1 j Hj) as [H1|?]; auto.
      * apply S1. rewrite fn_insert_eq. destruct (decide (i = i)); congruence.
    + apply Z.ltb_ge in Hlt. intros [= <-].
      exists (<[i:=true]> m). split; [reflexivity|]. split.
      * split; [exact Hsub|]. split; [|exact Hgood].
        intros j Hp H' Hmj. rewrite fn_insert_eq in H'.
        destruct (decide (i = j)); [lia|congruence].
      * rewrite fn_insert_eq. destruct (decide (i = i)); congruence.
Qed.

Lemma for_each_marks rec ptr l :
  rec_marks t0 ptr rec →
  ∀ m t', Forall (good t0) l →
    for_each (λ t j, mark_and_explore rec t ptr j) (with_marks t0 m) l = Ok t' →
    ∃ m', t' = with_marks t0 m' ∧ marking t0 ptr m m'
          ∧ ∀ c, c ∈ l → m' c = true.
Proof.
  intros Hrec. induction l as [|x l IH]; intros m t' Hl H.
  - injection H as <-. exists m. split; [reflexivity|].
    split; [apply marking_refl|]. intros c Hc. by apply elem_of_nil in Hc.
  - apply Forall_cons in Hl as [Hx Hl]. cbn [for_each] in H.
    apply bind_Ok in H as (t1 & H1 & H).
    destruct (mark_and_explore_marks rec ptr m x t1 Hrec Hx H1)
      as (m1 & -> & M1 & Hx1).
    destruct (IH m1 t' Hl H) as (m' & -> & M2 & Hl').
    exists m'. split; [reflexivity|].
    split; [eapply marking_trans; eauto|].
    intros c Hc. apply elem_of_cons in Hc as [->|Hc]; [|auto].
    apply (proj1 M2). exact Hx1.
Qed.

Lemma mark_reachable_types_marks fuel ptr : rec_marks t0 ptr (mark_reachable_types fuel).
Proof.
  induction fuel as [|fuel IH]; intros m i t' Hi H; [discriminate|].
  cbn [mark_reachable_types] in H.
  assert (Hch : Forall (good t0) (children t0 i)).
  { apply Forall_forall. intros c Hc. eapply t0_closed; eauto. }
  unfold children in *.
  change (kind (with_marks t0 m) i) with (kind t0 i) in H.
  change (tuple_type_desc (with_marks t0 m) i) with (tuple_desc (desc t0 i)) in H.
  change (function_type_desc (with_marks t0 m) i)
    with (function_desc (desc t0 i)) in H.
  destruct (kind t0 i); simpl in Hch |- *;
    try (injection H as <-; exists m; split; [reflexivity|];
         split; [apply marking_refl|];
         intros c Hc; by apply elem_of_nil in Hc).
  - apply (for_each_marks _ ptr _ IH m t' Hch H).
  - apply Forall_cons in Hch as [Hr Hd].
    apply bind_Ok in H as (t1 & H1 & H).
    destruct (mark_and_explore_marks _ ptr m _ t1 IH Hr H1) as (m1 & -> & M1 & Hr1).
    destruct (for_each_marks _ ptr _ IH m1 t' Hd H) as (m' & -> & M2 & Hd').
    exists m'. split; [reflexivity|].
    split; [eapply marking_trans; eauto|].
    intros c Hc. apply elem_of_cons in Hc as [->|Hc]; [|auto].
    apply (proj1 M2). exact Hr1.
Qed.

(** Termination: every recursive call follows a new mark. *)
Lemma unmarked_mono l m m' : sub_marks m m' → (unmarked l m' ≤ unmarked l m)%nat.
Proof.
  intros Hs. unfold unmarked. induction l as [|x l IH]; simpl; [lia|].
  rewrite !filter_cons.
  destruct (decide (m' x = false)) as [E'|E'];
    destruct (decide (m x = false)) as [E|E]; simpl; try lia.
  apply not_false_is_true in E. apply Hs in E. congruence.
Qed.

Lemma unmarked_set l m c :
  c ∈ l → m c = false → (unmarked l (<[c:=true]> m) < unmarked l m)%nat.
Proof.
  intros Hc Hm. unfold unmarked. induction l as [|x l IH]; simpl.
  - by apply elem_of_nil in Hc.
  - assert (Hle := unmarked_mono l m (<[c:=true]> m)).
    unfold unmarked in Hle.
    rewrite !filter_cons.
    destruct (decide (c = x)) as [<-|Hne].
    + rewrite fn_insert_eq. destruct (decide (c = c)); [|congruence].
      destruct (decide (true = false)); [discriminate|].
      destruct (decide (m c = false)); [|congruence]. simpl.
      cut (length (filter (λ j, (<[c:=true]> m) j = false) l)
           ≤ length (filter (λ j, m j = false) l))%nat; [lia|].
      apply Hle. intros j Hj. rewrite fn_insert_eq. destruct (decide (c = j)); auto.
    + apply elem_of_cons in Hc as [?|Hc]; [congruence|]. specialize (IH Hc).
      rewrite fn_insert_eq. destruct (decide (c = x)); [congruence|].
      destruct (decide (m x = false)); simpl; lia.
Qed.

Lemma good_all_ids i : good t0 i → i ∈ all_ids t0.
Proof. intros [Hi _]. apply elem_of_seqZ. lia. Qed.

Lemma mark_and_explore_total rec n ptr m i :
  rec_marks_total t0 n ptr rec → good t0 i →
  (unmarked (all_ids t0) m ≤ n)%nat →
  ∃ t', mark_and_explore rec (with_marks t0 m) ptr i = Ok t'.
Proof.
  intros Hrec Hi Hn. unfold mark_and_explore, type_is_marked. tsimpl.
  destruct (m i) eqn:Hm; [eauto|].
  destruct (i <? ptr); [|eauto].
  change (type_table_set_gc_mark (with_marks t0 m) i)
    with (with_marks t0 (<[i:=true]> m)).
  apply Hrec; [exact Hi|].
  pose proof (unmarked_set (all_ids t0) m i (good_all_ids i Hi) Hm). lia.
Qed.

Lemma for_each_total rec n ptr l :
  rec_marks t0 ptr rec → rec_marks_total t0 n ptr rec →
  ∀ m, Forall (good t0) l → (unmarked (all_ids t0) m ≤ n)%nat →
    ∃ t', for_each (λ t j, mark_and_explore rec t ptr j) (with_marks t0 m) l
          = Ok t'.
Proof.
  intros Hs Ht. induction l as [|x l IH]; intros m Hl Hn; [simpl; eauto|].
  apply Forall_cons in Hl as [Hx Hl]. cbn [for_each].
  destruct (mark_and_explore_total rec n ptr m x Ht Hx Hn) as [t1 H1].
  rewrite H1. simpl.
  destruct (mark_and_explore_marks rec ptr m x t1 Hs Hx H1) as (m1 & -> & M1 & _).
  apply IH; [exact Hl|].
  pose proof (unmarked_mono (all_ids t0) m m1 (proj1 M1)). lia.
Qed.

Lemma mark_reachable_types_total fuel ptr :
  rec_marks_total t0 fuel ptr (mark_reachable_types fuel).
Proof.
  induction fuel as [|fuel IH]; intros m i Hi Hn; [lia|].
  cbn [mark_reachable_types].
  assert (Hch : Forall (good t0) (children t0 i)).
  { apply Forall_forall. intros c Hc. eapply t0_closed; eauto. }
  unfold children in *.
  change (kind (with_marks t0 m) i) with (kind t0 i).
  change (tuple_type_desc (with_marks t0 m) i) with (tuple_desc (desc t0 i)).
  change (function_type_desc (with_marks t0 m) i) with (function_desc (desc t0 i)).
  pose proof (mark_reachable_types_marks fuel ptr) as Hs.
  destruct (kind t0 i); simpl in Hch |- *; eauto.
  - apply (for_each_total _ fuel ptr _ Hs IH m Hch). lia.
  - apply Forall_cons in Hch as [Hr Hd].
    destruct (mark_and_explore_total _ fuel ptr m _ IH Hr ltac:(lia)) as [t1 H1].
    rewrite H1. simpl.
    destruct (mark_and_explore_marks _ ptr m _ t1 Hs Hr H1) as (m1 & -> & M1 & _).
    apply (for_each_total _ fuel ptr _ Hs IH m1 Hd).
    pose proof (unmarked_mono (all_ids t0) m m1 (proj1 M1)). lia.
Qed.

Lemma seqZ_S a k : seqZ a (Z.of_nat (S k)) = a :: seqZ (a + 1) (Z.of_nat k).
Proof.
  rewrite seqZ_cons by lia. f_equal. f_equal; lia.
Qed.

Lemma mark_live_loop fuel k :
  ∀ a m t',
    (∀ j, m j = true → good t0 j) → closed_upto t0 a m →
    for_each (live_body fuel) (with_marks t0 m) (seqZ a (Z.of_nat k)) = Ok t' →
    ∃ m', t' = with_marks t0 m' ∧ sub_marks m m'
          ∧ (∀ j, m' j = true → good t0 j) ∧ closed_upto t0 (a + Z.of_nat k) m'.
Proof.
  induction k as [|k IH]; intros a m t' Hg Hc H.
  - simpl in H. injection H as <-. exists m. split; [reflexivity|].
    split; [intros j; auto|]. split; [exact Hg|].
    replace (a + Z.of_nat 0) with a by lia. exact Hc.
  - rewrite seqZ_S in H. cbn [for_each] in H.
    apply bind_Ok in H as (t1 & H1 & H).
    assert (Hstep : ∃ m1, t1 = with_marks t0 m1 ∧ sub_marks m m1
              ∧ (∀ j, m1 j = true → good t0 j) ∧ closed_upto t0 (a + 1) m1).
    { unfold live_body, type_is_marked in H1. tsimpl.
      destruct (m a) eqn:Hma.
      - destruct (mark_reachable_types_marks fuel a m a t1 (Hg a Hma) H1)
          as (m1 & -> & (S1 & C1 & G1) & Hch).
        exists m1. split; [reflexivity|]. split; [exact S1|]. split.
        + intros j Hj. destruct (G1 j Hj); auto.
        + intros j Hj Hmj c Hcj.
          destruct (decide (j = a)) as [->|Hne]; [auto|].
          destruct (m j) eqn:Emj.
          * apply S1. apply (Hc j); auto. lia.
          * apply (C1 j); auto. lia.
      - injection H1 as <-. exists m. split; [reflexivity|].
        split; [intros j; auto|]. split; [exact Hg|].
        intros j Hj Hmj c Hcj.
        destruct (decide (j = a)) as [->|Hne]; [congruence|].
        apply (Hc j); auto. lia. }
    destruct Hstep as (m1 & -> & S1 & G1 & C1).
    destruct (IH (a + 1) m1 t' G1 C1 H) as (m' & -> & S2 & G2 & C2).
    exists m'. split; [reflexivity|]. split; [intros j Hj; auto|].
    split; [exact G2|].
    replace (a + Z.of_nat (S k)) with (a + 1 + Z.of_nat k) by lia. exact C2.
Qed.

Lemma mark_live_loop_total fuel k :
  ∀ a m,
    (∀ j, m j = true → good t0 j) →
    (unmarked (all_ids t0) m < fuel)%nat →
    ∃ t', for_each (live_body fuel) (with_marks t0 m) (seqZ a (Z.of_nat k))
          = Ok t'.
Proof.
  induction k as [|k IH]; intros a m Hg Hn; [simpl; eauto|].
  rewrite seqZ_S. cbn [for_each].
  assert (Hstep : ∃ m1, live_body fuel (with_marks t0 m) a = Ok (with_marks t0 m1)
            ∧ sub_marks m m1 ∧ (∀ j, m1 j = true → good t0 j)).
  { unfold live_body, type_is_marked. tsimpl.
    destruct (m a) eqn:Hma.
    - destruct (mark_reachable_types_total fuel a m a (Hg a Hma) Hn) as [t1 H1].
      destruct (mark_reachable_types_marks fuel a m a t1 (Hg a Hma) H1)
        as (m1 & -> & (S1 & C1 & G1) & Hch).
      exists m1. split; [exact H1|]. split; [exact S1|].
      intros j Hj. destruct (G1 j Hj); auto.
    - exists m. split; [reflexivity|]. split; [intros j; auto|exact Hg]. }
  destruct Hstep as (m1 & -> & S1 & G1). simpl.
  apply IH; [exact G1|].
  pose proof (unmarked_mono (all_ids t0) m m1 S1). lia.
Qed.

Lemma unmarked_bound m : (unmarked (all_ids t0) m ≤ Z.to_nat (nelems t0))%nat.
Proof.
  unfold unmarked, all_ids.
  etransitivity; [apply length_filter|]. rewrite length_seqZ. lia.
Qed.

End Marking.

(** *** Roots and the table at sweep time *)

Lemma stbl_iterate_marks l t m :
  stbl_iterate l (with_marks t m) mark_symbol = with_marks t (mark_all l m).
Proof.
  unfold stbl_iterate, mark_all. revert m.
  induction l as [|r l IH]; intros m; simpl; [reflexivity|].
  change (mark_symbol (with_marks t m) r) with (with_marks t (<[r.2:=true]> m)).
  apply IH.
Qed.

Lemma mark_all_spec l m j :
  mark_all l m j = true ↔ m j = true ∨ ∃ nm, (nm, j) ∈ l.
Proof.
  unfold mark_all. revert m. induction l as [|[nm i] l IH]; intros m; simpl.
  - split; [auto|]. intros [?|[nm H]]; [auto|]. by apply elem_of_nil in H.
  - rewrite IH, fn_insert_eq. split.
    + intros [H|[nm' H]].
      * destruct (decide (i = j)) as [<-|]; [|auto].
        right. exists nm. left.
      * right. exists nm'. by right.
    + intros [H|[nm' H]].
      * left. destruct (decide (i = j)); auto.
      * apply elem_of_cons in H as [[= -> ->]|H].
        -- left. destruct (decide _); congruence.
        -- right. eauto.
Qed.

Lemma with_marks_eta t : t = with_marks t (gc_mark t).
Proof. destruct t; reflexivity. Qed.

Lemma gc_mark_roots_eq t : gc_mark_roots t = with_marks t (root_marks t).
Proof.
  unfold gc_mark_roots, root_marks. cbv zeta.
  rewrite (with_marks_eta t) at 2. rewrite stbl_iterate_marks. reflexivity.
Qed.

Lemma root_marks_spec t j : root_marks t j = true ↔ gc_root t j.
Proof.
  unfold root_marks, gc_root. rewrite !fn_insert_eq.
  pose proof (mark_all_spec (stbl t) (gc_mark t) j) as Hs.
  destruct (decide (real_id = j)) as [<-|]; [tauto|].
  destruct (decide (int_id = j)) as [<-|]; [tauto|].
  destruct (decide (bool_id = j)) as [<-|]; [tauto|].
  rewrite Hs. split; [tauto|].
  intros [?|[?|[?|[?|?]]]]; congruence || tauto.
Qed.

Lemma gc_root_good t j : Inv t → gc_root t j → good t j.
Proof.
  intros HI. destruct (inv_prims t HI) as (Hn & Hb & Hi & Hr).
  intros [[nm H]|[H|[->|[->| ->]]]].
  - eapply inv_stbl; eauto.
  - eapply inv_marks; eauto.
  - split; [unfold bool_id; lia|unfold bool_id; congruence].
  - split; [unfold int_id; lia|unfold int_id; congruence].
  - split; [unfold real_id; lia|unfold real_id; congruence].
Qed.

Lemma Inv_closed t : Inv t → ∀ i c, good t i → c ∈ children t i → good t c.
Proof.
  intros HI i c Hi Hc. destruct (inv_rank t HI) as [rk Hrk]. apply (Hrk i c Hi Hc).
Qed.

Lemma mark_live_types_marks t fuel ts :
  Inv t → mark_live_types fuel (gc_mark_roots t) = Ok ts →
  ∃ m, ts = with_marks t m ∧ sweep_marks t m.
Proof.
  intros HI H. rewrite gc_mark_roots_eq in H. unfold mark_live_types in H.
  change (nelems (with_marks t (root_marks t))) with (nelems t) in H.
  destruct (inv_size t HI) as [[Hn _] _].
  rewrite <- (Z2Nat.id (nelems t)) in H by exact Hn.
  destruct (mark_live_loop t (Inv_closed t HI) fuel (Z.to_nat (nelems t)) 0
              (root_marks t) ts) as
    (m & -> & S1 & G1 & C1).
  - intros j Hj. apply gc_root_good; [exact HI|]. apply root_marks_spec. exact Hj.
  - intros j Hj Hm. apply root_marks_spec, (gc_root_good t j HI) in Hm.
    destruct Hm; lia.
  - exact H.
  - exists m. split; [reflexivity|]. split; [|split; [exact G1|]].
    + intros j Hj. apply S1, root_marks_spec. exact Hj.
    + intros j c Hj Hc. apply (C1 j); auto.
      destruct (G1 j Hj) as [? _]. lia.
Qed.

Lemma mark_live_types_returns t :
  Inv t → ∃ ts, mark_live_types (S (Z.to_nat (nelems t))) (gc_mark_roots t) = Ok ts.
Proof.
  intros HI. rewrite gc_mark_roots_eq. unfold mark_live_types.
  change (nelems (with_marks t (root_marks t))) with (nelems t).
  destruct (inv_size t HI) as [[Hn _] _].
  replace (seqZ 0 (nelems t)) with (seqZ 0 (Z.of_nat (Z.to_nat (nelems t))))
    by (rewrite Z2Nat.id; [reflexivity|exact Hn]).
  apply (mark_live_loop_total t (Inv_closed t HI)).
  - intros j Hj. apply gc_root_good; [exact HI|]. apply root_marks_spec. exact Hj.
  - pose proof (unmarked_bound t (root_marks t)). lia.
Qed.

Lemma sweep_marks_reaches t m i j :
  sweep_marks t m → m i = true → reaches t i j → m j = true.
Proof.
  intros (_ & _ & Hc) Hi Hr. induction Hr as [|i c j Hic _ IH]; [exact Hi|].
  apply IH. eapply Hc; eauto.
Qed.

(** *** The sweep *)

Lemma erase_type_noop t i :
  kind t i = UNUSED_TYPE ∨ primitive (kind t i) = true → erase_type t i = t.
Proof.
  unfold erase_type. destruct (kind t i); simpl; intros [?|?]; congruence.
Qed.

Lemma sweep_type_keep t a :
  gc_mark t a = true ∨ kind t a = UNUSED_TYPE ∨ primitive (kind t a) = true →
  sweep_type t a = type_table_clr_gc_mark t a.
Proof.
  unfold sweep_type, type_is_marked. destruct (gc_mark t a); [reflexivity|].
  intros [?|H]; [discriminate|].
  unfold erase_hcons_type.
  destruct (kind t a) eqn:E; simpl in H; try (destruct H; congruence);
    rewrite erase_type_noop; try reflexivity; rewrite E; simpl; auto.
Qed.

Lemma sweep_type_erase t a :
  gc_mark t a = false → kind t a ≠ UNUSED_TYPE → primitive (kind t a) = false →
  nelems (sweep_type t a) = nelems t ∧ size (sweep_type t a) = size t
  ∧ card (sweep_type t a) = card t ∧ flags (sweep_type t a) = flags t
  ∧ stbl (sweep_type t a) = stbl t ∧ sup_tbl (sweep_type t a) = sup_tbl t
  ∧ inf_tbl (sweep_type t a) = inf_tbl t
  ∧ kind (sweep_type t a) = <[a:=UNUSED_TYPE]> (kind t)
  ∧ desc (sweep_type t a) = <[a:=desc_next (free_idx t)]> (desc t)
  ∧ (∀ j, name (sweep_type t a) j = if decide (a = j) then None else name t j)
  ∧ gc_mark (sweep_type t a) = <[a:=false]> (gc_mark t)
  ∧ free_idx (sweep_type t a) = a
  ∧ htbl (sweep_type t a)
    = if hash_consed (kind t a) then filter (λ j, j ≠ a) (htbl t) else htbl t.
Proof.
  intros Hm Hk Hp.
  unfold sweep_type, type_is_marked, erase_hcons_type, int_htbl_erase_record,
    erase_type, type_table_clr_gc_mark.
  rewrite Hm.
  destruct (kind t a) eqn:E; try congruence; try discriminate; tsimpl;
    rewrite ?E; destruct (name t a) eqn:En; tsimpl;
    repeat split; try reflexivity;
    intros j; destruct (decide (a = j)) as [<-|]; congruence.
Qed.

Lemma erased_spec t m j :
  erased t m j = true
  ↔ 0 ≤ j < nelems t ∧ m j = false ∧ kind t j ≠ UNUSED_TYPE
    ∧ primitive (kind t j) = false.
Proof.
  unfold erased.
  rewrite !andb_true_iff, !negb_true_iff, bool_decide_eq_false, Z.leb_le, Z.ltb_lt.
  tauto.
Qed.

Lemma erased_marked t m j : m j = true → erased t m j = false.
Proof.
  intros Hm. destruct (erased t m j) eqn:E; [|reflexivity].
  apply erased_spec in E as (_ & ? & _). congruence.
Qed.

Lemma ltb_succ_ne j a : j ≠ a → (j <? a + 1) = (j <? a).
Proof.
  intros Hne. destruct (Z.ltb_spec j (a + 1)), (Z.ltb_spec j a);
    try reflexivity; lia.
Qed.

Lemma erased_next_false t m a j :
  erased t m a = false →
  (j <? a + 1) && erased t m j = (j <? a) && erased t m j.
Proof.
  intros He. destruct (decide (j = a)) as [->|Hne].
  - rewrite He, !andb_false_r. reflexivity.
  - rewrite ltb_succ_ne by congruence. reflexivity.
Qed.

Lemma erased_next_true t m a j :
  erased t m a = true →
  (j <? a + 1) && erased t m j
  = if decide (a = j) then true else (j <? a) && erased t m j.
Proof.
  intros He. destruct (decide (a = j)) as [<-|Hne].
  - rewrite He, andb_true_r. apply Z.ltb_lt. lia.
  - rewrite ltb_succ_ne by congruence. reflexivity.
Qed.

Lemma mark_next a j (b : bool) :
  0 ≤ a →
  (if decide (a = j) then false
   else if (0 <=? j) && (j <? a) then false else b)
  = if (0 <=? j) && (j <? a + 1) then false else b.
Proof.
  intros Ha. destruct (decide (a = j)) as [<-|Hne].
  - replace (0 <=? a) with true by (symmetry; apply Z.leb_le; lia).
    replace (a <? a + 1) with true by (symmetry; apply Z.ltb_lt; lia).
    reflexivity.
  - rewrite ltb_succ_ne by congruence. reflexivity.
Qed.

Lemma swept_start t m : Inv t → swept t m 0 (with_marks t m).
Proof.
  intros HI.
  assert (E : ∀ j, (j <? 0) && erased t m j = false).
  { intros j. destruct (j <? 0) eqn:E1; [|reflexivity]. apply Z.ltb_lt in E1.
    unfold erased. replace (0 <=? j) with false; [reflexivity|].
    symmetry. apply Z.leb_gt. lia. }
  constructor; tsimpl; try reflexivity.
  - intros j. rewrite E. reflexivity.
  - intros j. rewrite E. reflexivity.
  - intros j. replace ((0 <=? j) && (j <? 0)) with false; [reflexivity|].
    destruct (0 <=? j) eqn:E1, (j <? 0) eqn:E2; try reflexivity.
    apply Z.leb_le in E1. apply Z.ltb_lt in E2. lia.
  - intros j. rewrite E. split; [auto|intros [? _]; auto].
  - exact (inv_free t HI).
Qed.

Lemma swept_step t m a t' :
  Inv t → swept t m a t' → 0 ≤ a < nelems t →
  swept t m (a + 1) (sweep_type t' a).
Proof.
  intros HI [Hn Hsz Hc Hf Hst Hsu Hin Hk Hnm Hd Hmk Hh Hfr] Ha.
  assert (Haa : (a <? a) = false) by (apply Z.ltb_ge; lia).
  assert (Hka : kind t' a = kind t a) by (rewrite Hk, Haa; reflexivity).
  assert (Hma : gc_mark t' a = m a).
  { rewrite Hmk, Haa, andb_false_r. reflexivity. }
  destruct (erased t m a) eqn:He.
  - (* the slot is reclaimed *)
    apply erased_spec in He as Hes. destruct Hes as (_ & Hm0 & Hk0 & Hp0).
    destruct (sweep_type_erase t' a) as
      (E1 & E2 & E3 & E4 & E5 & E6 & E7 & E8 & E9 & E10 & E11 & E12 & E13);
      try congruence.
    destruct Hfr as (l & Hchain & Hnd & Hl).
    assert (Hal : a ∉ l).
    { intros Hin'. apply Hl in Hin' as [_ Hu]. congruence. }
    constructor; try congruence.
    + intros j. rewrite E8, fn_insert_eq, (erased_next_true _ _ _ _ He), Hk.
      destruct (decide (a = j)); reflexivity.
    + intros j. rewrite E10, (erased_next_true _ _ _ _ He), Hnm.
      destruct (decide (a = j)); reflexivity.
    + intros j. rewrite E9, fn_insert_eq, (erased_next_true _ _ _ _ He).
      destruct (decide (a = j)); [discriminate|]. apply Hd.
    + intros j. rewrite E11, fn_insert_eq, Hmk. apply mark_next. lia.
    + intros j. rewrite (erased_next_true _ _ _ _ He), E13.
      destruct (hash_consed (kind t' a)) eqn:Hhc.
      * rewrite list_elem_of_filter, Hh.
        destruct (decide (a = j)) as [<-|].
        -- split; [intros [? _]; congruence|intros [_ ?]; discriminate].
        -- split; [intros (_ & ? & ?); auto|].
           intros [? ?]. split; [congruence|auto].
      * rewrite Hh. destruct (decide (a = j)) as [<-|]; [|tauto].
        split; [|intros [_ ?]; discriminate].
        intros [Hin' _]. apply (inv_htbl t HI) in Hin' as [_ Hx].
        rewrite Hka in Hhc. congruence.
    + exists (a :: l). rewrite E12, E9, E8. split; [|split].
      * simpl. split; [reflexivity|]. split; [lia|].
        exists (free_idx t'). split.
        -- rewrite fn_insert_eq. destruct (decide (a = a)); congruence.
        -- apply free_chain_update; assumption.
      * constructor; assumption.
      * intros j. rewrite elem_of_cons, fn_insert_eq, Hl.
        destruct (decide (a = j)) as [<-|]; [tauto|].
        split; [intros [?|?]; [congruence|tauto]|tauto].
  - (* the slot is kept *)
    assert (Hkeep : sweep_type t' a = type_table_clr_gc_mark t' a).
    { apply sweep_type_keep. rewrite Hma, Hka.
      destruct (m a) eqn:Em; [auto|]. right.
      destruct (decide (kind t a = UNUSED_TYPE)); [auto|]. right.
      destruct (primitive (kind t a)) eqn:Ep; [reflexivity|].
      assert (erased t m a = true); [|congruence].
      apply erased_spec. auto. }
    rewrite Hkeep. unfold type_table_clr_gc_mark.
    constructor; tsimpl; try assumption.
    + intros j. rewrite (erased_next_false _ _ _ _ He). apply Hk.
    + intros j. rewrite (erased_next_false _ _ _ _ He). apply Hnm.
    + intros j. rewrite (erased_next_false _ _ _ _ He). apply Hd.
    + intros j. rewrite fn_insert_eq, Hmk. apply mark_next. lia.
    + intros j. rewrite (erased_next_false _ _ _ _ He). apply Hh.
Qed.

Lemma swept_loop t m k :
  Inv t → ∀ a t', swept t m a t' → 0 ≤ a → a + Z.of_nat k ≤ nelems t →
  swept t m (a + Z.of_nat k) (fold_left sweep_type (seqZ a (Z.of_nat k)) t').
Proof.
  intros HI. induction k as [|k IH]; intros a t' Hs Ha Hk.
  - simpl. replace (a + Z.of_nat 0) with a by lia. exact Hs.
  - rewrite seqZ_S. simpl fold_left.
    replace (a + Z.of_nat (S k)) with (a + 1 + Z.of_nat k) by lia.
    apply IH; [|lia|lia]. apply swept_step; [exact HI|exact Hs|lia].
Qed.

Lemma swept_all t m :
  Inv t →
  swept t m (nelems t) (fold_left sweep_type (seqZ 0 (nelems t)) (with_marks t m)).
Proof.
  intros HI. destruct (inv_size t HI) as [[Hn _] _].
  pose proof (swept_loop t m (Z.to_nat (nelems t)) HI 0 _ (swept_start t m HI)) as H.
  rewrite Z2Nat.id in H by exact Hn. simpl in H. apply H; lia.
Qed.

Lemma type_table_gc_phases fuel t :
  type_table_gc fuel t
  = (ts ← mark_live_types fuel (gc_mark_roots t); Ok (gc_sweep ts)).
Proof. reflexivity. Qed.

Lemma gc_purge_spec ts :
  kind (gc_purge ts) = kind ts ∧ desc (gc_purge ts) = desc ts
  ∧ card (gc_purge ts) = card ts ∧ flags (gc_purge ts) = flags ts
  ∧ name (gc_purge ts) = name ts ∧ gc_mark (gc_purge ts) = gc_mark ts
  ∧ size (gc_purge ts) = size ts ∧ nelems (gc_purge ts) = nelems ts
  ∧ free_idx (gc_purge ts) = free_idx ts ∧ htbl (gc_purge ts) = htbl ts
  ∧ stbl (gc_purge ts) = stbl ts
  ∧ ∀ op h', cache_of op (gc_purge ts) = Some h' →
      ∃ h, cache_of op ts = Some h
        ∧ ∀ k0 k1 v, h' !! (k0, k1) = Some v →
            h !! (k0, k1) = Some v ∧ good ts k0 ∧ good ts k1 ∧ good ts v.
Proof.
  assert (Hkeep : ∀ t1 (h : gmap (Z * Z) Z) k0 k1 v,
            kind t1 = kind ts → nelems t1 = nelems ts →
            int_hmap2_gc (keep_in_cache t1) h !! (k0, k1) = Some v →
            h !! (k0, k1) = Some v ∧ good ts k0 ∧ good ts k1 ∧ good ts v).
  { intros t1 h k0 k1 v Hk Hn Hl. unfold int_hmap2_gc in Hl.
    apply map_lookup_filter_Some in Hl as [Hl Hp]. split; [exact Hl|].
    unfold keep_in_cache in Hp. simpl in Hp.
    apply andb_true_iff in Hp as [Hp H3]. apply andb_true_iff in Hp as [H1 H2].
    apply good_type_spec in H1, H2, H3. unfold good in *.
    rewrite Hk, Hn in *. auto. }
  unfold gc_purge.
  destruct (sup_tbl ts) as [hs|] eqn:Es; tsimpl;
    destruct (inf_tbl ts) as [hi|] eqn:Ei; tsimpl;
    repeat (split; [reflexivity|]);
    intros [] h' Hh; tsimpl; rewrite ?Es, ?Ei in Hh; try discriminate;
    injection Hh as <-;
    eexists; (split; [first [exact Es | exact Ei]|]); intros k0 k1 v Hl;
    (eapply Hkeep; [| |exact Hl]; reflexivity).
Qed.

Lemma free_chain_desc d f l j :
  free_chain d f l → j ∈ l → ∃ n, d j = desc_next n.
Proof.
  revert f. induction l as [|x l IH]; simpl; intros f H Hj.
  - by apply elem_of_nil in Hj.
  - destruct H as (_ & _ & n & Hd & Hc).
    apply elem_of_cons in Hj as [->|Hj]; eauto.
Qed.

Lemma gc_sweep_collected t m :
  Inv t → sweep_marks t m →
  Inv (gc_sweep (with_marks t m)) ∧ collected t m (gc_sweep (with_marks t m)).
Proof.
  intros HI (Hroot & Hmg & Hmc).
  unfold gc_sweep. change (nelems (with_marks t m)) with (nelems t).
  pose proof (swept_all t m HI) as Hsw.
  set (tsw := fold_left sweep_type (seqZ 0 (nelems t)) (with_marks t m)) in *.
  destruct Hsw as [Sn Ssz Sc Sf Sst Ssu Sin Sk Snm Sd Smk Sh Sfr].
  destruct (gc_purge_spec tsw)
    as (Pk & Pd & Pc & Pf & Pnm & Pmk & Psz & Pn & Pfi & Ph & Pst & Pcache).
  set (tf := gc_purge tsw) in *.
  assert (F1 : ∀ j, (j <? nelems t) && erased t m j = erased t m j).
  { intros j. destruct (erased t m j) eqn:E; [|apply andb_false_r].
    apply erased_spec in E as [[_ ?] _]. rewrite andb_true_r. apply Z.ltb_lt; lia. }
  assert (K : ∀ j, kind tf j = if erased t m j then UNUSED_TYPE else kind t j).
  { intros j. rewrite Pk, Sk, F1. reflexivity. }
  assert (Gsw : ∀ j, good tsw j ↔ good t j ∧ erased t m j = false).
  { intros j. unfold good. rewrite Sn, Sk, F1.
    destruct (erased t m j); split; try tauto; intros [_ ?]; discriminate. }
  assert (G : ∀ j, good tf j ↔ good t j ∧ erased t m j = false).
  { intros j. rewrite <- Gsw. unfold good. rewrite Pk, Pn. tauto. }
  destruct (inv_prims t HI) as (Hn3 & Hb & Hint & Hreal).
  assert (M : ∀ j, good t j ∧ erased t m j = false ↔ m j = true).
  { intros j. split.
    - intros [Hg He]. destruct (m j) eqn:Em; [reflexivity|].
      destruct (primitive (kind t j)) eqn:Ep.
      + pose proof (inv_prim_ids t HI j Hg Ep) as Hj.
        rewrite <- Em. apply Hroot. unfold gc_root, bool_id, int_id, real_id. lia.
      + assert (erased t m j = true); [|congruence].
        apply erased_spec. destruct Hg. auto.
    - intros Hm. split; [apply Hmg; exact Hm|].
      unfold erased. rewrite Hm. simpl. rewrite andb_false_r. reflexivity. }
  assert (Keep : ∀ j, erased t m j = false →
            kind tf j = kind t j ∧ desc tf j = desc t j ∧ name tf j = name t j).
  { intros j He. rewrite K, He, Pd, Pnm, Snm, F1, He.
    split; [reflexivity|]. split; [|reflexivity]. apply Sd. rewrite F1. exact He. }
  assert (Free : ∃ l, free_chain (desc tf) (free_idx tf) l ∧ NoDup l
            ∧ ∀ j, j ∈ l ↔ (0 ≤ j < nelems t ∧ kind tf j = UNUSED_TYPE)).
  { rewrite Pd, Pfi, Pk. exact Sfr. }
  assert (Marks : ∀ j, gc_mark tf j = false).
  { intros j. rewrite Pmk, Smk.
    destruct ((0 <=? j) && (j <? nelems t)) eqn:E; [reflexivity|].
    destruct (m j) eqn:Em; [|reflexivity].
    destruct (Hmg j Em) as [[H0 H1] _].
    apply Z.leb_le in H0. apply Z.ltb_lt in H1. rewrite H0, H1 in E. discriminate. }
  assert (Cache : ∀ op h k0 k1 v, cache_of op tf = Some h →
            h !! (k0, k1) = Some v → k0 < k1 ∧ good tf k0 ∧ good tf k1 ∧ good tf v).
  { intros op h k0 k1 v Hh Hl.
    destruct (Pcache op h Hh) as (h0 & Hh0 & Hkeep).
    destruct (Hkeep k0 k1 v Hl) as (Hl0 & G0 & G1 & G2).
    assert (Hh0' : cache_of op t = Some h0).
    { destruct op; simpl in *; congruence. }
    destruct (inv_cache t HI op h0 Hh0' k0 k1 v Hl0) as (Hlt & _).
    split; [exact Hlt|]. rewrite !G, <- !Gsw. auto. }
  split.
  - constructor.
    + rewrite Pn, Psz, Sn, Ssz. apply (inv_size t HI).
    + rewrite Pn, Sn. split; [exact Hn3|].
      assert (Hp : ∀ j, 0 ≤ j < 3 → kind tf j = kind t j).
      { intros j Hj. apply Keep, M, Hroot.
        unfold gc_root, bool_id, int_id, real_id. lia. }
      rewrite !Hp by lia. auto.
    + intros j Hj Hp. apply G in Hj as [Hj He].
      destruct (Keep j He) as [Hk _]. rewrite Hk in Hp.
      eapply inv_prim_ids; eauto.
    + rewrite Pn, Sn. exact Free.
    + destruct (inv_rank t HI) as [rk Hrk]. exists rk.
      intros j c Hj Hc. apply G in Hj as Hj'. destruct Hj' as [Hgj Hej].
      destruct (Keep j Hej) as (Hk & Hd & _).
      unfold children in Hc. rewrite Hk, Hd in Hc.
      destruct (Hrk j c Hgj Hc) as [Hgc Hlt]. split; [|exact Hlt].
      apply G, M. apply (Hmc j c); [|exact Hc]. apply M. auto.
    + intros j. rewrite Ph, Sh, F1, (inv_htbl t HI), G.
      split.
      * intros [[Hg Hh] He]. destruct (Keep j He) as [-> _]. auto.
      * intros [[Hg He] Hh]. destruct (Keep j He) as [Hk _]. rewrite Hk in Hh. auto.
    + intros j1 j2 Hj1 Hj2 Hh Hkk Hdd.
      apply G in Hj1 as [Hg1 He1]. apply G in Hj2 as [Hg2 He2].
      destruct (Keep j1 He1) as (Hk1 & Hd1 & _).
      destruct (Keep j2 He2) as (Hk2 & Hd2 & _).
      rewrite Hk1 in Hh. rewrite Hk1, Hk2 in Hkk. rewrite Hd1, Hd2 in Hdd.
      eapply (inv_unique t HI); eauto.
    + intros nm j Hj. rewrite Pst, Sst in Hj. apply G, M, Hroot.
      left. eauto.
    + intros op h Hh k0 k1 v Hl.
      destruct (Cache op h k0 k1 v Hh Hl) as (? & ? & ? & ?). auto.
    + intros j Hj. rewrite Pf, Sf. apply G in Hj as [Hj _].
      apply (inv_flags t HI j Hj).
    + intros j Hj. rewrite Marks in Hj. discriminate.
  - constructor.
    + congruence.
    + congruence.
    + congruence.
    + congruence.
    + congruence.
    + intros j. rewrite G. apply M.
    + exact Keep.
    + intros j He. split; [rewrite K, He; reflexivity|].
      split; [rewrite Pnm, Snm, F1, He; reflexivity|].
      destruct Free as (l & Hchain & _ & Hl).
      apply (free_chain_desc _ _ _ _ Hchain). apply Hl.
      rewrite K, He. apply erased_spec in He. tauto.
    + exact Free.
    + exact Marks.
    + exact Cache.
Qed.

Lemma type_table_gc_collected fuel t t' :
  Inv t → type_table_gc fuel t = Ok t' →
  ∃ m, mark_live_types fuel (gc_mark_roots t) = Ok (with_marks t m)
       ∧ sweep_marks t m ∧ Inv t' ∧ collected t m t'.
Proof.
  intros HI H. rewrite type_table_gc_phases in H.
  apply bind_Ok in H as (ts & Hmark & H). injection H as <-.
  destruct (mark_live_types_marks t fuel ts HI Hmark) as (m & -> & Hm).
  exists m. split; [exact Hmark|]. split; [exact Hm|].
  apply gc_sweep_collected; assumption.
Qed.

Lemma type_table_gc_returns t :
  Inv t → ∃ t', type_table_gc (S (Z.to_nat (nelems t))) t = Ok t'.
Proof.
  intros HI. rewrite type_table_gc_phases.
  destruct (mark_live_types_returns t HI) as [ts ->]. simpl. eauto.
Qed.

(** *** Every reachable table satisfies the invariants *)

Lemma run_Inv c t t' r : Inv t → pre t c → run c t = Ok (t', r) → Inv t'.
Proof.
  intros HI Hpre H.
  destruct c as [sz|e|rg dm|k| |i nm|nm|fuel tau1 tau2|fuel tau1 tau2|i|fuel];
    simpl in Hpre, H.
  - apply (bv_type_spec t sz t' r HI H).
  - destruct Hpre as [_ He]. apply (tuple_type_spec t e t' r HI He H).
  - destruct Hpre as (_ & He & Hr).
    apply (function_type_spec t rg dm t' r HI He Hr H).
  - apply (new_scalar_type_grows t k t' r HI H).
  - apply (new_uninterpreted_type_grows t t' r HI H).
  - injection H as <- <-. apply set_type_name_Inv; assumption.
  - injection H as <- <-. apply remove_type_name_Inv; assumption.
  - destruct Hpre as [H1 H2].
    apply (lat_type_sound Sup fuel t tau1 tau2 t' r HI H1 H2 H).
  - destruct Hpre as [H1 H2].
    apply (lat_type_sound Inf fuel t tau1 tau2 t' r HI H1 H2 H).
  - injection H as <- <-. apply set_gc_mark_Inv; assumption.
  - apply bind_Ok in H as (t1 & Hgc & H). injection H as <- <-.
    destruct (type_table_gc_collected fuel t t1 HI Hgc) as (m & _ & _ & HI1 & _).
    exact HI1.
Qed.

Lemma reachable_Inv t : reachable t → Inv t.
Proof.
  induction 1 as [n t Hn Hinit|t c t' r _ IH Hpre Hrun].
  - apply (init_type_table_Inv n t); [lia|exact Hinit].
  - apply (run_Inv c t t' r IH Hpre Hrun).
Qed.

(** *** Scripts reach reachable tables *)

Lemma forallb_good t l : forallb (good_type t) l = true → Forall (good t) l.
Proof.
  intros H. apply Forall_forall. intros x Hx.
  apply good_type_spec. rewrite forallb_forall in H. apply H.
  apply list_elem_of_In. exact Hx.
Qed.

Lemma preb_pre t c : preb t c = true → pre t c.
Proof.
  destruct c as [sz|e|rg dm|k| |i nm|nm|fuel a b|fuel a b|i|fuel]; simpl;
    rewrite ?andb_true_iff, ?negb_true_iff, ?bool_decide_eq_false,
      ?Z.ltb_lt, ?Z.leb_le, ?good_type_spec; try tauto.
  - intros [Hne Hf]. split; [exact Hne|apply forallb_good; exact Hf].
  - intros [[Hne Hf] Hr]. split; [exact Hne|].
    split; [apply forallb_good; exact Hf|exact Hr].
Qed.

Lemma run_script_reachable cs :
  ∀ t t', reachable t → run_script cs t = Some t' → reachable t'.
Proof.
  induction cs as [|c cs IH]; intros t t' Hr H; simpl in H.
  - injection H as <-. exact Hr.
  - destruct (preb t c) eqn:Hp; [|discriminate].
    destruct (run c t) as [[t1 r]| |] eqn:Hrun; try discriminate.
    apply (IH t1 t'); [|exact H].
    eapply reachable_step; eauto using preb_pre.
Qed.

Lemma script_reachable n cs t : script n cs = Some t → reachable t.
Proof.
  unfold script. destruct ((0 <=? n) && (n <=? UINT32_MAX)) eqn:Hn; [|discriminate].
  apply andb_true_iff in Hn as [H0 H1]. apply Z.leb_le in H0, H1.
  destruct (init_type_table n) as [t0| |] eqn:Hi; try discriminate.
  apply run_script_reachable. eapply reachable_init; eauto.
Qed.

(** *** Types that survive a run of calls *)

Lemma run_extends c t t' r :
  Inv t → pre t c → is_gc c = false → run c t = Ok (t', r) → extends t t'.
Proof.
  intros HI Hpre Hgc H.
  destruct c as [sz|e|rg dm|k| |i nm|nm|fuel tau1 tau2|fuel tau1 tau2|i|fuel];
    simpl in Hpre, H; try discriminate.
  - apply (bv_type_spec t sz t' r HI H).
  - destruct Hpre as [_ He]. apply (tuple_type_spec t e t' r HI He H).
  - destruct Hpre as (_ & He & Hr).
    apply (function_type_spec t rg dm t' r HI He Hr H).
  - apply (new_scalar_type_grows t k t' r HI H).
  - apply (new_uninterpreted_type_grows t t' r HI H).
  - injection H as <- <-. intros j Hj. unfold set_type_name.
    destruct (name t i); repeat split; try reflexivity; apply Hj.
  - injection H as <- <-. intros j Hj. repeat split; try reflexivity; apply Hj.
  - destruct Hpre as [H1 H2].
    apply (lat_type_sound Sup fuel t tau1 tau2 t' r HI H1 H2 H).
  - destruct Hpre as [H1 H2].
    apply (lat_type_sound Inf fuel t tau1 tau2 t' r HI H1 H2 H).
  - injection H as <- <-. intros j Hj. repeat split; try reflexivity; apply Hj.
Qed.

Lemma run_keeps c t t' r i :
  Inv t → pre t c → run c t = Ok (t', r) → good t i → good t' i →
  kind t' i = kind t i ∧ desc t' i = desc t i.
Proof.
  intros HI Hpre H Hi Hi'. destruct (is_gc c) eqn:Hgc.
  - destruct c; try discriminate. simpl in H.
    apply bind_Ok in H as (t1 & Hrun & H). injection H as <- <-.
    destruct (type_table_gc_collected fuel t t1 HI Hrun) as (m & _ & _ & _ & Hcol).
    apply (col_live t m t1 Hcol) in Hi'.
    destruct (col_keep t m t1 Hcol i (erased_marked t m i Hi')) as (? & ? & _).
    auto.
  - destruct (run_extends c t t' r HI Hpre Hgc H i Hi) as (_ & ? & ? & _). auto.
Qed.

Lemma runs_keeping_desc i t1 t2 :
  runs_keeping i t1 t2 → Inv t1 → good t1 i →
  Inv t2 ∧ good t2 i ∧ kind t2 i = kind t1 i ∧ desc t2 i = desc t1 i.
Proof.
  induction 1 as [t|t c t' r t'' Hpre Hrun Hg _ IH]; intros HI Hi; [auto|].
  pose proof (run_Inv c t t' r HI Hpre Hrun) as HI'.
  destruct (run_keeps c t t' r i HI Hpre Hrun Hi Hg) as [Hk Hd].
  destruct (IH HI' Hg) as (HI2 & Hg2 & Hk' & Hd').
  split; [exact HI2|]. split; [exact Hg2|]. split; congruence.
Qed.

(** *** The finite bit of a conjunction of flags *)

Lemma finite_bit_testbit z :
  flags_ok z = true → negb (Z.land z TYPE_IS_FINITE_MASK =? 0) = Z.testbit z 0.
Proof.
  intros Hz.
  pose proof (forall_range
    (λ z, Bool.eqb (negb (Z.land z TYPE_IS_FINITE_MASK =? 0)) (Z.testbit z 0))
    32 ltac:(vm_compute; reflexivity) z (flags_ok_range z Hz)) as H.
  cbv beta in H. apply Bool.eqb_prop in H. exact H.
Qed.

Lemma conjunct_finite t e :
  Forall (λ x, flags_ok (flags t x) = true) e →
  forallb (is_finite_type t) e
  = negb (Z.land (type_flags_conjunct t e) TYPE_IS_FINITE_MASK =? 0).
Proof.
  intros He. rewrite finite_bit_testbit
    by (rewrite type_flags_conjunct_eq; apply conj_flags_ok; exact He).
  rewrite type_flags_conjunct_eq, conj_flags_bit. simpl.
  induction He as [|x e Hx He IH]; simpl; [reflexivity|].
  unfold is_finite_type at 1. rewrite finite_bit_testbit by exact Hx.
  rewrite IH. reflexivity.
Qed.

Lemma function_flags_bits rf cj big :
  flags_ok rf = true → flags_ok cj = true → function_flags_check rf cj big = true.
Proof.
  intros Hr Hc.
  pose proof (forall_range2
    (λ r c, implb (flags_ok r && flags_ok c)
              (function_flags_check r c true && function_flags_check r c false))
    32 ltac:(vm_compute; reflexivity) rf cj
    (flags_ok_range _ Hr) (flags_ok_range _ Hc)) as H.
  simpl in H. rewrite Hr, Hc in H. simpl in H. apply andb_true_iff in H.
  destruct big; tauto.
Qed.

(** *** Cardinalities computed from well-formed descriptors

    These lemmas describe [new_tuple_type] and [new_function_type] on
    element types whose stored cardinality agrees with their flags.  Every
    constructor produces such descriptors except [new_function_type] on a
    domain of 32 elements or more (see C4). *)

Lemma flag_bits_testbit z :
  flags_ok z = true →
  negb (Z.land z TYPE_IS_UNIT_MASK =? 0) = Z.testbit z 1
  ∧ negb (Z.land z CARD_IS_EXACT_MASK =? 0) = Z.testbit z 2
  ∧ (z = UNIT_TYPE_FLAGS ↔ Z.testbit z 1 = true)
  ∧ (z = UNIT_TYPE_FLAGS ∨ z = SMALL_TYPE_FLAGS ↔ Z.testbit z 2 = true)
  ∧ (Z.testbit z 2 = false → Z.ldiff z CARD_IS_EXACT_MASK = z)
  ∧ wrap8 z = z.
Proof.
  intros Hz.
  pose proof (forall_range
    (λ z, implb (flags_ok z)
      (Bool.eqb (negb (Z.land z TYPE_IS_UNIT_MASK =? 0)) (Z.testbit z 1)
       && Bool.eqb (negb (Z.land z CARD_IS_EXACT_MASK =? 0)) (Z.testbit z 2)
       && Bool.eqb (z =? UNIT_TYPE_FLAGS) (Z.testbit z 1)
       && Bool.eqb ((z =? UNIT_TYPE_FLAGS) || (z =? SMALL_TYPE_FLAGS))
            (Z.testbit z 2)
       && (Z.testbit z 2 || (Z.ldiff z CARD_IS_EXACT_MASK =? z))
       && (wrap8 z =? z)))
    32 ltac:(vm_compute; reflexivity) z (flags_ok_range z Hz)) as H.
  cbv beta in H. rewrite Hz in H. cbn [implb] in H.
  apply andb_true_iff in H as [H H6]. apply andb_true_iff in H as [H H5].
  apply andb_true_iff in H as [H H4]. apply andb_true_iff in H as [H H3].
  apply andb_true_iff in H as [H1 H2].
  apply Bool.eqb_prop in H1, H2, H3, H4. apply Z.eqb_eq in H6.
  split; [exact H1|]. split; [exact H2|].
  split; [rewrite <- Z.eqb_eq, H3; tauto|].
  split; [rewrite <- !Z.eqb_eq, <- orb_true_iff, H4; tauto|].
  split; [|exact H6].
  intros E. rewrite E in H5. cbn [orb] in H5. apply Z.eqb_eq in H5. exact H5.
Qed.

Lemma card_product_pos t e :
  Forall (λ x, 1 ≤ type_card t x ≤ UINT32_MAX) e → 1 ≤ card_product t e.
Proof.
  induction 1 as [|x e Hx He IH]; simpl; [lia|]. nia.
Qed.

Lemma card_product_ge t e x :
  Forall (λ x, 1 ≤ type_card t x ≤ UINT32_MAX) e → x ∈ e →
  type_card t x ≤ card_product t e.
Proof.
  induction 1 as [|y e Hy He IH]; intros Hx; [by apply elem_of_nil in Hx|].
  simpl. pose proof (card_product_pos t e He).
  apply elem_of_cons in Hx as [->|Hx]; [nia|]. specialize (IH Hx). nia.
Qed.

Lemma type_card_product_from_spec t a :
  Forall (λ x, 1 ≤ type_card t x ≤ UINT32_MAX) a →
  ∀ p, 1 ≤ p ≤ UINT32_MAX →
    (p * card_product t a ≤ UINT32_MAX →
     type_card_product_from t p a = p * card_product t a)
    ∧ (UINT32_MAX < p * card_product t a →
       UINT32_MAX < type_card_product_from t p a).
Proof.
  induction 1 as [|x a Hx Ha IH]; intros p Hp; simpl.
  - split; [intros _; lia|]. intros H. lia.
  - pose proof (card_product_pos t a Ha) as Hpos.
    assert (Hw : wrap64 (p * type_card t x) = p * type_card t x).
    { unfold wrap64. apply Z.mod_small. unfold UINT32_MAX in *. nia. }
    rewrite Hw.
    destruct (UINT32_MAX <? p * type_card t x) eqn:E.
    + apply Z.ltb_lt in E. split; [intros H; nia|intros _; exact E].
    + apply Z.ltb_ge in E.
      destruct (IH (p * type_card t x) ltac:(nia)) as [I1 I2].
      split; intros H.
      * rewrite I1 by nia. ring.
      * apply I2. nia.
Qed.

Lemma type_card_product_spec t e :
  Forall (λ x, 1 ≤ type_card t x ≤ UINT32_MAX) e →
  (card_product t e ≤ UINT32_MAX → type_card_product t e = card_product t e)
  ∧ (UINT32_MAX < card_product t e → UINT32_MAX < type_card_product t e).
Proof.
  intros He. unfold type_card_product.
  destruct (type_card_product_from_spec t e He 1 ltac:(unfold UINT32_MAX; lia))
    as [I1 I2].
  rewrite Z.mul_1_l in I1, I2. split; intros H; [rewrite I1 by exact H; lia|auto].
Qed.

Lemma desc_ok_cards t e :
  Forall (desc_ok t) e → Forall (λ x, 1 ≤ type_card t x ≤ UINT32_MAX) e.
Proof. intros H. eapply Forall_impl; [exact H|]. intros x (_ & ? & _). assumption. Qed.

Lemma desc_ok_flags t e :
  Forall (desc_ok t) e → Forall (λ x, flags_ok (flags t x) = true) e.
Proof. intros H. eapply Forall_impl; [exact H|]. intros x (? & _). assumption. Qed.

Lemma conjunct_unit t e :
  Forall (desc_ok t) e → type_flags_conjunct t e = UNIT_TYPE_FLAGS →
  card_product t e = 1.
Proof.
  intros He Hc.
  assert (Hb : Z.testbit (type_flags_conjunct t e) 1 = true) by (rewrite Hc; reflexivity).
  rewrite type_flags_conjunct_eq, conj_flags_bit in Hb. simpl in Hb. clear Hc.
  induction He as [|x e Hx He IH]; simpl in *; [reflexivity|].
  apply andb_true_iff in Hb as [Hbx Hbe]. rewrite (IH Hbe).
  destruct Hx as (Hf & _ & Hu & _).
  rewrite Hu; [reflexivity|]. unfold is_unit_type.
  destruct (flag_bits_testbit _ Hf) as (-> & _). exact Hbx.
Qed.

Lemma conjunct_inexact t e :
  Forall (desc_ok t) e → Z.testbit (type_flags_conjunct t e) 2 = false →
  UINT32_MAX ≤ card_product t e.
Proof.
  intros He Hb. pose proof (desc_ok_cards t e He) as Hc.
  rewrite type_flags_conjunct_eq, conj_flags_bit in Hb. simpl in Hb.
  assert (Hx : ∃ x, x ∈ e ∧ Z.testbit (flags t x) 2 = false).
  { clear Hc. induction He as [|x e Hx He IH]; simpl in Hb; [discriminate|].
    apply andb_false_iff in Hb as [Hb|Hb].
    - exists x. split; [left|exact Hb].
    - destruct (IH Hb) as (y & ? & ?). exists y. split; [by right|assumption]. }
  destruct Hx as (x & Hin & Hbx).
  pose proof (card_product_ge t e x Hc Hin) as Hge.
  apply (proj1 (Forall_forall _ _) He) in Hin as (Hf & _ & _ & Hi).
  rewrite <- Hi; [exact Hge|]. unfold type_has_exact_card.
  destruct (flag_bits_testbit _ Hf) as (_ & -> & _). exact Hbx.
Qed.

(** On well-formed elements [new_tuple_type] stores the saturated product,
    and the conjunction of the flags with the exact-cardinality bit cleared
    when the product exceeds [UINT32_MAX]. *)
Lemma new_tuple_type_card t e t' i :
  Forall (desc_ok t) e → new_tuple_type t e = Ok (t', i) →
  type_card t' i = Z.min (card_product t e) UINT32_MAX
  ∧ type_flags t' i
    = if UINT32_MAX <? card_product t e
      then Z.ldiff (type_flags_conjunct t e) CARD_IS_EXACT_MASK
      else type_flags_conjunct t e.
Proof.
  intros He H. apply new_tuple_type_install in H as (t0 & _ & ->).
  unfold type_card, type_flags.
  destruct (install_fields t0 i TUPLE_TYPE (desc_tuple e)
    (wrap32 (tuple_card_flag t e (type_flags_conjunct t e)).1)
    (tuple_flags (type_flags_conjunct t e)
       (UINT32_MAX <? type_card_product t e))) as (_ & _ & -> & ->).
  pose proof (desc_ok_cards t e He) as Hc.
  destruct (type_card_product_spec t e Hc) as [P1 P2].
  pose proof (card_product_pos t e Hc) as Hpos.
  assert (Hcj : flags_ok (type_flags_conjunct t e) = true).
  { rewrite type_flags_conjunct_eq. apply conj_flags_ok, desc_ok_flags, He. }
  destruct (flag_bits_testbit _ Hcj) as (_ & _ & _ & Hus & Hld & Hw8).
  unfold tuple_card_flag, tuple_flags.
  destruct (type_flags_conjunct t e =? UNIT_TYPE_FLAGS) eqn:E1.
  { apply Z.eqb_eq in E1. rewrite (conjunct_unit t e He E1), Hw8.
    split; reflexivity. }
  destruct (type_flags_conjunct t e =? SMALL_TYPE_FLAGS) eqn:E2.
  { apply Z.eqb_eq in E2.
    destruct (UINT32_MAX <? card_product t e) eqn:E3.
    - apply Z.ltb_lt in E3. specialize (P2 E3).
      replace (UINT32_MAX <? type_card_product t e) with true
        by (symmetry; apply Z.ltb_lt; exact P2).
      simpl. rewrite E2. split; [|reflexivity].
      rewrite Z.min_r by lia. reflexivity.
    - apply Z.ltb_ge in E3. rewrite (P1 E3).
      replace (UINT32_MAX <? card_product t e) with false
        by (symmetry; apply Z.ltb_ge; exact E3).
      simpl. rewrite Hw8. split; [|reflexivity].
      rewrite Z.min_l by lia. unfold wrap32. apply Z.mod_small.
      unfold UINT32_MAX in *. lia. }
  apply Z.eqb_neq in E1, E2.
  assert (Hb : Z.testbit (type_flags_conjunct t e) 2 = false).
  { destruct (Z.testbit (type_flags_conjunct t e) 2) eqn:B; [|reflexivity].
    exfalso. destruct (proj2 Hus eq_refl); contradiction. }
  pose proof (conjunct_inexact t e He Hb) as Hge.
  simpl. rewrite Hw8, (Hld Hb). split; [|destruct (_ <? _); reflexivity].
  rewrite Z.min_r by lia. reflexivity.
Qed.

Lemma conjunct_exact t e :
  Forall (λ x, flags_ok (flags t x) = true) e →
  forallb (type_has_exact_card t) e = Z.testbit (type_flags_conjunct t e) 2.
Proof.
  intros He. rewrite type_flags_conjunct_eq, conj_flags_bit.
  change (Z.testbit UNIT_TYPE_FLAGS 2) with true. cbn [andb].
  induction He as [|x e Hx He IH]; cbn [forallb]; [reflexivity|].
  unfold type_has_exact_card at 1.
  destruct (flag_bits_testbit _ Hx) as (_ & -> & _). rewrite IH. reflexivity.
Qed.

Lemma function_switch_case rf cj :
  flags_ok rf = true → flags_ok cj = true →
  switch_case (function_switch_flag rf cj)
  = if Z.testbit rf 1 then 0
    else if Z.testbit rf 2 && Z.testbit cj 2 then 1 else 2.
Proof.
  intros Hr Hc.
  pose proof (forall_range2
    (λ r c, implb (flags_ok r && flags_ok c)
       (switch_case (function_switch_flag r c)
        =? (if Z.testbit r 1 then 0
            else if Z.testbit r 2 && Z.testbit c 2 then 1 else 2)))
    32 ltac:(vm_compute; reflexivity) rf cj
    (flags_ok_range _ Hr) (flags_ok_range _ Hc)) as H.
  cbv beta in H. rewrite Hr, Hc in H. cbn [andb implb] in H.
  apply Z.eqb_eq in H. exact H.
Qed.

Lemma fun_type_card_loop_spec range :
  1 ≤ range ≤ UINT32_MAX →
  ∀ n power dom,
    1 ≤ power ≤ UINT32_MAX → 1 ≤ dom → (Z.to_nat dom ≤ S n)%nat →
    (power * range ^ (dom - 1) ≤ UINT32_MAX →
     fun_type_card_loop n power range dom = power * range ^ (dom - 1))
    ∧ (UINT32_MAX < power * range ^ (dom - 1) →
       UINT32_MAX < fun_type_card_loop n power range dom).
Proof.
  intros Hr. induction n as [|n IH]; intros power dom Hp Hd Hn.
  - assert (dom = 1) as -> by lia. simpl. rewrite Z.mul_1_r. split; auto.
  - cbn [fun_type_card_loop].
    destruct (1 <? dom) eqn:E.
    + apply Z.ltb_lt in E.
      assert (Hpow : range ^ (dom - 1) = range * range ^ (dom - 1 - 1)).
      { replace (dom - 1) with (Z.succ (dom - 1 - 1)) at 1 by lia.
        apply Z.pow_succ_r. lia. }
      assert (Hpos : 1 ≤ range ^ (dom - 1 - 1)).
      { pose proof (Z.pow_pos_nonneg range (dom - 1 - 1)). lia. }
      assert (Hw : wrap64 (power * range) = power * range).
      { unfold wrap64. apply Z.mod_small. unfold UINT32_MAX in *. nia. }
      rewrite Hw, Hpow.
      destruct (UINT32_MAX <? power * range) eqn:E2.
      * apply Z.ltb_lt in E2. split; [intros H; nia|intros _; exact E2].
      * apply Z.ltb_ge in E2.
        destruct (IH (power * range) (dom - 1) ltac:(nia) ltac:(lia) ltac:(lia))
          as [I1 I2].
        split; intros H.
        -- rewrite I1 by nia. ring.
        -- apply I2. nia.
    + apply Z.ltb_ge in E. assert (dom = 1) as -> by lia.
      simpl. rewrite Z.mul_1_r. split; auto.
Qed.

(** On well-formed descriptors [new_function_type] stores [function_card]:
    the cardinality of the specification, except for the domains of 32
    elements or more. *)
Lemma new_function_type_card t e r t' i :
  desc_ok t r → Forall (desc_ok t) e →
  new_function_type t e r = Ok (t', i) →
  type_card t' i = function_card t e r.
Proof.
  intros (Hrf & Hrc & Hru & Hri) He H.
  apply new_function_type_install in H as (t0 & _ & ->).
  unfold type_card at 1.
  destruct (install_fields t0 i FUNCTION_TYPE (desc_function r e)
    (wrap32 (function_card_flag t e r
       (if Z.land (flags t r) (Z.lor TYPE_IS_FINITE_MASK TYPE_IS_UNIT_MASK)
           =? TYPE_IS_FINITE_MASK
        then Z.land (flags t r) (type_flags_conjunct t e)
        else flags t r)).1)
    (function_flags (flags t r) (type_flags_conjunct t e)
       (UINT32_MAX <? fun_type_card t e r))) as (_ & _ & -> & _).
  pose proof (desc_ok_cards t e He) as Hc.
  pose proof (desc_ok_flags t e He) as Hf.
  destruct (type_card_product_spec t e Hc) as [P1 P2].
  pose proof (card_product_pos t e Hc) as Hpos.
  assert (Hcj : flags_ok (type_flags_conjunct t e) = true).
  { rewrite type_flags_conjunct_eq. apply conj_flags_ok, Hf. }
  pose proof (function_switch_case _ _ Hrf Hcj) as Hsw.
  unfold function_switch_flag in Hsw.
  unfold function_card, is_unit_type, type_has_exact_card at 1.
  rewrite (conjunct_exact t e Hf).
  destruct (flag_bits_testbit _ Hrf) as (-> & -> & _).
  unfold function_card_flag.
  set (flag := if Z.land (flags t r) _ =? _ then _ else flags t r) in *.
  unfold switch_case in Hsw.
  destruct (Z.testbit (flags t r) 1).
  { destruct (flag =? UNIT_TYPE_FLAGS); [reflexivity|].
    destruct (flag =? SMALL_TYPE_FLAGS); discriminate. }
  destruct (Z.testbit (flags t r) 2 && Z.testbit (type_flags_conjunct t e) 2).
  - destruct (flag =? UNIT_TYPE_FLAGS); [discriminate|].
    destruct (flag =? SMALL_TYPE_FLAGS); [|discriminate].
    unfold fun_type_card.
    destruct (32 <=? card_product t e) eqn:E32.
    + apply Z.leb_le in E32.
      assert (32 ≤ type_card_product t e).
      { destruct (Z.le_gt_cases (card_product t e) UINT32_MAX) as [Hle|Hgt].
        - rewrite (P1 Hle). exact E32.
        - specialize (P2 ltac:(lia)). unfold UINT32_MAX in *. lia. }
      replace (32 <=? type_card_product t e) with true
        by (symmetry; apply Z.leb_le; assumption).
      reflexivity.
    + apply Z.leb_gt in E32.
      rewrite (P1 ltac:(unfold UINT32_MAX; lia)).
      replace (32 <=? card_product t e) with false
        by (symmetry; apply Z.leb_gt; exact E32).
      destruct (fun_type_card_loop_spec (type_card t r) Hrc
                  (Z.to_nat (card_product t e)) (type_card t r)
                  (card_product t e) Hrc Hpos ltac:(lia)) as [L1 L2].
      assert (Hpw : type_card t r * type_card t r ^ (card_product t e - 1)
                    = type_card t r ^ card_product t e).
      { replace (card_product t e) with (Z.succ (card_product t e - 1)) at 2 by lia.
        rewrite Z.pow_succ_r by lia. reflexivity. }
      rewrite Hpw in L1, L2.
      destruct (Z.le_gt_cases (type_card t r ^ card_product t e) UINT32_MAX)
        as [Hle|Hgt].
      * rewrite (L1 Hle).
        replace (UINT32_MAX <? _) with false by (symmetry; apply Z.ltb_ge; exact Hle).
        cbn [fst]. rewrite Z.min_l by exact Hle.
        assert (0 < type_card t r ^ card_product t e).
        { apply Z.pow_pos_nonneg; lia. }
        unfold wrap32. apply Z.mod_small. unfold UINT32_MAX in *. lia.
      * specialize (L2 ltac:(lia)).
        replace (UINT32_MAX <? _) with true by (symmetry; apply Z.ltb_lt; exact L2).
        cbn [fst]. rewrite Z.min_r by lia. reflexivity.
  - destruct (flag =? UNIT_TYPE_FLAGS); [discriminate|].
    destruct (flag =? SMALL_TYPE_FLAGS); [discriminate|]. reflexivity.
Qed.

(** *** The outcome of an allocation *)

Lemma wrap32_small x : 0 ≤ x < 2 ^ 32 → wrap32 x = x.
Proof. intros H. unfold wrap32. apply Z.mod_small. exact H. Qed.

Lemma shiftr1_bounds x : 0 ≤ x → Z.shiftr x 1 = x / 2 ∧ 0 ≤ x / 2 ∧ 2 * (x / 2) ≤ x.
Proof.
  intros Hx. rewrite Z.shiftr_div_pow2 by lia. change (2 ^ 1) with 2.
  pose proof (Z.mul_div_le x 2 eq_refl).
  pose proof (Z.div_pos x 2 Hx eq_refl). lia.
Qed.

Lemma type_table_extend_spec t :
  0 ≤ size t < YICES_MAX_TYPES →
  type_table_extend t
  = if YICES_MAX_TYPES <=? extended_size t then OutOfMemory
    else Ok (set_size t (extended_size t)).
Proof.
  intros Hs. unfold type_table_extend, extended_size.
  destruct (shiftr1_bounds (size t + 1) ltac:(lia)) as (E & H0 & H1).
  rewrite (wrap32_small (size t + 1)) by lia. rewrite E.
  rewrite (wrap32_small (size t + 1 + (size t + 1) / 2)) by lia.
  reflexivity.
Qed.

Lemma allocate_type_id_spec t :
  0 ≤ nelems t ≤ size t ∧ size t < YICES_MAX_TYPES →
  allocate_type_id t
  = if 0 <=? free_idx t then
      Ok (set_name (set_free_idx t (desc_next_of (desc t (free_idx t))))
            (free_idx t) None, free_idx t)
    else if nelems t <? size t then
      Ok (set_name (set_nelems t (nelems t + 1)) (nelems t) None, nelems t)
    else if YICES_MAX_TYPES <=? extended_size t then OutOfMemory
    else Ok (set_name (set_size (set_nelems t (nelems t + 1)) (extended_size t))
               (nelems t) None, nelems t).
Proof.
  intros [[Hn0 Hns] Hsz]. unfold allocate_type_id.
  destruct (0 <=? free_idx t); [reflexivity|].
  rewrite (wrap32_small (nelems t + 1)) by lia. tsimpl.
  destruct (nelems t <? size t) eqn:E.
  - apply Z.ltb_lt in E.
    replace (size t <=? nelems t) with false by (symmetry; apply Z.leb_gt; lia).
    reflexivity.
  - apply Z.ltb_ge in E.
    replace (size t <=? nelems t) with true by (symmetry; apply Z.leb_le; lia).
    rewrite type_table_extend_spec by (tsimpl; lia).
    unfold extended_size. tsimpl.
    destruct (YICES_MAX_TYPES <=? _); reflexivity.
Qed.

Lemma bind_Ok_l {A B} (a : A) (k : A → result B) : Ok a ≫= k = k a.
Proof. reflexivity. Qed.

Lemma bind_OutOfMemory_l {A B} (k : A → result B) : OutOfMemory ≫= k = OutOfMemory.
Proof. reflexivity. Qed.

Lemma allocate_type_id_outcome t :
  Inv t →
  (allocate_type_id t = OutOfMemory
   ↔ free_idx t < 0 ∧ nelems t = size t ∧ YICES_MAX_TYPES ≤ extended_size t)
  ∧ ∀ t1 i, allocate_type_id t = Ok (t1, i) →
      if 0 <=? free_idx t then
        i = free_idx t ∧ nelems t1 = nelems t ∧ size t1 = size t
        ∧ free_idx t1 = desc_next_of (desc t i)
      else
        i = nelems t ∧ nelems t1 = nelems t + 1 ∧ free_idx t1 = free_idx t
        ∧ size t1 = if nelems t <? size t then size t else extended_size t.
Proof.
  intros HI. pose proof (inv_size t HI) as Hs.
  rewrite (allocate_type_id_spec t Hs).
  destruct (0 <=? free_idx t) eqn:Hf.
  - apply Z.leb_le in Hf. split.
    + split; [discriminate|]. intros [? _]. lia.
    + intros t1 i [= <- <-]. tsimpl. auto.
  - apply Z.leb_gt in Hf. destruct (nelems t <? size t) eqn:Hn.
    + apply Z.ltb_lt in Hn. split.
      * split; [discriminate|]. intros (_ & ? & _). lia.
      * intros t1 i [= <- <-]. tsimpl. auto.
    + apply Z.ltb_ge in Hn. destruct (YICES_MAX_TYPES <=? extended_size t) eqn:Hm.
      * apply Z.leb_le in Hm. split; [|discriminate].
        split; [|reflexivity]. intros _. split; [exact Hf|]. split; [lia|exact Hm].
      * apply Z.leb_gt in Hm. split.
        -- split; [discriminate|]. intros (_ & _ & ?). lia.
        -- intros t1 i [= <- <-]. tsimpl. auto.
Qed.

(** * The properties *)

(** C1.  Hash-cons uniqueness.  In every reachable table two live ids of a
    hash-consed kind (bitvector, tuple, function) with the same descriptor
    are the same id; and once [bv_type], [tuple_type] or [function_type] has
    returned [i], a later call with the same arguments returns [i] again and
    leaves the table as it is, whatever calls came in between, collections
    included, as long as none of them reclaimed [i]. *)
Theorem hash_cons_uniqueness t :
  reachable t →
  (∀ i j, good t i → good t j → hash_consed (kind t i) = true →
          kind t i = kind t j → desc t i = desc t j → i = j)
  ∧ (∀ size t1 i t2,
       bv_type t size = Ok (t1, i) → runs_keeping i t1 t2 →
       bv_type t2 size = Ok (t2, i))
  ∧ (∀ elem t1 i t2,
       Forall (good t) elem →
       tuple_type t elem = Ok (t1, i) → runs_keeping i t1 t2 →
       tuple_type t2 elem = Ok (t2, i))
  ∧ (∀ range dom t1 i t2,
       Forall (good t) dom → good t range →
       function_type t range dom = Ok (t1, i) → runs_keeping i t1 t2 →
       function_type t2 range dom = Ok (t2, i)).
Proof.
  intros Hr. pose proof (reachable_Inv t Hr) as HI.
  split; [apply (inv_unique t HI)|]. split; [|split].
  - intros sz t1 i t2 H Hruns.
    destruct (bv_type_spec t sz t1 i HI H) as ((HI1 & _) & Hg & Hk & Hd & _).
    destruct (runs_keeping_desc i t1 t2 Hruns HI1 Hg) as (HI2 & Hg2 & Hk2 & Hd2).
    apply (int_htbl_get_obj_hit _ _ BITVECTOR_TYPE (desc_integer sz)); auto;
      try congruence. apply eq_bv_type_spec.
  - intros e t1 i t2 He H Hruns.
    destruct (tuple_type_spec t e t1 i HI He H) as ((HI1 & _) & Hg & Hk & Hd & _).
    destruct (runs_keeping_desc i t1 t2 Hruns HI1 Hg) as (HI2 & Hg2 & Hk2 & Hd2).
    apply (int_htbl_get_obj_hit _ _ TUPLE_TYPE (desc_tuple e)); auto;
      try congruence. apply eq_tuple_type_spec.
  - intros rg dm t1 i t2 He Hrg H Hruns.
    destruct (function_type_spec t rg dm t1 i HI He Hrg H)
      as ((HI1 & _) & Hg & Hk & Hd & _).
    destruct (runs_keeping_desc i t1 t2 Hruns HI1 Hg) as (HI2 & Hg2 & Hk2 & Hd2).
    apply (int_htbl_get_obj_hit _ _ FUNCTION_TYPE (desc_function rg dm)); auto;
      try congruence. apply eq_function_type_spec.
Qed.

(** C2.  Soundness of the collector.  From a reachable table
    [type_table_gc] returns for some recursion bound, and whenever it
    returns, with [m] the marks at sweep time: every type reachable from a
    root (a symbol-table binding, an id marked by the caller, a primitive)
    is marked, and is live afterwards with its kind, descriptor,
    cardinality, flags and name as before; the live ids are exactly the
    marked ones, the primitives among them; every entry of the sup and inf
    caches has live keys and a live value; and the free list has no
    repetition and holds every reclaimed id. *)
Theorem gc_soundness t :
  reachable t →
  (∃ fuel t', type_table_gc fuel t = Ok t')
  ∧ ∀ fuel t', type_table_gc fuel t = Ok t' →
      ∃ m, mark_live_types fuel (gc_mark_roots t) = Ok (with_marks t m)
        ∧ (∀ i j, gc_root t i → reaches t i j → m j = true)
        ∧ (∀ i j, gc_root t i → reaches t i j →
             good t' j ∧ kind t' j = kind t j ∧ desc t' j = desc t j
             ∧ card t' j = card t j ∧ flags t' j = flags t j
             ∧ name t' j = name t j)
        ∧ (∀ j, good t' j ↔ m j = true)
        ∧ m bool_id = true ∧ m int_id = true ∧ m real_id = true
        ∧ (∀ op h k0 k1 v, cache_of op t' = Some h → h !! (k0, k1) = Some v →
             good t' k0 ∧ good t' k1 ∧ good t' v)
        ∧ ∃ l, free_chain (desc t') (free_idx t') l ∧ NoDup l
             ∧ ∀ j, good t j → ¬ good t' j → j ∈ l.
Proof.
  intros Hr. pose proof (reachable_Inv t Hr) as HI.
  split; [destruct (type_table_gc_returns t HI) as [t' H]; eauto|].
  intros fuel t' H.
  destruct (type_table_gc_collected fuel t t' HI H) as (m & Hmark & Hm & HI' & Hcol).
  destruct Hcol as [Cn Cs Cc Cf Cst Clive Ckeep Cerase Cfree Cmarks Ccache].
  exists m. split; [exact Hmark|].
  assert (Hreach : ∀ i j, gc_root t i → reaches t i j → m j = true).
  { intros i j Hi Hij. eapply sweep_marks_reaches; eauto. apply Hm. exact Hi. }
  split; [exact Hreach|]. split.
  { intros i j Hi Hij. pose proof (Hreach i j Hi Hij) as Hmj.
    split; [apply Clive; exact Hmj|].
    destruct (Ckeep j (erased_marked t m j Hmj)) as (? & ? & ?).
    rewrite Cc, Cf. auto. }
  split; [exact Clive|].
  split; [apply Hm; unfold gc_root; auto|].
  split; [apply Hm; unfold gc_root; auto|].
  split; [apply Hm; unfold gc_root; auto 6|].
  split.
  { intros op h k0 k1 v Hh Hl. destruct (Ccache op h k0 k1 v Hh Hl) as (_ & ?). auto. }
  destruct Cfree as (l & Hchain & Hnd & Hl). exists l.
  split; [exact Hchain|]. split; [exact Hnd|].
  intros j Hj Hnj. apply Hl. split; [apply Hj|].
  destruct (decide (kind t' j = UNUSED_TYPE)) as [|Hne]; [assumption|].
  exfalso. apply Hnj. split; [rewrite Cn; apply Hj|exact Hne].
Qed.

(** C3.  Flags of a function type.  When [new_function_type] builds
    [(e[0], ..., e[n-1]) -> r] over live types of a reachable table, the
    unit, maximal and minimal bits of the new type are those of the range
    [r], and its finite bit is set exactly when [r] is a unit type, or [r]
    is finite and every [e[j]] is finite. *)
Theorem function_type_flags t e r t' i :
  reachable t → good t r → Forall (good t) e →
  new_function_type t e r = Ok (t', i) →
  is_unit_type t' i = is_unit_type t r
  ∧ is_maxtype t' i = is_maxtype t r
  ∧ is_mintype t' i = is_mintype t r
  ∧ is_finite_type t' i
    = is_unit_type t r || (is_finite_type t r && forallb (is_finite_type t) e).
Proof.
  intros Hr Hgr He H. pose proof (reachable_Inv t Hr) as HI.
  apply new_function_type_install in H as (t0 & _ & ->).
  pose proof (inv_flags t HI r Hgr) as Hrf.
  pose proof (good_flags_ok t e HI He) as Hef.
  assert (Hcj : flags_ok (type_flags_conjunct t e) = true).
  { rewrite type_flags_conjunct_eq. apply conj_flags_ok. exact Hef. }
  rewrite (conjunct_finite t e Hef).
  unfold is_unit_type, is_maxtype, is_mintype, is_finite_type.
  destruct (install_fields t0 i FUNCTION_TYPE (desc_function r e)
    (wrap32 (function_card_flag t e r
       (if Z.land (flags t r) (Z.lor TYPE_IS_FINITE_MASK TYPE_IS_UNIT_MASK)
           =? TYPE_IS_FINITE_MASK
        then Z.land (flags t r) (type_flags_conjunct t e)
        else flags t r)).1)
    (function_flags (flags t r) (type_flags_conjunct t e)
       (UINT32_MAX <? fun_type_card t e r))) as (_ & _ & _ & ->).
  pose proof (function_flags_bits (flags t r) (type_flags_conjunct t e)
                (UINT32_MAX <? fun_type_card t e r) Hrf Hcj) as Hb.
  unfold function_flags_check in Hb. cbv zeta in Hb.
  apply andb_true_iff in Hb as [Hb H4]. apply andb_true_iff in Hb as [Hb H3].
  apply andb_true_iff in Hb as [H1 H2].
  apply Bool.eqb_prop in H1, H2, H3, H4. auto.
Qed.

(** C6, as amended.  In every reachable table each entry
    [(k0, k1) -> v] of the sup cache and of the inf cache has [k0 < k1],
    live keys [k0] and [k1], and a value [v] that is a live type id or
    [NULL_TYPE]. *)
Theorem cache_entries t op h k0 k1 v :
  reachable t → cache_of op t = Some h → h !! (k0, k1) = Some v →
  k0 < k1 ∧ good t k0 ∧ good t k1 ∧ (v = NULL_TYPE ∨ good t v).
Proof.
  intros Hr Hc Hl. apply (inv_cache t (reachable_Inv t Hr) op h Hc k0 k1 v Hl).
Qed.

(** C7.  [UNKNOWN_TYPE] never leaves the engine.  For live [tau1] and
    [tau2] in a reachable table, [super_type] and [inf_type] return for some
    recursion bound; whenever they return, the result is [NULL_TYPE] or a
    type that is live in the resulting table, hence not [UNKNOWN_TYPE], and
    no entry of either cache of the resulting table holds [UNKNOWN_TYPE]. *)
Theorem unknown_type_internal t tau1 tau2 :
  reachable t → good t tau1 → good t tau2 →
  (∃ fuel, super_type fuel t tau1 tau2 ≠ OutOfFuel)
  ∧ (∃ fuel, inf_type fuel t tau1 tau2 ≠ OutOfFuel)
  ∧ ∀ fuel t' r,
      super_type fuel t tau1 tau2 = Ok (t', r)
      ∨ inf_type fuel t tau1 tau2 = Ok (t', r) →
      (r = NULL_TYPE ∨ good t' r) ∧ r ≠ UNKNOWN_TYPE
      ∧ ∀ op h k0 k1 v, cache_of op t' = Some h → h !! (k0, k1) = Some v →
          v ≠ UNKNOWN_TYPE.
Proof.
  intros Hr H1 H2. pose proof (reachable_Inv t Hr) as HI.
  split; [apply (lat_type_returns Sup t tau1 tau2 HI H1 H2)|].
  split; [apply (lat_type_returns Inf t tau1 tau2 HI H1 H2)|].
  intros fuel t' r H.
  assert (Hs : grows t t' ∧ (r = NULL_TYPE ∨ good t' r)).
  { destruct H as [H|H].
    - apply (lat_type_sound Sup fuel t tau1 tau2 t' r HI H1 H2 H).
    - apply (lat_type_sound Inf fuel t tau1 tau2 t' r HI H1 H2 H). }
  destruct Hs as [(HI' & _) Hres].
  assert (Hnu : ∀ v, v = NULL_TYPE ∨ good t' v → v ≠ UNKNOWN_TYPE).
  { intros v [->|[[Hv _] _]]; unfold UNKNOWN_TYPE, NULL_TYPE; lia. }
  split; [exact Hres|]. split; [apply Hnu; exact Hres|].
  intros op h k0 k1 v Hc Hl. apply Hnu.
  apply (inv_cache t' HI' op h Hc k0 k1 v Hl).
Qed.

(** C8.  Scalar and uninterpreted types are nominal.  In a reachable
    table [new_scalar_type(k)] with [k >= 1] and [new_uninterpreted_type]
    run out of memory when the free list is empty, the arrays are full and
    the size [type_table_extend] asks for reaches [YICES_MAX_TYPES]; in
    every other table both return an id.  The id [new_scalar_type] returns
    is none of the live ids, it is live afterwards with kind scalar,
    cardinality [k] and flags [UNIT_TYPE_FLAGS] if [k = 1],
    [SMALL_TYPE_FLAGS] otherwise, and a second call with the same [k]
    returns another id.  The id [new_uninterpreted_type] returns is none of
    the live ids either, and a second call returns another id. *)
Theorem scalar_types_nominal t k :
  reachable t → 1 ≤ k ≤ UINT32_MAX →
  (free_idx t < 0 ∧ nelems t = size t ∧ YICES_MAX_TYPES ≤ extended_size t →
   new_scalar_type t k = OutOfMemory ∧ new_uninterpreted_type t = OutOfMemory)
  ∧ (¬ (free_idx t < 0 ∧ nelems t = size t
        ∧ YICES_MAX_TYPES ≤ extended_size t) →
     (∃ t1 i, new_scalar_type t k = Ok (t1, i))
     ∧ (∃ t1 i, new_uninterpreted_type t = Ok (t1, i)))
  ∧ (∀ t1 i, new_scalar_type t k = Ok (t1, i) →
       ¬ good t i ∧ good t1 i ∧ kind t1 i = SCALAR_TYPE
       ∧ type_card t1 i = k
       ∧ type_flags t1 i = (if k =? 1 then UNIT_TYPE_FLAGS else SMALL_TYPE_FLAGS)
       ∧ ∀ t2 j, new_scalar_type t1 k = Ok (t2, j) → j ≠ i ∧ good t2 i ∧ good t2 j)
  ∧ (∀ t1 i, new_uninterpreted_type t = Ok (t1, i) →
       ¬ good t i ∧ good t1 i ∧ kind t1 i = UNINTERPRETED_TYPE
       ∧ ∀ t2 j, new_uninterpreted_type t1 = Ok (t2, j) →
           j ≠ i ∧ good t2 i ∧ good t2 j).
Proof.
  intros Hr Hk. pose proof (reachable_Inv t Hr) as HI.
  destruct (allocate_type_id_outcome t HI) as [Hoom _].
  pose proof (allocate_type_id_fuel t) as Hfuel.
  split; [|split; [|split]].
  - intros Hfull. apply Hoom in Hfull.
    unfold new_scalar_type, new_uninterpreted_type. rewrite Hfull.
    split; reflexivity.
  - intros Hnf.
    assert (Hne : allocate_type_id t ≠ OutOfMemory).
    { intros E. apply Hnf, Hoom, E. }
    unfold new_scalar_type, new_uninterpreted_type.
    destruct (allocate_type_id t) as [[t0 i]| |]; [|congruence|congruence].
    rewrite !bind_Ok_l. cbv beta iota zeta. split; eexists _, _; reflexivity.
  - intros t1 i H.
    destruct (new_scalar_type_grows t k t1 i HI H)
      as ((HI1 & _) & Hf & Hg & Hkd & _ & Hc & Hfl).
    repeat (split; [assumption|]).
    intros t2 j H2.
    destruct (new_scalar_type_grows t1 k t2 j HI1 H2)
      as ((_ & He & _) & Hf2 & Hg2 & _).
    split; [intros ->; contradiction|]. split; [apply (He i Hg)|exact Hg2].
  - intros t1 i H.
    destruct (new_uninterpreted_type_grows t t1 i HI H)
      as ((HI1 & _) & Hf & Hg & Hkd & _).
    repeat (split; [assumption|]).
    intros t2 j H2.
    destruct (new_uninterpreted_type_grows t1 t2 j HI1 H2)
      as ((_ & He & _) & Hf2 & Hg2 & _).
    split; [intros ->; contradiction|]. split; [apply (He i Hg)|exact Hg2].
Qed.

(** C9.  Shadowing in the symbol table.  Starting from a table where the
    name [X] is not bound: after [set_type_name(T1, X)] and
    [set_type_name(T2, X)] the name maps to [T2]; after one
    [remove_type_name(X)] it maps to [T1]; after a second one it is unbound
    again.  Every [set_type_name] pushes a binding, and it stores the name
    in the descriptor only if the type has no name yet. *)
Theorem symbol_table_shadowing t T1 T2 X :
  get_type_by_name t X = NULL_TYPE →
  let t1 := set_type_name t T1 X in
  let t2 := set_type_name t1 T2 X in
  let t3 := remove_type_name t2 X in
  let t4 := remove_type_name t3 X in
  get_type_by_name t2 X = T2
  ∧ get_type_by_name t3 X = T1
  ∧ get_type_by_name t4 X = NULL_TYPE
  ∧ stbl t2 = (X, T2) :: (X, T1) :: stbl t
  ∧ ∀ u i nm,
      stbl (set_type_name u i nm) = (nm, i) :: stbl u
      ∧ name (set_type_name u i nm) i
        = match name u i with Some first => Some first | None => Some nm end.
Proof.
  intros H0.
  assert (Hst : ∀ u i nm, stbl (set_type_name u i nm) = (nm, i) :: stbl u).
  { intros u i nm. unfold set_type_name. destruct (name u i); reflexivity. }
  cbv zeta. unfold get_type_by_name, remove_type_name in *. tsimpl.
  rewrite !Hst. simpl. rewrite !bool_decide_eq_true_2 by reflexivity. simpl.
  rewrite !bool_decide_eq_true_2 by reflexivity.
  repeat (split; [reflexivity || assumption|]).
  intros u i nm. split; [apply Hst|].
  unfold set_type_name. destruct (name u i) eqn:E; tsimpl; [exact E|].
  rewrite fn_insert_eq. destruct (decide (i = i)); congruence.
Qed.

(** C10.  What the collector leaves alone.  [type_table_gc] on a
    reachable table changes neither [nelems] nor [size]; with [m] the marks
    at sweep time, every slot other than the reclaimed ones (in range,
    unmarked, in use and not primitive), so in particular every marked
    slot and the three primitives, keeps its kind, descriptor, cardinality,
    flags and name; a reclaimed slot gets kind [UNUSED_TYPE], loses its name
    and is linked in the free list; [erase_type] does nothing on a slot that
    is primitive or already unused, and the free list has no repetition. *)
Theorem gc_frame t fuel t' :
  reachable t → type_table_gc fuel t = Ok t' →
  nelems t' = nelems t ∧ size t' = size t
  ∧ (∀ u i, kind u i = UNUSED_TYPE ∨ primitive (kind u i) = true →
            erase_type u i = u)
  ∧ ∃ m, mark_live_types fuel (gc_mark_roots t) = Ok (with_marks t m)
      ∧ m bool_id = true ∧ m int_id = true ∧ m real_id = true
      ∧ (∀ i, m i = true ∨ i < 0 ∨ nelems t ≤ i ∨ kind t i = UNUSED_TYPE
              ∨ primitive (kind t i) = true →
           kind t' i = kind t i ∧ desc t' i = desc t i ∧ card t' i = card t i
           ∧ flags t' i = flags t i ∧ name t' i = name t i)
      ∧ ∃ l, free_chain (desc t') (free_idx t') l ∧ NoDup l
          ∧ ∀ i, 0 ≤ i < nelems t → m i = false → kind t i ≠ UNUSED_TYPE →
                 primitive (kind t i) = false →
              kind t' i = UNUSED_TYPE ∧ name t' i = None
              ∧ card t' i = card t i ∧ flags t' i = flags t i ∧ i ∈ l.
Proof.
  intros Hr H. pose proof (reachable_Inv t Hr) as HI.
  destruct (type_table_gc_collected fuel t t' HI H) as (m & Hmark & Hm & HI' & Hcol).
  destruct Hcol as [Cn Cs Cc Cf Cst Clive Ckeep Cerase Cfree Cmarks Ccache].
  split; [exact Cn|]. split; [exact Cs|]. split; [apply erase_type_noop|].
  exists m. split; [exact Hmark|].
  split; [apply Hm; unfold gc_root; auto|].
  split; [apply Hm; unfold gc_root; auto|].
  split; [apply Hm; unfold gc_root; auto 6|].
  split.
  - intros i Hi.
    assert (He : erased t m i = false).
    { destruct (erased t m i) eqn:E; [|reflexivity].
      apply erased_spec in E as (? & ? & ? & ?).
      destruct Hi as [?|[?|[?|[?|?]]]]; congruence || lia. }
    destruct (Ckeep i He) as (? & ? & ?). rewrite Cc, Cf. auto.
  - destruct Cfree as (l & Hchain & Hnd & Hl). exists l.
    split; [exact Hchain|]. split; [exact Hnd|].
    intros i Hi Hmi Hku Hp.
    assert (He : erased t m i = true) by (apply erased_spec; auto).
    destruct (Cerase i He) as (Hk & Hn & _).
    rewrite Cc, Cf. repeat (split; [assumption || reflexivity|]).
    apply Hl. auto.
Qed.

(** * Further properties of the interface *)

(** ** Initialisation and allocation *)

Ltac decide_if :=
  match goal with
  | |- context [if ?b then _ else _] =>
    first
      [ replace b with true
          by (symmetry;
              first [apply Z.leb_le | apply Z.ltb_lt | apply Z.eqb_eq];
              unfold NULL_TYPE in *; tsimpl; lia)
      | replace b with false
          by (symmetry;
              first [apply Z.leb_gt | apply Z.ltb_ge | apply Z.eqb_neq];
              unfold NULL_TYPE in *; tsimpl; lia) ];
    cbv iota
  end.

Ltac div_eval :=
  match goal with
  | |- context [?a `div` 2] =>
    let v := eval vm_compute in (a `div` 2) in change (a `div` 2) with v
  end.

(** Tables are kept as explicit records between the steps of a
    computation. *)
Ltac tnorm :=
  cbv beta iota zeta delta
    [kind desc card flags name gc_mark size nelems free_idx htbl stbl
     sup_tbl inf_tbl set_kind set_desc set_card set_flags set_name
     set_gc_mark set_size set_nelems set_free_idx set_htbl set_stbl
     set_sup_tbl set_inf_tbl].

Ltac alloc_step :=
  rewrite allocate_type_id_spec by (tsimpl; lia);
  unfold extended_size; tnorm; repeat decide_if; repeat div_eval;
  repeat decide_if;
  first [rewrite bind_Ok_l; tnorm | rewrite bind_OutOfMemory_l].

Lemma initial_table_intro k d c f s :
  primitive_slots (mk_table k d c f (λ _, None) (λ _, false) s 3 NULL_TYPE
                     [] [] None None) →
  initial_table (mk_table k d c f
    (<[2:=None]> (<[1:=None]> (<[0:=None]> (λ _, None)))) (λ _, false)
    s 3 NULL_TYPE [] [] None None)
  ∧ ∀ i, name (mk_table k d c f
    (<[2:=None]> (<[1:=None]> (<[0:=None]> (λ _, None)))) (λ _, false)
    s 3 NULL_TYPE [] [] None None) i = None.
Proof.
  intros H.
  assert (Hn : ∀ i, name (mk_table k d c f
    (<[2:=None]> (<[1:=None]> (<[0:=None]> (λ _, None)))) (λ _, false)
    s 3 NULL_TYPE [] [] None None) i = None).
  { intros i. tsimpl. rewrite !fn_insert_eq. repeat case_match; reflexivity. }
  split; [|exact Hn]. unfold initial_table.
  split; [reflexivity|]. split; [reflexivity|]. split; [exact H|].
  split; [|repeat split; reflexivity].
  intros i Hi. split; [apply Hn|reflexivity].
Qed.

Ltac init_done :=
  eexists; split; [reflexivity|]; split; [reflexivity|];
  apply initial_table_intro;
  unfold primitive_slots, type_card, type_flags; tsimpl;
  repeat split; reflexivity.

(** In the model the slots that have never been used hold no name either. *)

Lemma init_type_table_Ok n :
  0 ≤ n → init_size n < YICES_MAX_TYPES →
  ∃ t, init_type_table n = Ok t ∧ size t = init_size n ∧ initial_table t
       ∧ ∀ i, name t i = None.
Proof.
  intros Hn Hmax. unfold init_type_table, type_table_init.
  assert (Hle : n ≤ init_size n) by (unfold init_size; repeat case_match; lia).
  replace (YICES_MAX_TYPES <=? n) with false by (symmetry; apply Z.leb_gt; lia).
  rewrite bind_Ok_l. unfold add_primitive_types. clear Hle.
  destruct (Z.le_gt_cases 3 n) as [H3|H3].
  - assert (init_size n = n) as E.
    { unfold init_size. replace (3 <=? n) with true; [reflexivity|].
      symmetry. apply Z.leb_le. exact H3. }
    rewrite E in *. do 3 alloc_step. init_done.
  - assert (n = 0 ∨ n = 1 ∨ n = 2) as [->|[->| ->]] by lia;
      unfold init_size in *; simpl in Hmax; do 3 alloc_step; init_done.
Qed.

Lemma init_type_table_OutOfMemory n :
  0 ≤ n → YICES_MAX_TYPES ≤ init_size n → init_type_table n = OutOfMemory.
Proof.
  intros Hn Hmax. unfold init_type_table, type_table_init.
  destruct (YICES_MAX_TYPES <=? n) eqn:E; [reflexivity|].
  apply Z.leb_gt in E. rewrite bind_Ok_l. unfold add_primitive_types.
  assert (n = 0 ∨ n = 1 ∨ n = 2) as [->|[->| ->]].
  { unfold init_size in Hmax. repeat case_match; lia. }
  all: unfold init_size in Hmax; simpl in Hmax.
  - destruct (Z.le_gt_cases YICES_MAX_TYPES 1).
    + alloc_step. reflexivity.
    + do 2 alloc_step. reflexivity.
  - do 2 alloc_step. reflexivity.
  - do 3 alloc_step. reflexivity.
Qed.

(** X1.  What [init_type_table(n)] returns.  With [s] the size the arrays
    must reach to hold the three primitive types ([n] if [n >= 3], [4] if
    [n = 2], [3] otherwise): the call runs out of memory when
    [s >= YICES_MAX_TYPES], and otherwise returns a table of size [s] whose
    only types are [bool] (id 0, cardinality 2, small), [int] (id 1,
    infinite, minimal) and [real] (id 2, infinite, maximal), with no name,
    no mark, an empty free list, symbol table and hash-consing table, and
    no cache. *)
Theorem init_type_table_outcome n :
  0 ≤ n →
  (YICES_MAX_TYPES ≤ init_size n → init_type_table n = OutOfMemory)
  ∧ (init_size n < YICES_MAX_TYPES →
     ∃ t, init_type_table n = Ok t ∧ size t = init_size n ∧ initial_table t).
Proof.
  intros Hn. split.
  - apply init_type_table_OutOfMemory. exact Hn.
  - intros Hm. destruct (init_type_table_Ok n Hn Hm) as (t & H & Hs & Hi & _).
    exists t. auto.
Qed.

Lemma Inv_free_head t j :
  Inv t → 0 ≤ j < nelems t → kind t j = UNUSED_TYPE →
  0 ≤ free_idx t < nelems t ∧ kind t (free_idx t) = UNUSED_TYPE.
Proof.
  intros HI Hj Hk. destruct (inv_free t HI) as (l & Hchain & _ & Hl).
  assert (Hin : j ∈ l) by (apply Hl; auto).
  destruct l as [|x l]; [by apply elem_of_nil in Hin|].
  destruct Hchain as (-> & _ & _).
  assert (Hx : x ∈ x :: l) by left.
  apply Hl in Hx. exact Hx.
Qed.

Lemma install_frame t i k d c f :
  nelems (install t i k d c f) = nelems t ∧ size (install t i k d c f) = size t
  ∧ free_idx (install t i k d c f) = free_idx t.
Proof. repeat split; reflexivity. Qed.

(** X2.  Where a new type is stored.  In a reachable table
    [new_uninterpreted_type] and [new_scalar_type] run out of memory exactly
    when the free list is empty, the arrays are full and the size
    [type_table_extend] asks for reaches [YICES_MAX_TYPES].  Otherwise the new
    id is the head of the free list, if there is one, and then neither
    [nelems] nor [size] changes; else it is [nelems], and the arrays grow
    only when they are full.  The free list is not empty as soon as some
    slot below [nelems] is unused. *)
Theorem new_type_allocation t k :
  reachable t →
  (new_uninterpreted_type t = OutOfMemory
   ↔ free_idx t < 0 ∧ nelems t = size t ∧ YICES_MAX_TYPES ≤ extended_size t)
  ∧ (new_scalar_type t k = OutOfMemory
     ↔ free_idx t < 0 ∧ nelems t = size t ∧ YICES_MAX_TYPES ≤ extended_size t)
  ∧ (∀ t1 i,
       new_uninterpreted_type t = Ok (t1, i) ∨ new_scalar_type t k = Ok (t1, i) →
       if 0 <=? free_idx t then
         i = free_idx t ∧ nelems t1 = nelems t ∧ size t1 = size t
         ∧ free_idx t1 = desc_next_of (desc t i)
       else
         i = nelems t ∧ nelems t1 = nelems t + 1 ∧ free_idx t1 = free_idx t
         ∧ size t1 = if nelems t <? size t then size t else extended_size t)
  ∧ (∀ j, 0 ≤ j < nelems t → kind t j = UNUSED_TYPE →
       0 ≤ free_idx t < nelems t ∧ kind t (free_idx t) = UNUSED_TYPE).
Proof.
  intros Hr. pose proof (reachable_Inv t Hr) as HI.
  destruct (allocate_type_id_outcome t HI) as [Hoom Hok].
  assert (Hu : new_uninterpreted_type t = OutOfMemory
               ↔ allocate_type_id t = OutOfMemory).
  { unfold new_uninterpreted_type.
    destruct (allocate_type_id t) as [[t0 i]| |]; simpl; split; congruence. }
  assert (Hs : new_scalar_type t k = OutOfMemory
               ↔ allocate_type_id t = OutOfMemory).
  { unfold new_scalar_type.
    destruct (allocate_type_id t) as [[t0 i]| |]; simpl; split; congruence. }
  split; [rewrite Hu; exact Hoom|]. split; [rewrite Hs; exact Hoom|].
  split; [|intros j; apply Inv_free_head; exact HI].
  intros t1 i [H|H].
  - apply new_uninterpreted_type_install in H as (t0 & Ha & ->).
    specialize (Hok t0 i Ha). exact Hok.
  - apply new_scalar_type_install in H as (t0 & Ha & ->).
    specialize (Hok t0 i Ha). exact Hok.
Qed.

(** ** Symmetry of the lattice operations *)

Lemma cheap_sym op t a b : cheap op t a b = cheap op t b a.
Proof.
  unfold cheap. destruct (a =? b) eqn:E.
  - apply Z.eqb_eq in E. subst b. rewrite Z.eqb_refl. reflexivity.
  - rewrite (Z.eqb_sym b a), E.
    rewrite (orb_comm ((a =? int_id) && (b =? real_id))).
    rewrite (andb_comm (a =? real_id)), (andb_comm (a =? int_id)).
    destruct ((b =? int_id) && (a =? real_id) || (b =? real_id) && (a =? int_id));
      [reflexivity|].
    rewrite (Z.eqb_sym (tuple_type_arity t b)),
      (Z.eqb_sym (function_type_arity t b)).
    destruct (kind t a), (kind t b); try reflexivity.
Qed.

Lemma lat_type_sym op fuel t a b : lat_type op fuel t a b = lat_type op fuel t b a.
Proof.
  destruct fuel as [|fuel]; [reflexivity|].
  rewrite !lat_type_S, (cheap_sym op t b a).
  destruct (cheap op t a b =? UNKNOWN_TYPE); [|reflexivity].
  destruct (Z.lt_trichotomy a b) as [H|[->|H]].
  - replace (b <? a) with false by (symmetry; apply Z.ltb_ge; lia).
    replace (a <? b) with true by (symmetry; apply Z.ltb_lt; lia). reflexivity.
  - reflexivity.
  - replace (b <? a) with true by (symmetry; apply Z.ltb_lt; lia).
    replace (a <? b) with false by (symmetry; apply Z.ltb_ge; lia). reflexivity.
Qed.

(** X3.  [super_type], [inf_type] and [compatible_types] are symmetric:
    with the arguments exchanged they return the same id (or the same
    answer) and leave the table in the same state, the entry added to the
    cache included. *)
Theorem lattice_operations_symmetric fuel t tau1 tau2 :
  super_type fuel t tau1 tau2 = super_type fuel t tau2 tau1
  ∧ inf_type fuel t tau1 tau2 = inf_type fuel t tau2 tau1
  ∧ compatible_types fuel t tau1 tau2 = compatible_types fuel t tau2 tau1.
Proof.
  unfold compatible_types, super_type, inf_type.
  rewrite (lat_type_sym Sup fuel t tau1 tau2), (lat_type_sym Inf fuel t tau1 tau2).
  auto.
Qed.

(** ** Names *)

Lemma stbl_find_cases s nm :
  (stbl_find s nm = -1 ∧ ∀ i, (nm, i) ∉ s) ∨ (nm, stbl_find s nm) ∈ s.
Proof.
  induction s as [|[m j] s IH]; simpl.
  - left. split; [reflexivity|]. intros i Hi. by apply elem_of_nil in Hi.
  - destruct (bool_decide (m = nm)) eqn:E.
    + apply bool_decide_eq_true in E. subst m. right. left.
    + apply bool_decide_eq_false in E. destruct IH as [[H1 H2]|H].
      * left. split; [exact H1|]. intros i Hi.
        apply elem_of_cons in Hi as [Hi|Hi]; [congruence|exact (H2 i Hi)].
      * right. right. exact H.
Qed.

Lemma stbl_remove_unbound s nm : (∀ i, (nm, i) ∉ s) → stbl_remove s nm = s.
Proof.
  induction s as [|[m j] s IH]; simpl; intros H; [reflexivity|].
  destruct (bool_decide (m = nm)) eqn:E.
  - apply bool_decide_eq_true in E. subst m. exfalso. apply (H j). left.
  - rewrite IH; [reflexivity|]. intros i Hi. apply (H i). right. exact Hi.
Qed.

Lemma stbl_find_other s nm nm' :
  nm' ≠ nm → stbl_find (stbl_remove s nm) nm' = stbl_find s nm'.
Proof.
  intros Hne. induction s as [|[m j] s IH]; simpl; [reflexivity|].
  destruct (bool_decide (m = nm)) eqn:E.
  - apply bool_decide_eq_true in E. subst m.
    rewrite bool_decide_eq_false_2 by congruence. reflexivity.
  - simpl. destruct (bool_decide (m = nm')); [reflexivity|exact IH].
Qed.

Lemma set_stbl_same t : set_stbl t (stbl t) = t.
Proof. destruct t; reflexivity. Qed.

(** X4.  Looking a name up.  In a reachable table [get_type_by_name]
    returns [NULL_TYPE] exactly when the symbol table has no binding for the
    name, and otherwise the id of a live type; [remove_type_name] of a name
    that is not bound leaves the table as it is. *)
Theorem name_lookup t nm :
  reachable t →
  (get_type_by_name t nm = NULL_TYPE ↔ ∀ i, (nm, i) ∉ stbl t)
  ∧ (get_type_by_name t nm ≠ NULL_TYPE →
     good t (get_type_by_name t nm) ∧ (nm, get_type_by_name t nm) ∈ stbl t)
  ∧ (get_type_by_name t nm = NULL_TYPE → remove_type_name t nm = t).
Proof.
  intros Hr. pose proof (reachable_Inv t Hr) as HI.
  unfold get_type_by_name, remove_type_name, NULL_TYPE.
  destruct (stbl_find_cases (stbl t) nm) as [[H1 H2]|H].
  - split; [tauto|]. split; [intros; contradiction|].
    intros _. rewrite stbl_remove_unbound by exact H2. apply set_stbl_same.
  - pose proof (inv_stbl t HI nm _ H) as Hg.
    assert (Hne : stbl_find (stbl t) nm ≠ -1) by (destruct Hg as [? _]; lia).
    split; [|split; [auto|intros; contradiction]].
    split; [intros; contradiction|]. intros Hno. exfalso. exact (Hno _ H).
Qed.

(** X5.  Setting and removing a name.  After [set_type_name(i, nm)] the
    name maps to [i]; [remove_type_name(nm)] then restores the symbol table,
    so every name maps to what it mapped to before; neither call changes
    what another name maps to; but the name stored in the descriptor of [i]
    by [set_type_name] stays after the removal. *)
Theorem name_set_remove t i nm :
  get_type_by_name (set_type_name t i nm) nm = i
  ∧ stbl (remove_type_name (set_type_name t i nm) nm) = stbl t
  ∧ (∀ nm', get_type_by_name (remove_type_name (set_type_name t i nm) nm) nm'
            = get_type_by_name t nm')
  ∧ (∀ nm', nm' ≠ nm →
       get_type_by_name (set_type_name t i nm) nm' = get_type_by_name t nm'
       ∧ get_type_by_name (remove_type_name t nm) nm' = get_type_by_name t nm')
  ∧ name (remove_type_name (set_type_name t i nm) nm) i
    = Some (default nm (name t i)).
Proof.
  assert (Hst : stbl (set_type_name t i nm) = (nm, i) :: stbl t).
  { unfold set_type_name. destruct (name t i); reflexivity. }
  assert (Hrm : stbl (remove_type_name (set_type_name t i nm) nm) = stbl t).
  { unfold remove_type_name. tsimpl. rewrite Hst. simpl.
    rewrite bool_decide_eq_true_2 by reflexivity. reflexivity. }
  unfold get_type_by_name. rewrite Hrm, Hst.
  split; [simpl; rewrite bool_decide_eq_true_2 by reflexivity; reflexivity|].
  split; [reflexivity|]. split; [reflexivity|]. split.
  - intros nm' Hne. split.
    + simpl. rewrite bool_decide_eq_false_2 by congruence. reflexivity.
    + unfold remove_type_name. tsimpl. apply stbl_find_other. exact Hne.
  - unfold remove_type_name, set_type_name. tsimpl.
    destruct (name t i) eqn:E; tsimpl; [rewrite E; reflexivity|].
    rewrite fn_insert_eq. destruct (decide (i = i)); [reflexivity|congruence].
Qed.

(** ** The conjunction of flags *)

Lemma land_bit_test z n :
  0 ≤ n → negb (Z.land z (2 ^ n) =? 0) = Z.testbit z n.
Proof.
  intros Hn. destruct (Z.testbit z n) eqn:E.
  - apply negb_true_iff, Z.eqb_neq. intros H0.
    assert (Hb : Z.testbit (Z.land z (2 ^ n)) n = true).
    { rewrite Z.land_spec, E, Z.pow2_bits_true by lia. reflexivity. }
    rewrite H0, Z.bits_0 in Hb. discriminate.
  - apply negb_false_iff, Z.eqb_eq. apply Z.bits_inj'. intros k Hk.
    rewrite Z.land_spec, Z.bits_0, Z.pow2_bits_eqb by lia.
    destruct (n =? k) eqn:Enk; [|apply andb_false_r].
    apply Z.eqb_eq in Enk. subst k. rewrite E. reflexivity.
Qed.

Lemma conjunct_flag_set t a n :
  0 ≤ n < 5 →
  flag_set (2 ^ n) (type_flags_conjunct t a)
  = forallb (λ x, flag_set (2 ^ n) (type_flags t x)) a.
Proof.
  intros Hn. unfold flag_set. rewrite land_bit_test by lia.
  rewrite type_flags_conjunct_eq, conj_flags_bit.
  replace (Z.testbit UNIT_TYPE_FLAGS n) with true.
  2:{ assert (n = 0 ∨ n = 1 ∨ n = 2 ∨ n = 3 ∨ n = 4)
        as [->|[->|[->|[->| ->]]]] by lia; reflexivity. }
  cbn [andb]. induction a as [|x a IH]; [reflexivity|].
  cbn [forallb]. rewrite IH, land_bit_test by lia. reflexivity.
Qed.

(** X6.  The flags [type_flags_conjunct] computes for [a[0 ... n-1]]: the
    finite, unit, exact-cardinality, maximal and minimal flags are set
    exactly when every [a[i]] has the flag; for the empty array all five are
    set. *)
Theorem type_flags_conjunct_flags t a :
  flag_set TYPE_IS_FINITE_MASK (type_flags_conjunct t a)
  = forallb (is_finite_type t) a
  ∧ flag_set TYPE_IS_UNIT_MASK (type_flags_conjunct t a)
    = forallb (is_unit_type t) a
  ∧ flag_set CARD_IS_EXACT_MASK (type_flags_conjunct t a)
    = forallb (type_has_exact_card t) a
  ∧ flag_set TYPE_IS_MAXIMAL_MASK (type_flags_conjunct t a)
    = forallb (is_maxtype t) a
  ∧ flag_set TYPE_IS_MINIMAL_MASK (type_flags_conjunct t a)
    = forallb (is_mintype t) a
  ∧ type_flags_conjunct t [] = UNIT_TYPE_FLAGS.
Proof.
  split; [exact (conjunct_flag_set t a 0 ltac:(lia))|].
  split; [exact (conjunct_flag_set t a 1 ltac:(lia))|].
  split; [exact (conjunct_flag_set t a 2 ltac:(lia))|].
  split; [exact (conjunct_flag_set t a 3 ltac:(lia))|].
  split; [exact (conjunct_flag_set t a 4 ltac:(lia))|reflexivity].
Qed.

(** ** Memoisation of [super_type] and [inf_type] *)

Lemma cheap_extends op t t' a b :
  extends t t' → good t a → good t b → cheap op t' a b = cheap op t a b.
Proof.
  intros He Ha Hb.
  destruct (He a Ha) as (_ & Ka & Da & _). destruct (He b Hb) as (_ & Kb & Db & _).
  unfold cheap, tuple_type_arity, function_type_arity, tuple_type_desc,
    function_type_desc.
  rewrite Ka, Kb, Da, Db. reflexivity.
Qed.

Lemma lat_slow_cached op rec t k0 k1 t' r :
  lat_slow op rec t k0 k1 = Ok (t', r) →
  ∃ h, cache_of op t' = Some h ∧ h !! (k0, k1) = Some r.
Proof.
  unfold lat_slow. cbv zeta.
  destruct (int_hmap2_find (cache_of op (get_table op t)) k0 k1) as [v|] eqn:Hf.
  - intros [= <- <-]. unfold int_hmap2_find in Hf.
    destruct (cache_of op (get_table op t)) as [h|]; [|discriminate].
    exists h. split; [reflexivity|exact Hf].
  - intros H. apply bind_Ok in H as ([t2 aux] & _ & H). cbv beta iota in H.
    injection H as <- <-. unfold int_hmap2_add. eexists. split.
    + destruct op; reflexivity.
    + apply lookup_insert_eq.
Qed.

Lemma lat_slow_hit op rec t k0 k1 h r :
  cache_of op t = Some h → h !! (k0, k1) = Some r →
  lat_slow op rec t k0 k1 = Ok (t, r).
Proof.
  intros Hc Hl. unfold lat_slow. cbv zeta.
  assert (Hg : get_table op t = t) by (unfold get_table; rewrite Hc; reflexivity).
  rewrite Hg. unfold int_hmap2_find. rewrite Hc. simpl. rewrite Hl. reflexivity.
Qed.

Lemma lat_type_memo op fuel t a b t' r fuel' :
  Inv t → good t a → good t b →
  lat_type op fuel t a b = Ok (t', r) →
  lat_type op (S fuel') t' a b = Ok (t', r).
Proof.
  intros HI Ha Hb H.
  destruct (lat_type_sound op fuel t a b t' r HI Ha Hb H) as [(_ & He & _) _].
  destruct fuel as [|fuel]; [discriminate|].
  rewrite lat_type_S in H. rewrite lat_type_S, (cheap_extends op t t' a b He Ha Hb).
  destruct (cheap op t a b =? UNKNOWN_TYPE).
  - destruct (b <? a).
    + destruct (lat_slow_cached _ _ _ _ _ _ _ H) as (h & Hc & Hl).
      apply (lat_slow_hit _ _ _ _ _ h); assumption.
    + destruct (lat_slow_cached _ _ _ _ _ _ _ H) as (h & Hc & Hl).
      apply (lat_slow_hit _ _ _ _ _ h); assumption.
  - injection H as <- <-. reflexivity.
Qed.

(** X7.  Results are memoised.  Once [super_type] or [inf_type] has
    returned [r] for two live types of a reachable table, asking again, with
    the arguments in either order and whatever the recursion bound, returns
    [r] and leaves the table unchanged. *)
Theorem lattice_results_memoised t tau1 tau2 fuel t' r :
  reachable t → good t tau1 → good t tau2 →
  (super_type fuel t tau1 tau2 = Ok (t', r) →
   ∀ fuel', super_type (S fuel') t' tau1 tau2 = Ok (t', r)
            ∧ super_type (S fuel') t' tau2 tau1 = Ok (t', r))
  ∧ (inf_type fuel t tau1 tau2 = Ok (t', r) →
     ∀ fuel', inf_type (S fuel') t' tau1 tau2 = Ok (t', r)
              ∧ inf_type (S fuel') t' tau2 tau1 = Ok (t', r)).
Proof.
  intros Hr H1 H2. pose proof (reachable_Inv t Hr) as HI.
  unfold super_type, inf_type. split; intros H fuel'.
  - rewrite (lat_type_sym Sup (S fuel') t' tau2 tau1).
    split; apply (lat_type_memo Sup fuel t tau1 tau2 t' r fuel' HI H1 H2 H).
  - rewrite (lat_type_sym Inf (S fuel') t' tau2 tau1).
    split; apply (lat_type_memo Inf fuel t tau1 tau2 t' r fuel' HI H1 H2 H).
Qed.

(** ** What the constructors store *)

Lemma new_tuple_type_stores t e t' i :
  new_tuple_type t e = Ok (t', i) →
  (type_card t' i, type_flags t' i) = tuple_card_flags t e.
Proof.
  intros H. apply new_tuple_type_install in H as (t0 & _ & ->).
  unfold type_card, type_flags, tuple_card_flags. cbv zeta.
  destruct (install_fields t0 i TUPLE_TYPE (desc_tuple e)
    (wrap32 (tuple_card_flag t e (type_flags_conjunct t e)).1)
    (tuple_flags (type_flags_conjunct t e)
       (UINT32_MAX <? type_card_product t e))) as (_ & _ & -> & ->).
  rewrite tuple_card_flag_flags. reflexivity.
Qed.

Lemma new_function_type_stores t e r t' i :
  new_function_type t e r = Ok (t', i) →
  (type_card t' i, type_flags t' i) = function_card_flags t e r.
Proof.
  intros H. apply new_function_type_install in H as (t0 & _ & ->).
  unfold type_card, type_flags, function_card_flags, function_switch_flag.
  cbv zeta. unfold type_flags.
  destruct (install_fields t0 i FUNCTION_TYPE (desc_function r e)
    (wrap32 (function_card_flag t e r
       (if Z.land (flags t r) (Z.lor TYPE_IS_FINITE_MASK TYPE_IS_UNIT_MASK)
           =? TYPE_IS_FINITE_MASK
        then Z.land (flags t r) (type_flags_conjunct t e)
        else flags t r)).1)
    (function_flags (flags t r) (type_flags_conjunct t e)
       (UINT32_MAX <? fun_type_card t e r))) as (_ & _ & -> & ->).
  rewrite <- (function_card_flag_flags t e r (flags t r)). reflexivity.
Qed.

Lemma new_bitvector_type_stores t k t' i :
  0 < k ≤ UINT32_MAX → new_bitvector_type t k = Ok (t', i) →
  type_card t' i = (if k <? 32 then 2 ^ k else UINT32_MAX)
  ∧ type_flags t' i = (if k <? 32 then SMALL_TYPE_FLAGS else LARGE_TYPE_FLAGS).
Proof.
  intros Hk H. unfold new_bitvector_type in H.
  apply bind_Ok in H as ([t0 j] & _ & H). cbv beta iota zeta in H.
  unfold type_card, type_flags.
  destruct (k <? 32) eqn:E; injection H as <- <-; tsimpl;
    rewrite !fn_insert_eq; (destruct (decide (j = j)); [|congruence]).
  - apply Z.ltb_lt in E. split; [|reflexivity].
    rewrite Z.shiftl_1_l. apply wrap32_small. split; [lia|].
    apply Z.pow_lt_mono_r; lia.
  - split; reflexivity.
Qed.

(** *** Tables that agree on some types *)

Lemma conjunct_agree t t' e :
  (∀ x, x ∈ e → flags t' x = flags t x) →
  type_flags_conjunct t' e = type_flags_conjunct t e.
Proof.
  intros H. unfold type_flags_conjunct, type_flags.
  generalize UNIT_TYPE_FLAGS. induction e as [|x e IH]; intros f; [reflexivity|].
  simpl. rewrite (H x) by left. apply IH. intros y Hy. apply H. right. exact Hy.
Qed.

Lemma card_product_agree t t' e :
  (∀ x, x ∈ e → card t' x = card t x) →
  type_card_product t' e = type_card_product t e.
Proof.
  intros H. unfold type_card_product. generalize 1.
  induction e as [|x e IH]; intros p; [reflexivity|].
  cbn [type_card_product_from]. cbv zeta. unfold type_card.
  rewrite (H x) by left.
  destruct (UINT32_MAX <? _); [reflexivity|].
  apply IH. intros y Hy. apply H. right. exact Hy.
Qed.

Lemma tuple_card_flags_agree t t' e :
  (∀ x, x ∈ e → card t' x = card t x ∧ flags t' x = flags t x) →
  tuple_card_flags t' e = tuple_card_flags t e.
Proof.
  intros H. unfold tuple_card_flags, tuple_card_flag. cbv zeta.
  rewrite (conjunct_agree t t' e) by (intros x Hx; apply H; exact Hx).
  rewrite (card_product_agree t t' e) by (intros x Hx; apply H; exact Hx).
  reflexivity.
Qed.

Lemma function_card_flags_agree t t' e r :
  (∀ x, x ∈ r :: e → card t' x = card t x ∧ flags t' x = flags t x) →
  function_card_flags t' e r = function_card_flags t e r.
Proof.
  intros H. unfold function_card_flags, function_card_flag, fun_type_card,
    type_flags, type_card. cbv zeta.
  destruct (H r ltac:(left)) as [-> ->].
  rewrite (conjunct_agree t t' e) by (intros x Hx; apply H; right; exact Hx).
  rewrite (card_product_agree t t' e) by (intros x Hx; apply H; right; exact Hx).
  reflexivity.
Qed.

Lemma slot_ok_agree t t' i :
  kind t' i = kind t i → desc t' i = desc t i →
  card t' i = card t i → flags t' i = flags t i →
  (∀ c, c ∈ children t i → card t' c = card t c ∧ flags t' c = flags t c) →
  slot_ok t i → slot_ok t' i.
Proof.
  intros Hk Hd Hc Hf Hch. unfold slot_ok, type_card, type_flags, children in *.
  rewrite Hk, Hd, Hc, Hf.
  destruct (kind t i); try exact (λ H, H).
  - intros (e & He & Hne & H). exists e. split; [exact He|]. split; [exact Hne|].
    rewrite H. symmetry. apply tuple_card_flags_agree.
    rewrite He in Hch. exact Hch.
  - intros (r & e & He & Hne & H). exists r, e.
    split; [exact He|]. split; [exact Hne|].
    rewrite H. symmetry. apply function_card_flags_agree.
    rewrite He in Hch. exact Hch.
Qed.

(** *** A constructor adds one type *)

Lemma allocate_type_id_fresh t t0 i :
  Inv t → allocate_type_id t = Ok (t0, i) →
  ¬ good t i ∧ 0 ≤ i < nelems t0 ∧ nelems t ≤ nelems t0
  ∧ (∀ j, 0 ≤ j < nelems t0 → j = i ∨ j < nelems t)
  ∧ (∀ j, name t0 j = if decide (i = j) then None else name t j).
Proof.
  intros HI H. pose proof (inv_size t HI) as Hs.
  rewrite (allocate_type_id_spec t Hs) in H.
  destruct (0 <=? free_idx t) eqn:Hf.
  - apply Z.leb_le in Hf. injection H as <- <-. tsimpl.
    destruct (inv_free t HI) as (l & Hchain & _ & Hl).
    destruct (free_chain_head _ _ _ Hchain Hf) as [l' ->].
    assert (Hu : 0 ≤ free_idx t < nelems t ∧ kind t (free_idx t) = UNUSED_TYPE).
    { apply Hl. left. }
    split; [intros [_ ?]; tauto|]. split; [tauto|]. split; [lia|].
    split; [intros j Hj; right; lia|]. intros j. apply fn_insert_eq.
  - apply Z.leb_gt in Hf.
    assert (Hng : ¬ good t (nelems t)) by (intros [? _]; lia).
    destruct (nelems t <? size t).
    + injection H as <- <-. tsimpl. split; [exact Hng|].
      split; [lia|]. split; [lia|]. split; [intros j Hj; lia|].
      intros j. apply fn_insert_eq.
    + destruct (YICES_MAX_TYPES <=? extended_size t); [discriminate|].
      injection H as <- <-. tsimpl. split; [exact Hng|].
      split; [lia|]. split; [lia|]. split; [intros j Hj; lia|].
      intros j. apply fn_insert_eq.
Qed.

Lemma install_is_fresh t t0 i k d c f t' :
  Inv t → allocate_type_id t = Ok (t0, i) →
  (t' = install t0 i k d c f ∨ ∃ h, t' = set_htbl (install t0 i k d c f) h) →
  k ≠ UNUSED_TYPE → primitive k = false →
  Forall (good t) (children_of k d) →
  slot_ok t' i → fresh t t' i.
Proof.
  intros HI Ha Ht Hk Hp Hch Hslot.
  destruct (allocate_type_id_fresh t t0 i HI Ha) as (Hng & Hi & Hn & Hrange & Hname).
  destruct (allocate_type_id_frame t t0 i Ha)
    as (Fk & Fd & Fc & Ff & Fm & _ & Fs & Fsup & Finf).
  assert (Hfields : kind t' = <[i:=k]> (kind t) ∧ desc t' = <[i:=d]> (desc t)
    ∧ card t' = <[i:=c]> (card t) ∧ flags t' = <[i:=f]> (flags t)
    ∧ name t' = name t0 ∧ gc_mark t' = gc_mark t ∧ stbl t' = stbl t
    ∧ sup_tbl t' = sup_tbl t ∧ inf_tbl t' = inf_tbl t ∧ nelems t' = nelems t0).
  { destruct Ht as [->|[h ->]]; tsimpl; rewrite Fk, Fd, Fc, Ff, Fm, Fs, Fsup, Finf;
      repeat split; reflexivity. }
  destruct Hfields as (Ek & Ed & Ec & Ef & En & Em & Es & Esup & Einf & Ene).
  assert (Hii : ∀ {B} (g : Z → B) v, (<[i:=v]> g) i = v).
  { intros B g v. rewrite fn_insert_eq. destruct (decide (i = i)); congruence. }
  assert (Hij : ∀ {B} (g : Z → B) v j, j ≠ i → (<[i:=v]> g) j = g j).
  { intros B g v j Hj. rewrite fn_insert_eq. destruct (decide (i = j)); congruence. }
  constructor.
  - exact Hng.
  - split; [lia|]. rewrite Ek, Hii. exact Hk.
  - intros j Hj. rewrite Ek, Ed, Ec, Ef, En, !Hij, Hname by exact Hj.
    destruct (decide (i = j)); [congruence|]. repeat split; reflexivity.
  - rewrite En, Hname. destruct (decide (i = i)); congruence.
  - exact Em.
  - exact Es.
  - exact Esup.
  - exact Einf.
  - lia.
  - intros j [Hj Hkj]. destruct (decide (j = i)) as [|Hne]; [left; assumption|].
    right. rewrite Ek, Hij in Hkj by exact Hne. split; [|exact Hkj].
    destruct (Hrange j ltac:(lia)); [contradiction|lia].
  - rewrite Ek, Hii. exact Hp.
  - unfold children. rewrite Ek, Ed, !Hii. exact Hch.
  - exact Hslot.
Qed.

Lemma fresh_agree t t' i x :
  fresh t t' i → good t x →
  kind t' x = kind t x ∧ desc t' x = desc t x
  ∧ card t' x = card t x ∧ flags t' x = flags t x ∧ name t' x = name t x.
Proof.
  intros Hf Hx. apply (fr_other t t' i Hf).
  intros ->. exact (fr_new t t' i Hf Hx).
Qed.

Lemma new_scalar_type_fresh t k t' i :
  Inv t → 0 < k ≤ UINT32_MAX → new_scalar_type t k = Ok (t', i) →
  Inv t' ∧ fresh t t' i.
Proof.
  intros HI Hk H.
  destruct (new_scalar_type_grows t k t' i HI H)
    as ((HI' & _) & _ & _ & Kk & Kd & Kc & Kf).
  split; [exact HI'|].
  apply new_scalar_type_install in H as (t0 & Ha & Ht).
  apply (install_is_fresh t t0 i SCALAR_TYPE (desc_integer k) k
           (if k =? 1 then UNIT_TYPE_FLAGS else SMALL_TYPE_FLAGS) t' HI Ha);
    [left; exact Ht|discriminate|reflexivity|constructor|].
  unfold slot_ok, type_card, type_flags. rewrite Kk. exists k. auto.
Qed.

Lemma new_uninterpreted_type_fresh t t' i :
  Inv t → new_uninterpreted_type t = Ok (t', i) → Inv t' ∧ fresh t t' i.
Proof.
  intros HI H.
  destruct (new_uninterpreted_type_grows t t' i HI H)
    as ((HI' & _) & _ & _ & Kk & Kd & Kc & Kf).
  split; [exact HI'|].
  apply new_uninterpreted_type_install in H as (t0 & Ha & Ht).
  apply (install_is_fresh t t0 i UNINTERPRETED_TYPE desc_null UINT32_MAX 24 t'
           HI Ha); [left; exact Ht|discriminate|reflexivity|constructor|].
  unfold slot_ok, type_card, type_flags. rewrite Kk. auto.
Qed.

Lemma bv_type_fresh t k t' i :
  Inv t → 0 < k ≤ UINT32_MAX → bv_type t k = Ok (t', i) →
  Inv t' ∧ (t' = t ∨ fresh t t' i).
Proof.
  intros HI Hk H.
  destruct (bv_type_spec t k t' i HI H) as ((HI' & _) & _ & Kk & Kd & Hcase).
  split; [exact HI'|].
  destruct Hcase as [[-> _]|(_ & t1 & Hnew & ->)]; [left; reflexivity|right].
  destruct (new_bitvector_type_stores t k t1 i Hk Hnew) as [Sc Sf].
  apply new_bitvector_type_install in Hnew as (t0 & c & f & Ha & -> & _).
  apply (install_is_fresh t t0 i BITVECTOR_TYPE (desc_integer k) c f _ HI Ha);
    [right; eexists; reflexivity|discriminate|reflexivity|constructor|].
  unfold slot_ok. rewrite Kk. exists k. auto.
Qed.

Lemma tuple_type_fresh t e t' i :
  Inv t → e ≠ [] → Forall (good t) e → tuple_type t e = Ok (t', i) →
  Inv t' ∧ (t' = t ∨ fresh t t' i).
Proof.
  intros HI Hne He H.
  destruct (tuple_type_spec t e t' i HI He H) as ((HI' & _) & _ & Kk & Kd & Hcase).
  split; [exact HI'|].
  destruct Hcase as [[-> _]|(Hng & t1 & Hnew & ->)]; [left; reflexivity|right].
  pose proof (new_tuple_type_stores t e t1 i Hnew) as Hst.
  apply new_tuple_type_install in Hnew as (t0 & Ha & ->).
  eapply (install_is_fresh t t0 i TUPLE_TYPE (desc_tuple e));
    [exact HI|exact Ha|right; eexists; reflexivity|discriminate|reflexivity
    |exact He|].
  unfold slot_ok. rewrite Kk. exists e. split; [exact Kd|]. split; [exact Hne|].
  unfold type_card, type_flags in *. tsimpl. rewrite Hst.
  symmetry. apply tuple_card_flags_agree. intros x Hx. tsimpl.
  destruct (allocate_type_id_frame t t0 i Ha) as (_ & _ & -> & -> & _).
  assert (x ≠ i).
  { intros ->. apply Hng. eapply Forall_forall in He; eauto. }
  rewrite !fn_insert_eq. destruct (decide (i = x)); [congruence|auto].
Qed.

Lemma function_type_fresh t r e t' i :
  Inv t → e ≠ [] → Forall (good t) e → good t r →
  function_type t r e = Ok (t', i) →
  Inv t' ∧ (t' = t ∨ fresh t t' i).
Proof.
  intros HI Hne He Hgr H.
  destruct (function_type_spec t r e t' i HI He Hgr H)
    as ((HI' & _) & _ & Kk & Kd & Hcase).
  split; [exact HI'|].
  destruct Hcase as [[-> _]|(Hng & t1 & Hnew & ->)]; [left; reflexivity|right].
  pose proof (new_function_type_stores t e r t1 i Hnew) as Hst.
  apply new_function_type_install in Hnew as (t0 & Ha & ->).
  assert (Hch : Forall (good t) (r :: e)) by (constructor; assumption).
  eapply (install_is_fresh t t0 i FUNCTION_TYPE (desc_function r e));
    [exact HI|exact Ha|right; eexists; reflexivity|discriminate|reflexivity
    |exact Hch|].
  unfold slot_ok. rewrite Kk. exists r, e.
  split; [exact Kd|]. split; [exact Hne|].
  unfold type_card, type_flags in *. tsimpl. rewrite Hst.
  symmetry. apply function_card_flags_agree. intros x Hx. tsimpl.
  destruct (allocate_type_id_frame t t0 i Ha) as (_ & _ & -> & -> & _).
  assert (x ≠ i).
  { intros ->. apply Hng. eapply Forall_forall in Hch; eauto. }
  rewrite !fn_insert_eq. destruct (decide (i = x)); [congruence|auto].
Qed.

(** *** The changes made by [super_type] and [inf_type] *)

Lemma evolves_trans t1 t2 t3 : evolves t1 t2 → evolves t2 t3 → evolves t1 t3.
Proof.
  induction 1 as [t|t t1 i t2 HI HI1 Hf _ IH|t t1 t2 HI HI1 Hs _ IH]; intros H3.
  - exact H3.
  - eapply ev_fresh; eauto.
  - eapply ev_cache; eauto.
Qed.

Lemma evolves_built t t' i :
  Inv t → Inv t' → t' = t ∨ fresh t t' i → evolves t t'.
Proof.
  intros HI HI' [->|Hf]; [apply ev_refl|].
  eapply ev_fresh; eauto. apply ev_refl.
Qed.

Lemma evolves_same t t' : Inv t → Inv t' → same_types t t' → evolves t t'.
Proof. intros HI HI' Hs. eapply ev_cache; eauto. apply ev_refl. Qed.

Lemma same_types_good t t' j : same_types t t' → good t' j ↔ good t j.
Proof. intros (Hk & _ & _ & _ & _ & _ & Hn & _). unfold good. rewrite Hk, Hn. tauto. Qed.

Lemma fresh_slots_ok t t' i : Inv t → fresh t t' i → slots_ok t → slots_ok t'.
Proof.
  intros HI Hf Hs j Hj. destruct (fr_range _ _ _ Hf j Hj) as [->|Hg].
  - apply (fr_slot _ _ _ Hf).
  - destruct (fresh_agree t t' i j Hf Hg) as (Ek & Ed & Ec & Ef & _).
    apply (slot_ok_agree t t' j Ek Ed Ec Ef); [|apply Hs; exact Hg].
    intros c Hc. pose proof (Inv_closed t HI j c Hg Hc) as Hgc.
    destruct (fresh_agree t t' i c Hf Hgc) as (_ & _ & ? & ? & _). auto.
Qed.

Lemma same_types_slots_ok t t' : same_types t t' → slots_ok t → slots_ok t'.
Proof.
  intros Hst Hs j Hj. apply (same_types_good t t' j Hst) in Hj.
  destruct Hst as (Hk & Hd & Hc & Hf & _).
  apply (slot_ok_agree t t' j); try (rewrite ?Hk, ?Hd, ?Hc, ?Hf; reflexivity).
  - intros c _. rewrite Hc, Hf. auto.
  - apply Hs. exact Hj.
Qed.

Lemma evolves_slots_ok t t' : evolves t t' → slots_ok t → slots_ok t'.
Proof.
  induction 1 as [t|t t1 i t2 HI HI1 Hf _ IH|t t1 t2 HI HI1 Hs _ IH]; intros H.
  - exact H.
  - apply IH. exact (fresh_slots_ok t t1 i HI Hf H).
  - apply IH. exact (same_types_slots_ok t t1 Hs H).
Qed.

Lemma get_table_same op t : same_types t (get_table op t).
Proof.
  unfold get_table, same_types. destruct (cache_of op t), op; repeat split; reflexivity.
Qed.

Lemma int_hmap2_add_same op t k0 k1 v : same_types t (int_hmap2_add op t k0 k1 v).
Proof. unfold same_types. destruct op; repeat split; reflexivity. Qed.

Lemma cheap_unknown_arity op t a b :
  0 ≤ a → cheap op t a b = UNKNOWN_TYPE →
  (kind t a = TUPLE_TYPE
   ∧ length (tuple_type_desc t a) = length (tuple_type_desc t b))
  ∨ (kind t a = FUNCTION_TYPE
     ∧ length (function_type_desc t a).2 = length (function_type_desc t b).2).
Proof.
  intros H0. unfold cheap.
  destruct (a =? b) eqn:E; [unfold UNKNOWN_TYPE; lia|].
  destruct (_ || _); [unfold UNKNOWN_TYPE, real_id, int_id; destruct op; discriminate|].
  unfold tuple_type_arity, function_type_arity.
  destruct (kind t a); try (unfold UNKNOWN_TYPE, NULL_TYPE; discriminate).
  - destruct (negb _ || negb (_ =? _)) eqn:E2;
      [unfold UNKNOWN_TYPE, NULL_TYPE; discriminate|].
    apply orb_false_iff in E2 as [_ E2]. apply negb_false_iff, Z.eqb_eq in E2.
    intros _. left. split; [reflexivity|]. apply Nat2Z.inj. exact E2.
  - destruct (negb _ || negb (_ =? _)) eqn:E2;
      [unfold UNKNOWN_TYPE, NULL_TYPE; discriminate|].
    apply orb_false_iff in E2 as [_ E2]. apply negb_false_iff, Z.eqb_eq in E2.
    intros _. right. split; [reflexivity|]. apply Nat2Z.inj. exact E2.
Qed.

Lemma lat_tuple_loop_length rec :
  ∀ a b t s t' s',
    length a = length b →
    lat_tuple_loop rec t a b s = Ok (t', Some s') →
    length s' = (length s + length a)%nat.
Proof.
  induction a as [|x a IH]; intros b t s t' s' Hl H.
  - simpl in H. injection H as <- <-. simpl. lia.
  - destruct b as [|y b]; [discriminate|]. simpl in Hl.
    cbn [lat_tuple_loop] in H.
    apply bind_Ok in H as ([t1 aux] & _ & H). cbv beta iota in H.
    destruct (aux =? NULL_TYPE); [discriminate|].
    apply IH in H; [|lia]. rewrite length_app in H. simpl in *. lia.
Qed.

Lemma lat_tuple_loop_evolves rec :
  rec_sound rec → rec_evolves rec →
  ∀ a b t s t' res,
    Inv t → slots_ok t → Forall (good t) a → Forall (good t) b →
    lat_tuple_loop rec t a b s = Ok (t', res) →
    evolves t t'.
Proof.
  intros Hrec Hev a. induction a as [|x a IH]; intros b t s t' res HI Hs Ha Hb H.
  - simpl in H. injection H as <- <-. apply ev_refl.
  - destruct b as [|y b]; [simpl in H; injection H as <- <-; apply ev_refl|].
    apply Forall_cons in Ha as [Hx Ha]. apply Forall_cons in Hb as [Hy Hb].
    cbn [lat_tuple_loop] in H.
    apply bind_Ok in H as ([t1 aux] & Hr & H). cbv beta iota in H.
    destruct (Hrec t x y t1 aux HI Hx Hy Hr) as [(HI1 & He1 & _) _].
    pose proof (Hev t x y t1 aux HI Hs Hx Hy Hr) as Hev1.
    destruct (aux =? NULL_TYPE).
    + injection H as <- <-. exact Hev1.
    + eapply evolves_trans; [exact Hev1|].
      apply (IH b t1 (s ++ [aux]) t' res HI1); try assumption.
      * eapply evolves_slots_ok; eauto.
      * eapply extends_Forall; eauto.
      * eapply extends_Forall; eauto.
Qed.

Lemma lat_tuple_types_evolves rec t a b t' r :
  rec_sound rec → rec_evolves rec → Inv t → slots_ok t →
  a ≠ [] → length a = length b →
  Forall (good t) a → Forall (good t) b →
  lat_tuple_types rec t a b = Ok (t', r) → evolves t t'.
Proof.
  intros Hrec Hev HI Hs Hne Hl Ha Hb H. unfold lat_tuple_types in H.
  apply bind_Ok in H as ([t1 res] & Hloop & H). cbv beta iota in H.
  pose proof (lat_tuple_loop_evolves rec Hrec Hev a b t [] t1 res HI Hs Ha Hb Hloop)
    as Hev1.
  destruct (lat_tuple_loop_sound rec Hrec a b t [] t1 res HI Ha Hb
              (Forall_nil_2 _) Hloop) as [(HI1 & _) Hres].
  destruct res as [s|]; [|injection H as <- <-; exact Hev1].
  eapply evolves_trans; [exact Hev1|].
  assert (Hsne : s ≠ []).
  { apply lat_tuple_loop_length in Hloop; [|exact Hl].
    destruct s; [|discriminate]. destruct a; [congruence|simpl in Hloop; lia]. }
  destruct (tuple_type_fresh t1 s t' r HI1 Hsne Hres H) as [HI' Hcase].
  exact (evolves_built t1 t' r HI1 HI' Hcase).
Qed.

Lemma lat_fun_types_evolves rec t a tau1 tau2 t' r :
  rec_sound rec → rec_evolves rec → Inv t → slots_ok t →
  a ≠ [] → Forall (good t) a → good t tau1 → good t tau2 →
  lat_fun_types rec t a tau1 tau2 = Ok (t', r) → evolves t t'.
Proof.
  intros Hrec Hev HI Hs Hne Ha H1 H2 H. unfold lat_fun_types in H.
  apply bind_Ok in H as ([t1 aux] & Hr & H). cbv beta iota in H.
  destruct (Hrec t tau1 tau2 t1 aux HI H1 H2 Hr) as [(HI1 & He1 & _) Haux].
  pose proof (Hev t tau1 tau2 t1 aux HI Hs H1 H2 Hr) as Hev1.
  destruct (aux =? NULL_TYPE) eqn:E; [injection H as <- <-; exact Hev1|].
  apply Z.eqb_neq in E. destruct Haux as [?|Haux]; [contradiction|].
  eapply evolves_trans; [exact Hev1|].
  destruct (function_type_fresh t1 aux a t' r HI1 Hne) as [HI' Hcase];
    [eapply extends_Forall; eauto|exact Haux|exact H|].
  exact (evolves_built t1 t' r HI1 HI' Hcase).
Qed.

Lemma slots_ok_arity t i :
  slots_ok t → good t i →
  (kind t i = TUPLE_TYPE → tuple_type_desc t i ≠ [])
  ∧ (kind t i = FUNCTION_TYPE → (function_type_desc t i).2 ≠ []).
Proof.
  intros Hs Hi. specialize (Hs i Hi). unfold slot_ok in Hs.
  unfold tuple_type_desc, function_type_desc.
  split; intros Hk; rewrite Hk in Hs.
  - destruct Hs as (e & -> & Hne & _). exact Hne.
  - destruct Hs as (r & e & -> & Hne & _). exact Hne.
Qed.

Lemma lat_slow_evolves op rec t k0 k1 t' r :
  rec_sound rec → rec_evolves rec → Inv t → slots_ok t →
  good t k0 → good t k1 → k0 < k1 →
  (kind t k0 = TUPLE_TYPE ∧ kind t k1 = TUPLE_TYPE
   ∨ kind t k0 = FUNCTION_TYPE ∧ kind t k1 = FUNCTION_TYPE) →
  (kind t k0 = TUPLE_TYPE →
   length (tuple_type_desc t k0) = length (tuple_type_desc t k1)) →
  lat_slow op rec t k0 k1 = Ok (t', r) → evolves t t'.
Proof.
  intros Hrec Hev HI Hs H0 H1 Hlt Hkind Hlen H.
  pose proof (lat_slow_sound op rec t k0 k1 t' r Hrec HI H0 H1 Hlt Hkind H)
    as [(HI' & _) _].
  unfold lat_slow in H. cbv zeta in H.
  pose proof (get_table_same op t) as Hsame.
  pose proof (get_table_Inv op t HI) as HI1.
  pose proof (same_types_slots_ok _ _ Hsame Hs) as Hs1.
  pose proof (evolves_same t _ HI HI1 Hsame) as Hev0.
  assert (G0 : good (get_table op t) k0) by (apply (same_types_good _ _ _ Hsame); exact H0).
  assert (G1 : good (get_table op t) k1) by (apply (same_types_good _ _ _ Hsame); exact H1).
  destruct (slots_ok_arity _ k0 Hs1 G0) as [At Af].
  destruct Hsame as (Ek & Ed & _).
  unfold tuple_type_desc, function_type_desc in *.
  set (t1 := get_table op t) in *.
  destruct (int_hmap2_find (cache_of op t1) k0 k1) as [v|].
  - injection H as <- <-. exact Hev0.
  - apply bind_Ok in H as ([t2 aux] & Hcomp & H). cbv beta iota in H.
    injection H as <- <-.
    assert (Hcs0 := Inv_children_good t1 k0 HI1 G0).
    assert (Hcs1 := Inv_children_good t1 k1 HI1 G1).
    unfold children in Hcs0, Hcs1.
    assert (Hstep : evolves t1 t2 ∧ Inv t2).
    { destruct Hkind as [[Hk0 Hk1]|[Hk0 Hk1]].
      - rewrite <- Ek in Hk0, Hk1. rewrite Hk0, Hk1 in *.
        rewrite bool_decide_eq_true_2 in Hcomp by reflexivity.
        simpl in Hcs0, Hcs1. unfold tuple_type_desc in Hcomp.
        destruct (lat_tuple_types_sound rec t1 _ _ t2 aux Hrec HI1 Hcs0 Hcs1 Hcomp)
          as [(HI2 & _) _].
        split; [|exact HI2].
        apply (λ X Y, lat_tuple_types_evolves rec t1 _ _ t2 aux Hrec Hev HI1 Hs1
                        X Y Hcs0 Hcs1 Hcomp).
        + apply At. reflexivity.
        + rewrite !Ed. apply Hlen. rewrite <- Ek. exact Hk0.
      - rewrite <- Ek in Hk0, Hk1. rewrite Hk0, Hk1 in *.
        rewrite bool_decide_eq_false_2 in Hcomp by discriminate.
        cbv zeta in Hcomp. simpl in Hcs0, Hcs1. unfold function_type_desc in Hcomp.
        apply Forall_cons in Hcs0 as [Hr0 Hd0].
        apply Forall_cons in Hcs1 as [Hr1' Hd1].
        destruct (equal_type_arrays _ _).
        + destruct (lat_fun_types_sound rec t1 _ _ _ t2 aux Hrec HI1 Hd0 Hr0 Hr1'
                      Hcomp) as [(HI2 & _) _].
          split; [|exact HI2].
          apply (λ X, lat_fun_types_evolves rec t1 _ _ _ t2 aux Hrec Hev HI1 Hs1
                        X Hd0 Hr0 Hr1' Hcomp).
          apply Af. reflexivity.
        + injection Hcomp as <- <-. split; [apply ev_refl|exact HI1]. }
    destruct Hstep as [Hev2 HI2].
    eapply evolves_trans; [exact Hev0|]. eapply evolves_trans; [exact Hev2|].
    apply evolves_same; [exact HI2|exact HI'|apply int_hmap2_add_same].
Qed.

Lemma lat_type_evolves op fuel : rec_evolves (lat_type op fuel).
Proof.
  induction fuel as [|fuel IH]; intros t x y t' r HI Hs Hx Hy H; [discriminate|].
  rewrite lat_type_S in H.
  destruct (cheap op t x y =? UNKNOWN_TYPE) eqn:E.
  - apply Z.eqb_eq in E.
    destruct (cheap_unknown op t x y (proj1 (proj1 Hx)) E) as [Hne Hk].
    pose proof (cheap_unknown_arity op t x y (proj1 (proj1 Hx)) E) as Har.
    destruct (y <? x) eqn:Hlt.
    + apply Z.ltb_lt in Hlt.
      apply (lat_slow_evolves op _ t y x t' r (lat_type_sound op fuel) IH HI Hs
               Hy Hx Hlt); [tauto| |exact H].
      intros Hky. destruct Har as [[_ Hl]|[Hkx _]]; [auto|].
      destruct Hk as [[? ?]|[? ?]]; congruence.
    + apply Z.ltb_ge in Hlt.
      apply (lat_slow_evolves op _ t x y t' r (lat_type_sound op fuel) IH HI Hs
               Hx Hy ltac:(lia) Hk); [|exact H].
      intros Hkx. destruct Har as [[_ Hl]|[Hkx' _]]; [auto|congruence].
  - injection H as <- <-. apply ev_refl.
Qed.

(** *** Every reachable table holds what the constructors store *)

Lemma slots_ok_same t t' :
  kind t' = kind t → desc t' = desc t → card t' = card t → flags t' = flags t →
  nelems t' = nelems t → slots_ok t → slots_ok t'.
Proof.
  intros Hk Hd Hc Hf Hn Hs j Hj.
  assert (Hg : good t j) by (unfold good in *; rewrite <- Hk, <- Hn; exact Hj).
  apply (slot_ok_agree t t' j); try (rewrite ?Hk, ?Hd, ?Hc, ?Hf; reflexivity).
  - intros c _. rewrite Hc, Hf. auto.
  - apply Hs. exact Hg.
Qed.

Lemma init_type_table_initial n t :
  0 ≤ n → init_type_table n = Ok t →
  size t = init_size n ∧ initial_table t ∧ ∀ i, name t i = None.
Proof.
  intros Hn H. destruct (Z.le_gt_cases YICES_MAX_TYPES (init_size n)) as [Hm|Hm].
  - rewrite (init_type_table_OutOfMemory n Hn Hm) in H. discriminate.
  - destruct (init_type_table_Ok n Hn ltac:(lia)) as (t0 & H0 & Hs & Hi).
    rewrite H in H0. injection H0 as <-. auto.
Qed.

Lemma initial_slots_ok t : initial_table t → slots_ok t.
Proof.
  intros (Hn & _ & Hp & _) j [Hj _]. rewrite Hn in Hj.
  destruct Hp as (K0 & K1 & K2 & C0 & C1 & C2 & F0 & F1 & F2).
  unfold bool_id, int_id, real_id in *. unfold slot_ok.
  assert (j = 0 ∨ j = 1 ∨ j = 2) as [->|[->| ->]] by lia.
  - rewrite K0. auto.
  - rewrite K1. auto.
  - rewrite K2. auto.
Qed.

Lemma gc_slots_ok fuel t t' :
  Inv t → slots_ok t → type_table_gc fuel t = Ok t' → slots_ok t'.
Proof.
  intros HI Hs H.
  destruct (type_table_gc_collected fuel t t' HI H) as (m & _ & (_ & Hmg & _) & _ & Hcol).
  intros j Hj. apply (col_live t m t' Hcol) in Hj.
  destruct (col_keep t m t' Hcol j (erased_marked t m j Hj)) as (Ek & Ed & _).
  pose proof (col_card t m t' Hcol) as Ec. pose proof (col_flags t m t' Hcol) as Ef.
  apply (slot_ok_agree t t' j Ek Ed); try (rewrite ?Ec, ?Ef; reflexivity).
  - intros c _. rewrite Ec, Ef. auto.
  - apply Hs, Hmg, Hj.
Qed.

Lemma run_slots_ok c t t' r :
  Inv t → slots_ok t → pre t c → run c t = Ok (t', r) → slots_ok t'.
Proof.
  intros HI Hs Hpre H.
  destruct c as [sz|e|rg dm|k| |i nm|nm|fuel tau1 tau2|fuel tau1 tau2|i|fuel];
    simpl in Hpre, H.
  - destruct (bv_type_fresh t sz t' r HI Hpre H) as [_ [->|Hf]]; [exact Hs|].
    exact (fresh_slots_ok t t' r HI Hf Hs).
  - destruct Hpre as [Hne He].
    destruct (tuple_type_fresh t e t' r HI Hne He H) as [_ [->|Hf]]; [exact Hs|].
    exact (fresh_slots_ok t t' r HI Hf Hs).
  - destruct Hpre as (Hne & He & Hr).
    destruct (function_type_fresh t rg dm t' r HI Hne He Hr H) as [_ [->|Hf]];
      [exact Hs|].
    exact (fresh_slots_ok t t' r HI Hf Hs).
  - destruct (new_scalar_type_fresh t k t' r HI Hpre H) as [_ Hf].
    exact (fresh_slots_ok t t' r HI Hf Hs).
  - destruct (new_uninterpreted_type_fresh t t' r HI H) as [_ Hf].
    exact (fresh_slots_ok t t' r HI Hf Hs).
  - injection H as <- <-. apply (slots_ok_same t); try assumption;
      unfold set_type_name; destruct (name t i); reflexivity.
  - injection H as <- <-. apply (slots_ok_same t); try assumption; reflexivity.
  - destruct Hpre as [H1 H2].
    apply (evolves_slots_ok t t'); [|exact Hs].
    exact (lat_type_evolves Sup fuel t tau1 tau2 t' r HI Hs H1 H2 H).
  - destruct Hpre as [H1 H2].
    apply (evolves_slots_ok t t'); [|exact Hs].
    exact (lat_type_evolves Inf fuel t tau1 tau2 t' r HI Hs H1 H2 H).
  - injection H as <- <-. apply (slots_ok_same t); try assumption; reflexivity.
  - apply bind_Ok in H as (t1 & Hgc & H). injection H as <- <-.
    exact (gc_slots_ok fuel t t1 HI Hs Hgc).
Qed.

Lemma reachable_slots_ok t : reachable t → slots_ok t.
Proof.
  induction 1 as [n t Hn Hinit|t c t' r Hr IH Hpre Hrun].
  - apply initial_slots_ok. apply (init_type_table_initial n t ltac:(lia) Hinit).
  - exact (run_slots_ok c t t' r (reachable_Inv t Hr) IH Hpre Hrun).
Qed.

(** X8.  The stored cardinality and flags are those of the constructor.
    In every reachable table each live type holds, in its slot, what its
    constructor computes from its descriptor: [bool], [int] and [real] the
    values of [add_primitive_types]; a bitvector type of width [k] the
    cardinality [2^k] and the small flags if [k < 32], [UINT32_MAX] and the
    large flags otherwise; a scalar type its size, with the unit flags for
    size 1; an uninterpreted type [UINT32_MAX] with the maximal and minimal
    flags; a tuple or function type has at least one component or domain,
    and its cardinality and flags are the ones [new_tuple_type] or
    [new_function_type] would compute again from the current cardinalities
    and flags of its components. *)
Theorem stored_cardinality_and_flags t i :
  reachable t → good t i → slot_ok t i.
Proof. intros Hr Hi. exact (reachable_slots_ok t Hr i Hi). Qed.

(** X9.  The bitvector type.  In a reachable table, [bv_type] of a width
    [0 < k] returns a live bitvector type of that width, of cardinality
    [2^k] with [SMALL_TYPE_FLAGS] if [k < 32], and [UINT32_MAX] with
    [LARGE_TYPE_FLAGS] otherwise, whether the type existed or is created;
    every type that was live keeps its id and its content; and two calls
    return the same id only for the same width. *)
Theorem bv_type_cardinality t k t' i :
  reachable t → 0 < k ≤ UINT32_MAX → bv_type t k = Ok (t', i) →
  good t' i ∧ kind t' i = BITVECTOR_TYPE ∧ desc t' i = desc_integer k
  ∧ type_card t' i = (if k <? 32 then 2 ^ k else UINT32_MAX)
  ∧ type_flags t' i = (if k <? 32 then SMALL_TYPE_FLAGS else LARGE_TYPE_FLAGS)
  ∧ extends t t'
  ∧ ∀ k' t'' j, bv_type t' k' = Ok (t'', j) → j = i → k' = k.
Proof.
  intros Hr Hk H. pose proof (reachable_Inv t Hr) as HI.
  destruct (bv_type_spec t k t' i HI H) as ((HI' & He & _) & Hg & Kk & Kd & _).
  assert (Hs' : slots_ok t').
  { exact (run_slots_ok (Bv_type k) t t' i HI (reachable_slots_ok t Hr) Hk H). }
  pose proof (Hs' i Hg) as Hslot. unfold slot_ok in Hslot. rewrite Kk in Hslot.
  destruct Hslot as (k0 & Hd0 & _ & Hc & Hf).
  rewrite Kd in Hd0. injection Hd0 as <-.
  repeat (split; [assumption|]).
  intros k' t'' j H' ->.
  destruct (bv_type_spec t' k' t'' i HI' H') as ((_ & He' & _) & _ & _ & Kd' & _).
  destruct (He' i Hg) as (_ & _ & Ed & _). congruence.
Qed.

(** ** Cardinalities and flags agree *)

Lemma tuple_flags_checked conj big :
  flags_ok conj = true → tuple_flags_check conj big = true.
Proof.
  intros H.
  pose proof (forall_range
    (λ c, implb (flags_ok c) (tuple_flags_check c true && tuple_flags_check c false))
    32 ltac:(vm_compute; reflexivity) conj (flags_ok_range _ H)) as Hc.
  cbv beta in Hc. rewrite H in Hc. cbn [implb] in Hc.
  apply andb_true_iff in Hc as [? ?]. destruct big; assumption.
Qed.

Lemma function_switch_checked rf cj big :
  flags_ok rf = true → flags_ok cj = true → function_switch_check rf cj big = true.
Proof.
  intros Hr Hc.
  pose proof (forall_range2
    (λ r c, implb (flags_ok r && flags_ok c)
              (function_switch_check r c true && function_switch_check r c false))
    32 ltac:(vm_compute; reflexivity) rf cj
    (flags_ok_range _ Hr) (flags_ok_range _ Hc)) as H.
  cbv beta in H. rewrite Hr, Hc in H. cbn [andb implb] in H.
  apply andb_true_iff in H as [? ?]. destruct big; assumption.
Qed.

Lemma flags_ok_infinite z :
  flags_ok z = true → Z.testbit z 0 = false → Z.testbit z 2 = false.
Proof.
  intros H.
  pose proof (forall_range
    (λ z, implb (flags_ok z) (implb (negb (Z.testbit z 0)) (negb (Z.testbit z 2))))
    32 ltac:(vm_compute; reflexivity) z (flags_ok_range _ H)) as Hc.
  cbv beta in Hc. rewrite H in Hc. cbn [implb] in Hc.
  intros E. rewrite E in Hc. cbn [negb implb] in Hc.
  apply negb_true_iff in Hc. exact Hc.
Qed.

Lemma accessor_bits t i :
  is_finite_type t i = Z.testbit (flags t i) 0
  ∧ is_unit_type t i = Z.testbit (flags t i) 1
  ∧ type_has_exact_card t i = Z.testbit (flags t i) 2
  ∧ is_maxtype t i = Z.testbit (flags t i) 3
  ∧ is_mintype t i = Z.testbit (flags t i) 4.
Proof.
  unfold is_finite_type, is_unit_type, type_has_exact_card, is_maxtype, is_mintype.
  split; [exact (land_bit_test _ 0 ltac:(lia))|].
  split; [exact (land_bit_test _ 1 ltac:(lia))|].
  split; [exact (land_bit_test _ 2 ltac:(lia))|].
  split; [exact (land_bit_test _ 3 ltac:(lia))|exact (land_bit_test _ 4 ltac:(lia))].
Qed.

Lemma wrap32_range x : 0 ≤ wrap32 x ≤ UINT32_MAX.
Proof.
  unfold wrap32, UINT32_MAX. pose proof (Z.mod_pos_bound x (2 ^ 32) eq_refl). lia.
Qed.

Ltac atomic_card Hs :=
  destruct Hs as [-> ->];
  split; [unfold UINT32_MAX; lia|];
  split; [intros Hb; vm_compute in Hb; discriminate
         |intros Hb; vm_compute in Hb; try discriminate; reflexivity].

Lemma slot_card_consistent t i :
  Inv t → good t i → slot_ok t i → card_consistent t i.
Proof.
  intros HI Hi Hs. pose proof (inv_flags t HI i Hi) as Hfl.
  destruct (accessor_bits t i) as (Bf & Bu & Be & _).
  unfold card_consistent. rewrite Bf, Bu, Be.
  cut (0 ≤ type_card t i ≤ UINT32_MAX
       ∧ (Z.testbit (flags t i) 1 = true → type_card t i = 1)
       ∧ (Z.testbit (flags t i) 2 = false → type_card t i = UINT32_MAX)).
  { intros (A & B & C). split; [exact A|]. split; [exact B|]. split; [exact C|].
    apply flags_ok_infinite. exact Hfl. }
  clear Bf Bu Be Hfl.
  pose proof (Inv_children_good t i HI Hi) as Hch. unfold children in Hch.
  unfold slot_ok in Hs. unfold type_card, type_flags in *.
  destruct (kind t i) eqn:Hk.
  - destruct Hi as [_ Hi]. contradiction.
  - atomic_card Hs.
  - atomic_card Hs.
  - atomic_card Hs.
  - destruct Hs as (k & _ & Hk0 & -> & ->). destruct (k <? 32) eqn:E.
    + apply Z.ltb_lt in E. assert (2 ^ k < 2 ^ 32) by (apply Z.pow_lt_mono_r; lia).
      assert (0 < 2 ^ k) by (apply Z.pow_pos_nonneg; lia).
      split; [unfold UINT32_MAX; lia|]. split; intros Hb; discriminate.
    + split; [unfold UINT32_MAX; lia|]. split; [intros Hb; discriminate|reflexivity].
  - destruct Hs as (k & _ & Hk0 & -> & ->). split; [lia|].
    destruct (k =? 1) eqn:E.
    + apply Z.eqb_eq in E. split; [auto|intros Hb; discriminate].
    + split; intros Hb; discriminate.
  - atomic_card Hs.
  - destruct Hs as (e & Hd & _ & Heq). injection Heq as Hc Hf.
    rewrite tuple_card_flag_flags in Hf. rewrite Hd in Hch. simpl in Hch.
    assert (Hcj : flags_ok (type_flags_conjunct t e) = true).
    { rewrite type_flags_conjunct_eq. apply conj_flags_ok, good_flags_ok; assumption. }
    pose proof (tuple_flags_checked _ (UINT32_MAX <? type_card_product t e) Hcj)
      as Hchk.
    unfold tuple_flags_check in Hchk. cbv zeta in Hchk. rewrite <- Hf in Hchk.
    apply andb_true_iff in Hchk as [Hc1 Hc2].
    rewrite Hc. unfold tuple_card_flag. split; [apply wrap32_range|]. split.
    + intros Hu. rewrite Hu in Hc1. cbn [implb] in Hc1. rewrite Hc1. reflexivity.
    + intros He. rewrite He in Hc2. cbn [negb implb] in Hc2.
      apply andb_true_iff in Hc2 as [Hn1 Hn2]. apply negb_true_iff in Hn1.
      rewrite Hn1. destruct (_ =? SMALL_TYPE_FLAGS); [|reflexivity].
      cbn [implb] in Hn2. rewrite Hn2. reflexivity.
  - destruct Hs as (r & e & Hd & _ & Heq). injection Heq as Hc Hf.
    unfold function_switch_flag in Hc, Hf.
    rewrite (function_card_flag_flags t e r (type_flags t r)) in Hf.
    rewrite Hd in Hch. simpl in Hch. apply Forall_cons in Hch as [Hgr Hge].
    assert (Hcj : flags_ok (type_flags_conjunct t e) = true).
    { rewrite type_flags_conjunct_eq. apply conj_flags_ok, good_flags_ok; assumption. }
    pose proof (function_switch_checked _ _ (UINT32_MAX <? fun_type_card t e r)
                  (inv_flags t HI r Hgr) Hcj) as Hchk.
    unfold function_switch_check, function_switch_flag in Hchk. cbv zeta in Hchk.
    unfold type_flags in Hf. rewrite <- Hf in Hchk.
    apply andb_true_iff in Hchk as [Hc1 Hc2].
    rewrite Hc. unfold function_card_flag, type_flags.
    split; [apply wrap32_range|]. split.
    + intros Hu. rewrite Hu in Hc1. cbn [implb] in Hc1. rewrite Hc1. reflexivity.
    + intros He. rewrite He in Hc2. cbn [negb implb] in Hc2.
      apply andb_true_iff in Hc2 as [Hn1 Hn2]. apply negb_true_iff in Hn1.
      rewrite Hn1. destruct (_ =? SMALL_TYPE_FLAGS); [|reflexivity].
      cbn [implb] in Hn2. rewrite Hn2. reflexivity.
Qed.

Lemma consistent_desc_ok t i :
  Inv t → good t i → card_consistent t i → type_card t i ≠ 0 → desc_ok t i.
Proof.
  intros HI Hi (Hr & Hu & He & _) Hne. unfold desc_ok.
  split; [exact (inv_flags t HI i Hi)|]. split; [lia|]. auto.
Qed.

Lemma reachable_desc_ok t e :
  reachable t → Forall (good t) e → Forall (λ x, type_card t x ≠ 0) e →
  Forall (desc_ok t) e.
Proof.
  intros Hr Hg Hc. pose proof (reachable_Inv t Hr) as HI.
  apply Forall_forall. intros x Hx.
  pose proof (proj1 (Forall_forall _ _) Hg x Hx) as Hgx.
  apply (consistent_desc_ok t x HI Hgx).
  - apply (slot_card_consistent t x HI Hgx). apply reachable_slots_ok; assumption.
  - exact (proj1 (Forall_forall _ _) Hc x Hx).
Qed.

(** X10.  Cardinalities agree with flags.  For every live type of a
    reachable table the stored cardinality is at most [UINT32_MAX]; it is 1
    if the unit flag is set and [UINT32_MAX] if the exact-cardinality flag is
    clear; a type without the finite flag has no exact cardinality.  The
    stored cardinality can be 0; when it is not, it lies between 1 and
    [UINT32_MAX]. *)
Theorem cardinality_agrees_with_flags t i :
  reachable t → good t i →
  0 ≤ type_card t i ≤ UINT32_MAX
  ∧ (is_unit_type t i = true → type_card t i = 1)
  ∧ (type_has_exact_card t i = false → type_card t i = UINT32_MAX)
  ∧ (is_finite_type t i = false → type_has_exact_card t i = false)
  ∧ (type_card t i ≠ 0 → 1 ≤ type_card t i ≤ UINT32_MAX).
Proof.
  intros Hr Hi. pose proof (reachable_Inv t Hr) as HI.
  destruct (slot_card_consistent t i HI Hi (reachable_slots_ok t Hr i Hi))
    as (A & B & C & D).
  repeat (split; [assumption|]). intros. lia.
Qed.

(** ** Cardinality of a product *)

Lemma card_of_type_product_value t e :
  Forall (λ x, 1 ≤ type_card t x ≤ UINT32_MAX) e →
  card_of_type_product t e = Z.min (card_product t e) UINT32_MAX.
Proof.
  intros He. unfold card_of_type_product. cbv zeta.
  destruct (type_card_product_spec t e He) as [P1 P2].
  pose proof (card_product_pos t e He) as Hpos.
  destruct (Z.le_gt_cases (card_product t e) UINT32_MAX) as [Hle|Hgt].
  - rewrite (P1 Hle).
    replace (UINT32_MAX <? card_product t e) with false
      by (symmetry; apply Z.ltb_ge; exact Hle).
    rewrite Z.min_l by exact Hle. apply wrap32_small. unfold UINT32_MAX in *. lia.
  - specialize (P2 ltac:(lia)).
    replace (UINT32_MAX <? type_card_product t e) with true
      by (symmetry; apply Z.ltb_lt; exact P2).
    rewrite Z.min_r by lia. reflexivity.
Qed.

Lemma tuple_card_flags_value t e :
  Forall (desc_ok t) e →
  (tuple_card_flags t e).1 = Z.min (card_product t e) UINT32_MAX.
Proof.
  intros He. unfold tuple_card_flags. cbv zeta. cbn [fst].
  pose proof (desc_ok_cards t e He) as Hc.
  destruct (type_card_product_spec t e Hc) as [P1 P2].
  pose proof (card_product_pos t e Hc) as Hpos.
  assert (Hcj : flags_ok (type_flags_conjunct t e) = true).
  { rewrite type_flags_conjunct_eq. apply conj_flags_ok, desc_ok_flags, He. }
  destruct (flag_bits_testbit _ Hcj) as (_ & _ & _ & Hus & _).
  unfold tuple_card_flag.
  destruct (type_flags_conjunct t e =? UNIT_TYPE_FLAGS) eqn:E1.
  { apply Z.eqb_eq in E1. rewrite (conjunct_unit t e He E1). reflexivity. }
  destruct (type_flags_conjunct t e =? SMALL_TYPE_FLAGS) eqn:E2.
  { destruct (Z.le_gt_cases (card_product t e) UINT32_MAX) as [Hle|Hgt].
    - rewrite (P1 Hle).
      replace (UINT32_MAX <? card_product t e) with false
        by (symmetry; apply Z.ltb_ge; exact Hle).
      cbn [fst]. rewrite Z.min_l by exact Hle.
      apply wrap32_small. unfold UINT32_MAX in *. lia.
    - specialize (P2 ltac:(lia)).
      replace (UINT32_MAX <? type_card_product t e) with true
        by (symmetry; apply Z.ltb_lt; exact P2).
      cbn [fst]. rewrite Z.min_r by lia. reflexivity. }
  apply Z.eqb_neq in E1, E2.
  assert (Hb : Z.testbit (type_flags_conjunct t e) 2 = false).
  { destruct (Z.testbit (type_flags_conjunct t e) 2) eqn:B; [|reflexivity].
    exfalso. destruct (proj2 Hus eq_refl); contradiction. }
  pose proof (conjunct_inexact t e He Hb) as Hge.
  cbn [fst]. rewrite Z.min_r by lia. reflexivity.
Qed.

(** X11.  [card_of_type_product].  For live types of a reachable table
    whose stored cardinalities are not 0, [card_of_type_product] returns the
    product of the stored cardinalities, or [UINT32_MAX] if the product is
    larger; the result is at least 1; and it is the cardinality of the tuple
    type that [tuple_type] returns for the same types. *)
Theorem card_of_type_product_is_tuple_card t e :
  reachable t → Forall (good t) e → Forall (λ x, type_card t x ≠ 0) e →
  card_of_type_product t e = Z.min (card_product t e) UINT32_MAX
  ∧ 1 ≤ card_of_type_product t e ≤ UINT32_MAX
  ∧ (e ≠ [] → ∀ t' i, tuple_type t e = Ok (t', i) →
       type_card t' i = card_of_type_product t e).
Proof.
  intros Hr Hg Hc. pose proof (reachable_Inv t Hr) as HI.
  pose proof (reachable_desc_ok t e Hr Hg Hc) as Hok.
  pose proof (desc_ok_cards t e Hok) as Hcards.
  pose proof (card_of_type_product_value t e Hcards) as Hv.
  pose proof (card_product_pos t e Hcards) as Hpos.
  split; [exact Hv|]. split; [rewrite Hv; unfold UINT32_MAX in *; lia|].
  intros Hne t' i H. rewrite Hv.
  destruct (tuple_type_spec t e t' i HI Hg H) as ((HI' & He & _) & Hgi & Kk & Kd & _).
  pose proof (run_slots_ok (Tuple_type e) t t' i HI (reachable_slots_ok t Hr)
                (conj Hne Hg) H i Hgi) as Hslot.
  unfold slot_ok in Hslot. rewrite Kk in Hslot.
  destruct Hslot as (e0 & Hd0 & _ & Heq). rewrite Kd in Hd0. injection Hd0 as <-.
  rewrite <- (tuple_card_flags_value t e Hok).
  rewrite <- (tuple_card_flags_agree t t' e), <- Heq; [reflexivity|].
  intros x Hx. pose proof (proj1 (Forall_forall _ _) Hg x Hx) as Hgx.
  destruct (He x Hgx) as (_ & _ & _ & ? & ?). auto.
Qed.

(** ** Queries on a function type *)

(** X12.  What the queries on a function type return.  For a live
    function type [f] of a reachable table, with range [r] and domain
    [e[0 ... n-1]]: the range and the domain types are live and [n >= 1];
    [type_has_finite_domain(f)] holds exactly when every [e[j]] is finite;
    [f] is a unit, maximal or minimal type exactly when [r] is; [f] is
    finite exactly when [r] is a unit type, or [type_has_finite_range(f)] and
    [type_has_finite_domain(f)] both hold; and [card_of_domain_type(f)] is the
    product of the stored cardinalities of the [e[j]], or [UINT32_MAX] if the
    product is larger, provided none of them is 0. *)
Theorem function_type_queries t f :
  reachable t → good t f → kind t f = FUNCTION_TYPE →
  let r := function_type_range t f in
  let e := (function_type_desc t f).2 in
  good t r ∧ Forall (good t) e ∧ e ≠ []
  ∧ type_has_finite_domain t f = forallb (is_finite_type t) e
  ∧ is_unit_type t f = is_unit_type t r
  ∧ is_maxtype t f = is_maxtype t r
  ∧ is_mintype t f = is_mintype t r
  ∧ is_finite_type t f
    = is_unit_type t r
      || (type_has_finite_range t f && type_has_finite_domain t f)
  ∧ (Forall (λ x, type_card t x ≠ 0) e →
     card_of_domain_type t f = Z.min (card_product t e) UINT32_MAX).
Proof.
  intros Hr Hf Hk. cbv zeta. pose proof (reachable_Inv t Hr) as HI.
  pose proof (reachable_slots_ok t Hr f Hf) as Hslot.
  pose proof (Inv_children_good t f HI Hf) as Hch.
  unfold slot_ok in Hslot. unfold children in Hch. rewrite Hk in Hslot, Hch.
  destruct Hslot as (r & e & Hd & Hne & Heq). rewrite Hd in Hch. simpl in Hch.
  apply Forall_cons in Hch as [Hgr Hge].
  unfold type_has_finite_domain, type_has_finite_range, card_of_domain_type,
    function_type_range, function_type_desc.
  rewrite Hd. cbn [function_desc fst snd].
  split; [exact Hgr|]. split; [exact Hge|]. split; [exact Hne|].
  pose proof (inv_flags t HI r Hgr) as Hrf.
  pose proof (good_flags_ok t e HI Hge) as Hef.
  assert (Hcj : flags_ok (type_flags_conjunct t e) = true).
  { rewrite type_flags_conjunct_eq. apply conj_flags_ok. exact Hef. }
  split; [symmetry; apply conjunct_finite; exact Hef|].
  injection Heq as _ Hfl. unfold function_switch_flag in Hfl.
  rewrite (function_card_flag_flags t e r (type_flags t r)) in Hfl.
  unfold type_flags in Hfl.
  pose proof (function_flags_bits (flags t r) (type_flags_conjunct t e)
                (UINT32_MAX <? fun_type_card t e r) Hrf Hcj) as Hb.
  unfold function_flags_check in Hb. cbv zeta in Hb. rewrite <- Hfl in Hb.
  apply andb_true_iff in Hb as [Hb H4]. apply andb_true_iff in Hb as [Hb H3].
  apply andb_true_iff in Hb as [H1 H2].
  apply Bool.eqb_prop in H1, H2, H3, H4.
  unfold is_unit_type, is_maxtype, is_mintype, is_finite_type.
  split; [exact H1|]. split; [exact H2|]. split; [exact H3|]. split; [exact H4|].
  intros Hc. apply card_of_type_product_value.
  apply desc_ok_cards. apply reachable_desc_ok; assumption.
Qed.

(** ** Live types and their names from one call to the next *)

Lemma fresh_good t t' i j : fresh t t' i → good t j → good t' j.
Proof.
  intros Hf Hj. destruct (fresh_agree t t' i j Hf Hj) as (Ek & _).
  pose proof (fr_nelems t t' i Hf). destruct Hj as [Hr Hk].
  split; [lia|congruence].
Qed.

Lemma evolves_keeps t t' :
  evolves t t' → ∀ i, good t i → good t' i ∧ name t' i = name t i.
Proof.
  induction 1 as [t|t t1 j t2 HI HI1 Hf _ IH|t t1 t2 HI HI1 Hs _ IH]; intros i Hi.
  - auto.
  - destruct (IH i (fresh_good t t1 j i Hf Hi)) as [Hg Hn].
    destruct (fresh_agree t t1 j i Hf Hi) as (_ & _ & _ & _ & En).
    split; [exact Hg|congruence].
  - destruct (IH i (proj2 (same_types_good t t1 i Hs) Hi)) as [Hg Hn].
    destruct Hs as (_ & _ & _ & _ & En & _). rewrite En in Hn. auto.
Qed.

Lemma fresh_names_live t t' i : fresh t t' i → names_live t → names_live t'.
Proof.
  intros Hf Hn j Hj. destruct (decide (j = i)) as [->|Hne].
  - apply (fr_good t t' i Hf).
  - destruct (fr_other t t' i Hf j Hne) as (_ & _ & _ & _ & En).
    rewrite En in Hj. exact (fresh_good t t' i j Hf (Hn j Hj)).
Qed.

Lemma evolves_names_live t t' : evolves t t' → names_live t → names_live t'.
Proof.
  induction 1 as [t|t t1 j t2 HI HI1 Hf _ IH|t t1 t2 HI HI1 Hs _ IH]; intros Hn.
  - exact Hn.
  - apply IH. exact (fresh_names_live t t1 j Hf Hn).
  - apply IH. intros i Hi. apply (same_types_good t t1 i Hs).
    destruct Hs as (_ & _ & _ & _ & En & _). rewrite En in Hi. exact (Hn i Hi).
Qed.

Lemma built_names_live t t' i :
  t' = t ∨ fresh t t' i → names_live t → names_live t'.
Proof. intros [->|Hf] Hn; [exact Hn|exact (fresh_names_live t t' i Hf Hn)]. Qed.

Lemma gc_names_live fuel t t' :
  Inv t → names_live t → type_table_gc fuel t = Ok t' → names_live t'.
Proof.
  intros HI Hn H.
  destruct (type_table_gc_collected fuel t t' HI H) as (m & _ & _ & _ & Hcol).
  intros j Hj. destruct (erased t m j) eqn:E.
  - destruct (col_erase t m t' Hcol j E) as (_ & Hnone & _). contradiction.
  - destruct (col_keep t m t' Hcol j E) as (Ek & _ & En).
    rewrite En in Hj. destruct (Hn j Hj) as [Hr Hk].
    split; [rewrite (col_nelems t m t' Hcol); exact Hr|congruence].
Qed.

Lemma run_names_live c t t' r :
  Inv t → slots_ok t → names_live t → pre t c → run c t = Ok (t', r) →
  names_live t'.
Proof.
  intros HI Hs Hn Hpre H.
  destruct c as [sz|e|rg dm|k| |i nm|nm|fuel tau1 tau2|fuel tau1 tau2|i|fuel];
    simpl in Hpre, H.
  - destruct (bv_type_fresh t sz t' r HI Hpre H) as [_ Hc].
    exact (built_names_live t t' r Hc Hn).
  - destruct Hpre as [Hne He].
    destruct (tuple_type_fresh t e t' r HI Hne He H) as [_ Hc].
    exact (built_names_live t t' r Hc Hn).
  - destruct Hpre as (Hne & He & Hr).
    destruct (function_type_fresh t rg dm t' r HI Hne He Hr H) as [_ Hc].
    exact (built_names_live t t' r Hc Hn).
  - destruct (new_scalar_type_fresh t k t' r HI Hpre H) as [_ Hf].
    exact (fresh_names_live t t' r Hf Hn).
  - destruct (new_uninterpreted_type_fresh t t' r HI H) as [_ Hf].
    exact (fresh_names_live t t' r Hf Hn).
  - injection H as <- <-. intros j Hj. unfold set_type_name in *.
    destruct (name t i) eqn:E; tsimpl; unfold good; tsimpl; [exact (Hn j Hj)|].
    rewrite fn_insert_eq in Hj. destruct (decide (i = j)) as [<-|];
      [exact Hpre|exact (Hn j Hj)].
  - injection H as <- <-. exact Hn.
  - destruct Hpre as [H1 H2]. apply (evolves_names_live t t'); [|exact Hn].
    exact (lat_type_evolves Sup fuel t tau1 tau2 t' r HI Hs H1 H2 H).
  - destruct Hpre as [H1 H2]. apply (evolves_names_live t t'); [|exact Hn].
    exact (lat_type_evolves Inf fuel t tau1 tau2 t' r HI Hs H1 H2 H).
  - injection H as <- <-. exact Hn.
  - apply bind_Ok in H as (t1 & Hgc & H). injection H as <- <-.
    exact (gc_names_live fuel t t1 HI Hn Hgc).
Qed.

Lemma reachable_names_live t : reachable t → names_live t.
Proof.
  induction 1 as [n t Hn Hinit|t c t' r Hr IH Hpre Hrun].
  - destruct (init_type_table_initial n t ltac:(lia) Hinit) as (_ & _ & Hnames).
    intros i Hi. exfalso. apply Hi, Hnames.
  - exact (run_names_live c t t' r (reachable_Inv t Hr) (reachable_slots_ok t Hr)
             IH Hpre Hrun).
Qed.

Lemma name_after_other c t i :
  (∀ j nm, c ≠ Set_type_name j nm) → name_after c t i = name t i.
Proof.
  intros Hc. unfold name_after. destruct (name t i); [reflexivity|].
  destruct c; try reflexivity. exfalso. eapply Hc. reflexivity.
Qed.

(** X13.  Live types are stable.  A call of the interface made on a
    reachable table leaves every live type in place with its kind,
    descriptor, cardinality and flags, unless the call is a collection that
    reclaims it.  The name stored in the type is the one given by the first
    [set_type_name] for it: [set_type_name] stores a name only in a type that
    has none, and no call changes or removes the stored name of a type that
    stays live, [remove_type_name] included.  An unused slot below [nelems]
    holds no name. *)
Theorem live_types_are_stable t c t' r i :
  reachable t → pre t c → run c t = Ok (t', r) →
  (good t i → is_gc c = false → good t' i)
  ∧ (good t i → good t' i →
     kind t' i = kind t i ∧ desc t' i = desc t i ∧ card t' i = card t i
     ∧ flags t' i = flags t i ∧ name t' i = name_after c t i)
  ∧ (0 ≤ i < nelems t → kind t i = UNUSED_TYPE → name t i = None).
Proof.
  intros Hr Hpre H. pose proof (reachable_Inv t Hr) as HI.
  pose proof (reachable_slots_ok t Hr) as Hs.
  split; [|split].
  - intros Hi Hgc. apply (run_extends c t t' r HI Hpre Hgc H i Hi).
  - intros Hi Hi'.
    assert (Hfields : kind t' i = kind t i ∧ desc t' i = desc t i
                      ∧ card t' i = card t i ∧ flags t' i = flags t i).
    { destruct (is_gc c) eqn:Hgc.
      - destruct c; try discriminate. simpl in H.
        apply bind_Ok in H as (t1 & Hrun & H). injection H as <- <-.
        destruct (type_table_gc_collected fuel t t1 HI Hrun) as (m & _ & _ & _ & Hcol).
        apply (col_live t m t1 Hcol) in Hi'.
        destruct (col_keep t m t1 Hcol i (erased_marked t m i Hi')) as (? & ? & _).
        rewrite (col_card t m t1 Hcol), (col_flags t m t1 Hcol). auto.
      - destruct (run_extends c t t' r HI Hpre Hgc H i Hi) as (_ & ? & ? & ? & ?).
        auto. }
    destruct Hfields as (Ek & Ed & Ec & Ef).
    repeat (split; [assumption|]).
    assert (Hbuilt : ∀ j, t' = t ∨ fresh t t' j → name t' i = name t i).
    { intros j [->|Hf]; [reflexivity|]. apply (fresh_agree t t' j i Hf Hi). }
    destruct c as [sz|e|rg dm|k| |j nm|nm|fuel tau1 tau2|fuel tau1 tau2|j|fuel];
      simpl in Hpre, H;
      try (rewrite name_after_other by (intros; discriminate)).
    + destruct (bv_type_fresh t sz t' r HI Hpre H) as [_ Hc]. exact (Hbuilt r Hc).
    + destruct Hpre as [Hne He].
      destruct (tuple_type_fresh t e t' r HI Hne He H) as [_ Hc]. exact (Hbuilt r Hc).
    + destruct Hpre as (Hne & He & Hrg).
      destruct (function_type_fresh t rg dm t' r HI Hne He Hrg H) as [_ Hc].
      exact (Hbuilt r Hc).
    + destruct (new_scalar_type_fresh t k t' r HI Hpre H) as [_ Hf].
      exact (Hbuilt r (or_intror Hf)).
    + destruct (new_uninterpreted_type_fresh t t' r HI H) as [_ Hf].
      exact (Hbuilt r (or_intror Hf)).
    + injection H as <- <-. unfold name_after, set_type_name.
      destruct (name t j) eqn:Ej; tsimpl.
      * destruct (name t i) eqn:Ei; [reflexivity|].
        destruct (decide (j = i)); [congruence|reflexivity].
      * rewrite fn_insert_eq. destruct (decide (j = i)) as [->|].
        -- rewrite Ej. reflexivity.
        -- destruct (name t i); reflexivity.
    + injection H as <- <-. reflexivity.
    + destruct Hpre as [H1 H2].
      apply (evolves_keeps t t'
               (lat_type_evolves Sup fuel t tau1 tau2 t' r HI Hs H1 H2 H) i Hi).
    + destruct Hpre as [H1 H2].
      apply (evolves_keeps t t'
               (lat_type_evolves Inf fuel t tau1 tau2 t' r HI Hs H1 H2 H) i Hi).
    + injection H as <- <-. reflexivity.
    + apply bind_Ok in H as (t1 & Hrun & H). injection H as <- <-.
      destruct (type_table_gc_collected fuel t t1 HI Hrun) as (m & _ & _ & _ & Hcol).
      apply (col_live t m t1 Hcol) in Hi'.
      apply (col_keep t m t1 Hcol i (erased_marked t m i Hi')).
  - intros Hi Hk. destruct (name t i) eqn:E; [|reflexivity].
    exfalso. destruct (reachable_names_live t Hr i) as [_ Hg]; [congruence|].
    contradiction.
Qed.

(** ** The collector keeps nothing but what the roots reach *)

Lemma reaches_trans t i j k : reaches t i j → reaches t j k → reaches t i k.
Proof.
  induction 1 as [|i c j Hc _ IH]; intros H; [exact H|].
  eapply reaches_child; eauto.
Qed.

Section Precision.

Variable t0 : type_table.
Hypothesis t0_closed : ∀ i c, good t0 i → c ∈ children t0 i → good t0 c.

Lemma mark_and_explore_precise rec ptr m i t' :
  rec_precise t0 ptr rec →
  good t0 i → mark_and_explore rec (with_marks t0 m) ptr i = Ok t' →
  ∀ j, gc_mark t' j = true → m j = true ∨ reaches t0 i j.
Proof.
  intros Hprec Hi. unfold mark_and_explore, type_is_marked. tsimpl.
  destruct (m i) eqn:Hm.
  - intros [= <-] j Hj. left. exact Hj.
  - assert (Hset : ∀ j, (<[i:=true]> m) j = true → m j = true ∨ reaches t0 i j).
    { intros j. rewrite fn_insert_eq. destruct (decide (i = j)) as [<-|]; [|auto].
      intros _. right. apply reaches_refl. }
    destruct (i <? ptr).
    + intros H j Hj.
      change (type_table_set_gc_mark (with_marks t0 m) i)
        with (with_marks t0 (<[i:=true]> m)) in H.
      destruct (Hprec _ _ _ Hi H j Hj) as [Hmj|(c & Hc & Hr)]; [auto|].
      right. eapply reaches_child; eauto.
    + intros [= <-] j Hj. apply Hset. exact Hj.
Qed.

Lemma for_each_precise rec ptr l :
  rec_marks t0 ptr rec → rec_precise t0 ptr rec →
  ∀ m t', Forall (good t0) l →
    for_each (λ t j, mark_and_explore rec t ptr j) (with_marks t0 m) l = Ok t' →
    ∀ j, gc_mark t' j = true → m j = true ∨ ∃ c, c ∈ l ∧ reaches t0 c j.
Proof.
  intros Hrec Hprec. induction l as [|x l IH]; intros m t' Hl H j Hj.
  - injection H as <-. left. exact Hj.
  - apply Forall_cons in Hl as [Hx Hl]. cbn [for_each] in H.
    apply bind_Ok in H as (t1 & H1 & H).
    pose proof (mark_and_explore_precise rec ptr m x t1 Hprec Hx H1) as P1.
    destruct (mark_and_explore_marks t0 rec ptr m x t1 Hrec Hx H1)
      as (m1 & -> & _).
    destruct (IH m1 t' Hl H j Hj) as [Hm1|(c & Hc & Hr)].
    + destruct (P1 j Hm1) as [?|Hr]; [auto|].
      right. exists x. split; [left|exact Hr].
    + right. exists c. split; [right; exact Hc|exact Hr].
Qed.

Lemma mark_reachable_types_precise fuel ptr :
  rec_precise t0 ptr (mark_reachable_types fuel).
Proof.
  induction fuel as [|fuel IH]; intros m i t' Hi H; [discriminate|].
  pose proof (mark_reachable_types_marks t0 t0_closed fuel ptr) as Hrec.
  cbn [mark_reachable_types] in H.
  assert (Hch : Forall (good t0) (children t0 i)).
  { apply Forall_forall. intros c Hc. eapply t0_closed; eauto. }
  unfold children in *.
  change (kind (with_marks t0 m) i) with (kind t0 i) in H.
  change (tuple_type_desc (with_marks t0 m) i) with (tuple_desc (desc t0 i)) in H.
  change (function_type_desc (with_marks t0 m) i)
    with (function_desc (desc t0 i)) in H.
  destruct (kind t0 i); simpl in Hch |- *;
    try (injection H as <-; intros j Hj; left; exact Hj).
  - apply (for_each_precise _ ptr _ Hrec IH m t' Hch H).
  - apply Forall_cons in Hch as [Hr Hd].
    apply bind_Ok in H as (t1 & H1 & H).
    pose proof (mark_and_explore_precise _ ptr m _ t1 IH Hr H1) as P1.
    destruct (mark_and_explore_marks t0 _ ptr m _ t1 Hrec Hr H1)
      as (m1 & -> & _).
    intros j Hj.
    destruct (for_each_precise _ ptr _ Hrec IH m1 t' Hd H j Hj)
      as [Hm1|(c & Hc & Hrc)].
    + destruct (P1 j Hm1) as [?|Hrj]; [auto|].
      right. eexists. split; [left|exact Hrj].
    + right. exists c. split; [right; exact Hc|exact Hrc].
Qed.

Lemma mark_live_loop_precise fuel k :
  ∀ a m t',
    (∀ j, m j = true → good t0 j) →
    for_each (live_body fuel) (with_marks t0 m) (seqZ a (Z.of_nat k)) = Ok t' →
    ∀ j, gc_mark t' j = true → from_marked t0 m j.
Proof.
  induction k as [|k IH]; intros a m t' Hg H j Hj.
  - simpl in H. injection H as <-. exists j. split; [exact Hj|apply reaches_refl].
  - rewrite seqZ_S in H. cbn [for_each] in H.
    apply bind_Ok in H as (t1 & H1 & H).
    assert (Hstep : ∃ m1, t1 = with_marks t0 m1
              ∧ (∀ j, m1 j = true → good t0 j)
              ∧ ∀ j, m1 j = true → from_marked t0 m j).
    { unfold live_body, type_is_marked in H1. tsimpl.
      destruct (m a) eqn:Hma.
      - pose proof (mark_reachable_types_precise fuel a m a t1 (Hg a Hma) H1) as P.
        destruct (mark_reachable_types_marks t0 t0_closed fuel a m a t1 (Hg a Hma) H1)
          as (m1 & -> & (_ & _ & G1) & _).
        exists m1. split; [reflexivity|]. split.
        + intros x Hx. destruct (G1 x Hx); auto.
        + intros x Hx. destruct (P x Hx) as [Hmx|(c & Hc & Hr)].
          * exists x. split; [exact Hmx|apply reaches_refl].
          * exists a. split; [exact Hma|]. eapply reaches_child; eauto.
      - injection H1 as <-. exists m. split; [reflexivity|]. split; [exact Hg|].
        intros x Hx. exists x. split; [exact Hx|apply reaches_refl]. }
    destruct Hstep as (m1 & -> & G1 & P1).
    destruct (IH (a + 1) m1 t' G1 H j Hj) as (i & Hi & Hr).
    destruct (P1 i Hi) as (i0 & Hi0 & Hr0).
    exists i0. split; [exact Hi0|]. eapply reaches_trans; eauto.
Qed.

End Precision.

Lemma mark_live_types_precise t fuel m :
  Inv t → mark_live_types fuel (gc_mark_roots t) = Ok (with_marks t m) →
  ∀ j, m j = true → ∃ i, gc_root t i ∧ reaches t i j.
Proof.
  intros HI H j Hj. rewrite gc_mark_roots_eq in H. unfold mark_live_types in H.
  change (nelems (with_marks t (root_marks t))) with (nelems t) in H.
  destruct (inv_size t HI) as [[Hn _] _].
  rewrite <- (Z2Nat.id (nelems t)) in H by exact Hn.
  destruct (mark_live_loop_precise t (Inv_closed t HI) fuel (Z.to_nat (nelems t)) 0
              (root_marks t) (with_marks t m)) with (j := j) as (i & Hi & Hr).
  - intros x Hx. apply gc_root_good; [exact HI|]. apply root_marks_spec. exact Hx.
  - exact H.
  - exact Hj.
  - exists i. split; [apply root_marks_spec; exact Hi|exact Hr].
Qed.

Lemma gc_live_exact t fuel t' :
  Inv t → type_table_gc fuel t = Ok t' →
  ∀ j, good t' j ↔ ∃ i, gc_root t i ∧ reaches t i j.
Proof.
  intros HI H j.
  destruct (type_table_gc_collected fuel t t' HI H) as (m & Hmark & Hm & HI' & Hcol).
  rewrite (col_live t m t' Hcol j). split.
  - apply (mark_live_types_precise t fuel m HI Hmark).
  - intros (i & Hi & Hreach). eapply sweep_marks_reaches; eauto.
    apply Hm. exact Hi.
Qed.

(** X14.  The collector is exact.  After [type_table_gc] on a reachable
    table the live types are exactly the types reachable, through tuple
    components and function domains and ranges, from a root: a type bound
    in the symbol table, a type marked by the caller, or a primitive type.
    The collection clears every mark and leaves the symbol table as it is,
    so every name maps to the same type, still live. *)
Theorem gc_keeps_exactly_the_reachable t fuel t' :
  reachable t → type_table_gc fuel t = Ok t' →
  (∀ j, good t' j ↔ ∃ i, gc_root t i ∧ reaches t i j)
  ∧ (∀ j, type_is_marked t' j = false)
  ∧ stbl t' = stbl t
  ∧ ∀ nm, get_type_by_name t' nm = get_type_by_name t nm
          ∧ (get_type_by_name t nm ≠ NULL_TYPE → good t' (get_type_by_name t nm)).
Proof.
  intros Hr H. pose proof (reachable_Inv t Hr) as HI.
  pose proof (gc_live_exact t fuel t' HI H) as Hlive.
  destruct (type_table_gc_collected fuel t t' HI H) as (m & _ & _ & _ & Hcol).
  split; [exact Hlive|]. split; [exact (col_marks t m t' Hcol)|].
  pose proof (col_stbl t m t' Hcol) as Hst. split; [exact Hst|].
  intros nm. unfold get_type_by_name. rewrite Hst. split; [reflexivity|].
  intros Hne. destruct (stbl_find_cases (stbl t) nm) as [[E _]|Hin].
  - unfold NULL_TYPE in Hne. contradiction.
  - apply Hlive. exists (stbl_find (stbl t) nm). split; [|apply reaches_refl].
    left. eauto.
Qed.

Lemma gc_children t fuel t' i :
  Inv t → type_table_gc fuel t = Ok t' → good t' i → children t' i = children t i.
Proof.
  intros HI H Hi.
  destruct (type_table_gc_collected fuel t t' HI H) as (m & _ & _ & _ & Hcol).
  apply (col_live t m t' Hcol) in Hi.
  destruct (col_keep t m t' Hcol i (erased_marked t m i Hi)) as (Ek & Ed & _).
  unfold children. rewrite Ek, Ed. reflexivity.
Qed.

Lemma gc_reaches t fuel t' i j :
  Inv t → Inv t' → type_table_gc fuel t = Ok t' → good t' i →
  reaches t' i j ↔ reaches t i j.
Proof.
  intros HI HI' H Hi. split; intros Hr.
  - induction Hr as [|i c j Hc _ IH]; [apply reaches_refl|].
    pose proof (Inv_closed t' HI' i c Hi Hc) as Hgc.
    rewrite (gc_children t fuel t' i HI H Hi) in Hc.
    eapply reaches_child; eauto.
  - induction Hr as [|i c j Hc _ IH]; [apply reaches_refl|].
    rewrite <- (gc_children t fuel t' i HI H Hi) in Hc.
    pose proof (Inv_closed t' HI' i c Hi Hc) as Hgc.
    eapply reaches_child; eauto.
Qed.

(** X15.  A mark protects a type for one collection.  The marks set by
    the caller are roots of the next collection only: when a second
    collection follows the first with no call in between, the types live
    afterwards are exactly those reachable from a type bound in the symbol
    table or from a primitive type. *)
Theorem marks_last_one_collection t fuel t1 fuel' t2 :
  reachable t → type_table_gc fuel t = Ok t1 → type_table_gc fuel' t1 = Ok t2 →
  ∀ j, good t2 j ↔ ∃ i, named_root t i ∧ reaches t i j.
Proof.
  intros Hr H1 H2 j. pose proof (reachable_Inv t Hr) as HI.
  destruct (type_table_gc_collected fuel t t1 HI H1) as (m & _ & _ & HI1 & Hcol).
  pose proof (gc_live_exact t fuel t1 HI H1) as Hlive1.
  rewrite (gc_live_exact t1 fuel' t2 HI1 H2 j).
  assert (Hroot : ∀ i, gc_root t1 i ↔ named_root t i).
  { intros i. unfold gc_root, named_root.
    rewrite (col_stbl t m t1 Hcol), (col_marks t m t1 Hcol i).
    split; [intros [?|[?|?]]; [auto|discriminate|auto]|intros [?|?]; auto]. }
  assert (Hgood : ∀ i, named_root t i → good t1 i).
  { intros i Hi. apply Hlive1. exists i. split; [|apply reaches_refl].
    destruct Hi as [?|?]; [left; assumption|right; right; assumption]. }
  split; intros (i & Hi & Hreach).
  - apply Hroot in Hi. exists i. split; [exact Hi|].
    apply (gc_reaches t fuel t1 i j HI HI1 H1 (Hgood i Hi)). exact Hreach.
  - exists i. split; [apply Hroot; exact Hi|].
    apply (gc_reaches t fuel t1 i j HI HI1 H1 (Hgood i Hi)). exact Hreach.
Qed.

(** ** Cardinality of a function type *)

Lemma function_card_flags_value t e r :
  desc_ok t r → Forall (desc_ok t) e →
  (function_card_flags t e r).1 = function_card t e r.
Proof.
  intros (Hrf & Hrc & Hru & Hri) He.
  unfold function_card_flags. cbv zeta. cbn [fst].
  unfold function_switch_flag, type_flags.
  pose proof (desc_ok_cards t e He) as Hc.
  pose proof (desc_ok_flags t e He) as Hf.
  destruct (type_card_product_spec t e Hc) as [P1 P2].
  pose proof (card_product_pos t e Hc) as Hpos.
  assert (Hcj : flags_ok (type_flags_conjunct t e) = true).
  { rewrite type_flags_conjunct_eq. apply conj_flags_ok, Hf. }
  pose proof (function_switch_case _ _ Hrf Hcj) as Hsw.
  unfold function_switch_flag in Hsw.
  unfold function_card, is_unit_type, type_has_exact_card at 1.
  rewrite (conjunct_exact t e Hf).
  destruct (flag_bits_testbit _ Hrf) as (-> & -> & _).
  unfold function_card_flag.
  set (flag := if Z.land (flags t r) _ =? _ then _ else flags t r) in *.
  unfold switch_case in Hsw.
  destruct (Z.testbit (flags t r) 1).
  { destruct (flag =? UNIT_TYPE_FLAGS); [reflexivity|].
    destruct (flag =? SMALL_TYPE_FLAGS); discriminate. }
  destruct (Z.testbit (flags t r) 2 && Z.testbit (type_flags_conjunct t e) 2).
  - destruct (flag =? UNIT_TYPE_FLAGS); [discriminate|].
    destruct (flag =? SMALL_TYPE_FLAGS); [|discriminate].
    unfold fun_type_card.
    destruct (32 <=? card_product t e) eqn:E32.
    + apply Z.leb_le in E32.
      assert (32 ≤ type_card_product t e).
      { destruct (Z.le_gt_cases (card_product t e) UINT32_MAX) as [Hle|Hgt].
        - rewrite (P1 Hle). exact E32.
        - specialize (P2 ltac:(lia)). unfold UINT32_MAX in *. lia. }
      replace (32 <=? type_card_product t e) with true
        by (symmetry; apply Z.leb_le; assumption).
      reflexivity.
    + apply Z.leb_gt in E32.
      rewrite (P1 ltac:(unfold UINT32_MAX; lia)).
      replace (32 <=? card_product t e) with false
        by (symmetry; apply Z.leb_gt; exact E32).
      destruct (fun_type_card_loop_spec (type_card t r) Hrc
                  (Z.to_nat (card_product t e)) (type_card t r)
                  (card_product t e) Hrc Hpos ltac:(lia)) as [L1 L2].
      assert (Hpw : type_card t r * type_card t r ^ (card_product t e - 1)
                    = type_card t r ^ card_product t e).
      { replace (card_product t e) with (Z.succ (card_product t e - 1)) at 2 by lia.
        rewrite Z.pow_succ_r by lia. reflexivity. }
      rewrite Hpw in L1, L2.
      destruct (Z.le_gt_cases (type_card t r ^ card_product t e) UINT32_MAX)
        as [Hle|Hgt].
      * rewrite (L1 Hle).
        replace (UINT32_MAX <? _) with false by (symmetry; apply Z.ltb_ge; exact Hle).
        cbn [fst]. rewrite Z.min_l by exact Hle.
        assert (0 < type_card t r ^ card_product t e).
        { apply Z.pow_pos_nonneg; lia. }
        unfold wrap32. apply Z.mod_small. unfold UINT32_MAX in *. lia.
      * specialize (L2 ltac:(lia)).
        replace (UINT32_MAX <? _) with true by (symmetry; apply Z.ltb_lt; exact L2).
        cbn [fst]. rewrite Z.min_r by lia. reflexivity.
  - destruct (flag =? UNIT_TYPE_FLAGS); [discriminate|].
    destruct (flag =? SMALL_TYPE_FLAGS); [discriminate|]. reflexivity.
Qed.

(** X16.  The cardinality of the type [function_type] returns.  For a
    live range [r] and live domain types [e[0 ... n-1]] of a reachable table,
    none with stored cardinality 0, the function type that [function_type]
    returns, new or not, has cardinality: 1 if [r] is a unit type;
    [UINT32_MAX] if [r] or some [e[j]] has no exact cardinality; and
    otherwise, with [d] the product of the cardinalities of the [e[j]], the
    minimum of [card(r)^d] and [UINT32_MAX] if [d < 32], and 0 if
    [d >= 32]. *)
Theorem function_type_cardinality t r e t' i :
  reachable t → good t r → Forall (good t) e → e ≠ [] →
  type_card t r ≠ 0 → Forall (λ x, type_card t x ≠ 0) e →
  function_type t r e = Ok (t', i) →
  type_card t' i
  = if is_unit_type t r then 1
    else if type_has_exact_card t r && forallb (type_has_exact_card t) e then
      if 32 <=? card_product t e then 0
      else Z.min (type_card t r ^ card_product t e) UINT32_MAX
    else UINT32_MAX.
Proof.
  intros Hr Hgr Hge Hne Hcr Hce H. pose proof (reachable_Inv t Hr) as HI.
  pose proof (reachable_desc_ok t e Hr Hge Hce) as Hok.
  assert (Hokr : desc_ok t r).
  { assert (Hx := reachable_desc_ok t [r] Hr ltac:(constructor; [exact Hgr|constructor])
                    ltac:(constructor; [exact Hcr|constructor])).
    apply Forall_cons in Hx as [Hx _]. exact Hx. }
  destruct (function_type_spec t r e t' i HI Hge Hgr H)
    as ((HI' & He & _) & Hgi & Kk & Kd & _).
  pose proof (run_slots_ok (Function_type r e) t t' i HI (reachable_slots_ok t Hr)
                (conj Hne (conj Hge Hgr)) H i Hgi) as Hslot.
  unfold slot_ok in Hslot. rewrite Kk in Hslot.
  destruct Hslot as (r0 & e0 & Hd0 & _ & Heq). rewrite Kd in Hd0.
  injection Hd0 as <- <-.
  change (type_card t' i = function_card t e r).
  rewrite <- (function_card_flags_value t e r Hokr Hok).
  rewrite <- (function_card_flags_agree t t' e r), <- Heq; [reflexivity|].
  intros x Hx.
  assert (Hgx : good t x).
  { apply elem_of_cons in Hx as [->|Hx]; [exact Hgr|].
    exact (proj1 (Forall_forall _ _) Hge x Hx). }
  destruct (He x Hgx) as (_ & _ & _ & ? & ?). auto.
Qed.

(** ** The lattice engine and the subtype relation *)

Lemma extends_agree t t' : extends t t' → agree t t'.
Proof. intros H i Hi. destruct (H i Hi) as (? & ? & ? & _). auto. Qed.

Lemma same_types_agree t t' : same_types t t' → agree t t'.
Proof.
  intros (Ek & Ed & _ & _ & _ & _ & En & _) i Hi.
  unfold good in *. rewrite Ek, Ed, En. auto.
Qed.

Lemma tuple_child_good t a j x :
  Inv t → good t a → kind t a = TUPLE_TYPE →
  tuple_type_desc t a !! j = Some x → good t x.
Proof.
  intros HI Ha Hk Hx. apply (Inv_closed t HI a x Ha).
  unfold children. rewrite Hk. simpl. apply (list_elem_of_lookup_2 _ j). exact Hx.
Qed.

Lemma function_range_good t a :
  Inv t → good t a → kind t a = FUNCTION_TYPE → good t (function_type_range t a).
Proof.
  intros HI Ha Hk. apply (Inv_closed t HI a _ Ha).
  unfold children. rewrite Hk. simpl. left.
Qed.

Lemma agree_view t t' a :
  agree t t' → good t a →
  kind t' a = kind t a ∧ tuple_type_desc t' a = tuple_type_desc t a
  ∧ function_type_desc t' a = function_type_desc t a
  ∧ function_type_range t' a = function_type_range t a.
Proof.
  intros H Ha. destruct (H a Ha) as (_ & Hk & Hd).
  unfold function_type_range, tuple_type_desc, function_type_desc.
  rewrite Hd. auto.
Qed.

Lemma subtype_agree t t' a b :
  Inv t → agree t t' → good t a → good t b →
  subtype t a b ↔ subtype t' a b.
Proof.
  intros HI Hag Ha Hb. split; intros H.
  - induction H as [a| |a b Hka Hkb Hl Hc IH|a b Hka Hkb Hd Hr IH].
    + apply subtype_refl.
    + apply subtype_int_real.
    + destruct (agree_view t t' a Hag Ha) as (Ka & Ta & _).
      destruct (agree_view t t' b Hag Hb) as (Kb & Tb & _).
      apply subtype_tuple; rewrite ?Ka, ?Kb, ?Ta, ?Tb; try assumption.
      intros j x y Hx Hy. apply (IH j x y Hx Hy).
      * exact (tuple_child_good t a j x HI Ha Hka Hx).
      * exact (tuple_child_good t b j y HI Hb Hkb Hy).
    + destruct (agree_view t t' a Hag Ha) as (Ka & _ & Fa & Ra).
      destruct (agree_view t t' b Hag Hb) as (Kb & _ & Fb & Rb).
      apply subtype_function; rewrite ?Ka, ?Kb, ?Fa, ?Fb, ?Ra, ?Rb; try assumption.
      apply IH; apply function_range_good; assumption.
  - induction H as [a| |a b Hka Hkb Hl Hc IH|a b Hka Hkb Hd Hr IH].
    + apply subtype_refl.
    + apply subtype_int_real.
    + destruct (agree_view t t' a Hag Ha) as (Ka & Ta & _).
      destruct (agree_view t t' b Hag Hb) as (Kb & Tb & _).
      rewrite ?Ka, ?Kb, ?Ta, ?Tb in *.
      apply subtype_tuple; try assumption.
      intros j x y Hx Hy. apply (IH j x y Hx Hy).
      * exact (tuple_child_good t a j x HI Ha Hka Hx).
      * exact (tuple_child_good t b j y HI Hb Hkb Hy).
    + destruct (agree_view t t' a Hag Ha) as (Ka & _ & Fa & Ra).
      destruct (agree_view t t' b Hag Hb) as (Kb & _ & Fb & Rb).
      rewrite ?Ka, ?Kb, ?Fa, ?Fb, ?Ra, ?Rb in *.
      apply subtype_function; try assumption.
      apply IH; apply function_range_good; assumption.
Qed.

Lemma compat_agree t t' a b :
  Inv t → agree t t' → good t a → good t b →
  compat t a b ↔ compat t' a b.
Proof.
  intros HI Hag Ha Hb. split; intros H.
  - induction H as [a| | |a b Hka Hkb Hl Hc IH|a b Hka Hkb Hd Hr IH].
    + apply compat_refl.
    + apply compat_int_real.
    + apply compat_real_int.
    + destruct (agree_view t t' a Hag Ha) as (Ka & Ta & _).
      destruct (agree_view t t' b Hag Hb) as (Kb & Tb & _).
      apply compat_tuple; rewrite ?Ka, ?Kb, ?Ta, ?Tb; try assumption.
      intros j x y Hx Hy. apply (IH j x y Hx Hy).
      * exact (tuple_child_good t a j x HI Ha Hka Hx).
      * exact (tuple_child_good t b j y HI Hb Hkb Hy).
    + destruct (agree_view t t' a Hag Ha) as (Ka & _ & Fa & Ra).
      destruct (agree_view t t' b Hag Hb) as (Kb & _ & Fb & Rb).
      apply compat_function; rewrite ?Ka, ?Kb, ?Fa, ?Fb, ?Ra, ?Rb; try assumption.
      apply IH; apply function_range_good; assumption.
  - induction H as [a| | |a b Hka Hkb Hl Hc IH|a b Hka Hkb Hd Hr IH].
    + apply compat_refl.
    + apply compat_int_real.
    + apply compat_real_int.
    + destruct (agree_view t t' a Hag Ha) as (Ka & Ta & _).
      destruct (agree_view t t' b Hag Hb) as (Kb & Tb & _).
      rewrite ?Ka, ?Kb, ?Ta, ?Tb in *.
      apply compat_tuple; try assumption.
      intros j x y Hx Hy. apply (IH j x y Hx Hy).
      * exact (tuple_child_good t a j x HI Ha Hka Hx).
      * exact (tuple_child_good t b j y HI Hb Hkb Hy).
    + destruct (agree_view t t' a Hag Ha) as (Ka & _ & Fa & Ra).
      destruct (agree_view t t' b Hag Hb) as (Kb & _ & Fb & Rb).
      rewrite ?Ka, ?Kb, ?Fa, ?Fb, ?Ra, ?Rb in *.
      apply compat_function; try assumption.
      apply IH; apply function_range_good; assumption.
Qed.

Lemma lat_agree op t t' a b r :
  Inv t → agree t t' → good t a → good t b → good t r →
  lat op t a b r ↔ lat op t' a b r.
Proof.
  intros HI Hag Ha Hb Hr. split; intros H.
  - induction H as [a| | |a b r Hka Hkb Hkr Hl Hl' Hc IH
                     |a b r Hka Hkb Hkr Hd Hd' Hrg IH].
    + apply lat_refl.
    + apply lat_int_real.
    + apply lat_real_int.
    + destruct (agree_view t t' a Hag Ha) as (Ka & Ta & _).
      destruct (agree_view t t' b Hag Hb) as (Kb & Tb & _).
      destruct (agree_view t t' r Hag Hr) as (Kr & Tr & _).
      apply lat_tuple; rewrite ?Ka, ?Kb, ?Kr, ?Ta, ?Tb, ?Tr; try assumption.
      intros j x y z Hx Hy Hz. apply (IH j x y z Hx Hy Hz).
      * exact (tuple_child_good t a j x HI Ha Hka Hx).
      * exact (tuple_child_good t b j y HI Hb Hkb Hy).
      * exact (tuple_child_good t r j z HI Hr Hkr Hz).
    + destruct (agree_view t t' a Hag Ha) as (Ka & _ & Fa & Ra).
      destruct (agree_view t t' b Hag Hb) as (Kb & _ & Fb & Rb).
      destruct (agree_view t t' r Hag Hr) as (Kr & _ & Fr & Rr).
      apply lat_function;
        rewrite ?Ka, ?Kb, ?Kr, ?Fa, ?Fb, ?Fr, ?Ra, ?Rb, ?Rr; try assumption.
      apply IH; apply function_range_good; assumption.
  - induction H as [a| | |a b r Hka Hkb Hkr Hl Hl' Hc IH
                     |a b r Hka Hkb Hkr Hd Hd' Hrg IH].
    + apply lat_refl.
    + apply lat_int_real.
    + apply lat_real_int.
    + destruct (agree_view t t' a Hag Ha) as (Ka & Ta & _).
      destruct (agree_view t t' b Hag Hb) as (Kb & Tb & _).
      destruct (agree_view t t' r Hag Hr) as (Kr & Tr & _).
      rewrite ?Ka, ?Kb, ?Kr, ?Ta, ?Tb, ?Tr in *.
      apply lat_tuple; try assumption.
      intros j x y z Hx Hy Hz. apply (IH j x y z Hx Hy Hz).
      * exact (tuple_child_good t a j x HI Ha Hka Hx).
      * exact (tuple_child_good t b j y HI Hb Hkb Hy).
      * exact (tuple_child_good t r j z HI Hr Hkr Hz).
    + destruct (agree_view t t' a Hag Ha) as (Ka & _ & Fa & Ra).
      destruct (agree_view t t' b Hag Hb) as (Kb & _ & Fb & Rb).
      destruct (agree_view t t' r Hag Hr) as (Kr & _ & Fr & Rr).
      rewrite ?Ka, ?Kb, ?Kr, ?Fa, ?Fb, ?Fr, ?Ra, ?Rb, ?Rr in *.
      apply lat_function; try assumption.
      apply IH; apply function_range_good; assumption.
Qed.

Lemma lookup_same_length {A} (l1 l2 : list A) j x :
  length l1 = length l2 → l1 !! j = Some x → ∃ y, l2 !! j = Some y.
Proof.
  intros Hl Hx. apply lookup_lt_is_Some. rewrite <- Hl.
  apply lookup_lt_is_Some. eauto.
Qed.

Lemma Inv_int_real t :
  Inv t → kind t int_id = INT_TYPE ∧ kind t real_id = REAL_TYPE.
Proof. intros HI. destruct (inv_prims t HI) as (_ & _ & ? & ?). auto. Qed.

Lemma subtype_tuple_l t a c :
  Inv t → kind t a = TUPLE_TYPE → subtype t a c →
  kind t c = TUPLE_TYPE
  ∧ length (tuple_type_desc t a) = length (tuple_type_desc t c)
  ∧ ∀ j x y, tuple_type_desc t a !! j = Some x →
             tuple_type_desc t c !! j = Some y → subtype t x y.
Proof.
  intros HI Hk H. destruct (Inv_int_real t HI) as [Ki Kr].
  inversion H; subst; try congruence.
  - split; [exact Hk|]. split; [reflexivity|].
    intros j x y Hx Hy. rewrite Hx in Hy. injection Hy as <-. apply subtype_refl.
  - auto.
Qed.

Lemma subtype_tuple_r t a c :
  Inv t → kind t c = TUPLE_TYPE → subtype t a c →
  kind t a = TUPLE_TYPE
  ∧ length (tuple_type_desc t a) = length (tuple_type_desc t c)
  ∧ ∀ j x y, tuple_type_desc t a !! j = Some x →
             tuple_type_desc t c !! j = Some y → subtype t x y.
Proof.
  intros HI Hk H. destruct (Inv_int_real t HI) as [Ki Kr].
  inversion H; subst; try congruence.
  - split; [exact Hk|]. split; [reflexivity|].
    intros j x y Hx Hy. rewrite Hx in Hy. injection Hy as <-. apply subtype_refl.
  - auto.
Qed.

Lemma subtype_function_l t a c :
  Inv t → kind t a = FUNCTION_TYPE → subtype t a c →
  kind t c = FUNCTION_TYPE
  ∧ (function_type_desc t a).2 = (function_type_desc t c).2
  ∧ subtype t (function_type_range t a) (function_type_range t c).
Proof.
  intros HI Hk H. destruct (Inv_int_real t HI) as [Ki Kr].
  inversion H; subst; try congruence.
  - split; [exact Hk|]. split; [reflexivity|]. apply subtype_refl.
  - auto.
Qed.

Lemma subtype_function_r t a c :
  Inv t → kind t c = FUNCTION_TYPE → subtype t a c →
  kind t a = FUNCTION_TYPE
  ∧ (function_type_desc t a).2 = (function_type_desc t c).2
  ∧ subtype t (function_type_range t a) (function_type_range t c).
Proof.
  intros HI Hk H. destruct (Inv_int_real t HI) as [Ki Kr].
  inversion H; subst; try congruence.
  - split; [exact Hk|]. split; [reflexivity|]. apply subtype_refl.
  - auto.
Qed.

Lemma subtype_compat t a b : subtype t a b → compat t a b.
Proof.
  induction 1; [apply compat_refl|apply compat_int_real| |].
  - apply compat_tuple; assumption.
  - apply compat_function; assumption.
Qed.

Lemma compat_sym t a b : compat t a b → compat t b a.
Proof.
  induction 1 as [a| | |a b Hka Hkb Hl Hc IH|a b Hka Hkb Hd Hr IH].
  - apply compat_refl.
  - apply compat_real_int.
  - apply compat_int_real.
  - apply compat_tuple; try congruence. intros j x y Hx Hy. exact (IH j y x Hy Hx).
  - apply compat_function; try congruence.
Qed.

Lemma lat_sym op t a b r : lat op t a b r → lat op t b a r.
Proof.
  induction 1 as [a| | |a b r Hka Hkb Hkr Hl Hl' Hc IH
                   |a b r Hka Hkb Hkr Hd Hd' Hrg IH].
  - apply lat_refl.
  - apply lat_real_int.
  - apply lat_int_real.
  - apply lat_tuple; try congruence.
    intros j x y z Hx Hy Hz. exact (IH j y x z Hy Hx Hz).
  - apply lat_function; congruence.
Qed.

Lemma lat_compat op t a b r : lat op t a b r → compat t a b.
Proof.
  induction 1 as [a| | |a b r Hka Hkb Hkr Hl Hl' Hc IH
                   |a b r Hka Hkb Hkr Hd Hd' Hrg IH].
  - apply compat_refl.
  - apply compat_int_real.
  - apply compat_real_int.
  - apply compat_tuple; try assumption.
    intros j x y Hx Hy.
    destruct (lookup_same_length _ (tuple_type_desc t r) j x (eq_sym Hl') Hx)
      as [z Hz].
    exact (IH j x y z Hx Hy Hz).
  - apply compat_function; assumption.
Qed.

(** A result of [super_type] is a least upper bound. *)
Lemma lat_sup_bound t a b r :
  Inv t → lat Sup t a b r →
  subtype t a r ∧ subtype t b r
  ∧ ∀ c, subtype t a c → subtype t b c → subtype t r c.
Proof.
  intros HI H.
  induction H as [a| | |a b r Hka Hkb Hkr Hl Hl' Hc IH
                   |a b r Hka Hkb Hkr Hd Hd' Hrg IH].
  - split; [apply subtype_refl|]. split; [apply subtype_refl|]. auto.
  - split; [apply subtype_int_real|]. split; [apply subtype_refl|]. auto.
  - split; [apply subtype_refl|]. split; [apply subtype_int_real|]. auto.
  - split; [|split].
    + apply subtype_tuple; try congruence. intros j x z Hx Hz.
      destruct (lookup_same_length _ (tuple_type_desc t b) j x Hl Hx) as [y Hy].
      exact (proj1 (IH j x y z Hx Hy Hz)).
    + apply subtype_tuple; try congruence. intros j y z Hy Hz.
      destruct (lookup_same_length _ (tuple_type_desc t a) j y (eq_sym Hl) Hy)
        as [x Hx].
      exact (proj1 (proj2 (IH j x y z Hx Hy Hz))).
    + intros c Hac Hbc.
      destruct (subtype_tuple_l t a c HI Hka Hac) as (Hkc & Hlc & Hca).
      destruct (subtype_tuple_l t b c HI Hkb Hbc) as (_ & _ & Hcb).
      apply subtype_tuple; try congruence. intros j z w Hz Hw.
      destruct (lookup_same_length _ (tuple_type_desc t a) j z Hl' Hz) as [x Hx].
      destruct (lookup_same_length _ (tuple_type_desc t b) j x Hl Hx) as [y Hy].
      apply (proj2 (proj2 (IH j x y z Hx Hy Hz))); eauto.
  - destruct IH as (IH1 & IH2 & IH3). split; [|split].
    + apply subtype_function; congruence.
    + apply subtype_function; congruence.
    + intros c Hac Hbc.
      destruct (subtype_function_l t a c HI Hka Hac) as (Hkc & Hdc & Hca).
      destruct (subtype_function_l t b c HI Hkb Hbc) as (_ & _ & Hcb).
      apply subtype_function; try congruence. auto.
Qed.

(** A result of [inf_type] is a greatest lower bound. *)
Lemma lat_inf_bound t a b r :
  Inv t → lat Inf t a b r →
  subtype t r a ∧ subtype t r b
  ∧ ∀ c, subtype t c a → subtype t c b → subtype t c r.
Proof.
  intros HI H.
  induction H as [a| | |a b r Hka Hkb Hkr Hl Hl' Hc IH
                   |a b r Hka Hkb Hkr Hd Hd' Hrg IH].
  - split; [apply subtype_refl|]. split; [apply subtype_refl|]. auto.
  - split; [apply subtype_refl|]. split; [apply subtype_int_real|]. auto.
  - split; [apply subtype_int_real|]. split; [apply subtype_refl|]. auto.
  - split; [|split].
    + apply subtype_tuple; try congruence. intros j z x Hz Hx.
      destruct (lookup_same_length _ (tuple_type_desc t b) j x Hl Hx) as [y Hy].
      exact (proj1 (IH j x y z Hx Hy Hz)).
    + apply subtype_tuple; try congruence. intros j z y Hz Hy.
      destruct (lookup_same_length _ (tuple_type_desc t a) j y (eq_sym Hl) Hy)
        as [x Hx].
      exact (proj1 (proj2 (IH j x y z Hx Hy Hz))).
    + intros c Hca Hcb.
      destruct (subtype_tuple_r t c a HI Hka Hca) as (Hkc & Hlc & Hac).
      destruct (subtype_tuple_r t c b HI Hkb Hcb) as (_ & _ & Hbc).
      apply subtype_tuple; try congruence. intros j w z Hw Hz.
      destruct (lookup_same_length _ (tuple_type_desc t a) j z Hl' Hz) as [x Hx].
      destruct (lookup_same_length _ (tuple_type_desc t b) j x Hl Hx) as [y Hy].
      apply (proj2 (proj2 (IH j x y z Hx Hy Hz))); eauto.
  - destruct IH as (IH1 & IH2 & IH3). split; [|split].
    + apply subtype_function; congruence.
    + apply subtype_function; congruence.
    + intros c Hca Hcb.
      destruct (subtype_function_r t c a HI Hka Hca) as (Hkc & Hdc & Hac).
      destruct (subtype_function_r t c b HI Hkb Hcb) as (_ & _ & Hbc).
      apply subtype_function; try congruence. auto.
Qed.

(** Two types with a common supertype, or a common subtype, are
    compatible. *)
Lemma upper_bound_compat t a b c :
  Inv t → subtype t a c → subtype t b c → compat t a b.
Proof.
  intros HI Hac. revert b.
  induction Hac as [a| |a c Hka Hkc Hl Hc IH|a c Hka Hkc Hd Hr IH]; intros b Hbc.
  - apply compat_sym, subtype_compat, Hbc.
  - destruct (Inv_int_real t HI) as [Ki Kr].
    inversion Hbc; subst; try congruence.
    + apply compat_int_real.
    + apply compat_refl.
  - destruct (subtype_tuple_r t b c HI Hkc Hbc) as (Hkb & Hlb & Hcb).
    apply compat_tuple; try congruence. intros j x y Hx Hy.
    destruct (lookup_same_length _ (tuple_type_desc t c) j x Hl Hx) as [z Hz].
    exact (IH j x z Hx Hz y (Hcb j y z Hy Hz)).
  - destruct (subtype_function_r t b c HI Hkc Hbc) as (Hkb & Hdb & Hrb).
    apply compat_function; try congruence. apply IH. exact Hrb.
Qed.

Lemma lower_bound_compat t a b c :
  Inv t → subtype t c a → subtype t c b → compat t a b.
Proof.
  intros HI Hca. revert b.
  induction Hca as [a| |c a Hkc Hka Hl Hc IH|c a Hkc Hka Hd Hr IH]; intros b Hcb.
  - apply subtype_compat, Hcb.
  - destruct (Inv_int_real t HI) as [Ki Kr].
    inversion Hcb; subst; try congruence.
    + apply compat_real_int.
    + apply compat_refl.
  - destruct (subtype_tuple_l t c b HI Hkc Hcb) as (Hkb & Hlb & Hbc).
    apply compat_tuple; try congruence. intros j x y Hx Hy.
    destruct (lookup_same_length _ (tuple_type_desc t c) j x (eq_sym Hl) Hx)
      as [z Hz].
    exact (IH j z x Hz Hx y (Hbc j z y Hz Hy)).
  - destruct (subtype_function_l t c b HI Hkc Hcb) as (Hkb & Hdb & Hrb).
    apply compat_function; try congruence. apply IH. exact Hrb.
Qed.

Lemma subtype_trans t a b c :
  Inv t → subtype t a b → subtype t b c → subtype t a c.
Proof.
  intros HI Hab. revert c.
  induction Hab as [a| |a b Hka Hkb Hl Hc IH|a b Hka Hkb Hd Hr IH]; intros c Hbc.
  - exact Hbc.
  - destruct (Inv_int_real t HI) as [Ki Kr].
    inversion Hbc; subst; try congruence. apply subtype_int_real.
  - destruct (subtype_tuple_l t b c HI Hkb Hbc) as (Hkc & Hlc & Hcc).
    apply subtype_tuple; try congruence. intros j x z Hx Hz.
    destruct (lookup_same_length _ (tuple_type_desc t b) j x Hl Hx) as [y Hy].
    exact (IH j x y Hx Hy z (Hcc j y z Hy Hz)).
  - destruct (subtype_function_l t b c HI Hkb Hbc) as (Hkc & Hdc & Hrc).
    apply subtype_function; try congruence. apply IH. exact Hrc.
Qed.

Lemma slot_desc_tuple t i :
  slots_ok t → good t i → kind t i = TUPLE_TYPE →
  desc t i = desc_tuple (tuple_type_desc t i).
Proof.
  intros Hs Hi Hk. specialize (Hs i Hi). unfold slot_ok in Hs. rewrite Hk in Hs.
  destruct Hs as (e & He & _). unfold tuple_type_desc. rewrite He. reflexivity.
Qed.

Lemma slot_desc_function t i :
  slots_ok t → good t i → kind t i = FUNCTION_TYPE →
  desc t i
  = desc_function (function_type_range t i) (function_type_desc t i).2.
Proof.
  intros Hs Hi Hk. specialize (Hs i Hi). unfold slot_ok in Hs. rewrite Hk in Hs.
  destruct Hs as (r & e & He & _).
  unfold function_type_range, function_type_desc. rewrite He. reflexivity.
Qed.

(** The common supertype of a type and one of its supertypes is the
    supertype. *)
Lemma lat_sup_subtype t a b r :
  Inv t → slots_ok t → lat Sup t a b r →
  good t a → good t b → good t r → subtype t a b → r = b.
Proof.
  intros HI Hs H. destruct (Inv_int_real t HI) as [Ki Kr].
  induction H as [a| | |a b r Hka Hkb Hkr Hl Hl' Hc IH
                   |a b r Hka Hkb Hkr Hd Hd' Hrg IH]; intros Ha Hb Hr Hsub.
  - reflexivity.
  - reflexivity.
  - inversion Hsub; subst; try congruence; unfold real_id, int_id in *; lia.
  - destruct (subtype_tuple_l t a b HI Hka Hsub) as (_ & _ & Hcs).
    apply (inv_unique t HI r b Hr Hb); [rewrite Hkr; reflexivity|congruence|].
    rewrite (slot_desc_tuple t r Hs Hr Hkr), (slot_desc_tuple t b Hs Hb Hkb).
    f_equal. apply list_eq. intros j.
    destruct (tuple_type_desc t r !! j) as [z|] eqn:Hz.
    + destruct (lookup_same_length _ (tuple_type_desc t a) j z Hl' Hz) as [x Hx].
      destruct (lookup_same_length _ (tuple_type_desc t b) j x Hl Hx) as [y Hy].
      rewrite Hy. f_equal.
      apply (IH j x y z Hx Hy Hz).
      * exact (tuple_child_good t a j x HI Ha Hka Hx).
      * exact (tuple_child_good t b j y HI Hb Hkb Hy).
      * exact (tuple_child_good t r j z HI Hr Hkr Hz).
      * exact (Hcs j x y Hx Hy).
    + symmetry. apply lookup_ge_None. apply lookup_ge_None in Hz. lia.
  - destruct (subtype_function_l t a b HI Hka Hsub) as (_ & _ & Hrs).
    apply (inv_unique t HI r b Hr Hb); [rewrite Hkr; reflexivity|congruence|].
    rewrite (slot_desc_function t r Hs Hr Hkr), (slot_desc_function t b Hs Hb Hkb).
    f_equal; [|congruence].
    apply IH; try (apply function_range_good; assumption). exact Hrs.
Qed.

Lemma compat_tuple_inv t a b :
  Inv t → kind t a = TUPLE_TYPE → compat t a b →
  kind t b = TUPLE_TYPE
  ∧ length (tuple_type_desc t a) = length (tuple_type_desc t b)
  ∧ ∀ j x y, tuple_type_desc t a !! j = Some x →
             tuple_type_desc t b !! j = Some y → compat t x y.
Proof.
  intros HI Hk H. destruct (Inv_int_real t HI) as [Ki Kr].
  inversion H; subst; try congruence.
  - split; [exact Hk|]. split; [reflexivity|].
    intros j x y Hx Hy. rewrite Hx in Hy. injection Hy as <-. apply compat_refl.
  - auto.
Qed.

Lemma compat_function_inv t a b :
  Inv t → kind t a = FUNCTION_TYPE → compat t a b →
  kind t b = FUNCTION_TYPE
  ∧ (function_type_desc t a).2 = (function_type_desc t b).2
  ∧ compat t (function_type_range t a) (function_type_range t b).
Proof.
  intros HI Hk H. destruct (Inv_int_real t HI) as [Ki Kr].
  inversion H; subst; try congruence.
  - split; [exact Hk|]. split; [reflexivity|]. apply compat_refl.
  - auto.
Qed.

Lemma answer_sym op t a b v : answer op t a b v → answer op t b a v.
Proof.
  intros [H1 H2]. split.
  - intros E Hc. apply (H1 E), compat_sym, Hc.
  - intros E. apply lat_sym, H2, E.
Qed.

Lemma good_not_null t v : good t v → v ≠ NULL_TYPE.
Proof. intros [[H _] _]. unfold NULL_TYPE. lia. Qed.

Lemma answer_agree op t t' a b v :
  Inv t → agree t t' → good t a → good t b → (v = NULL_TYPE ∨ good t v) →
  answer op t a b v → answer op t' a b v.
Proof.
  intros HI Hag Ha Hb Hv [H1 H2]. split.
  - intros E Hc. apply (H1 E). apply (compat_agree t t' a b HI Hag Ha Hb). exact Hc.
  - intros E. destruct Hv as [?|Hv]; [contradiction|].
    apply (lat_agree op t t' a b v HI Hag Ha Hb Hv). auto.
Qed.

Lemma answer_agree_back op t t' a b v :
  Inv t → agree t t' → good t a → good t b → good t v →
  answer op t' a b v → answer op t a b v.
Proof.
  intros HI Hag Ha Hb Hv [H1 H2]. split.
  - intros E. destruct (good_not_null t v Hv E).
  - intros E. apply (lat_agree op t t' a b v HI Hag Ha Hb Hv). auto.
Qed.

Lemma cache_sem_agree t t' :
  Inv t → agree t t' → (∀ op, cache_of op t' = cache_of op t) →
  cache_sem t → cache_sem t'.
Proof.
  intros HI Hag Hc Hsem op h k0 k1 v Hh Hl. rewrite Hc in Hh.
  destruct (inv_cache t HI op h Hh k0 k1 v Hl) as (_ & G0 & G1 & Gv).
  apply (answer_agree op t t' k0 k1 v HI Hag G0 G1 Gv).
  exact (Hsem op h k0 k1 v Hh Hl).
Qed.

Lemma fresh_agree_types t t' i : fresh t t' i → agree t t'.
Proof.
  intros Hf j Hj.
  assert (Hne : j ≠ i) by (intros ->; exact (fr_new t t' i Hf Hj)).
  destruct (fr_other t t' i Hf j Hne) as (Hk & Hd & _).
  split; [|auto]. destruct Hj as [Hr Hu]. split; [|congruence].
  pose proof (fr_nelems t t' i Hf). lia.
Qed.

Lemma built_cache_sem t t' i :
  Inv t → t' = t ∨ fresh t t' i → cache_sem t → cache_sem t'.
Proof.
  intros HI [->|Hf] Hsem; [exact Hsem|].
  apply (cache_sem_agree t t' HI (fresh_agree_types t t' i Hf)); [|exact Hsem].
  intros []; simpl; [exact (fr_sup t t' i Hf)|exact (fr_inf t t' i Hf)].
Qed.

Lemma cache_sem_get_table op t : Inv t → cache_sem t → cache_sem (get_table op t).
Proof.
  intros HI Hsem. unfold get_table.
  destruct (cache_of op t) as [h|] eqn:E; [exact Hsem|].
  pose proof (get_table_same op t) as Hsame. unfold get_table in Hsame.
  rewrite E in Hsame.
  intros op' h' k0 k1 v Hh Hl.
  assert (Hcase : h' = ∅ ∨ cache_of op' t = Some h').
  { destruct op, op'; simpl in *; try (right; exact Hh);
      left; injection Hh as <-; reflexivity. }
  destruct Hcase as [->|Hh']; [rewrite lookup_empty in Hl; discriminate|].
  destruct (inv_cache t HI op' h' Hh' k0 k1 v Hl) as (_ & G0 & G1 & Gv).
  apply (answer_agree op' t _ k0 k1 v HI (same_types_agree _ _ Hsame) G0 G1 Gv).
  exact (Hsem op' h' k0 k1 v Hh' Hl).
Qed.

Lemma cache_sem_add op t k0 k1 v :
  Inv t → cache_sem t → good t k0 → good t k1 → v = NULL_TYPE ∨ good t v →
  answer op t k0 k1 v → cache_sem (int_hmap2_add op t k0 k1 v).
Proof.
  intros HI Hsem G0 G1 Gv Hans.
  pose proof (same_types_agree _ _ (int_hmap2_add_same op t k0 k1 v)) as Hag.
  intros op' h' j0 j1 w Hh Hl.
  assert (Hcase : (op' = op ∧ (j0, j1) = (k0, k1) ∧ w = v)
                  ∨ ∃ h, cache_of op' t = Some h ∧ h !! (j0, j1) = Some w).
  { unfold int_hmap2_add in Hh.
    destruct op, op'; simpl in Hh;
      try (right; exists h'; split; [exact Hh|exact Hl]);
      injection Hh as <-;
      (destruct (decide ((k0, k1) = (j0, j1))) as [E|E];
       [rewrite E, lookup_insert_eq in Hl; injection Hl as <-; left; auto
       |rewrite lookup_insert_ne in Hl by exact E; right]).
    - simpl. destruct (sup_tbl t) as [h|]; simpl in Hl;
        [eauto|rewrite lookup_empty in Hl; discriminate].
    - simpl. destruct (inf_tbl t) as [h|]; simpl in Hl;
        [eauto|rewrite lookup_empty in Hl; discriminate]. }
  destruct Hcase as [(-> & E & ->)|(h & Hh0 & Hl0)].
  - injection E as -> ->.
    exact (answer_agree op t _ k0 k1 v HI Hag G0 G1 Gv Hans).
  - destruct (inv_cache t HI op' h Hh0 j0 j1 w Hl0) as (_ & J0 & J1 & Jw).
    apply (answer_agree op' t _ j0 j1 w HI Hag J0 J1 Jw).
    exact (Hsem op' h j0 j1 w Hh0 Hl0).
Qed.

Lemma cheap_answer op t a b :
  Inv t → good t a → good t b → cheap op t a b ≠ UNKNOWN_TYPE →
  answer op t a b (cheap op t a b).
Proof.
  intros HI Ha Hb. destruct (Inv_int_real t HI) as [Ki Kr].
  unfold cheap.
  destruct (a =? b) eqn:E.
  { apply Z.eqb_eq in E. subst b. intros _. split.
    - intros E. destruct (good_not_null t a Ha E).
    - intros _. apply lat_refl. }
  apply Z.eqb_neq in E.
  destruct ((a =? int_id) && (b =? real_id) || (a =? real_id) && (b =? int_id))
    eqn:E2.
  { intros _. split.
    - destruct op; unfold real_id, int_id, NULL_TYPE; discriminate.
    - intros _. apply orb_true_iff in E2 as [E2|E2];
        apply andb_true_iff in E2 as [E3 E4];
        apply Z.eqb_eq in E3, E4; subst a b;
        [apply lat_int_real|apply lat_real_int]. }
  assert (Hnir : ¬ (a = int_id ∧ b = real_id) ∧ ¬ (a = real_id ∧ b = int_id)).
  { apply orb_false_iff in E2 as [E3 E4].
    apply andb_false_iff in E3, E4. rewrite !Z.eqb_neq in E3, E4. tauto. }
  assert (Hnull : (kind t a = TUPLE_TYPE → kind t b = TUPLE_TYPE →
                   length (tuple_type_desc t a) ≠ length (tuple_type_desc t b)) →
                  (kind t a = FUNCTION_TYPE → kind t b = FUNCTION_TYPE →
                   length (function_type_desc t a).2
                   ≠ length (function_type_desc t b).2) →
                  answer op t a b NULL_TYPE).
  { intros Ht Hf. split; [|congruence]. intros _ Hc.
    inversion Hc; subst; try tauto.
    apply Hf; [assumption|assumption|congruence]. }
  unfold tuple_type_arity, function_type_arity.
  destruct (kind t a) eqn:Hka;
    try (intros _; apply Hnull; intros; congruence).
  - destruct (negb _ || negb (_ =? _)) eqn:E3; [|congruence].
    intros _. apply Hnull; [|congruence]. intros _ Hkb Hl.
    rewrite bool_decide_eq_true_2 in E3 by exact Hkb. simpl in E3.
    apply negb_true_iff, Z.eqb_neq in E3. lia.
  - destruct (negb _ || negb (_ =? _)) eqn:E3; [|congruence].
    intros _. apply Hnull; [congruence|]. intros _ Hkb Hl.
    rewrite bool_decide_eq_true_2 in E3 by exact Hkb. simpl in E3.
    apply negb_true_iff, Z.eqb_neq in E3. lia.
Qed.

Lemma equal_type_arrays_refl a : equal_type_arrays a a = true.
Proof. induction a as [|x a IH]; [reflexivity|]. simpl. rewrite Z.eqb_refl. exact IH. Qed.

Lemma equal_type_arrays_eq a :
  ∀ b, length a = length b → equal_type_arrays a b = true → a = b.
Proof.
  induction a as [|x a IH]; intros [|y b] Hl H; try discriminate; [reflexivity|].
  simpl in H. destruct (x =? y) eqn:E; [|discriminate].
  apply Z.eqb_eq in E. subst y. f_equal. apply IH; [simpl in Hl; lia|exact H].
Qed.

Lemma lat_tuple_loop_sem op rec :
  rec_sound rec → rec_evolves rec → rec_sem op rec →
  ∀ a b t s t' res,
    Inv t → slots_ok t → cache_sem t →
    Forall (good t) a → Forall (good t) b → Forall (good t) s →
    lat_tuple_loop rec t a b s = Ok (t', res) →
    cache_sem t'
    ∧ match res with
      | None => ∃ j x y, a !! j = Some x ∧ b !! j = Some y ∧ ¬ compat t' x y
      | Some s' =>
        ∃ s2, s' = s ++ s2
          ∧ ∀ j x y z, a !! j = Some x → b !! j = Some y → s2 !! j = Some z →
              lat op t' x y z
      end.
Proof.
  intros Hrec Hev Hsem a.
  induction a as [|x a IH]; intros b t s t' res HI Hs Hc Ha Hb Hss H.
  - simpl in H. injection H as <- <-. split; [exact Hc|].
    exists []. rewrite app_nil_r. split; [reflexivity|]. intros j ? ? ? Hx. discriminate.
  - destruct b as [|y b].
    { simpl in H. injection H as <- <-. split; [exact Hc|].
      exists []. rewrite app_nil_r. split; [reflexivity|].
      intros j ? ? ? _ Hy. discriminate. }
    apply Forall_cons in Ha as [Hx Ha]. apply Forall_cons in Hb as [Hy Hb].
    cbn [lat_tuple_loop] in H.
    apply bind_Ok in H as ([t1 aux] & Hr & H). cbv beta iota in H.
    destruct (Hrec t x y t1 aux HI Hx Hy Hr) as [(HI1 & He1 & _) Haux].
    pose proof (Hev t x y t1 aux HI Hs Hx Hy Hr) as Hev1.
    destruct (Hsem t x y t1 aux HI Hs Hc Hx Hy Hr) as [Hc1 Hans].
    destruct (aux =? NULL_TYPE) eqn:E.
    + injection H as <- <-. split; [exact Hc1|].
      apply Z.eqb_eq in E. exists O, x, y.
      split; [reflexivity|]. split; [reflexivity|]. exact (proj1 Hans E).
    + apply Z.eqb_neq in E. destruct Haux as [?|Haux]; [contradiction|].
      assert (Hs1 : slots_ok t1) by (eapply evolves_slots_ok; eauto).
      assert (Ha1 : Forall (good t1) a) by (eapply extends_Forall; eauto).
      assert (Hb1 : Forall (good t1) b) by (eapply extends_Forall; eauto).
      assert (Hss1 : Forall (good t1) (s ++ [aux])).
      { apply Forall_app. split; [eapply extends_Forall; eauto|].
        constructor; [exact Haux|constructor]. }
      destruct (lat_tuple_loop_sound rec Hrec a b t1 (s ++ [aux]) t' res HI1
                  Ha1 Hb1 Hss1 H) as [(HI' & He' & _) _].
      destruct (IH b t1 (s ++ [aux]) t' res HI1 Hs1 Hc1 Ha1 Hb1 Hss1 H)
        as [Hc' Hres].
      split; [exact Hc'|].
      destruct res as [s'|].
      * destruct Hres as (s2 & -> & Hl). exists (aux :: s2).
        split; [rewrite <- app_assoc; reflexivity|].
        intros [|j] x' y' z Hx' Hy' Hz; simpl in Hx', Hy', Hz.
        -- injection Hx' as <-. injection Hy' as <-. injection Hz as <-.
           apply (lat_agree op t1 t' x y aux HI1 (extends_agree _ _ He')
                    (proj1 (He1 x Hx)) (proj1 (He1 y Hy)) Haux).
           exact (proj2 Hans E).
        -- eauto.
      * destruct Hres as (j & x' & y' & Hx' & Hy' & Hn).
        exists (S j), x', y'. auto.
Qed.

Lemma lat_tuple_types_sem op rec t a b t' r :
  rec_sound rec → rec_evolves rec → rec_sem op rec →
  Inv t → slots_ok t → cache_sem t →
  a ≠ [] → length a = length b → Forall (good t) a → Forall (good t) b →
  lat_tuple_types rec t a b = Ok (t', r) →
  cache_sem t'
  ∧ (r = NULL_TYPE →
     ∃ j x y, a !! j = Some x ∧ b !! j = Some y ∧ ¬ compat t' x y)
  ∧ (r ≠ NULL_TYPE →
     kind t' r = TUPLE_TYPE ∧ length (tuple_type_desc t' r) = length a
     ∧ ∀ j x y z, a !! j = Some x → b !! j = Some y →
         tuple_type_desc t' r !! j = Some z → lat op t' x y z).
Proof.
  intros Hrec Hev Hsem HI Hs Hc Hne Hl Ha Hb H. unfold lat_tuple_types in H.
  apply bind_Ok in H as ([t1 res] & Hloop & H). cbv beta iota in H.
  destruct (lat_tuple_loop_sem op rec Hrec Hev Hsem a b t [] t1 res HI Hs Hc Ha Hb
              (Forall_nil_2 _) Hloop) as [Hc1 Hres].
  destruct (lat_tuple_loop_sound rec Hrec a b t [] t1 res HI Ha Hb
              (Forall_nil_2 _) Hloop) as [(HI1 & He1 & _) Hgood].
  destruct res as [s|].
  - destruct Hres as (s2 & E & Hlat). simpl in E. subst s2.
    pose proof (lat_tuple_loop_length rec a b t [] t1 s Hl Hloop) as Hlen.
    simpl in Hlen.
    assert (Hsne : s ≠ []).
    { destruct s; [|discriminate]. destruct a; [congruence|simpl in Hlen; lia]. }
    destruct (tuple_type_fresh t1 s t' r HI1 Hsne Hgood H) as [HI' Hcase].
    destruct (tuple_type_spec t1 s t' r HI1 Hgood H)
      as ((_ & He' & _) & Hgr & Hkr & Hdr & _).
    split; [exact (built_cache_sem t1 t' r HI1 Hcase Hc1)|].
    split; [intros E; destruct (good_not_null t' r Hgr E)|].
    intros _. unfold tuple_type_desc. rewrite Hdr. simpl.
    split; [exact Hkr|]. split; [exact Hlen|].
    intros j x y z Hx Hy Hz.
    apply (lat_agree op t1 t' x y z HI1 (extends_agree _ _ He')).
    + apply He1. exact (proj1 (Forall_lookup _ _) Ha j x Hx).
    + apply He1. exact (proj1 (Forall_lookup _ _) Hb j y Hy).
    + exact (proj1 (Forall_lookup _ _) Hgood j z Hz).
    + exact (Hlat j x y z Hx Hy Hz).
  - injection H as <- <-. split; [exact Hc1|].
    split; [intros _; exact Hres|congruence].
Qed.

Lemma lat_fun_types_sem op rec t a tau1 tau2 t' r :
  rec_sound rec → rec_evolves rec → rec_sem op rec →
  Inv t → slots_ok t → cache_sem t →
  a ≠ [] → Forall (good t) a → good t tau1 → good t tau2 →
  lat_fun_types rec t a tau1 tau2 = Ok (t', r) →
  cache_sem t'
  ∧ (r = NULL_TYPE → ¬ compat t' tau1 tau2)
  ∧ (r ≠ NULL_TYPE →
     kind t' r = FUNCTION_TYPE ∧ (function_type_desc t' r).2 = a
     ∧ lat op t' tau1 tau2 (function_type_range t' r)).
Proof.
  intros Hrec Hev Hsem HI Hs Hc Hne Ha H1 H2 H. unfold lat_fun_types in H.
  apply bind_Ok in H as ([t1 aux] & Hr & H). cbv beta iota in H.
  destruct (Hrec t tau1 tau2 t1 aux HI H1 H2 Hr) as [(HI1 & He1 & _) Haux].
  destruct (Hsem t tau1 tau2 t1 aux HI Hs Hc H1 H2 Hr) as [Hc1 Hans].
  destruct (aux =? NULL_TYPE) eqn:E.
  - injection H as <- <-. apply Z.eqb_eq in E.
    split; [exact Hc1|]. split; [exact (proj1 Hans)|congruence].
  - apply Z.eqb_neq in E. destruct Haux as [?|Haux]; [contradiction|].
    assert (Ha1 : Forall (good t1) a) by (eapply extends_Forall; eauto).
    destruct (function_type_fresh t1 aux a t' r HI1 Hne Ha1 Haux H) as [HI' Hcase].
    destruct (function_type_spec t1 aux a t' r HI1 Ha1 Haux H)
      as ((_ & He' & _) & Hgr & Hkr & Hdr & _).
    split; [exact (built_cache_sem t1 t' r HI1 Hcase Hc1)|].
    split; [intros E'; destruct (good_not_null t' r Hgr E')|].
    intros _. unfold function_type_range, function_type_desc. rewrite Hdr. simpl.
    split; [exact Hkr|]. split; [reflexivity|].
    apply (lat_agree op t1 t' tau1 tau2 aux HI1 (extends_agree _ _ He')
             (proj1 (He1 _ H1)) (proj1 (He1 _ H2)) Haux).
    exact (proj2 Hans E).
Qed.

Lemma lat_slow_sem op rec t k0 k1 t' r :
  rec_sound rec → rec_evolves rec → rec_sem op rec →
  Inv t → slots_ok t → cache_sem t →
  good t k0 → good t k1 → k0 < k1 →
  (kind t k0 = TUPLE_TYPE ∧ kind t k1 = TUPLE_TYPE
   ∨ kind t k0 = FUNCTION_TYPE ∧ kind t k1 = FUNCTION_TYPE) →
  (kind t k0 = TUPLE_TYPE →
   length (tuple_type_desc t k0) = length (tuple_type_desc t k1)) →
  (kind t k0 = FUNCTION_TYPE →
   length (function_type_desc t k0).2 = length (function_type_desc t k1).2) →
  lat_slow op rec t k0 k1 = Ok (t', r) →
  cache_sem t' ∧ answer op t' k0 k1 r.
Proof.
  intros Hrec Hev Hsem HI Hs Hc H0 H1 Hlt Hkind Hlen Hlenf H.
  unfold lat_slow in H. cbv zeta in H.
  pose proof (get_table_same op t) as Hsame.
  pose proof (get_table_Inv op t HI) as HI1.
  pose proof (same_types_slots_ok _ _ Hsame Hs) as Hs1.
  pose proof (cache_sem_get_table op t HI Hc) as Hc1.
  assert (G0 : good (get_table op t) k0) by (apply (same_types_good _ _ _ Hsame); exact H0).
  assert (G1 : good (get_table op t) k1) by (apply (same_types_good _ _ _ Hsame); exact H1).
  destruct (slots_ok_arity _ k0 Hs1 G0) as [At Af].
  destruct Hsame as (Ek & Ed & _).
  unfold tuple_type_desc, function_type_desc in Hlen, Hlenf, At, Af.
  rewrite <- Ek in Hkind, Hlen, Hlenf. rewrite <- Ed in Hlen, Hlenf.
  set (t1 := get_table op t) in *. clearbody t1. clear Ek Ed t HI Hs Hc H0 H1.
  destruct (int_hmap2_find (cache_of op t1) k0 k1) as [v|] eqn:Hfind.
  - injection H as <- <-. split; [exact Hc1|].
    unfold int_hmap2_find in Hfind.
    destruct (cache_of op t1) as [h|] eqn:Hh; [|discriminate]. simpl in Hfind.
    exact (Hc1 op h k0 k1 v Hh Hfind).
  - apply bind_Ok in H as ([t2 aux] & Hcomp & H). cbv beta iota in H.
    injection H as <- <-.
    assert (Hcs0 := Inv_children_good t1 k0 HI1 G0).
    assert (Hcs1 := Inv_children_good t1 k1 HI1 G1).
    unfold children in Hcs0, Hcs1.
    assert (Hstep : Inv t2 ∧ extends t1 t2 ∧ (aux = NULL_TYPE ∨ good t2 aux)
                    ∧ cache_sem t2 ∧ answer op t2 k0 k1 aux).
    { destruct Hkind as [[Hk0 Hk1]|[Hk0 Hk1]].
      - rewrite Hk0, Hk1 in *.
        rewrite bool_decide_eq_true_2 in Hcomp by reflexivity.
        simpl in Hcs0, Hcs1. unfold tuple_type_desc in Hcomp.
        destruct (lat_tuple_types_sound rec t1 _ _ t2 aux Hrec HI1 Hcs0 Hcs1 Hcomp)
          as [(HI2 & He2 & _) Haux].
        destruct (lat_tuple_types_sem op rec t1 _ _ t2 aux Hrec Hev Hsem HI1 Hs1 Hc1
                    (At eq_refl) (Hlen eq_refl) Hcs0 Hcs1 Hcomp)
          as (Hc2 & Hnull & Hval).
        pose proof (extends_agree _ _ He2) as Hag.
        destruct (agree_view t1 t2 k0 Hag G0) as (K0 & T0 & _).
        destruct (agree_view t1 t2 k1 Hag G1) as (K1 & T1 & _).
        unfold tuple_type_desc in T0, T1.
        repeat (split; [assumption|]). split.
        + intros E Hcp. destruct (Hnull E) as (j & x & y & Hx & Hy & Hn).
          apply Hn.
          destruct (compat_tuple_inv t2 k0 k1 HI2 ltac:(congruence) Hcp)
            as (_ & _ & Hcomps).
          apply (Hcomps j x y); unfold tuple_type_desc; congruence.
        + intros E. destruct (Hval E) as (Hkr & Hlr & Hlat).
          apply lat_tuple; try congruence.
          * unfold tuple_type_desc. rewrite T0, T1. apply Hlen. reflexivity.
          * unfold tuple_type_desc at 2. rewrite T0. exact Hlr.
          * intros j x y z Hx Hy Hz. apply (Hlat j x y z); [| |exact Hz].
            -- unfold tuple_type_desc in Hx. congruence.
            -- unfold tuple_type_desc in Hy. congruence.
      - rewrite Hk0, Hk1 in *.
        rewrite bool_decide_eq_false_2 in Hcomp by discriminate.
        cbv zeta in Hcomp. simpl in Hcs0, Hcs1. unfold function_type_desc in Hcomp.
        apply Forall_cons in Hcs0 as [Hr0 Hd0].
        apply Forall_cons in Hcs1 as [Hr1' Hd1].
        destruct (equal_type_arrays _ _) eqn:Heq.
        + apply equal_type_arrays_eq in Heq; [|exact (Hlenf eq_refl)].
          destruct (lat_fun_types_sound rec t1 _ _ _ t2 aux Hrec HI1 Hd0 Hr0 Hr1'
                      Hcomp) as [(HI2 & He2 & _) Haux].
          destruct (lat_fun_types_sem op rec t1 _ _ _ t2 aux Hrec Hev Hsem HI1 Hs1
                      Hc1 (Af eq_refl) Hd0 Hr0 Hr1' Hcomp) as (Hc2 & Hnull & Hval).
          pose proof (extends_agree _ _ He2) as Hag.
          destruct (agree_view t1 t2 k0 Hag G0) as (K0 & _ & F0 & R0).
          destruct (agree_view t1 t2 k1 Hag G1) as (K1 & _ & F1 & R1).
          unfold function_type_range, function_type_desc in F0, F1, R0, R1.
          repeat (split; [assumption|]). split.
          * intros E Hcp. apply (Hnull E).
            destruct (compat_function_inv t2 k0 k1 HI2 ltac:(congruence) Hcp)
              as (_ & _ & Hcr).
            unfold function_type_range, function_type_desc in Hcr.
            rewrite R0, R1 in Hcr. exact Hcr.
          * intros E. destruct (Hval E) as (Hkr & Hdr & Hlat).
            apply lat_function; try congruence.
            -- unfold function_type_desc. rewrite F0, F1. exact Heq.
            -- unfold function_type_desc at 2. rewrite F0. exact Hdr.
            -- unfold function_type_range at 1 2, function_type_desc.
               rewrite R0, R1. exact Hlat.
        + injection Hcomp as <- <-.
          split; [exact HI1|]. split; [apply extends_refl|].
          split; [left; reflexivity|]. split; [exact Hc1|].
          split; [|congruence]. intros _ Hcp.
          destruct (compat_function_inv t1 k0 k1 HI1 Hk0 Hcp) as (_ & Hd & _).
          unfold function_type_desc in Hd. rewrite Hd in Heq.
          rewrite equal_type_arrays_refl in Heq. discriminate. }
    destruct Hstep as (HI2 & He2 & Haux & Hc2 & Hans).
    assert (J0 : good t2 k0) by (apply He2; exact G0).
    assert (J1 : good t2 k1) by (apply He2; exact G1).
    split.
    + exact (cache_sem_add op t2 k0 k1 aux HI2 Hc2 J0 J1 Haux Hans).
    + apply (answer_agree op t2 _ k0 k1 aux HI2
               (same_types_agree _ _ (int_hmap2_add_same op t2 k0 k1 aux))
               J0 J1 Haux Hans).
Qed.

Lemma answer_sym_cache op t a b v (P : Prop) :
  P ∧ answer op t a b v → P ∧ answer op t b a v.
Proof. intros [? ?]. split; [assumption|]. apply answer_sym. assumption. Qed.

Lemma lat_type_sem op fuel : rec_sem op (lat_type op fuel).
Proof.
  induction fuel as [|fuel IH]; intros t x y t' r HI Hs Hc Hx Hy H; [discriminate|].
  rewrite lat_type_S in H.
  destruct (cheap op t x y =? UNKNOWN_TYPE) eqn:E.
  - apply Z.eqb_eq in E.
    destruct (cheap_unknown op t x y (proj1 (proj1 Hx)) E) as [Hne Hk].
    pose proof (cheap_unknown_arity op t x y (proj1 (proj1 Hx)) E) as Har.
    assert (Hlt' : kind t x = TUPLE_TYPE →
                   length (tuple_type_desc t x) = length (tuple_type_desc t y)).
    { intros Hkx. destruct Har as [[_ Hl]|[Hkx' _]]; [auto|congruence]. }
    assert (Hlf' : kind t x = FUNCTION_TYPE →
                   length (function_type_desc t x).2
                   = length (function_type_desc t y).2).
    { intros Hkx. destruct Har as [[Hkx' _]|[_ Hl]]; [congruence|auto]. }
    destruct (y <? x) eqn:Hlt.
    + apply Z.ltb_lt in Hlt. apply answer_sym_cache.
      apply (lat_slow_sem op _ t y x t' r (lat_type_sound op fuel)
               (lat_type_evolves op fuel) IH HI Hs Hc Hy Hx Hlt); [tauto| | |exact H].
      * intros Hky. symmetry. apply Hlt'. destruct Hk as [[? ?]|[? ?]]; congruence.
      * intros Hky. symmetry. apply Hlf'. destruct Hk as [[? ?]|[? ?]]; congruence.
    + apply Z.ltb_ge in Hlt.
      apply (lat_slow_sem op _ t x y t' r (lat_type_sound op fuel)
               (lat_type_evolves op fuel) IH HI Hs Hc Hx Hy ltac:(lia) Hk);
        [exact Hlt'|exact Hlf'|exact H].
  - injection H as <- <-. split; [exact Hc|].
    apply cheap_answer; try assumption. apply Z.eqb_neq. exact E.
Qed.

Lemma cache_sem_same t t' :
  Inv t → kind t' = kind t → desc t' = desc t → nelems t' = nelems t →
  sup_tbl t' = sup_tbl t → inf_tbl t' = inf_tbl t →
  cache_sem t → cache_sem t'.
Proof.
  intros HI Ek Ed En Es Ei Hc.
  apply (cache_sem_agree t t' HI); [| |exact Hc].
  - intros i Hi. unfold good in *. rewrite Ek, Ed, En. auto.
  - intros []; simpl; assumption.
Qed.

Lemma gc_cache_sub fuel t t' :
  Inv t → type_table_gc fuel t = Ok t' →
  ∀ op h' k0 k1 v, cache_of op t' = Some h' → h' !! (k0, k1) = Some v →
    ∃ h, cache_of op t = Some h ∧ h !! (k0, k1) = Some v.
Proof.
  intros HI H. rewrite type_table_gc_phases in H.
  apply bind_Ok in H as (ts & Hmark & H). injection H as <-.
  destruct (mark_live_types_marks t fuel ts HI Hmark) as (m & -> & Hm).
  unfold gc_sweep. change (nelems (with_marks t m)) with (nelems t).
  pose proof (swept_all t m HI) as Hsw.
  set (ts := fold_left sweep_type (seqZ 0 (nelems t)) (with_marks t m)) in *.
  destruct (gc_purge_spec ts)
    as (_ & _ & _ & _ & _ & _ & _ & _ & _ & _ & _ & Pcache).
  intros op h' k0 k1 v Hh Hl.
  destruct (Pcache op h' Hh) as (h & Hh0 & Hkeep).
  exists h. split; [|exact (proj1 (Hkeep k0 k1 v Hl))].
  destruct op; simpl in *;
    [rewrite <- (sw_sup t m _ _ Hsw)|rewrite <- (sw_inf t m _ _ Hsw)]; exact Hh0.
Qed.

Lemma gc_cache_sem fuel t t' :
  Inv t → cache_sem t → type_table_gc fuel t = Ok t' → cache_sem t'.
Proof.
  intros HI Hc H.
  destruct (type_table_gc_collected fuel t t' HI H)
    as (m & _ & (_ & Hmg & _) & HI' & Hcol).
  assert (Hag : agree t' t).
  { intros j Hj. apply (col_live t m t' Hcol) in Hj.
    destruct (col_keep t m t' Hcol j (erased_marked t m j Hj)) as (Ek & Ed & _).
    split; [exact (Hmg j Hj)|]. split; congruence. }
  intros op h' k0 k1 v Hh Hl.
  destruct (col_cache t m t' Hcol op h' k0 k1 v Hh Hl) as (_ & G0 & G1 & Gv).
  destruct (gc_cache_sub fuel t t' HI H op h' k0 k1 v Hh Hl) as (h & Hh0 & Hl0).
  apply (answer_agree_back op t' t k0 k1 v HI' Hag G0 G1 Gv).
  exact (Hc op h k0 k1 v Hh0 Hl0).
Qed.

Lemma run_cache_sem c t t' r :
  Inv t → slots_ok t → cache_sem t → pre t c → run c t = Ok (t', r) →
  cache_sem t'.
Proof.
  intros HI Hs Hc Hpre H.
  destruct c as [sz|e|rg dm|k| |i nm|nm|fuel tau1 tau2|fuel tau1 tau2|i|fuel];
    simpl in Hpre, H.
  - destruct (bv_type_fresh t sz t' r HI Hpre H) as [_ Hcase].
    exact (built_cache_sem t t' r HI Hcase Hc).
  - destruct Hpre as [Hne He].
    destruct (tuple_type_fresh t e t' r HI Hne He H) as [_ Hcase].
    exact (built_cache_sem t t' r HI Hcase Hc).
  - destruct Hpre as (Hne & He & Hr).
    destruct (function_type_fresh t rg dm t' r HI Hne He Hr H) as [_ Hcase].
    exact (built_cache_sem t t' r HI Hcase Hc).
  - destruct (new_scalar_type_fresh t k t' r HI Hpre H) as [_ Hf].
    exact (built_cache_sem t t' r HI (or_intror Hf) Hc).
  - destruct (new_uninterpreted_type_fresh t t' r HI H) as [_ Hf].
    exact (built_cache_sem t t' r HI (or_intror Hf) Hc).
  - injection H as <- <-. apply (cache_sem_same t); try assumption;
      unfold set_type_name; destruct (name t i); reflexivity.
  - injection H as <- <-. apply (cache_sem_same t); try assumption; reflexivity.
  - destruct Hpre as [H1 H2].
    exact (proj1 (lat_type_sem Sup fuel t tau1 tau2 t' r HI Hs Hc H1 H2 H)).
  - destruct Hpre as [H1 H2].
    exact (proj1 (lat_type_sem Inf fuel t tau1 tau2 t' r HI Hs Hc H1 H2 H)).
  - injection H as <- <-. apply (cache_sem_same t); try assumption; reflexivity.
  - apply bind_Ok in H as (t1 & Hgc & H). injection H as <- <-.
    exact (gc_cache_sem fuel t t1 HI Hc Hgc).
Qed.

Lemma reachable_cache_sem t : reachable t → cache_sem t.
Proof.
  induction 1 as [n t Hn Hinit|t c t' r Hr IH Hpre Hrun].
  - destruct (init_type_table_initial n t ltac:(lia) Hinit)
      as (_ & (_ & _ & _ & _ & _ & _ & Hsup & Hinf) & _).
    intros [] h k0 k1 v Hh; simpl in Hh; congruence.
  - exact (run_cache_sem c t t' r (reachable_Inv t Hr) (reachable_slots_ok t Hr)
             IH Hpre Hrun).
Qed.

(** What [super_type] and [inf_type] return in a reachable table. *)
Lemma lat_type_reachable op fuel t a b t' r :
  reachable t → good t a → good t b → lat_type op fuel t a b = Ok (t', r) →
  Inv t' ∧ slots_ok t' ∧ agree t t' ∧ (r = NULL_TYPE ∨ good t' r)
  ∧ answer op t' a b r.
Proof.
  intros Hr Ha Hb H. pose proof (reachable_Inv t Hr) as HI.
  pose proof (reachable_slots_ok t Hr) as Hs.
  destruct (lat_type_sound op fuel t a b t' r HI Ha Hb H) as [(HI' & He & _) Hg].
  split; [exact HI'|]. split.
  { apply (evolves_slots_ok t t'); [|exact Hs].
    exact (lat_type_evolves op fuel t a b t' r HI Hs Ha Hb H). }
  split; [exact (extends_agree _ _ He)|]. split; [exact Hg|].
  exact (proj2 (lat_type_sem op fuel t a b t' r HI Hs (reachable_cache_sem t Hr)
                  Ha Hb H)).
Qed.

Lemma lat_null_no_bound op fuel t a b t' :
  reachable t → good t a → good t b →
  lat_type op fuel t a b = Ok (t', NULL_TYPE) →
  ∀ c, ¬ (subtype t' a c ∧ subtype t' b c) ∧ ¬ (subtype t' c a ∧ subtype t' c b).
Proof.
  intros Hr Ha Hb H.
  destruct (lat_type_reachable op fuel t a b t' NULL_TYPE Hr Ha Hb H)
    as (HI' & _ & _ & _ & [Hn _]).
  intros c. split; intros [H1 H2]; apply (Hn eq_refl).
  - exact (upper_bound_compat t' a b c HI' H1 H2).
  - exact (lower_bound_compat t' a b c HI' H1 H2).
Qed.

(** X17.  [super_type] computes the least common supertype.  For live
    types [tau1] and [tau2] of a reachable table, a result other than
    [NULL_TYPE] is a live type, a supertype of both, and a subtype of
    every common supertype.  The result is [NULL_TYPE] only when no type
    is a common supertype and no type is a common subtype. *)
Theorem super_type_least_upper_bound fuel t tau1 tau2 t' r :
  reachable t → good t tau1 → good t tau2 →
  super_type fuel t tau1 tau2 = Ok (t', r) →
  (r ≠ NULL_TYPE →
   good t' r ∧ subtype t' tau1 r ∧ subtype t' tau2 r
   ∧ ∀ c, subtype t' tau1 c → subtype t' tau2 c → subtype t' r c)
  ∧ (r = NULL_TYPE →
     ∀ c, ¬ (subtype t' tau1 c ∧ subtype t' tau2 c)
          ∧ ¬ (subtype t' c tau1 ∧ subtype t' c tau2)).
Proof.
  intros Hr H1 H2 H. split.
  - intros E.
    destruct (lat_type_reachable Sup fuel t tau1 tau2 t' r Hr H1 H2 H)
      as (HI' & _ & _ & Hg & [_ Hl]).
    destruct Hg as [?|Hg]; [contradiction|]. split; [exact Hg|].
    exact (lat_sup_bound t' tau1 tau2 r HI' (Hl E)).
  - intros ->. exact (lat_null_no_bound Sup fuel t tau1 tau2 t' Hr H1 H2 H).
Qed.

(** X18.  [inf_type] computes the greatest common subtype.  For live
    types [tau1] and [tau2] of a reachable table, a result other than
    [NULL_TYPE] is a live type, a subtype of both, and a supertype of every
    common subtype.  The result is [NULL_TYPE] only when no type is a
    common subtype and no type is a common supertype. *)
Theorem inf_type_greatest_lower_bound fuel t tau1 tau2 t' r :
  reachable t → good t tau1 → good t tau2 →
  inf_type fuel t tau1 tau2 = Ok (t', r) →
  (r ≠ NULL_TYPE →
   good t' r ∧ subtype t' r tau1 ∧ subtype t' r tau2
   ∧ ∀ c, subtype t' c tau1 → subtype t' c tau2 → subtype t' c r)
  ∧ (r = NULL_TYPE →
     ∀ c, ¬ (subtype t' tau1 c ∧ subtype t' tau2 c)
          ∧ ¬ (subtype t' c tau1 ∧ subtype t' c tau2)).
Proof.
  intros Hr H1 H2 H. split.
  - intros E.
    destruct (lat_type_reachable Inf fuel t tau1 tau2 t' r Hr H1 H2 H)
      as (HI' & _ & _ & Hg & [_ Hl]).
    destruct Hg as [?|Hg]; [contradiction|]. split; [exact Hg|].
    exact (lat_inf_bound t' tau1 tau2 r HI' (Hl E)).
  - intros ->. exact (lat_null_no_bound Inf fuel t tau1 tau2 t' Hr H1 H2 H).
Qed.

Lemma is_subtype_spec fuel t tau1 tau2 t' v :
  reachable t → good t tau1 → good t tau2 →
  is_subtype fuel t tau1 tau2 = Ok (t', v) →
  reachable t' ∧ agree t t' ∧ (v = true ↔ subtype t tau1 tau2).
Proof.
  intros Hr H1 H2 H. unfold is_subtype in H.
  apply bind_Ok in H as ([t1 aux] & Hsup & H). cbv beta iota in H.
  injection H as <- <-.
  destruct (lat_type_reachable Sup fuel t tau1 tau2 t1 aux Hr H1 H2 Hsup)
    as (HI' & Hs' & Hag & Hg & [Hn Hl]).
  split.
  { exact (reachable_step t (Super_type fuel tau1 tau2) t1 aux Hr (conj H1 H2) Hsup). }
  split; [exact Hag|].
  pose proof (subtype_agree t t1 tau1 tau2 (reachable_Inv t Hr) Hag H1 H2) as Hiff.
  rewrite Hiff, Z.eqb_eq. split.
  - intros ->.
    exact (proj1 (lat_sup_bound t1 tau1 tau2 tau2 HI'
                    (Hl (good_not_null t tau2 H2)))).
  - intros Hsub.
    assert (E : aux ≠ NULL_TYPE).
    { intros E. apply (Hn E). apply subtype_compat. exact Hsub. }
    destruct Hg as [?|Hg]; [contradiction|].
    apply (lat_sup_subtype t1 tau1 tau2 aux HI' Hs' (Hl E)); try assumption.
    + apply Hag. exact H1.
    + apply Hag. exact H2.
Qed.

(** X19.  [is_subtype] decides the subtype relation.  For live types
    [tau1] and [tau2] of a reachable table, [is_subtype] returns true
    exactly when [tau1] is a subtype of [tau2]: the two are equal, or they
    are [int] and [real], or they are tuples of the same arity whose
    components are subtypes in order, or functions with the same domain
    whose ranges are subtypes. *)
Theorem is_subtype_decides_subtype fuel t tau1 tau2 t' v :
  reachable t → good t tau1 → good t tau2 →
  is_subtype fuel t tau1 tau2 = Ok (t', v) →
  (v = true ↔ subtype t tau1 tau2).
Proof.
  intros Hr H1 H2 H.
  exact (proj2 (proj2 (is_subtype_spec fuel t tau1 tau2 t' v Hr H1 H2 H))).
Qed.

(** X20.  [compatible_types] decides whether a common supertype exists.
    For live types [tau1] and [tau2] of a reachable table the answer is
    true exactly when the table returned holds a live common supertype of
    the two; when it is false they have no common subtype either. *)
Theorem compatible_types_decides fuel t tau1 tau2 t' v :
  reachable t → good t tau1 → good t tau2 →
  compatible_types fuel t tau1 tau2 = Ok (t', v) →
  (v = true ↔ ∃ c, good t' c ∧ subtype t' tau1 c ∧ subtype t' tau2 c)
  ∧ (v = false → ∀ c, ¬ (subtype t' c tau1 ∧ subtype t' c tau2)).
Proof.
  intros Hr H1 H2 H. unfold compatible_types in H.
  apply bind_Ok in H as ([t1 aux] & Hsup & H). cbv beta iota in H.
  injection H as <- <-.
  destruct (lat_type_reachable Sup fuel t tau1 tau2 t1 aux Hr H1 H2 Hsup)
    as (HI' & Hs' & Hag & Hg & [Hn Hl]).
  rewrite negb_true_iff, negb_false_iff, Z.eqb_neq, Z.eqb_eq. split; [split|].
  - intros E. destruct Hg as [?|Hg]; [contradiction|]. exists aux.
    split; [exact Hg|].
    destruct (lat_sup_bound t1 tau1 tau2 aux HI' (Hl E)) as (? & ? & _). auto.
  - intros (c & _ & Hc1 & Hc2) E. apply (Hn E).
    exact (upper_bound_compat t1 tau1 tau2 c HI' Hc1 Hc2).
  - intros E c [Hc1 Hc2]. apply (Hn E).
    exact (lower_bound_compat t1 tau1 tau2 c HI' Hc1 Hc2).
Qed.

(** X21.  [is_subtype] is transitive.  When [is_subtype] has answered
    true for [tau1], [tau2] and then for [tau2], [tau3], it answers true
    for [tau1], [tau3] in the table that results. *)
Theorem is_subtype_transitive fuel1 fuel2 fuel3 t tau1 tau2 tau3 t1 t2 t3 v :
  reachable t → good t tau1 → good t tau2 → good t tau3 →
  is_subtype fuel1 t tau1 tau2 = Ok (t1, true) →
  is_subtype fuel2 t1 tau2 tau3 = Ok (t2, true) →
  is_subtype fuel3 t2 tau1 tau3 = Ok (t3, v) →
  v = true.
Proof.
  intros Hr H1 H2 H3 Ha Hb Hc.
  destruct (is_subtype_spec fuel1 t tau1 tau2 t1 true Hr H1 H2 Ha)
    as (Hr1 & Hag1 & Hs1).
  assert (G1 : good t1 tau1) by (apply Hag1; exact H1).
  assert (G2 : good t1 tau2) by (apply Hag1; exact H2).
  assert (G3 : good t1 tau3) by (apply Hag1; exact H3).
  destruct (is_subtype_spec fuel2 t1 tau2 tau3 t2 true Hr1 G2 G3 Hb)
    as (Hr2 & Hag2 & Hs2).
  assert (J1 : good t2 tau1) by (apply Hag2; exact G1).
  assert (J3 : good t2 tau3) by (apply Hag2; exact G3).
  destruct (is_subtype_spec fuel3 t2 tau1 tau3 t3 v Hr2 J1 J3 Hc)
    as (_ & _ & Hs3).
  apply Hs3.
  apply (subtype_agree t1 t2 tau1 tau3 (reachable_Inv t1 Hr1) Hag2 G1 G3).
  apply (subtype_trans t1 tau1 tau2 tau3 (reachable_Inv t1 Hr1)).
  - apply (subtype_agree t t1 tau1 tau2 (reachable_Inv t Hr) Hag1 H1 H2).
    apply Hs1. reflexivity.
  - apply Hs2. reflexivity.
Qed.

(** ** The maximal and minimal flags *)

Lemma is_maxtype_bit t i : is_maxtype t i = Z.testbit (flags t i) 3.
Proof. unfold is_maxtype. exact (land_bit_test (flags t i) 3 ltac:(lia)). Qed.

Lemma is_mintype_bit t i : is_mintype t i = Z.testbit (flags t i) 4.
Proof. unfold is_mintype. exact (land_bit_test (flags t i) 4 ltac:(lia)). Qed.

Lemma tuple_flags_minmax conj big :
  flags_ok conj = true →
  Z.testbit (tuple_flags conj big) 3 = Z.testbit conj 3
  ∧ Z.testbit (tuple_flags conj big) 4 = Z.testbit conj 4.
Proof.
  intros H.
  pose proof (forall_range
    (λ c, forallb (λ b, Bool.eqb (Z.testbit (tuple_flags c b) 3) (Z.testbit c 3)
                        && Bool.eqb (Z.testbit (tuple_flags c b) 4) (Z.testbit c 4))
            [true; false])
    32 ltac:(vm_compute; reflexivity) conj (flags_ok_range _ H)) as Hc.
  cbv beta in Hc. rewrite forallb_forall in Hc.
  specialize (Hc big ltac:(destruct big; simpl; tauto)).
  apply andb_true_iff in Hc as [H3 H4].
  apply eqb_prop in H3, H4. auto.
Qed.

Lemma function_flags_minmax rf cj big :
  flags_ok rf = true → flags_ok cj = true →
  Z.testbit (function_flags rf cj big) 3 = Z.testbit rf 3
  ∧ Z.testbit (function_flags rf cj big) 4 = Z.testbit rf 4.
Proof.
  intros Hr Hc.
  pose proof (forall_range2
    (λ r c, forallb (λ b,
               Bool.eqb (Z.testbit (function_flags r c b) 3) (Z.testbit r 3)
               && Bool.eqb (Z.testbit (function_flags r c b) 4) (Z.testbit r 4))
            [true; false])
    32 ltac:(vm_compute; reflexivity) rf cj
    (flags_ok_range _ Hr) (flags_ok_range _ Hc)) as H.
  cbv beta in H. rewrite forallb_forall in H.
  specialize (H big ltac:(destruct big; simpl; tauto)).
  apply andb_true_iff in H as [H3 H4].
  apply eqb_prop in H3, H4. auto.
Qed.

(** The two bits of a tuple type are the conjunction of those of its
    components; those of a function type are the bits of its range. *)
Lemma tuple_minmax_bits t i n :
  Inv t → slots_ok t → good t i → kind t i = TUPLE_TYPE → n = 3 ∨ n = 4 →
  Z.testbit (flags t i) n
  = forallb (λ x, Z.testbit (flags t x) n) (tuple_type_desc t i).
Proof.
  intros HI Hs Hi Hk Hn.
  pose proof (Inv_children_good t i HI Hi) as Hch. unfold children in Hch.
  rewrite Hk in Hch. simpl in Hch.
  specialize (Hs i Hi). unfold slot_ok in Hs. rewrite Hk in Hs.
  destruct Hs as (e & He & _ & Hcf).
  unfold tuple_type_desc. unfold tuple_type_desc in Hch. rewrite He in *.
  simpl in *.
  injection Hcf as _ Hf. unfold type_flags in Hf. rewrite Hf.
  rewrite tuple_card_flag_flags.
  pose proof (conj_flags_ok (flags t) e (good_flags_ok t e HI Hch)) as Hok.
  rewrite <- type_flags_conjunct_eq in Hok.
  destruct (tuple_flags_minmax (type_flags_conjunct t e)
              (UINT32_MAX <? type_card_product t e) Hok) as [H3 H4].
  rewrite type_flags_conjunct_eq in *.
  destruct Hn as [->| ->]; [rewrite H3|rewrite H4];
    rewrite conj_flags_bit; reflexivity.
Qed.

Lemma function_minmax_bits t i n :
  Inv t → slots_ok t → good t i → kind t i = FUNCTION_TYPE → n = 3 ∨ n = 4 →
  Z.testbit (flags t i) n = Z.testbit (flags t (function_type_range t i)) n.
Proof.
  intros HI Hs Hi Hk Hn.
  pose proof (Inv_children_good t i HI Hi) as Hch. unfold children in Hch.
  rewrite Hk in Hch. simpl in Hch.
  specialize (Hs i Hi). unfold slot_ok in Hs. rewrite Hk in Hs.
  destruct Hs as (r & e & He & _ & Hcf).
  unfold function_type_range, function_type_desc. rewrite He in *. simpl in *.
  apply Forall_cons in Hch as [Hr Hch].
  injection Hcf as _ Hf. unfold type_flags in Hf. rewrite Hf.
  pose proof (function_card_flag_flags t e r (flags t r)) as Hff.
  cbv zeta in Hff. unfold function_switch_flag, type_flags. rewrite Hff.
  destruct (function_flags_minmax (flags t r) (type_flags_conjunct t e)
              (UINT32_MAX <? fun_type_card t e r)
              (inv_flags t HI r Hr)
              (conj_flags_ok (flags t) e (good_flags_ok t e HI Hch))) as [H3 H4].
  destruct Hn as [->| ->]; assumption.
Qed.

Lemma int_real_bits t :
  Inv t → slots_ok t →
  Z.testbit (flags t int_id) 3 = false ∧ Z.testbit (flags t real_id) 4 = false.
Proof.
  intros HI Hs. destruct (inv_prims t HI) as (Hn & _ & Ki & Kr).
  assert (Gi : good t int_id).
  { unfold good, int_id. split; [lia|]. rewrite Ki. discriminate. }
  assert (Gr : good t real_id).
  { unfold good, real_id. split; [lia|]. rewrite Kr. discriminate. }
  pose proof (Hs int_id Gi) as Si. pose proof (Hs real_id Gr) as Sr.
  unfold slot_ok in Si, Sr. unfold int_id, real_id in *.
  rewrite Ki in Si. rewrite Kr in Sr. unfold type_flags in *.
  destruct Si as [_ ->]. destruct Sr as [_ ->]. split; reflexivity.
Qed.

Lemma maximal_no_supertype t i c :
  Inv t → slots_ok t → subtype t i c → good t i → good t c →
  Z.testbit (flags t i) 3 = true → c = i.
Proof.
  intros HI Hs H.
  induction H as [a| |a b Hka Hkb Hl Hc IH|a b Hka Hkb Hd Hr IH];
    intros Ha Hb Hmax.
  - reflexivity.
  - rewrite (proj1 (int_real_bits t HI Hs)) in Hmax. discriminate.
  - rewrite (tuple_minmax_bits t a 3 HI Hs Ha Hka ltac:(auto)) in Hmax.
    rewrite forallb_forall in Hmax.
    apply (inv_unique t HI b a Hb Ha); [rewrite Hkb; reflexivity|congruence|].
    rewrite (slot_desc_tuple t b Hs Hb Hkb), (slot_desc_tuple t a Hs Ha Hka).
    f_equal. apply list_eq. intros j.
    destruct (tuple_type_desc t a !! j) as [x|] eqn:Hx.
    + destruct (lookup_same_length _ (tuple_type_desc t b) j x Hl Hx) as [y Hy].
      rewrite Hy. f_equal.
      apply (IH j x y Hx Hy).
      * exact (tuple_child_good t a j x HI Ha Hka Hx).
      * exact (tuple_child_good t b j y HI Hb Hkb Hy).
      * apply Hmax. apply list_elem_of_In. exact (list_elem_of_lookup_2 _ j x Hx).
    + apply lookup_ge_None. apply lookup_ge_None in Hx. lia.
  - rewrite (function_minmax_bits t a 3 HI Hs Ha Hka ltac:(auto)) in Hmax.
    apply (inv_unique t HI b a Hb Ha); [rewrite Hkb; reflexivity|congruence|].
    rewrite (slot_desc_function t b Hs Hb Hkb), (slot_desc_function t a Hs Ha Hka).
    f_equal; [|congruence].
    apply IH; try (apply function_range_good; assumption). exact Hmax.
Qed.

Lemma minimal_no_subtype t i c :
  Inv t → slots_ok t → subtype t c i → good t c → good t i →
  Z.testbit (flags t i) 4 = true → c = i.
Proof.
  intros HI Hs H.
  induction H as [a| |a b Hka Hkb Hl Hc IH|a b Hka Hkb Hd Hr IH];
    intros Ha Hb Hmin.
  - reflexivity.
  - rewrite (proj2 (int_real_bits t HI Hs)) in Hmin. discriminate.
  - rewrite (tuple_minmax_bits t b 4 HI Hs Hb Hkb ltac:(auto)) in Hmin.
    rewrite forallb_forall in Hmin.
    apply (inv_unique t HI a b Ha Hb); [rewrite Hka; reflexivity|congruence|].
    rewrite (slot_desc_tuple t b Hs Hb Hkb), (slot_desc_tuple t a Hs Ha Hka).
    f_equal. apply list_eq. intros j.
    destruct (tuple_type_desc t a !! j) as [x|] eqn:Hx.
    + destruct (lookup_same_length _ (tuple_type_desc t b) j x Hl Hx) as [y Hy].
      rewrite Hy. f_equal.
      apply (IH j x y Hx Hy).
      * exact (tuple_child_good t a j x HI Ha Hka Hx).
      * exact (tuple_child_good t b j y HI Hb Hkb Hy).
      * apply Hmin. apply list_elem_of_In. exact (list_elem_of_lookup_2 _ j y Hy).
    + symmetry. apply lookup_ge_None. apply lookup_ge_None in Hx. lia.
  - rewrite (function_minmax_bits t b 4 HI Hs Hb Hkb ltac:(auto)) in Hmin.
    apply (inv_unique t HI a b Ha Hb); [rewrite Hka; reflexivity|congruence|].
    rewrite (slot_desc_function t b Hs Hb Hkb), (slot_desc_function t a Hs Ha Hka).
    f_equal; [|congruence].
    apply IH; try (apply function_range_good; assumption). exact Hmin.
Qed.

(** X22.  The maximal and minimal flags are sound for the subtype
    relation.  In a reachable table, a live type whose flags have the
    maximal bit has no live supertype other than itself, and a live type
    whose flags have the minimal bit has no live subtype other than
    itself. *)
Theorem maximal_minimal_flags_sound t i c :
  reachable t → good t i → good t c →
  (is_maxtype t i = true → subtype t i c → c = i)
  ∧ (is_mintype t i = true → subtype t c i → c = i).
Proof.
  intros Hr Hi Hc. pose proof (reachable_Inv t Hr) as HI.
  pose proof (reachable_slots_ok t Hr) as Hs.
  rewrite is_maxtype_bit, is_mintype_bit. split; intros Hb Hsub.
  - exact (maximal_no_supertype t i c HI Hs Hsub Hi Hc Hb).
  - exact (minimal_no_subtype t i c HI Hs Hsub Hc Hi Hb).
Qed.

(** ** Laws of the lattice operations *)

(** The common subtype of a type and one of its supertypes is the type. *)
Lemma lat_inf_subtype t a b r :
  Inv t → slots_ok t → lat Inf t a b r →
  good t a → good t b → good t r → subtype t a b → r = a.
Proof.
  intros HI Hs H. destruct (Inv_int_real t HI) as [Ki Kr].
  induction H as [a| | |a b r Hka Hkb Hkr Hl Hl' Hc IH
                   |a b r Hka Hkb Hkr Hd Hd' Hrg IH]; intros Ha Hb Hr Hsub.
  - reflexivity.
  - reflexivity.
  - inversion Hsub; subst; try congruence; unfold real_id, int_id in *; lia.
  - destruct (subtype_tuple_l t a b HI Hka Hsub) as (_ & _ & Hcs).
    apply (inv_unique t HI r a Hr Ha); [rewrite Hkr; reflexivity|congruence|].
    rewrite (slot_desc_tuple t r Hs Hr Hkr), (slot_desc_tuple t a Hs Ha Hka).
    f_equal. apply list_eq. intros j.
    destruct (tuple_type_desc t r !! j) as [z|] eqn:Hz.
    + destruct (lookup_same_length _ (tuple_type_desc t a) j z Hl' Hz) as [x Hx].
      destruct (lookup_same_length _ (tuple_type_desc t b) j x Hl Hx) as [y Hy].
      rewrite Hx. f_equal.
      apply (IH j x y z Hx Hy Hz).
      * exact (tuple_child_good t a j x HI Ha Hka Hx).
      * exact (tuple_child_good t b j y HI Hb Hkb Hy).
      * exact (tuple_child_good t r j z HI Hr Hkr Hz).
      * exact (Hcs j x y Hx Hy).
    + symmetry. apply lookup_ge_None. apply lookup_ge_None in Hz. lia.
  - destruct (subtype_function_l t a b HI Hka Hsub) as (_ & _ & Hrs).
    apply (inv_unique t HI r a Hr Ha); [rewrite Hkr; reflexivity|congruence|].
    rewrite (slot_desc_function t r Hs Hr Hkr), (slot_desc_function t a Hs Ha Hka).
    f_equal; [|congruence].
    apply IH; try (apply function_range_good; assumption). exact Hrs.
Qed.

(** The engine on a type and one of its supertypes. *)
Lemma lat_type_subtype op fuel t a b t' r :
  reachable t → good t a → good t b → subtype t a b →
  lat_type op fuel t a b = Ok (t', r) →
  r = match op with Sup => b | Inf => a end.
Proof.
  intros Hr Ha Hb Hsub H.
  destruct (lat_type_reachable op fuel t a b t' r Hr Ha Hb H)
    as (HI' & Hs' & Hag & Hg & [Hn Hl]).
  apply (subtype_agree t t' a b (reachable_Inv t Hr) Hag Ha Hb) in Hsub.
  assert (E : r ≠ NULL_TYPE).
  { intros E. apply (Hn E). apply subtype_compat. exact Hsub. }
  destruct Hg as [?|Hg]; [contradiction|].
  assert (Ga : good t' a) by (apply Hag; exact Ha).
  assert (Gb : good t' b) by (apply Hag; exact Hb).
  destruct op.
  - exact (lat_sup_subtype t' a b r HI' Hs' (Hl E) Ga Gb Hg Hsub).
  - exact (lat_inf_subtype t' a b r HI' Hs' (Hl E) Ga Gb Hg Hsub).
Qed.

(** X26.  [is_subtype] is reflexive and antisymmetric.  On a live type
    and itself [is_subtype] answers true and leaves the table as it is; and
    when it has answered true for [tau1], [tau2] and then for [tau2],
    [tau1], the two types are the same. *)
Theorem is_subtype_reflexive_antisymmetric fuel t tau1 tau2 t1 fuel' t2 :
  reachable t → good t tau1 → good t tau2 →
  is_subtype (S fuel) t tau1 tau1 = Ok (t, true)
  ∧ (is_subtype fuel t tau1 tau2 = Ok (t1, true) →
     is_subtype fuel' t1 tau2 tau1 = Ok (t2, true) → tau1 = tau2).
Proof.
  intros Hr H1 H2. split.
  - unfold is_subtype, super_type. rewrite lat_type_S.
    assert (Hc : cheap Sup t tau1 tau1 = tau1).
    { unfold cheap. rewrite Z.eqb_refl. reflexivity. }
    rewrite Hc.
    destruct (tau1 =? UNKNOWN_TYPE) eqn:E.
    { apply Z.eqb_eq in E. destruct H1 as [[H0 _] _]. unfold UNKNOWN_TYPE in E. lia. }
    rewrite bind_Ok_l. cbv beta iota. rewrite Z.eqb_refl. reflexivity.
  - intros Ha Hb.
    destruct (is_subtype_spec fuel t tau1 tau2 t1 true Hr H1 H2 Ha)
      as (Hr1 & Hag1 & Hs1).
    assert (G1 : good t1 tau1) by (apply Hag1; exact H1).
    assert (G2 : good t1 tau2) by (apply Hag1; exact H2).
    pose proof (proj1 Hs1 eq_refl) as Hsub.
    apply (subtype_agree t t1 tau1 tau2 (reachable_Inv t Hr) Hag1 H1 H2) in Hsub.
    unfold is_subtype in Hb.
    apply bind_Ok in Hb as ([t3 aux] & Hsup & Hb). cbv beta iota in Hb.
    injection Hb as <- Hb. apply Z.eqb_eq in Hb. subst aux.
    unfold super_type in Hsup. rewrite lat_type_sym in Hsup.
    exact (lat_type_subtype Sup fuel' t1 tau1 tau2 t3 tau1 Hr1 G1 G2 Hsub Hsup).
Qed.

(** X27.  Absorption.  When [super_type] has returned a type [r] for
    [tau1] and [tau2], every later [super_type] of [tau1] and [r] returns
    [r] and every later [inf_type] of [tau1] and [r] returns [tau1]; when
    [inf_type] has returned [r], every later [inf_type] of [tau1] and [r]
    returns [r] and every later [super_type] of [tau1] and [r] returns
    [tau1]. *)
Theorem lattice_absorption fuel t tau1 tau2 t1 r :
  reachable t → good t tau1 → good t tau2 → r ≠ NULL_TYPE →
  (super_type fuel t tau1 tau2 = Ok (t1, r) →
   (∀ fuel' t2 r', super_type fuel' t1 tau1 r = Ok (t2, r') → r' = r)
   ∧ (∀ fuel' t2 r', inf_type fuel' t1 tau1 r = Ok (t2, r') → r' = tau1))
  ∧ (inf_type fuel t tau1 tau2 = Ok (t1, r) →
     (∀ fuel' t2 r', inf_type fuel' t1 tau1 r = Ok (t2, r') → r' = r)
     ∧ (∀ fuel' t2 r', super_type fuel' t1 tau1 r = Ok (t2, r') → r' = tau1)).
Proof.
  intros Hr H1 H2 E. split; intros H.
  - destruct (lat_type_reachable Sup fuel t tau1 tau2 t1 r Hr H1 H2 H)
      as (HI1 & Hs1 & Hag & Hg & [_ Hl]).
    destruct Hg as [?|Hg]; [contradiction|].
    assert (Hr1 : reachable t1).
    { exact (reachable_step t (Super_type fuel tau1 tau2) t1 r Hr (conj H1 H2) H). }
    assert (G1 : good t1 tau1) by (apply Hag; exact H1).
    pose proof (proj1 (lat_sup_bound t1 tau1 tau2 r HI1 (Hl E))) as Hsub.
    split; intros fuel' t2 r' H'.
    + exact (lat_type_subtype Sup fuel' t1 tau1 r t2 r' Hr1 G1 Hg Hsub H').
    + exact (lat_type_subtype Inf fuel' t1 tau1 r t2 r' Hr1 G1 Hg Hsub H').
  - destruct (lat_type_reachable Inf fuel t tau1 tau2 t1 r Hr H1 H2 H)
      as (HI1 & Hs1 & Hag & Hg & [_ Hl]).
    destruct Hg as [?|Hg]; [contradiction|].
    assert (Hr1 : reachable t1).
    { exact (reachable_step t (Inf_type fuel tau1 tau2) t1 r Hr (conj H1 H2) H). }
    assert (G1 : good t1 tau1) by (apply Hag; exact H1).
    pose proof (proj1 (lat_inf_bound t1 tau1 tau2 r HI1 (Hl E))) as Hsub.
    split; intros fuel' t2 r' H'.
    + unfold inf_type in H'. rewrite lat_type_sym in H'.
      exact (lat_type_subtype Inf fuel' t1 r tau1 t2 r' Hr1 Hg G1 Hsub H').
    + unfold super_type in H'. rewrite lat_type_sym in H'.
      exact (lat_type_subtype Sup fuel' t1 r tau1 t2 r' Hr1 Hg G1 Hsub H').
Qed.

(** ** The index allocator *)

Lemma it_chain_unique next :
  ∀ l f l', it_chain next f l → it_chain next f l' → l = l'.
Proof.
  induction l as [|x l IH]; intros f [|y l'] H H'; simpl in *.
  - reflexivity.
  - lia.
  - lia.
  - destruct H as (-> & _ & H). destruct H' as (<- & _ & H'). f_equal. eauto.
Qed.

Lemma it_chain_frame next f l i v :
  i ∉ l → it_chain next f l → it_chain (<[i := v]> next) f l.
Proof.
  revert f. induction l as [|x l IH]; intros f Hi H; simpl in *; [exact H|].
  destruct H as (-> & H0 & H). apply not_elem_of_cons in Hi as [Hne Hi].
  split; [reflexivity|]. split; [exact H0|].
  rewrite fn_lookup_insert_ne by congruence. apply IH; assumption.
Qed.

Lemma it_live_iff {C} (t : indexed_table C) l i :
  it_wf t l → it_live t i ↔ 0 ≤ i < it_nelems t ∧ i ∉ l.
Proof.
  intros Hw. unfold it_live. split; intros [Hr Hl]; (split; [exact Hr|]).
  - apply Hl. exact (itw_chain t l Hw).
  - intros l' Hc. rewrite (it_chain_unique _ l' _ l Hc (itw_chain t l Hw)). exact Hl.
Qed.

Lemma check_nelems_Ok n : n ≤ MAX_ELEMS → check_nelems n = Ok tt.
Proof.
  intros H. unfold check_nelems.
  destruct (MAX_ELEMS <? n) eqn:E; [apply Z.ltb_lt in E; lia|reflexivity].
Qed.

Lemma check_nelems_OutOfMemory n : MAX_ELEMS < n → check_nelems n = OutOfMemory.
Proof.
  intros H. unfold check_nelems.
  destruct (MAX_ELEMS <? n) eqn:E; [reflexivity|apply Z.ltb_ge in E; lia].
Qed.

Lemma extend_size {C} (t : indexed_table C) :
  0 ≤ it_size t ≤ MAX_ELEMS →
  wrap32 (wrap32 (it_size t + 1) + Z.shiftr (wrap32 (it_size t + 1)) 1)
  = it_extended_size t.
Proof.
  intros Hs. unfold MAX_ELEMS in Hs. unfold it_extended_size.
  assert (H31 : (2:Z) ^ 31 = 2147483648) by reflexivity.
  assert (H32 : (2:Z) ^ 32 = 4294967296) by reflexivity.
  rewrite (wrap32_small (it_size t + 1)) by lia.
  rewrite Z.shiftr_div_pow2 by lia. change (2 ^ 1) with 2.
  pose proof (Z_div_mod_eq_full (it_size t + 1) 2).
  pose proof (Z.mod_pos_bound (it_size t + 1) 2 ltac:(lia)).
  apply wrap32_small. lia.
Qed.

Lemma range_nodup_length (l : list Z) n :
  0 ≤ n → NoDup l → (∀ x, x ∈ l → 0 ≤ x < n) → Z.of_nat (length l) ≤ n.
Proof.
  intros Hn Hnd Hr.
  assert (Hsub : l ⊆+ seqZ 0 n).
  { apply NoDup_submseteq; [exact Hnd|].
    intros x Hx. apply elem_of_seqZ. pose proof (Hr x Hx). lia. }
  apply submseteq_length in Hsub. rewrite length_seqZ in Hsub. lia.
Qed.

Lemma to_index_small x : 0 ≤ x < 2 ^ 31 → to_index x = x.
Proof.
  intros H. unfold to_index.
  destruct (x <? 2 ^ 31) eqn:E; [reflexivity|apply Z.ltb_ge in E; lia].
Qed.

Lemma wrap32_to_index x : 0 ≤ x < 2 ^ 32 → wrap32 (to_index x) = x.
Proof.
  intros H. unfold to_index. destruct (x <? 2 ^ 31); [apply wrap32_small, H|].
  unfold wrap32. replace (x - 2 ^ 32) with (x + (-1) * 2 ^ 32) by lia.
  rewrite Z.mod_add by lia. apply Z.mod_small, H.
Qed.

(** What [indexed_table_alloc] does, by the state of the free list and of
    the array. *)
Lemma indexed_table_alloc_cases {C} (hook : indexed_table C → C) t l :
  it_wf t l →
  match l with
  | x :: l' =>
    it_free_idx t = x
    ∧ ∃ t', indexed_table_alloc hook t = Ok (t', x) ∧ it_wf t' l'
            ∧ it_nelems t' = it_nelems t ∧ it_size t' = it_size t
            ∧ it_live_elems t' = it_live_elems t + 1
  | [] =>
    it_free_idx t < 0
    ∧ if it_nelems t <? it_size t then
        ∃ t', indexed_table_alloc hook t = Ok (t', it_nelems t) ∧ it_wf t' []
              ∧ it_nelems t' = it_nelems t + 1 ∧ it_size t' = it_size t
              ∧ it_live_elems t' = it_live_elems t + 1
      else if MAX_ELEMS <? it_extended_size t then
        indexed_table_alloc hook t = OutOfMemory
      else
        ∃ t', indexed_table_alloc hook t = Ok (t', it_nelems t) ∧ it_wf t' []
              ∧ it_nelems t' = it_nelems t + 1
              ∧ it_size t' = it_extended_size t
              ∧ it_live_elems t' = it_live_elems t + 1
  end.
Proof.
  intros [[[Hn0 Hns] Hsm] Hch Hnd Hrg Hct].
  pose proof max_types_bound as Hmax. unfold MAX_ELEMS in *.
  assert (H31 : (2:Z) ^ 31 = 2147483648) by reflexivity.
  assert (H32 : (2:Z) ^ 32 = 4294967296) by reflexivity.
  pose proof (range_nodup_length l (it_nelems t) Hn0 Hnd Hrg) as Hlen.
  assert (Hlive : wrap32 (it_live_elems t + 1) = it_live_elems t + 1).
  { apply wrap32_small. lia. }
  destruct l as [|x l'].
  - simpl in Hch. split; [exact Hch|].
    unfold indexed_table_alloc. cbv zeta.
    destruct (0 <=? it_free_idx t) eqn:E; [apply Z.leb_le in E; lia|].
    rewrite wrap32_to_index by lia.
    rewrite (wrap32_small (it_nelems t + 1)) by lia.
    cbn [it_size it_nelems it_next it_client it_free_idx it_live_elems].
    destruct (it_nelems t <? it_size t) eqn:E1.
    + apply Z.ltb_lt in E1.
      destruct (it_nelems t =? it_size t) eqn:E2; [apply Z.eqb_eq in E2; lia|].
      rewrite to_index_small by lia. repeat (rewrite bind_Ok_l; cbv beta iota).
      cbn [it_size it_nelems it_next it_client it_free_idx it_live_elems].
      rewrite Hlive. eexists. split; [reflexivity|].
      cbn [it_size it_nelems it_next it_client it_free_idx it_live_elems].
      split; [|auto].
      simpl in Hct.
      constructor;
        cbn [it_size it_nelems it_next it_client it_free_idx it_live_elems];
        simpl;
        first [lia|assumption|unfold MAX_ELEMS; lia
              |intros ? Hx; inversion Hx|constructor].
    + apply Z.ltb_ge in E1. assert (E2 : it_nelems t = it_size t) by lia.
      rewrite E2, Z.eqb_refl. unfold extend. cbv zeta.
      cbn [it_size it_nelems it_next it_client it_free_idx it_live_elems].
      rewrite (extend_size t) by (unfold MAX_ELEMS; lia).
      destruct (YICES_MAX_TYPES <? it_extended_size t) eqn:E3.
      * apply Z.ltb_lt in E3.
        rewrite check_nelems_OutOfMemory by (unfold MAX_ELEMS; exact E3).
        reflexivity.
      * apply Z.ltb_ge in E3.
        rewrite check_nelems_Ok by (unfold MAX_ELEMS; exact E3).
        assert (Hext : it_size t + 1 ≤ it_extended_size t).
        { unfold it_extended_size.
          pose proof (Z.div_pos (it_size t + 1) 2 ltac:(lia) ltac:(lia)). lia. }
        repeat (rewrite bind_Ok_l; cbv beta iota).
        cbn [it_size it_nelems it_next it_client it_free_idx it_live_elems].
        rewrite Hlive, to_index_small by lia.
        eexists. split; [reflexivity|].
        cbn [it_size it_nelems it_next it_client it_free_idx it_live_elems].
        split; [|auto].
        simpl in Hct.
        constructor;
          cbn [it_size it_nelems it_next it_client it_free_idx it_live_elems];
          simpl;
          first [lia|assumption|unfold MAX_ELEMS; lia
                |intros ? Hx; inversion Hx|constructor].
  - simpl in Hch. destruct Hch as (Hf & Hx0 & Hch). split; [exact Hf|].
    unfold indexed_table_alloc. cbv zeta. rewrite Hf.
    destruct (0 <=? x) eqn:E; [|apply Z.leb_gt in E; lia].
    repeat (rewrite bind_Ok_l; cbv beta iota).
    cbn [it_size it_nelems it_next it_client it_free_idx it_live_elems].
    rewrite Hlive. eexists. split; [reflexivity|].
    cbn [it_size it_nelems it_next it_client it_free_idx it_live_elems].
    split; [|auto].
    apply NoDup_cons in Hnd as [Hxl Hnd]. simpl in Hct.
    constructor;
      cbn [it_size it_nelems it_next it_client it_free_idx it_live_elems];
      first [assumption|unfold MAX_ELEMS; lia
            |intros y Hy; apply Hrg; right; exact Hy].
Qed.

Lemma indexed_table_free_wf {C} (t : indexed_table C) l i :
  it_wf t l → it_live t i →
  it_wf (indexed_table_free t i) (i :: l)
  ∧ it_live_elems (indexed_table_free t i) = it_live_elems t - 1.
Proof.
  intros Hw Hlive. apply (it_live_iff t l i Hw) in Hlive as [Hr Hil].
  destruct Hw as [[[Hn0 Hns] Hsm] Hch Hnd Hrg Hct].
  pose proof max_types_bound as Hmax. unfold MAX_ELEMS in *.
  assert (H31 : (2:Z) ^ 31 = 2147483648) by reflexivity.
  assert (H32 : (2:Z) ^ 32 = 4294967296) by reflexivity.
  assert (Hnd' : NoDup (i :: l)) by (apply NoDup_cons; auto).
  assert (Hrg' : ∀ x, x ∈ i :: l → 0 ≤ x < it_nelems t).
  { intros x Hx. apply elem_of_cons in Hx as [->|Hx]; auto. }
  pose proof (range_nodup_length (i :: l) (it_nelems t) Hn0 Hnd' Hrg') as Hlen.
  simpl length in Hlen.
  assert (Hl : wrap32 (it_live_elems t - 1) = it_live_elems t - 1).
  { apply wrap32_small. lia. }
  unfold indexed_table_free. split; [|exact Hl].
  constructor; cbn [it_size it_nelems it_next it_client it_free_idx it_live_elems];
    first [assumption|unfold MAX_ELEMS; lia|idtac].
  - simpl. split; [reflexivity|]. split; [lia|].
    rewrite fn_lookup_insert. apply it_chain_frame; assumption.
  - rewrite Hl. simpl length. lia.
Qed.

Lemma it_reachable_wf {C} (hook : indexed_table C → C) t :
  it_reachable hook t → ∃ l, it_wf t l.
Proof.
  induction 1 as [elems client n t Hn Hinit|t t' i Hr [l Hw] Ha
                  |t i Hr [l Hw] Hl|t Hr [l Hw]].
  - unfold indexed_table_init in Hinit.
    apply bind_Ok in Hinit as ([] & Hc & Hinit). injection Hinit as <-.
    unfold check_nelems in Hc.
    destruct (MAX_ELEMS <? n) eqn:E; [discriminate|]. apply Z.ltb_ge in E.
    exists []. constructor; simpl;
      first [lia|unfold MAX_ELEMS; lia|intros ? Hx; inversion Hx|constructor].
  - pose proof (indexed_table_alloc_cases hook t l Hw) as Hc.
    destruct l as [|x l'].
    + destruct Hc as [_ Hc].
      destruct (it_nelems t <? it_size t).
      * destruct Hc as (t1 & E & Hw1 & _). rewrite E in Ha. injection Ha as <- <-.
        eauto.
      * destruct (MAX_ELEMS <? it_extended_size t); [congruence|].
        destruct Hc as (t1 & E & Hw1 & _). rewrite E in Ha. injection Ha as <- <-.
        eauto.
    + destruct Hc as (_ & t1 & E & Hw1 & _). rewrite E in Ha. injection Ha as <- <-.
      eauto.
  - exists (i :: l). exact (proj1 (indexed_table_free_wf t l i Hw Hl)).
  - exists []. destruct Hw as [[[Hn0 Hns] Hsm] _ _ _ _].
    constructor; simpl;
      first [lia|unfold MAX_ELEMS; lia|intros ? Hx; inversion Hx|constructor].
Qed.

Lemma indexed_table_alloc_Ok {C} (hook : indexed_table C → C) t l t' i :
  it_wf t l → indexed_table_alloc hook t = Ok (t', i) →
  it_live_elems t' = it_live_elems t + 1
  ∧ ((l = [] ∧ it_wf t' [] ∧ it_free_idx t < 0 ∧ i = it_nelems t
      ∧ it_nelems t' = it_nelems t + 1
      ∧ it_size t' = (if it_nelems t <? it_size t then it_size t
                      else it_extended_size t))
     ∨ (∃ l', l = i :: l' ∧ it_wf t' l' ∧ it_free_idx t = i
              ∧ it_nelems t' = it_nelems t ∧ it_size t' = it_size t)).
Proof.
  intros Hw Ha. pose proof (indexed_table_alloc_cases hook t l Hw) as Hc.
  destruct l as [|x l'].
  - destruct Hc as [Hf Hc]. destruct (it_nelems t <? it_size t).
    + destruct Hc as (t1 & E & Hw1 & Hn & Hs & Hl). rewrite E in Ha.
      injection Ha as <- <-. split; [exact Hl|]. left. auto 10.
    + destruct (MAX_ELEMS <? it_extended_size t); [congruence|].
      destruct Hc as (t1 & E & Hw1 & Hn & Hs & Hl). rewrite E in Ha.
      injection Ha as <- <-. split; [exact Hl|]. left. auto 10.
  - destruct Hc as (Hf & t1 & E & Hw1 & Hn & Hs & Hl). rewrite E in Ha.
    injection Ha as <- <-. split; [exact Hl|]. right. exists l'. auto 10.
Qed.

(** X23.  What [indexed_table_alloc] returns.  In a table obtained from
    [indexed_table_init] by allocating, freeing allocated slots and
    clearing, the call runs out of memory exactly when the free list is
    empty, the array is full and the size [extend] asks for exceeds
    [MAX_ELEMS].  Otherwise it returns a slot that was not allocated and now
    is, leaves every other slot as it was, and adds one to [live_elems]; the
    slot is the head of the free list if there is one, and else the slot
    [nelems], the array growing only when it is full. *)
Theorem indexed_table_alloc_outcome {C} (hook : indexed_table C → C) t :
  it_reachable hook t →
  (indexed_table_alloc hook t = OutOfMemory
   ↔ it_free_idx t < 0 ∧ it_nelems t = it_size t
     ∧ MAX_ELEMS < it_extended_size t)
  ∧ ∀ t' i, indexed_table_alloc hook t = Ok (t', i) →
      ¬ it_live t i ∧ it_live t' i
      ∧ (∀ j, j ≠ i → (it_live t' j ↔ it_live t j))
      ∧ it_live_elems t' = it_live_elems t + 1
      ∧ (if 0 <=? it_free_idx t then
           i = it_free_idx t ∧ it_nelems t' = it_nelems t
           ∧ it_size t' = it_size t
         else
           i = it_nelems t ∧ it_nelems t' = it_nelems t + 1
           ∧ it_size t' = (if it_nelems t <? it_size t then it_size t
                           else it_extended_size t)).
Proof.
  intros Hr. destruct (it_reachable_wf hook t Hr) as [l Hw]. split.
  - pose proof (indexed_table_alloc_cases hook t l Hw) as Hc.
    destruct (itw_size t l Hw) as [[_ Hns] _].
    destruct l as [|x l'].
    + destruct Hc as [Hf Hc].
      destruct (it_nelems t <? it_size t) eqn:E1.
      * apply Z.ltb_lt in E1. destruct Hc as (t1 & -> & _).
        split; [discriminate|]. lia.
      * apply Z.ltb_ge in E1.
        destruct (MAX_ELEMS <? it_extended_size t) eqn:E2.
        -- apply Z.ltb_lt in E2. rewrite Hc. split; [|reflexivity].
           intros _. split; [exact Hf|]. split; [lia|exact E2].
        -- apply Z.ltb_ge in E2. destruct Hc as (t1 & -> & _).
           split; [discriminate|]. lia.
    + destruct Hc as (Hf & t1 & -> & _). split; [discriminate|].
      pose proof (itw_chain t _ Hw) as Hch. simpl in Hch. lia.
  - intros t' i Ha.
    destruct (indexed_table_alloc_Ok hook t l t' i Hw Ha) as [Hl Hcase].
    destruct Hcase as [(-> & Hw' & Hf & -> & Hn & Hs)|(l' & -> & Hw' & Hf & Hn & Hs)].
    + rewrite (it_live_iff t [] _ Hw), (it_live_iff t' [] _ Hw'), Hn.
      destruct (itw_size t [] Hw) as [[Hn0 _] _].
      split; [lia|]. split; [split; [lia|apply not_elem_of_nil]|].
      split.
      { intros j Hj. rewrite (it_live_iff t [] _ Hw), (it_live_iff t' [] _ Hw'), Hn.
        split; intros [? ?]; (split; [lia|assumption]). }
      split; [exact Hl|].
      destruct (0 <=? it_free_idx t) eqn:E; [apply Z.leb_le in E; lia|]. auto.
    + pose proof (itw_nodup t _ Hw) as Hnd. apply NoDup_cons in Hnd as [Hil Hnd].
      pose proof (itw_range t _ Hw i ltac:(left)) as Hri.
      rewrite (it_live_iff t (i :: l') _ Hw), (it_live_iff t' l' _ Hw'), Hn.
      split; [intros [_ Hni]; apply Hni; left|].
      split; [auto|]. split.
      { intros j Hj.
        rewrite (it_live_iff t (i :: l') _ Hw), (it_live_iff t' l' _ Hw'), Hn.
        rewrite not_elem_of_cons. tauto. }
      split; [exact Hl|].
      destruct (0 <=? it_free_idx t) eqn:E; [auto|apply Z.leb_gt in E; lia].
Qed.

(** X24.  A freed slot is the next one allocated.  When an allocated
    slot [i] is freed, it is no longer allocated, and the next
    [indexed_table_alloc] returns [i] again, with the counters, the head of
    the free list and the allocated slots as they were before the slot was
    freed: the free list is a stack. *)
Theorem indexed_table_free_alloc {C} (hook : indexed_table C → C) t i :
  it_reachable hook t → it_live t i →
  ¬ it_live (indexed_table_free t i) i
  ∧ (∀ j, j ≠ i → (it_live (indexed_table_free t i) j ↔ it_live t j))
  ∧ it_live_elems (indexed_table_free t i) = it_live_elems t - 1
  ∧ ∃ t', indexed_table_alloc hook (indexed_table_free t i) = Ok (t', i)
          ∧ it_nelems t' = it_nelems t ∧ it_size t' = it_size t
          ∧ it_free_idx t' = it_free_idx t
          ∧ it_live_elems t' = it_live_elems t
          ∧ it_client t' = it_client t
          ∧ ∀ j, it_live t' j ↔ it_live t j.
Proof.
  intros Hr Hlive. destruct (it_reachable_wf hook t Hr) as [l Hw].
  destruct (indexed_table_free_wf t l i Hw Hlive) as [Hwf Hcount].
  pose proof (proj1 (it_live_iff t l i Hw) Hlive) as [Hri Hil].
  split.
  { rewrite (it_live_iff _ (i :: l) i Hwf). intros [_ Hn]. apply Hn. left. }
  split.
  { intros j Hj. rewrite (it_live_iff _ (i :: l) j Hwf), (it_live_iff t l j Hw).
    rewrite not_elem_of_cons. simpl. tauto. }
  split; [exact Hcount|].
  pose proof (indexed_table_alloc_cases hook _ (i :: l) Hwf) as Hc.
  destruct Hc as (_ & t' & Ha & Hw' & Hn & Hs & Hl).
  exists t'. split; [exact Ha|]. split; [exact Hn|]. split; [exact Hs|].
  assert (Hfc : it_free_idx t' = it_free_idx t ∧ it_client t' = it_client t).
  { unfold indexed_table_alloc, indexed_table_free in Ha. cbv zeta in Ha.
    cbn [it_size it_nelems it_next it_client it_free_idx it_live_elems] in Ha.
    destruct (0 <=? i) eqn:E; [|apply Z.leb_gt in E; lia].
    repeat (rewrite bind_Ok_l in Ha; cbv beta iota in Ha).
    cbn [it_size it_nelems it_next it_client it_free_idx it_live_elems] in Ha.
    injection Ha as <-. simpl. rewrite fn_lookup_insert. auto. }
  split; [exact (proj1 Hfc)|]. split; [rewrite Hl, Hcount; lia|].
  split; [exact (proj2 Hfc)|].
  intros j. rewrite (it_live_iff t' l j Hw'), (it_live_iff t l j Hw), Hn.
  simpl. tauto.
Qed.

(** X25.  [live_elems] counts the allocated slots.  In a table obtained
    from [indexed_table_init] by allocating, freeing allocated slots and
    clearing, [nelems <= size <= MAX_ELEMS], and the allocated slots are a
    duplicate-free list of [live_elems] indices below [nelems]; after
    [indexed_table_init] and after [indexed_table_clear] no slot is
    allocated. *)
Theorem indexed_table_live_elems {C} (hook : indexed_table C → C) t :
  it_reachable hook t →
  0 ≤ it_nelems t ≤ it_size t ∧ it_size t ≤ MAX_ELEMS
  ∧ (∃ ls, NoDup ls ∧ (∀ j, j ∈ ls ↔ it_live t j)
           ∧ it_live_elems t = Z.of_nat (length ls))
  ∧ (∀ j, ¬ it_live (indexed_table_clear t) j)
  ∧ it_live_elems (indexed_table_clear t) = 0.
Proof.
  intros Hr. destruct (it_reachable_wf hook t Hr) as [l Hw].
  destruct (itw_size t l Hw) as [[Hn0 Hns] Hsm].
  split; [lia|]. split; [exact Hsm|]. split.
  - assert (Hsub : l ⊆+ seqZ 0 (it_nelems t)).
    { apply NoDup_submseteq; [exact (itw_nodup t l Hw)|].
      intros x Hx. apply elem_of_seqZ. pose proof (itw_range t l Hw x Hx). lia. }
    apply submseteq_Permutation in Hsub as [ls Hp].
    assert (Hnd : NoDup (l ++ ls)).
    { rewrite <- Hp. apply NoDup_seqZ. }
    apply NoDup_app in Hnd as (_ & Hdis & Hndls).
    exists ls. split; [exact Hndls|]. split.
    + intros j. rewrite (it_live_iff t l j Hw). split.
      * intros Hj. split.
        -- assert (Hin : j ∈ seqZ 0 (it_nelems t)).
           { rewrite Hp. apply elem_of_app. right. exact Hj. }
           apply elem_of_seqZ in Hin. lia.
        -- intros Hjl. exact (Hdis j Hjl Hj).
      * intros [Hrj Hjl].
        assert (Hin : j ∈ l ++ ls).
        { rewrite <- Hp. apply elem_of_seqZ. lia. }
        apply elem_of_app in Hin as [?|?]; [contradiction|assumption].
    + rewrite (itw_count t l Hw).
      apply Permutation_length in Hp. rewrite length_seqZ, length_app in Hp. lia.
  - split; [|reflexivity]. intros j [Hj _]. simpl in Hj. lia.
Qed.

End TypeTable.

(** * Concrete tables

    The ceiling used for the examples; any value that fits 31 bits would
    do. *)
Definition example_max_types : Z := 536870911.

Lemma example_max_types_bound : example_max_types ≤ 2 ^ 31.
Proof. unfold example_max_types. lia. Qed.

Definition no_table : type_table :=
  mk_table (λ _, UNUSED_TYPE) (λ _, desc_null) (λ _, 0) (λ _, 0) (λ _, None)
    (λ _, false) 0 0 NULL_TYPE [] [] None None.

(** The table reached by a script of calls from [init_type_table(10)]. *)
Definition table_after (cs : list call) : type_table :=
  default no_table (script example_max_types 10 cs).

(** bitvector(5) is type 3 and [bitvector(5) -> bool] is type 4. *)
Definition card_script : list call :=
  [Bv_type 5; Function_type bool_id [3]].

(** (bool) is type 3, (int) is type 4, and their supertype is asked for. *)
Definition cache_script : list call :=
  [Tuple_type [bool_id]; Tuple_type [int_id]; Super_type 2 3 4].

Definition example_function : type_table * Z :=
  match new_function_type example_max_types (table_after [])
          [bool_id; bool_id] bool_id with
  | Ok p => p
  | _ => (no_table, NULL_TYPE)
  end.

(** The scalar type of size 2 created in a fresh table. *)
Definition example_scalar : type_table * Z :=
  match new_scalar_type example_max_types (table_after []) 2 with
  | Ok p => p
  | _ => (no_table, NULL_TYPE)
  end.

Definition example_collected : type_table :=
  match type_table_gc 10 (table_after card_script) with
  | Ok t => t
  | _ => no_table
  end.

Lemma table_after_reachable cs :
  script example_max_types 10 cs = Some (table_after cs) →
  reachable example_max_types (table_after cs).
Proof. apply script_reachable. Qed.

(** C4.  The cardinality stored for [bitvector(5) -> bool] in a fresh
    table.  The domain has cardinality 32, so [fun_type_card] takes the
    branch [power = UINT32_MAX+1], which is 0 in 32-bit unsigned arithmetic:
    the type gets cardinality 0 and keeps [SMALL_TYPE_FLAGS], where the
    comment of [fun_type_card] and the assertion [0 < card] of
    [new_function_type] ask for a value above [UINT32_MAX], stored as
    [UINT32_MAX] with [LARGE_TYPE_FLAGS].  Below 32 the power is computed as
    claimed: [(bool, bool) -> bool] has cardinality 16 and
    [SMALL_TYPE_FLAGS]. *)
Theorem fun_type_card_wraps :
  (t ← init_type_table example_max_types 10;
   '(t, b) ← bv_type example_max_types t 5;
   '(t, f) ← function_type example_max_types t bool_id [b];
   '(t, g) ← function_type example_max_types t bool_id [bool_id; bool_id];
   Ok (type_card t b, type_card_product t [b], fun_type_card t [b] bool_id,
       type_card t f, type_flags t f, type_card t g, type_flags t g))
  = Ok (32, 32, 0, 0, SMALL_TYPE_FLAGS, 16, SMALL_TYPE_FLAGS).
Proof. vm_compute. reflexivity. Qed.

(** C5.  The cardinality stored for the tuple [(int, bitvector(5) -> bool)].
    The function type has the stored cardinality 0 of C4, so the product of
    the stored cardinalities of the elements is 0, and so is its minimum
    with [UINT32_MAX]; [new_tuple_type] stores [UINT32_MAX].  The flags are
    the conjunction of the flags of the elements. *)
Theorem tuple_card_after_wrap :
  (t ← init_type_table example_max_types 10;
   '(t, b) ← bv_type example_max_types t 5;
   '(t, f) ← function_type example_max_types t bool_id [b];
   '(t, p) ← tuple_type example_max_types t [int_id; f];
   Ok (type_card t int_id, type_card t f,
       Z.min (type_card t int_id * type_card t f) UINT32_MAX,
       type_card t p,
       type_flags t p, Z.land (type_flags t int_id) (type_flags t f)))
  = Ok (UINT32_MAX, 0, 0, UINT32_MAX, 16, 16).
Proof. vm_compute. reflexivity. Qed.

(** C6, as stated, fails: after [super_type] has found the tuples (bool)
    and (int) incompatible, the sup cache maps the pair (3, 4) to
    [NULL_TYPE], which is not a live type id. *)
Lemma cache_value_not_live :
  ¬ ∀ t op h k0 k1 v,
      reachable example_max_types t →
      cache_of op t = Some h → h !! (k0, k1) = Some v →
      k0 < k1 ∧ good t k0 ∧ good t k1 ∧ good t v.
Proof.
  intros H.
  assert (Hr : reachable example_max_types (table_after cache_script)).
  { apply table_after_reachable. vm_compute. reflexivity. }
  destruct (H (table_after cache_script) Sup
              (default ∅ (sup_tbl (table_after cache_script))) 3 4 NULL_TYPE Hr)
    as (_ & _ & _ & [Hneg _] & _).
  - vm_compute. reflexivity.
  - vm_compute. reflexivity.
  - unfold NULL_TYPE in Hneg. lia.
Qed.

(** ** Instances *)

Lemma hash_cons_uniqueness_witness :
  reachable example_max_types (table_after card_script)
  ∧ ∀ i j,
      good (table_after card_script) i → good (table_after card_script) j →
      hash_consed (kind (table_after card_script) i) = true →
      kind (table_after card_script) i = kind (table_after card_script) j →
      desc (table_after card_script) i = desc (table_after card_script) j →
      i = j.
Proof.
  assert (Hr : reachable example_max_types (table_after card_script)).
  { apply table_after_reachable. vm_compute. reflexivity. }
  split; [exact Hr|].
  exact (proj1 (hash_cons_uniqueness example_max_types example_max_types_bound
                  (table_after card_script) Hr)).
Defined.

Lemma gc_soundness_witness :
  reachable example_max_types (table_after card_script)
  ∧ ∃ fuel t', type_table_gc fuel (table_after card_script) = Ok t'.
Proof.
  assert (Hr : reachable example_max_types (table_after card_script)).
  { apply table_after_reachable. vm_compute. reflexivity. }
  split; [exact Hr|].
  exact (proj1 (gc_soundness example_max_types example_max_types_bound
                  (table_after card_script) Hr)).
Defined.

Lemma function_type_flags_witness :
  reachable example_max_types (table_after [])
  ∧ good (table_after []) bool_id
  ∧ Forall (good (table_after [])) [bool_id; bool_id]
  ∧ new_function_type example_max_types (table_after [])
      [bool_id; bool_id] bool_id
    = Ok (example_function.1, example_function.2)
  ∧ is_finite_type example_function.1 example_function.2
    = is_unit_type (table_after []) bool_id
      || (is_finite_type (table_after []) bool_id
          && forallb (is_finite_type (table_after [])) [bool_id; bool_id]).
Proof.
  assert (Hr : reachable example_max_types (table_after [])).
  { apply table_after_reachable. vm_compute. reflexivity. }
  assert (Hg : good (table_after []) bool_id).
  { apply good_type_spec. vm_compute. reflexivity. }
  assert (He : Forall (good (table_after [])) [bool_id; bool_id]).
  { constructor; [exact Hg|]. constructor; [exact Hg|]. constructor. }
  assert (Hn : new_function_type example_max_types (table_after [])
                 [bool_id; bool_id] bool_id
               = Ok (example_function.1, example_function.2)).
  { vm_compute. reflexivity. }
  split; [exact Hr|]. split; [exact Hg|]. split; [exact He|]. split; [exact Hn|].
  apply (function_type_flags example_max_types example_max_types_bound
           (table_after []) [bool_id; bool_id] bool_id
           example_function.1 example_function.2 Hr Hg He Hn).
Defined.

Lemma cache_entries_witness :
  reachable example_max_types (table_after cache_script)
  ∧ cache_of Sup (table_after cache_script)
    = Some (default ∅ (sup_tbl (table_after cache_script)))
  ∧ default ∅ (sup_tbl (table_after cache_script)) !! (3, 4) = Some NULL_TYPE
  ∧ (3 < 4 ∧ good (table_after cache_script) 3
     ∧ good (table_after cache_script) 4
     ∧ (NULL_TYPE = NULL_TYPE ∨ good (table_after cache_script) NULL_TYPE)).
Proof.
  assert (Hr : reachable example_max_types (table_after cache_script)).
  { apply table_after_reachable. vm_compute. reflexivity. }
  assert (Hc : cache_of Sup (table_after cache_script)
               = Some (default ∅ (sup_tbl (table_after cache_script)))).
  { vm_compute. reflexivity. }
  assert (Hl : default ∅ (sup_tbl (table_after cache_script)) !! (3, 4)
               = Some NULL_TYPE).
  { vm_compute. reflexivity. }
  split; [exact Hr|]. split; [exact Hc|]. split; [exact Hl|].
  apply (cache_entries example_max_types example_max_types_bound
           (table_after cache_script) Sup _ 3 4 NULL_TYPE Hr Hc Hl).
Defined.

Lemma unknown_type_internal_witness :
  reachable example_max_types (table_after cache_script)
  ∧ good (table_after cache_script) 3 ∧ good (table_after cache_script) 4
  ∧ ∃ fuel, super_type example_max_types fuel (table_after cache_script) 3 4
            ≠ OutOfFuel.
Proof.
  assert (Hr : reachable example_max_types (table_after cache_script)).
  { apply table_after_reachable. vm_compute. reflexivity. }
  assert (H3 : good (table_after cache_script) 3).
  { apply good_type_spec. vm_compute. reflexivity. }
  assert (H4 : good (table_after cache_script) 4).
  { apply good_type_spec. vm_compute. reflexivity. }
  split; [exact Hr|]. split; [exact H3|]. split; [exact H4|].
  exact (proj1 (unknown_type_internal example_max_types example_max_types_bound
                  (table_after cache_script) 3 4 Hr H3 H4)).
Defined.

Lemma scalar_types_nominal_witness :
  reachable example_max_types (table_after [])
  ∧ 1 ≤ 2 ≤ UINT32_MAX
  ∧ new_scalar_type example_max_types (table_after []) 2
    = Ok (example_scalar.1, example_scalar.2)
  ∧ ¬ good (table_after []) example_scalar.2
  ∧ good example_scalar.1 example_scalar.2
  ∧ kind example_scalar.1 example_scalar.2 = SCALAR_TYPE
  ∧ type_card example_scalar.1 example_scalar.2 = 2
  ∧ type_flags example_scalar.1 example_scalar.2
    = (if 2 =? 1 then UNIT_TYPE_FLAGS else SMALL_TYPE_FLAGS)
  ∧ ∀ t2 j, new_scalar_type example_max_types example_scalar.1 2 = Ok (t2, j) →
      j ≠ example_scalar.2 ∧ good t2 example_scalar.2 ∧ good t2 j.
Proof.
  assert (Hr : reachable example_max_types (table_after [])).
  { apply table_after_reachable. vm_compute. reflexivity. }
  assert (Hk : 1 ≤ 2 ≤ UINT32_MAX) by (unfold UINT32_MAX; lia).
  assert (Hs : new_scalar_type example_max_types (table_after []) 2
               = Ok (example_scalar.1, example_scalar.2)).
  { vm_compute. reflexivity. }
  split; [exact Hr|]. split; [exact Hk|]. split; [exact Hs|].
  exact (proj1 (proj2 (proj2 (scalar_types_nominal example_max_types
                                example_max_types_bound (table_after []) 2
                                Hr Hk)))
           example_scalar.1 example_scalar.2 Hs).
Defined.

Lemma symbol_table_shadowing_witness :
  get_type_by_name (table_after []) "X" = NULL_TYPE
  ∧ get_type_by_name
      (set_type_name (set_type_name (table_after []) bool_id "X") int_id "X")
      "X" = int_id.
Proof.
  assert (H0 : get_type_by_name (table_after []) "X" = NULL_TYPE).
  { vm_compute. reflexivity. }
  split; [exact H0|].
  exact (proj1 (symbol_table_shadowing (table_after []) bool_id int_id "X" H0)).
Defined.

Lemma gc_frame_witness :
  reachable example_max_types (table_after card_script)
  ∧ type_table_gc 10 (table_after card_script) = Ok example_collected
  ∧ nelems example_collected = nelems (table_after card_script).
Proof.
  assert (Hr : reachable example_max_types (table_after card_script)).
  { apply table_after_reachable. vm_compute. reflexivity. }
  assert (Hg : type_table_gc 10 (table_after card_script) = Ok example_collected).
  { vm_compute. reflexivity. }
  split; [exact Hr|]. split; [exact Hg|].
  exact (proj1 (gc_frame example_max_types example_max_types_bound
                  (table_after card_script) 10 example_collected Hr Hg)).
Defined.

(** ** Instances of the further properties *)

(** (int, real) is type 3 and (real, int) is type 4. *)
Definition lattice_script : list call :=
  [Tuple_type [int_id; real_id]; Tuple_type [real_id; int_id]].

(** (int) is type 3 and (real) is type 4. *)
Definition subtype_script : list call :=
  [Tuple_type [int_id]; Tuple_type [real_id]].

Definition example_sup : type_table * Z :=
  match super_type example_max_types 2 (table_after lattice_script) 3 4 with
  | Ok p => p
  | _ => (no_table, NULL_TYPE)
  end.

Definition example_inf : type_table * Z :=
  match inf_type example_max_types 2 (table_after lattice_script) 3 4 with
  | Ok p => p
  | _ => (no_table, NULL_TYPE)
  end.

Definition example_is_subtype : type_table * bool :=
  match is_subtype example_max_types 2 (table_after subtype_script) 3 4 with
  | Ok p => p
  | _ => (no_table, false)
  end.

Definition example_compatible : type_table * bool :=
  match compatible_types example_max_types 2 (table_after subtype_script) 3 4 with
  | Ok p => p
  | _ => (no_table, false)
  end.

Definition example_function_type : type_table * Z :=
  match function_type example_max_types (table_after []) bool_id
          [bool_id; bool_id] with
  | Ok p => p
  | _ => (no_table, NULL_TYPE)
  end.

Definition example_collected_twice : type_table :=
  match type_table_gc 10 example_collected with
  | Ok t => t
  | _ => no_table
  end.

Lemma init_type_table_outcome_witness :
  0 ≤ 10
  ∧ (init_size 10 < example_max_types →
     ∃ t, init_type_table example_max_types 10 = Ok t
          ∧ size t = init_size 10 ∧ initial_table t).
Proof.
  assert (H0 : 0 ≤ 10) by lia.
  split; [exact H0|].
  exact (proj2 (init_type_table_outcome example_max_types example_max_types_bound
                  10 H0)).
Defined.

Lemma new_type_allocation_witness :
  reachable example_max_types (table_after [])
  ∧ (new_uninterpreted_type example_max_types (table_after []) = OutOfMemory
     ↔ free_idx (table_after []) < 0
       ∧ nelems (table_after []) = size (table_after [])
       ∧ example_max_types ≤ extended_size (table_after [])).
Proof.
  assert (Hr : reachable example_max_types (table_after [])).
  { apply table_after_reachable. vm_compute. reflexivity. }
  split; [exact Hr|].
  exact (proj1 (new_type_allocation example_max_types example_max_types_bound
                  (table_after []) 1 Hr)).
Defined.

Lemma name_lookup_witness :
  reachable example_max_types (table_after [Set_type_name bool_id "b"])
  ∧ (get_type_by_name (table_after [Set_type_name bool_id "b"]) "b" = NULL_TYPE
     ↔ ∀ i, ("b"%string, i) ∉ stbl (table_after [Set_type_name bool_id "b"])).
Proof.
  assert (Hr : reachable example_max_types
                 (table_after [Set_type_name bool_id "b"])).
  { apply table_after_reachable. vm_compute. reflexivity. }
  split; [exact Hr|].
  exact (proj1 (name_lookup example_max_types example_max_types_bound
                  (table_after [Set_type_name bool_id "b"]) "b" Hr)).
Defined.

Lemma lattice_results_memoised_witness :
  reachable example_max_types (table_after lattice_script)
  ∧ good (table_after lattice_script) 3 ∧ good (table_after lattice_script) 4
  ∧ (super_type example_max_types 2 (table_after lattice_script) 3 4
     = Ok (example_sup.1, example_sup.2) →
     ∀ fuel',
       super_type example_max_types (S fuel') example_sup.1 3 4
       = Ok (example_sup.1, example_sup.2)
       ∧ super_type example_max_types (S fuel') example_sup.1 4 3
         = Ok (example_sup.1, example_sup.2)).
Proof.
  assert (Hr : reachable example_max_types (table_after lattice_script)).
  { apply table_after_reachable. vm_compute. reflexivity. }
  assert (H3 : good (table_after lattice_script) 3).
  { apply good_type_spec. vm_compute. reflexivity. }
  assert (H4 : good (table_after lattice_script) 4).
  { apply good_type_spec. vm_compute. reflexivity. }
  split; [exact Hr|]. split; [exact H3|]. split; [exact H4|].
  exact (proj1 (lattice_results_memoised example_max_types example_max_types_bound
                  (table_after lattice_script) 3 4 2
                  example_sup.1 example_sup.2 Hr H3 H4)).
Defined.

Lemma stored_cardinality_and_flags_witness :
  reachable example_max_types (table_after card_script)
  ∧ good (table_after card_script) 4
  ∧ slot_ok (table_after card_script) 4.
Proof.
  assert (Hr : reachable example_max_types (table_after card_script)).
  { apply table_after_reachable. vm_compute. reflexivity. }
  assert (H4 : good (table_after card_script) 4).
  { apply good_type_spec. vm_compute. reflexivity. }
  split; [exact Hr|]. split; [exact H4|].
  exact (stored_cardinality_and_flags example_max_types example_max_types_bound
           (table_after card_script) 4 Hr H4).
Defined.

Lemma bv_type_cardinality_witness :
  reachable example_max_types (table_after [])
  ∧ 0 < 5 ≤ UINT32_MAX
  ∧ bv_type example_max_types (table_after []) 5
    = Ok (table_after [Bv_type 5], 3)
  ∧ good (table_after [Bv_type 5]) 3.
Proof.
  assert (Hr : reachable example_max_types (table_after [])).
  { apply table_after_reachable. vm_compute. reflexivity. }
  assert (Hk : 0 < 5 ≤ UINT32_MAX) by (unfold UINT32_MAX; lia).
  assert (Hb : bv_type example_max_types (table_after []) 5
               = Ok (table_after [Bv_type 5], 3)).
  { vm_compute. reflexivity. }
  split; [exact Hr|]. split; [exact Hk|]. split; [exact Hb|].
  exact (proj1 (bv_type_cardinality example_max_types example_max_types_bound
                  (table_after []) 5 (table_after [Bv_type 5]) 3 Hr Hk Hb)).
Defined.

Lemma cardinality_agrees_with_flags_witness :
  reachable example_max_types (table_after card_script)
  ∧ good (table_after card_script) 4
  ∧ 0 ≤ type_card (table_after card_script) 4 ≤ UINT32_MAX.
Proof.
  assert (Hr : reachable example_max_types (table_after card_script)).
  { apply table_after_reachable. vm_compute. reflexivity. }
  assert (H4 : good (table_after card_script) 4).
  { apply good_type_spec. vm_compute. reflexivity. }
  split; [exact Hr|]. split; [exact H4|].
  exact (proj1 (cardinality_agrees_with_flags example_max_types
                  example_max_types_bound (table_after card_script) 4 Hr H4)).
Defined.

Lemma card_of_type_product_is_tuple_card_witness :
  reachable example_max_types (table_after [])
  ∧ Forall (good (table_after [])) [bool_id; bool_id]
  ∧ Forall (λ x, type_card (table_after []) x ≠ 0) [bool_id; bool_id]
  ∧ card_of_type_product (table_after []) [bool_id; bool_id]
    = Z.min (card_product (table_after []) [bool_id; bool_id]) UINT32_MAX.
Proof.
  assert (Hr : reachable example_max_types (table_after [])).
  { apply table_after_reachable. vm_compute. reflexivity. }
  assert (Hg : good (table_after []) bool_id).
  { apply good_type_spec. vm_compute. reflexivity. }
  assert (He : Forall (good (table_after [])) [bool_id; bool_id]).
  { constructor; [exact Hg|]. constructor; [exact Hg|]. constructor. }
  assert (Hc : type_card (table_after []) bool_id ≠ 0).
  { vm_compute. discriminate. }
  assert (Hz : Forall (λ x, type_card (table_after []) x ≠ 0) [bool_id; bool_id]).
  { constructor; [exact Hc|]. constructor; [exact Hc|]. constructor. }
  split; [exact Hr|]. split; [exact He|]. split; [exact Hz|].
  exact (proj1 (card_of_type_product_is_tuple_card example_max_types
                  example_max_types_bound (table_after []) [bool_id; bool_id]
                  Hr He Hz)).
Defined.

Lemma function_type_queries_witness :
  reachable example_max_types (table_after card_script)
  ∧ good (table_after card_script) 4
  ∧ kind (table_after card_script) 4 = FUNCTION_TYPE
  ∧ good (table_after card_script)
      (function_type_range (table_after card_script) 4).
Proof.
  assert (Hr : reachable example_max_types (table_after card_script)).
  { apply table_after_reachable. vm_compute. reflexivity. }
  assert (H4 : good (table_after card_script) 4).
  { apply good_type_spec. vm_compute. reflexivity. }
  assert (Hk : kind (table_after card_script) 4 = FUNCTION_TYPE).
  { vm_compute. reflexivity. }
  split; [exact Hr|]. split; [exact H4|]. split; [exact Hk|].
  exact (proj1 (function_type_queries example_max_types example_max_types_bound
                  (table_after card_script) 4 Hr H4 Hk)).
Defined.

Lemma live_types_are_stable_witness :
  reachable example_max_types (table_after [])
  ∧ pre (table_after []) (Bv_type 5)
  ∧ run example_max_types (Bv_type 5) (table_after [])
    = Ok (table_after [Bv_type 5], 3)
  ∧ (good (table_after []) bool_id → is_gc (Bv_type 5) = false →
     good (table_after [Bv_type 5]) bool_id).
Proof.
  assert (Hr : reachable example_max_types (table_after [])).
  { apply table_after_reachable. vm_compute. reflexivity. }
  assert (Hp : pre (table_after []) (Bv_type 5)).
  { simpl. unfold UINT32_MAX. lia. }
  assert (Hb : run example_max_types (Bv_type 5) (table_after [])
               = Ok (table_after [Bv_type 5], 3)).
  { vm_compute. reflexivity. }
  split; [exact Hr|]. split; [exact Hp|]. split; [exact Hb|].
  exact (proj1 (live_types_are_stable example_max_types example_max_types_bound
                  (table_after []) (Bv_type 5) (table_after [Bv_type 5]) 3
                  bool_id Hr Hp Hb)).
Defined.

Lemma gc_keeps_exactly_the_reachable_witness :
  reachable example_max_types (table_after card_script)
  ∧ type_table_gc 10 (table_after card_script) = Ok example_collected
  ∧ ∀ j, good example_collected j
         ↔ ∃ i, gc_root (table_after card_script) i
                ∧ reaches (table_after card_script) i j.
Proof.
  assert (Hr : reachable example_max_types (table_after card_script)).
  { apply table_after_reachable. vm_compute. reflexivity. }
  assert (Hg : type_table_gc 10 (table_after card_script) = Ok example_collected).
  { vm_compute. reflexivity. }
  split; [exact Hr|]. split; [exact Hg|].
  exact (proj1 (gc_keeps_exactly_the_reachable example_max_types
                  example_max_types_bound (table_after card_script) 10
                  example_collected Hr Hg)).
Defined.

Lemma marks_last_one_collection_witness :
  reachable example_max_types (table_after card_script)
  ∧ type_table_gc 10 (table_after card_script) = Ok example_collected
  ∧ type_table_gc 10 example_collected = Ok example_collected_twice
  ∧ ∀ j, good example_collected_twice j
         ↔ ∃ i, named_root (table_after card_script) i
                ∧ reaches (table_after card_script) i j.
Proof.
  assert (Hr : reachable example_max_types (table_after card_script)).
  { apply table_after_reachable. vm_compute. reflexivity. }
  assert (Hg : type_table_gc 10 (table_after card_script) = Ok example_collected).
  { vm_compute. reflexivity. }
  assert (Hg' : type_table_gc 10 example_collected = Ok example_collected_twice).
  { vm_compute. reflexivity. }
  split; [exact Hr|]. split; [exact Hg|]. split; [exact Hg'|].
  exact (marks_last_one_collection example_max_types example_max_types_bound
           (table_after card_script) 10 example_collected 10
           example_collected_twice Hr Hg Hg').
Defined.

Lemma function_type_cardinality_witness :
  reachable example_max_types (table_after [])
  ∧ good (table_after []) bool_id
  ∧ Forall (good (table_after [])) [bool_id; bool_id]
  ∧ [bool_id; bool_id] ≠ []
  ∧ type_card (table_after []) bool_id ≠ 0
  ∧ Forall (λ x, type_card (table_after []) x ≠ 0) [bool_id; bool_id]
  ∧ function_type example_max_types (table_after []) bool_id [bool_id; bool_id]
    = Ok (example_function_type.1, example_function_type.2)
  ∧ type_card example_function_type.1 example_function_type.2
    = if is_unit_type (table_after []) bool_id then 1
      else if type_has_exact_card (table_after []) bool_id
              && forallb (type_has_exact_card (table_after [])) [bool_id; bool_id]
      then
        if 32 <=? card_product (table_after []) [bool_id; bool_id] then 0
        else Z.min (type_card (table_after []) bool_id
                    ^ card_product (table_after []) [bool_id; bool_id]) UINT32_MAX
      else UINT32_MAX.
Proof.
  assert (Hr : reachable example_max_types (table_after [])).
  { apply table_after_reachable. vm_compute. reflexivity. }
  assert (Hg : good (table_after []) bool_id).
  { apply good_type_spec. vm_compute. reflexivity. }
  assert (He : Forall (good (table_after [])) [bool_id; bool_id]).
  { constructor; [exact Hg|]. constructor; [exact Hg|]. constructor. }
  assert (Hne : [bool_id; bool_id] ≠ []) by discriminate.
  assert (Hc : type_card (table_after []) bool_id ≠ 0).
  { vm_compute. discriminate. }
  assert (Hz : Forall (λ x, type_card (table_after []) x ≠ 0) [bool_id; bool_id]).
  { constructor; [exact Hc|]. constructor; [exact Hc|]. constructor. }
  assert (Hf : function_type example_max_types (table_after []) bool_id
                 [bool_id; bool_id]
               = Ok (example_function_type.1, example_function_type.2)).
  { vm_compute. reflexivity. }
  split; [exact Hr|]. split; [exact Hg|]. split; [exact He|]. split; [exact Hne|].
  split; [exact Hc|]. split; [exact Hz|]. split; [exact Hf|].
  exact (function_type_cardinality example_max_types example_max_types_bound
           (table_after []) bool_id [bool_id; bool_id]
           example_function_type.1 example_function_type.2
           Hr Hg He Hne Hc Hz Hf).
Defined.

Lemma super_type_least_upper_bound_witness :
  reachable example_max_types (table_after lattice_script)
  ∧ good (table_after lattice_script) 3 ∧ good (table_after lattice_script) 4
  ∧ super_type example_max_types 2 (table_after lattice_script) 3 4
    = Ok (example_sup.1, example_sup.2)
  ∧ (example_sup.2 ≠ NULL_TYPE →
     good example_sup.1 example_sup.2
     ∧ subtype example_sup.1 3 example_sup.2
     ∧ subtype example_sup.1 4 example_sup.2
     ∧ ∀ c, subtype example_sup.1 3 c → subtype example_sup.1 4 c →
            subtype example_sup.1 example_sup.2 c).
Proof.
  assert (Hr : reachable example_max_types (table_after lattice_script)).
  { apply table_after_reachable. vm_compute. reflexivity. }
  assert (H3 : good (table_after lattice_script) 3).
  { apply good_type_spec. vm_compute. reflexivity. }
  assert (H4 : good (table_after lattice_script) 4).
  { apply good_type_spec. vm_compute. reflexivity. }
  assert (Hs : super_type example_max_types 2 (table_after lattice_script) 3 4
               = Ok (example_sup.1, example_sup.2)).
  { vm_compute. reflexivity. }
  split; [exact Hr|]. split; [exact H3|]. split; [exact H4|]. split; [exact Hs|].
  exact (proj1 (super_type_least_upper_bound example_max_types
                  example_max_types_bound 2 (table_after lattice_script) 3 4
                  example_sup.1 example_sup.2 Hr H3 H4 Hs)).
Defined.

Lemma inf_type_greatest_lower_bound_witness :
  reachable example_max_types (table_after lattice_script)
  ∧ good (table_after lattice_script) 3 ∧ good (table_after lattice_script) 4
  ∧ inf_type example_max_types 2 (table_after lattice_script) 3 4
    = Ok (example_inf.1, example_inf.2)
  ∧ (example_inf.2 ≠ NULL_TYPE →
     good example_inf.1 example_inf.2
     ∧ subtype example_inf.1 example_inf.2 3
     ∧ subtype example_inf.1 example_inf.2 4
     ∧ ∀ c, subtype example_inf.1 c 3 → subtype example_inf.1 c 4 →
            subtype example_inf.1 c example_inf.2).
Proof.
  assert (Hr : reachable example_max_types (table_after lattice_script)).
  { apply table_after_reachable. vm_compute. reflexivity. }
  assert (H3 : good (table_after lattice_script) 3).
  { apply good_type_spec. vm_compute. reflexivity. }
  assert (H4 : good (table_after lattice_script) 4).
  { apply good_type_spec. vm_compute. reflexivity. }
  assert (Hs : inf_type example_max_types 2 (table_after lattice_script) 3 4
               = Ok (example_inf.1, example_inf.2)).
  { vm_compute. reflexivity. }
  split; [exact Hr|]. split; [exact H3|]. split; [exact H4|]. split; [exact Hs|].
  exact (proj1 (inf_type_greatest_lower_bound example_max_types
                  example_max_types_bound 2 (table_after lattice_script) 3 4
                  example_inf.1 example_inf.2 Hr H3 H4 Hs)).
Defined.

Lemma is_subtype_decides_subtype_witness :
  reachable example_max_types (table_after subtype_script)
  ∧ good (table_after subtype_script) 3 ∧ good (table_after subtype_script) 4
  ∧ is_subtype example_max_types 2 (table_after subtype_script) 3 4
    = Ok (example_is_subtype.1, example_is_subtype.2)
  ∧ (example_is_subtype.2 = true ↔ subtype (table_after subtype_script) 3 4).
Proof.
  assert (Hr : reachable example_max_types (table_after subtype_script)).
  { apply table_after_reachable. vm_compute. reflexivity. }
  assert (H3 : good (table_after subtype_script) 3).
  { apply good_type_spec. vm_compute. reflexivity. }
  assert (H4 : good (table_after subtype_script) 4).
  { apply good_type_spec. vm_compute. reflexivity. }
  assert (Hs : is_subtype example_max_types 2 (table_after subtype_script) 3 4
               = Ok (example_is_subtype.1, example_is_subtype.2)).
  { vm_compute. reflexivity. }
  split; [exact Hr|]. split; [exact H3|]. split; [exact H4|]. split; [exact Hs|].
  exact (is_subtype_decides_subtype example_max_types example_max_types_bound
           2 (table_after subtype_script) 3 4
           example_is_subtype.1 example_is_subtype.2 Hr H3 H4 Hs).
Defined.

Lemma compatible_types_decides_witness :
  reachable example_max_types (table_after subtype_script)
  ∧ good (table_after subtype_script) 3 ∧ good (table_after subtype_script) 4
  ∧ compatible_types example_max_types 2 (table_after subtype_script) 3 4
    = Ok (example_compatible.1, example_compatible.2)
  ∧ (example_compatible.2 = true
     ↔ ∃ c, good example_compatible.1 c
            ∧ subtype example_compatible.1 3 c
            ∧ subtype example_compatible.1 4 c).
Proof.
  assert (Hr : reachable example_max_types (table_after subtype_script)).
  { apply table_after_reachable. vm_compute. reflexivity. }
  assert (H3 : good (table_after subtype_script) 3).
  { apply good_type_spec. vm_compute. reflexivity. }
  assert (H4 : good (table_after subtype_script) 4).
  { apply good_type_spec. vm_compute. reflexivity. }
  assert (Hs : compatible_types example_max_types 2 (table_after subtype_script) 3 4
               = Ok (example_compatible.1, example_compatible.2)).
  { vm_compute. reflexivity. }
  split; [exact Hr|]. split; [exact H3|]. split; [exact H4|]. split; [exact Hs|].
  exact (proj1 (compatible_types_decides example_max_types example_max_types_bound
                  2 (table_after subtype_script) 3 4
                  example_compatible.1 example_compatible.2 Hr H3 H4 Hs)).
Defined.

Lemma is_subtype_transitive_witness :
  reachable example_max_types (table_after subtype_script)
  ∧ good (table_after subtype_script) 3 ∧ good (table_after subtype_script) 4
  ∧ is_subtype example_max_types 2 (table_after subtype_script) 3 4
    = Ok (example_is_subtype.1, true)
  ∧ is_subtype example_max_types 2 example_is_subtype.1 4 4
    = Ok (example_is_subtype.1, true)
  ∧ is_subtype example_max_types 2 example_is_subtype.1 3 4
    = Ok (example_is_subtype.1, example_is_subtype.2)
  ∧ example_is_subtype.2 = true.
Proof.
  assert (Hr : reachable example_max_types (table_after subtype_script)).
  { apply table_after_reachable. vm_compute. reflexivity. }
  assert (H3 : good (table_after subtype_script) 3).
  { apply good_type_spec. vm_compute. reflexivity. }
  assert (H4 : good (table_after subtype_script) 4).
  { apply good_type_spec. vm_compute. reflexivity. }
  assert (Ha : is_subtype example_max_types 2 (table_after subtype_script) 3 4
               = Ok (example_is_subtype.1, true)).
  { vm_compute. reflexivity. }
  assert (Hb : is_subtype example_max_types 2 example_is_subtype.1 4 4
               = Ok (example_is_subtype.1, true)).
  { vm_compute. reflexivity. }
  assert (Hc : is_subtype example_max_types 2 example_is_subtype.1 3 4
               = Ok (example_is_subtype.1, example_is_subtype.2)).
  { vm_compute. reflexivity. }
  split; [exact Hr|]. split; [exact H3|]. split; [exact H4|]. split; [exact Ha|].
  split; [exact Hb|]. split; [exact Hc|].
  exact (is_subtype_transitive example_max_types example_max_types_bound 2 2 2
           (table_after subtype_script) 3 4 4
           example_is_subtype.1 example_is_subtype.1 example_is_subtype.1
           example_is_subtype.2 Hr H3 H4 H4 Ha Hb Hc).
Defined.

Lemma maximal_minimal_flags_sound_witness :
  reachable example_max_types (table_after subtype_script)
  ∧ good (table_after subtype_script) 4 ∧ good (table_after subtype_script) 3
  ∧ (is_maxtype (table_after subtype_script) 4 = true →
     subtype (table_after subtype_script) 4 3 → 3 = 4).
Proof.
  assert (Hr : reachable example_max_types (table_after subtype_script)).
  { apply table_after_reachable. vm_compute. reflexivity. }
  assert (H3 : good (table_after subtype_script) 3).
  { apply good_type_spec. vm_compute. reflexivity. }
  assert (H4 : good (table_after subtype_script) 4).
  { apply good_type_spec. vm_compute. reflexivity. }
  split; [exact Hr|]. split; [exact H4|]. split; [exact H3|].
  exact (proj1 (maximal_minimal_flags_sound example_max_types
                  example_max_types_bound (table_after subtype_script) 4 3
                  Hr H4 H3)).
Defined.

Lemma is_subtype_reflexive_antisymmetric_witness :
  reachable example_max_types (table_after subtype_script)
  ∧ good (table_after subtype_script) 3 ∧ good (table_after subtype_script) 4
  ∧ is_subtype example_max_types 1 (table_after subtype_script) 3 3
    = Ok (table_after subtype_script, true).
Proof.
  assert (Hr : reachable example_max_types (table_after subtype_script)).
  { apply table_after_reachable. vm_compute. reflexivity. }
  assert (H3 : good (table_after subtype_script) 3).
  { apply good_type_spec. vm_compute. reflexivity. }
  assert (H4 : good (table_after subtype_script) 4).
  { apply good_type_spec. vm_compute. reflexivity. }
  split; [exact Hr|]. split; [exact H3|]. split; [exact H4|].
  exact (proj1 (is_subtype_reflexive_antisymmetric example_max_types
                  example_max_types_bound 0 (table_after subtype_script) 3 4
                  (table_after subtype_script) 0 (table_after subtype_script)
                  Hr H3 H4)).
Defined.

(** The second calls of the absorption laws, on the table left by the
    first: the supertype and the common subtype of (int, real) with the
    supertype (real, real) of (int, real) and (real, int). *)
Definition example_sup_again : type_table * Z :=
  match super_type example_max_types 2 example_sup.1 3 example_sup.2 with
  | Ok p => p
  | _ => (no_table, NULL_TYPE)
  end.

Definition example_inf_again : type_table * Z :=
  match inf_type example_max_types 2 example_sup.1 3 example_sup.2 with
  | Ok p => p
  | _ => (no_table, NULL_TYPE)
  end.

Lemma lattice_absorption_witness :
  reachable example_max_types (table_after lattice_script)
  ∧ good (table_after lattice_script) 3 ∧ good (table_after lattice_script) 4
  ∧ example_sup.2 ≠ NULL_TYPE
  ∧ super_type example_max_types 2 (table_after lattice_script) 3 4
    = Ok (example_sup.1, example_sup.2)
  ∧ super_type example_max_types 2 example_sup.1 3 example_sup.2
    = Ok (example_sup_again.1, example_sup_again.2)
  ∧ inf_type example_max_types 2 example_sup.1 3 example_sup.2
    = Ok (example_inf_again.1, example_inf_again.2)
  ∧ example_sup_again.2 = example_sup.2
  ∧ example_inf_again.2 = 3.
Proof.
  assert (Hr : reachable example_max_types (table_after lattice_script)).
  { apply table_after_reachable. vm_compute. reflexivity. }
  assert (H3 : good (table_after lattice_script) 3).
  { apply good_type_spec. vm_compute. reflexivity. }
  assert (H4 : good (table_after lattice_script) 4).
  { apply good_type_spec. vm_compute. reflexivity. }
  assert (Hn : example_sup.2 ≠ NULL_TYPE).
  { vm_compute. discriminate. }
  assert (Hs : super_type example_max_types 2 (table_after lattice_script) 3 4
               = Ok (example_sup.1, example_sup.2)).
  { vm_compute. reflexivity. }
  assert (Hs2 : super_type example_max_types 2 example_sup.1 3 example_sup.2
                = Ok (example_sup_again.1, example_sup_again.2)).
  { vm_compute. reflexivity. }
  assert (Hi2 : inf_type example_max_types 2 example_sup.1 3 example_sup.2
                = Ok (example_inf_again.1, example_inf_again.2)).
  { vm_compute. reflexivity. }
  split; [exact Hr|]. split; [exact H3|]. split; [exact H4|]. split; [exact Hn|].
  split; [exact Hs|]. split; [exact Hs2|]. split; [exact Hi2|].
  pose proof (proj1 (lattice_absorption example_max_types example_max_types_bound
                       2 (table_after lattice_script) 3 4
                       example_sup.1 example_sup.2 Hr H3 H4 Hn) Hs) as Habs.
  split.
  - exact (proj1 Habs 2%nat example_sup_again.1 example_sup_again.2 Hs2).
  - exact (proj2 Habs 2%nat example_inf_again.1 example_inf_again.2 Hi2).
Defined.

(** A table of two slots whose client keeps nothing, and the same table
    after one allocation. *)
Definition example_hook : indexed_table unit → unit := λ _, tt.

Definition no_slots : indexed_table unit :=
  mk_indexed_table (λ _, 0) tt 0 0 (-1) 0.

Definition example_slots : indexed_table unit :=
  match indexed_table_init example_max_types (λ _, 0) tt 2 with
  | Ok t => t
  | _ => no_slots
  end.

Definition example_slot : indexed_table unit * Z :=
  match indexed_table_alloc example_max_types example_hook example_slots with
  | Ok p => p
  | _ => (no_slots, -1)
  end.

Lemma indexed_table_alloc_outcome_witness :
  it_reachable example_max_types example_hook example_slots
  ∧ (indexed_table_alloc example_max_types example_hook example_slots
     = OutOfMemory
     ↔ it_free_idx example_slots < 0
       ∧ it_nelems example_slots = it_size example_slots
       ∧ MAX_ELEMS example_max_types < it_extended_size example_slots).
Proof.
  assert (Hr0 : it_reachable example_max_types example_hook example_slots).
  { apply (it_reachable_init example_max_types example_hook (λ _, 0) tt 2).
    - unfold UINT32_MAX. lia.
    - vm_compute. reflexivity. }
  split; [exact Hr0|].
  exact (proj1 (indexed_table_alloc_outcome example_max_types
                  example_max_types_bound example_hook example_slots Hr0)).
Defined.

Lemma indexed_table_free_alloc_witness :
  it_reachable example_max_types example_hook example_slot.1
  ∧ it_live example_slot.1 0
  ∧ ¬ it_live (indexed_table_free example_slot.1 0) 0.
Proof.
  assert (Hr0 : it_reachable example_max_types example_hook example_slots).
  { apply (it_reachable_init example_max_types example_hook (λ _, 0) tt 2).
    - unfold UINT32_MAX. lia.
    - vm_compute. reflexivity. }
  assert (Hr : it_reachable example_max_types example_hook example_slot.1).
  { apply (it_reachable_alloc example_max_types example_hook example_slots
             example_slot.1 example_slot.2 Hr0).
    vm_compute. reflexivity. }
  assert (Hl : it_live example_slot.1 0).
  { split; [vm_compute; split; [discriminate|reflexivity]|].
    intros l Hc.
    assert (Hf : it_free_idx example_slot.1 = -1) by (vm_compute; reflexivity).
    rewrite Hf in Hc. destruct l as [|x l]; [apply not_elem_of_nil|].
    simpl in Hc. lia. }
  split; [exact Hr|]. split; [exact Hl|].
  exact (proj1 (indexed_table_free_alloc example_max_types
                  example_max_types_bound example_hook example_slot.1 0
                  Hr Hl)).
Defined.

Lemma indexed_table_live_elems_witness :
  it_reachable example_max_types example_hook example_slot.1
  ∧ 0 ≤ it_nelems example_slot.1 ≤ it_size example_slot.1.
Proof.
  assert (Hr0 : it_reachable example_max_types example_hook example_slots).
  { apply (it_reachable_init example_max_types example_hook (λ _, 0) tt 2).
    - unfold UINT32_MAX. lia.
    - vm_compute. reflexivity. }
  assert (Hr : it_reachable example_max_types example_hook example_slot.1).
  { apply (it_reachable_alloc example_max_types example_hook example_slots
             example_slot.1 example_slot.2 Hr0).
    vm_compute. reflexivity. }
  split; [exact Hr|].
  exact (proj1 (indexed_table_live_elems example_max_types
                  example_max_types_bound example_hook example_slot.1 Hr)).
Defined.
